(** * Night Shift: frame differencing, blob detection and trail tracking

    A shallow embedding of [sketch.js] (both variants found in the
    repository: the pixel-grid sketch and the cell-grid "Night Shift"
    sketch) together with the properties stated for it.

    Numbers.  JavaScript numbers are IEEE 754 binary64 values.  Where a
    property turns on their rounding - the byte stored in the difference
    image, the comparison of distances in the matching pass - the code is
    embedded over binary64 ([Double], [Tracker64]), every operation
    rounded as the program rounds it.  Elsewhere numbers are exact
    rationals ([Q]), the arithmetic the program approximates, and
    [Math.sqrt] is kept symbolic (type [Num] below), which is exact for
    every comparison made on it.  Pixel channels and ages are integers
    ([Z]).

    Objects.  [motionTrails] is a JavaScript object with non-numeric
    string keys: [for (id in motionTrails)] enumerates it in insertion
    order, so it is an association list.  [matchedTrailIds] is a set that
    is only tested for membership.

    Environment.  [Date.now()] and [Math.random()] are inputs of the
    tick ([Entropy]); a [TypeError] is the result [None].

    Loops.  The [while] loop of the flood fill takes a bound on its
    rounds; [PixelGrid_discovered_fuel] and [CellGrid_discovered_fuel]
    show that the bound used is never reached.

    Rendering.  [drawTrails] and [drawBlobs] are the lists of the lines
    and dots they draw; the colour channel computed from a speed is kept
    symbolic ([Shade]), like the square root it depends on. *)

From Stdlib Require Import Ascii String DecimalString.
From Stdlib Require DecimalN DecimalPos.
From Stdlib Require Import Bool Arith ZArith QArith Qround Qpower Lia Lqa List.
From Stdlib Require Import Permutation Sorted.
From Stdlib Require Import Floats.SpecFloat.
Import ListNotations.

Set Implicit Arguments.

(** ** Numbers *)

Definition Qltb (a b : Q) : bool := negb (Qle_bool b a).

(** A JavaScript number of the tracker: a rational, or the square root of
    a non-negative rational. *)
Inductive Num : Type :=
| Rat (q : Q)
| Sqrt (radicand : Q).

(** [Math.sqrt] on the rationals (only ever applied to a sum of squares). *)
Definition Math_sqrt (q : Q) : Num := Sqrt q.

(** The order [a < b] of the numbers denoted, radicands being
    non-negative. *)
Definition Num_ltb (a b : Num) : bool :=
  match a, b with
  | Rat p, Rat q => Qltb p q
  | Rat p, Sqrt b' => Qltb p 0 || Qltb (p * p) b'
  | Sqrt a', Rat q => Qltb 0 q && Qltb a' (q * q)
  | Sqrt a', Sqrt b' => Qltb a' b'
  end.

Definition Num_lt (a b : Num) : Prop := Num_ltb a b = true.
Definition Num_le (a b : Num) : Prop := Num_ltb b a = false.


(** ** Binary64

    The numbers of JavaScript are IEEE 754 binary64 values; each
    arithmetic operation rounds its exact result to the nearest of them,
    ties to even.  Where a property turns on that rounding - the byte
    stored in the difference image, the test [distance < bestDistance] of
    the matching pass - the code is embedded over these values. *)

Module Double.

Definition t : Type := spec_float.

Definition prec : Z := 53.
Definition emax : Z := 1024.

Definition NaN : t := S754_nan.

(** An integer literal, or an integer read from a byte array. *)
Definition ofZ (z : Z) : t := binary_normalize prec emax z 0 false.

Definition add : t -> t -> t := SFadd prec emax.
Definition sub : t -> t -> t := SFsub prec emax.
Definition mul : t -> t -> t := SFmul prec emax.
Definition div : t -> t -> t := SFdiv prec emax.

(** [Math.sqrt], the correctly rounded square root. *)
Definition sqrt : t -> t := SFsqrt prec emax.

(** [Math.abs] *)
Definition abs : t -> t := SFabs.

(** [a < b]; false when either side is [NaN]. *)
Definition ltb : t -> t -> bool := SFltb.

(** The decimal literal [n / d], [d] a power of ten: the value nearest to
    the quotient ([n] and [d] are below [2 ^ 53], so they are exact and
    the division rounds once). *)
Definition decimal (n : Z) (d : positive) : t := div (ofZ n) (ofZ (Z.pos d)).

(** The rational a finite value denotes. *)
Definition toQ (a : t) : option Q :=
  match a with
  | S754_zero _ => Some 0
  | S754_finite s m e => Some (inject_Z (cond_Zopp s (Z.pos m)) * 2 ^ e)
  | _ => None
  end.

End Double.

(** ** Trail data *)

Module Vec.
Record t : Type := mk { x : Q; y : Q }.
End Vec.

Module Pos.
(** One recorded position: [{x, y, speed, diff, age}]. *)
Record t : Type := mk { x : Q; y : Q; speed : Num; diff : Q; age : Z }.
End Pos.

Record Trail : Type := mkTrail {
  positions : list Pos.t;
  velocity : Vec.t;
  smoothedPosition : Vec.t;
  speed : Num;
  active : bool
}.

(** The fields of a blob that the tracker reads. *)
Record Blob : Type := mkBlob {
  centerX : Q;
  centerY : Q;
  avgDiff : Q
}.

(** The constants of the tracker; the two sketches differ only in them. *)
Record Config : Type := mkConfig {
  smoothFactor : Q;
  velocitySmoothFactor : Q;
  maxTrailLength : nat;
  trailDecay : Z;
  maxMatchDistance : Q
}.

(** sketch.js, pixel-grid variant (lines 11-17 and 232). *)
Definition pixelSketch : Config :=
  {| smoothFactor := 8 # 10; velocitySmoothFactor := 7 # 10;
     maxTrailLength := 30; trailDecay := 8; maxMatchDistance := 50 |}.

(** sketch.js, cell-grid variant (lines 422-429). *)
Definition nightShift : Config :=
  {| smoothFactor := 8 # 10; velocitySmoothFactor := 5 # 10;
     maxTrailLength := 50; trailDecay := 8; maxMatchDistance := 100 |}.

(** What [Date.now()] and [Math.floor(Math.random() * 1000)] return while
    a blob is processed; read only when a trail is created. *)
Record Entropy : Type := mkEntropy { now : N; random : N }.

Definition decimal (n : N) : string := NilZero.string_of_uint (N.to_uint n).

(** ["blob_" + Date.now() + "_" + Math.floor(Math.random() * 1000)] *)
Definition makeId (e : Entropy) : string :=
  ("blob_" ++ decimal (now e) ++ "_" ++ decimal (random e))%string.

(** ** The trail map *)

Definition Trails : Type := list (string * Trail).

Fixpoint lookup (id : string) (m : Trails) : option Trail :=
  match m with
  | [] => None
  | (k, t) :: rest => if String.eqb k id then Some t else lookup id rest
  end.

Definition keys (m : Trails) : list string := map fst m.

(** [motionTrails[id] = t]: an existing key keeps its place in the
    enumeration order, a new key goes last. *)
Fixpoint assign (id : string) (t : Trail) (m : Trails) : Trails :=
  match m with
  | [] => [(id, t)]
  | (k, u) :: rest =>
      if String.eqb k id then (k, t) :: rest else (k, u) :: assign id t rest
  end.

(** In-place update of the trail object stored under [id]. *)
Fixpoint alter (f : Trail -> Trail) (id : string) (m : Trails) : Trails :=
  match m with
  | [] => []
  | (k, u) :: rest =>
      if String.eqb k id then (k, f u) :: rest else (k, u) :: alter f id rest
  end.

(** [matchedTrailIds.has(id)] *)
Definition has (ids : list string) (id : string) : bool :=
  existsb (String.eqb id) ids.

(** [a[a.length - 1]]: [undefined] ([None]) on the empty array. *)
Definition lastOf (A : Type) (a : list A) : option A :=
  nth_error a (length a - 1).

(** ** updateTrail *)

Section Tracker.

Variable cfg : Config.

(** The body of [updateTrail] on the trail object [motionTrails[id]]. *)
Definition updateTrailObject (blob : Blob) (trail : Trail) : Trail :=
  let '(vx, vy) :=
    match lastOf (positions trail) with
    | Some lastPos =>
        (centerX blob - Pos.x lastPos, centerY blob - Pos.y lastPos)
    | None => (0, 0)
    end in
  let velocity' :=
    Vec.mk
      (Vec.x (velocity trail) * velocitySmoothFactor cfg
       + vx * (1 - velocitySmoothFactor cfg))
      (Vec.y (velocity trail) * velocitySmoothFactor cfg
       + vy * (1 - velocitySmoothFactor cfg)) in
  let speed' :=
    Math_sqrt (Vec.x velocity' * Vec.x velocity'
               + Vec.y velocity' * Vec.y velocity') in
  let smoothed' :=
    Vec.mk
      (Vec.x (smoothedPosition trail) * smoothFactor cfg
       + centerX blob * (1 - smoothFactor cfg))
      (Vec.y (smoothedPosition trail) * smoothFactor cfg
       + centerY blob * (1 - smoothFactor cfg)) in
  let pushed :=
    positions trail
    ++ [Pos.mk (Vec.x smoothed') (Vec.y smoothed') speed' (avgDiff blob) 255] in
  {| positions :=
       if (maxTrailLength cfg <? length pushed)%nat then tl pushed else pushed;
     velocity := velocity';
     smoothedPosition := smoothed';
     speed := speed';
     active := true |}.

Definition updateTrail (id : string) (blob : Blob) (m : Trails) : Trails :=
  alter (updateTrailObject blob) id m.

(** ** trackBlobs *)

(** The trail object a blob gets when nothing matches it. *)
Definition newTrail (blob : Blob) : Trail :=
  {| positions := [];
     velocity := Vec.mk 0 0;
     smoothedPosition := Vec.mk (centerX blob) (centerY blob);
     speed := Rat 0;
     active := true |}.

(** The distance of the matching pass in exact arithmetic; as the
    program rounds it, it is [Tracker64.distanceTo] below. *)
Definition distanceTo (blob : Blob) (lastPos : Pos.t) : Num :=
  let dx := centerX blob - Pos.x lastPos in
  let dy := centerY blob - Pos.y lastPos in
  Math_sqrt (dx * dx + dy * dy).

(** The inner [for (const id in motionTrails)] loop of the matching pass,
    from the loop state [(bestMatch, bestDistance)].  [None] is the
    [TypeError] raised by [lastPos.x] when a trail has no position. *)
Fixpoint scanTrails (blob : Blob) (matchedTrailIds : list string)
    (m : Trails) (bestMatch : option string) (bestDistance : Num)
    : option (option string) :=
  match m with
  | [] => Some bestMatch
  | (id, trail) :: rest =>
      if has matchedTrailIds id then
        scanTrails blob matchedTrailIds rest bestMatch bestDistance
      else
        match lastOf (positions trail) with
        | None => None
        | Some lastPos =>
            let distance := distanceTo blob lastPos in
            if Num_ltb distance bestDistance then
              scanTrails blob matchedTrailIds rest (Some id) distance
            else
              scanTrails blob matchedTrailIds rest bestMatch bestDistance
        end
  end.

(** [if (bestMatch)]: the id when [bestMatch] is truthy; [null] and the
    empty string are falsy. *)
Definition truthy (bestMatch : option string) : option string :=
  match bestMatch with
  | Some id => if String.eqb id "" then None else Some id
  | None => None
  end.

(** The state of the matching pass.  [updated] is a ghost field: the ids
    [updateTrail] has been called with, oldest first. *)
Record Matching : Type := mkMatching {
  trails : Trails;
  matchedTrailIds : list string;
  updated : list string
}.

(** The callback of [blobs.forEach]. *)
Definition matchBlob (st : Matching) (be : Blob * Entropy)
    : option Matching :=
  let '(blob, e) := be in
  match scanTrails blob (matchedTrailIds st) (trails st) None
          (Rat (maxMatchDistance cfg)) with
  | None => None
  | Some bestMatch =>
      match truthy bestMatch with
      | Some id =>
          Some {| trails := updateTrail id blob (trails st);
                  matchedTrailIds := id :: matchedTrailIds st;
                  updated := updated st ++ [id] |}
      | None =>
          let id := makeId e in
          Some {| trails := updateTrail id blob
                              (assign id (newTrail blob) (trails st));
                  matchedTrailIds := matchedTrailIds st;
                  updated := updated st ++ [id] |}
      end
  end.

(** [blobs.forEach(...)] *)
Fixpoint forEachBlob (blobs : list (Blob * Entropy)) (st : Matching)
    : option Matching :=
  match blobs with
  | [] => Some st
  | be :: rest =>
      match matchBlob st be with
      | None => None
      | Some st' => forEachBlob rest st'
      end
  end.

(** [for (const id in motionTrails) motionTrails[id].active = false] *)
Definition markInactive (m : Trails) : Trails :=
  map (fun '(id, t) =>
         (id, {| positions := positions t; velocity := velocity t;
                 smoothedPosition := smoothedPosition t; speed := speed t;
                 active := false |})) m.

Definition agePosition (pos : Pos.t) : Pos.t :=
  Pos.mk (Pos.x pos) (Pos.y pos) (Pos.speed pos) (Pos.diff pos)
         (Pos.age pos - trailDecay cfg).

(** [positions.forEach(pos => pos.age -= d)] then
    [positions.filter(pos => pos.age > 0)] *)
Definition agePositions (ps : list Pos.t) : list Pos.t :=
  filter (fun pos => (0 <? Pos.age pos)%Z) (map agePosition ps).

(** The last loop of [trackBlobs], over every key of [motionTrails]. *)
Fixpoint ageTrails (m : Trails) : Trails :=
  match m with
  | [] => []
  | (id, trail) :: rest =>
      let ps := agePositions (positions trail) in
      if (length ps =? 0)%nat then ageTrails rest
      else (id, {| positions := ps; velocity := velocity trail;
                   smoothedPosition := smoothedPosition trail;
                   speed := speed trail; active := active trail |})
           :: ageTrails rest
  end.

Definition startMatching (m : Trails) : Matching :=
  {| trails := markInactive m; matchedTrailIds := []; updated := [] |}.

(** One tick of the tracker. *)
Definition trackBlobs (blobs : list (Blob * Entropy)) (m : Trails)
    : option Trails :=
  match forEachBlob blobs (startMatching m) with
  | None => None
  | Some st => Some (ageTrails (trails st))
  end.

(** Ghost: the ids [updateTrail] was called with during the tick. *)
Definition updatedIds (blobs : list (Blob * Entropy)) (m : Trails)
    : option (list string) :=
  match forEachBlob blobs (startMatching m) with
  | None => None
  | Some st => Some (updated st)
  end.

(** Several ticks in a row. *)
Fixpoint ticks (frames : list (list (Blob * Entropy))) (m : Trails)
    : option Trails :=
  match frames with
  | [] => Some m
  | blobs :: rest =>
      match trackBlobs blobs m with
      | None => None
      | Some m' => ticks rest m'
      end
  end.

End Tracker.

(** ** Invariants of the trail map *)

Section TrackerSpec.

Variable cfg : Config.

(** What holds of a trail object between two statements of [trackBlobs]. *)
Definition okTrail (t : Trail) : Prop :=
  positions t <> []
  /\ (length (positions t) <= maxTrailLength cfg)%nat.

(** Every position recorded under [id] has age at most [B]. *)
Definition agesBelow (id : string) (B : Z) (m : Trails) : Prop :=
  forall t, In (id, t) m ->
            Forall (fun pos => (Pos.age pos <= B)%Z) (positions t).

(** No recorded age exceeds the initial age 255. *)
Definition Young (m : Trails) : Prop := forall id, agesBelow id 255 m.

(** The invariant of the trail map: keys are distinct and truthy, and
    every trail has between 1 and [maxTrailLength] positions. *)
Definition Inv (m : Trails) : Prop :=
  NoDup (keys m)
  /\ Forall (fun kt => fst kt <> ""%string /\ okTrail (snd kt)) m.

(** The distance from a blob to the last recorded position of a trail. *)
Definition distanceOf (blob : Blob) (t : Trail) : option Num :=
  option_map (distanceTo blob) (lastOf (positions t)).

(** The trail lies at a distance below [bound] from the blob. *)
Definition within (bound : Num) (blob : Blob) (t : Trail) : Prop :=
  match distanceOf blob t with
  | Some d => Num_lt d bound
  | None => False
  end.

Definition inRange (blob : Blob) (t : Trail) : Prop :=
  within (Rat (maxMatchDistance cfg)) blob t.

(** [t] is strictly nearer to the blob than [u]. *)
Definition nearer (blob : Blob) (t u : Trail) : Prop :=
  match distanceOf blob t, distanceOf blob u with
  | Some a, Some b => Num_lt a b
  | _, _ => False
  end.

(** [t] is at least as near to the blob as [u]. *)
Definition notFarther (blob : Blob) (t u : Trail) : Prop :=
  match distanceOf blob t, distanceOf blob u with
  | Some a, Some b => Num_le a b
  | _, _ => False
  end.

(** The entry has not been matched in this tick. *)
Definition unmatched (ids : list string) (kt : string * Trail) : Prop :=
  has ids (fst kt) = false.

(** The step [st -> st'] binds the blob to an existing trail: the first,
    in enumeration order, of the nearest not yet matched trails, which is
    in range. *)
Definition bindsNearest (st st' : Matching) (blob : Blob) : Prop :=
  exists l1 id t l2,
    trails st = l1 ++ (id, t) :: l2
    /\ ~ In id (keys l1)
    /\ has (matchedTrailIds st) id = false
    /\ inRange blob t
    /\ (forall kt, In kt l1 -> unmatched (matchedTrailIds st) kt ->
                   nearer blob t (snd kt))
    /\ (forall kt, In kt l2 -> unmatched (matchedTrailIds st) kt ->
                   notFarther blob t (snd kt))
    /\ trails st' = l1 ++ (id, updateTrailObject cfg blob t) :: l2
    /\ active (updateTrailObject cfg blob t) = true
    /\ matchedTrailIds st' = id :: matchedTrailIds st
    /\ updated st' = updated st ++ [id].

(** The step [st -> st'] finds no unmatched trail in range and stores a
    new trail object, updated once, under a generated id. *)
Definition startsTrail (st st' : Matching) (blob : Blob) (e : Entropy)
    : Prop :=
  (forall kt, In kt (trails st) -> unmatched (matchedTrailIds st) kt ->
              ~ inRange blob (snd kt))
  /\ trails st'
     = assign (makeId e) (updateTrailObject cfg blob (newTrail blob))
         (trails st)
  /\ matchedTrailIds st' = matchedTrailIds st
  /\ updated st' = updated st ++ [makeId e].

(** [ceil(a / b)] for a positive [b]. *)
Definition ceilDiv (a b : Z) : Z := (a + b - 1) / b.

(** Through the ticks [frames] run from [m], no blob is bound to the
    trail [id] (and no new trail is stored under its key): [updateTrail]
    is never called with [id]. *)
Fixpoint neverUpdated (id : string) (frames : list (list (Blob * Entropy)))
    (m : Trails) : Prop :=
  match frames with
  | [] => True
  | blobs :: rest =>
      match updatedIds cfg blobs m, trackBlobs cfg blobs m with
      | Some ids, Some m' => ~ In id ids /\ neverUpdated id rest m'
      | _, _ => False
      end
  end.

(** [updateTrail] called on one trail object for each blob in turn. *)
Definition updates (blobs : list Blob) (t : Trail) : Trail :=
  fold_left (fun trail blob => updateTrailObject cfg blob trail) blobs t.

(** The trail maps the program can hold between two ticks. *)
Inductive reachable : Trails -> Prop :=
| reachable_start : reachable []
| reachable_tick : forall m blobs m',
    reachable m -> trackBlobs cfg blobs m = Some m' -> reachable m'.

End TrackerSpec.

(** * The tracker in binary64

    [trackBlobs] and [updateTrail] once more, statement by statement as
    above, over the binary64 values the program holds: every [-], [*],
    [+] and [Math.sqrt] rounds.  Ages stay integers: 255 less a multiple
    of the decay is exact. *)

Module Tracker64.

Module Vec.
Record t : Type := mk { x : Double.t; y : Double.t }.
End Vec.

Module Pos.
(** One recorded position: [{x, y, speed, diff, age}]. *)
Record t : Type :=
  mk { x : Double.t; y : Double.t; speed : Double.t; diff : Double.t;
       age : Z }.
End Pos.

Record Trail : Type := mkTrail {
  positions : list Pos.t;
  velocity : Vec.t;
  smoothedPosition : Vec.t;
  speed : Double.t;
  active : bool
}.

(** The fields of a blob that the tracker reads. *)
Record Blob : Type := mkBlob {
  centerX : Double.t;
  centerY : Double.t;
  avgDiff : Double.t
}.

Record Config : Type := mkConfig {
  smoothFactor : Double.t;
  velocitySmoothFactor : Double.t;
  maxTrailLength : nat;
  trailDecay : Z;
  maxMatchDistance : Double.t
}.

(** sketch.js, pixel-grid variant (lines 11-17 and 232). *)
Definition pixelSketch : Config :=
  {| smoothFactor := Double.decimal 8 10;
     velocitySmoothFactor := Double.decimal 7 10;
     maxTrailLength := 30; trailDecay := 8;
     maxMatchDistance := Double.ofZ 50 |}.

(** sketch.js, cell-grid variant (lines 422-429). *)
Definition nightShift : Config :=
  {| smoothFactor := Double.decimal 8 10;
     velocitySmoothFactor := Double.decimal 5 10;
     maxTrailLength := 50; trailDecay := 8;
     maxMatchDistance := Double.ofZ 100 |}.

Definition Trails : Type := list (string * Trail).

Fixpoint lookup (id : string) (m : Trails) : option Trail :=
  match m with
  | [] => None
  | (k, t) :: rest => if String.eqb k id then Some t else lookup id rest
  end.

Definition keys (m : Trails) : list string := map fst m.

(** [motionTrails[id] = t]: an existing key keeps its place in the
    enumeration order, a new key goes last. *)
Fixpoint assign (id : string) (t : Trail) (m : Trails) : Trails :=
  match m with
  | [] => [(id, t)]
  | (k, u) :: rest =>
      if String.eqb k id then (k, t) :: rest else (k, u) :: assign id t rest
  end.

(** In-place update of the trail object stored under [id]. *)
Fixpoint alter (f : Trail -> Trail) (id : string) (m : Trails) : Trails :=
  match m with
  | [] => []
  | (k, u) :: rest =>
      if String.eqb k id then (k, f u) :: rest else (k, u) :: alter f id rest
  end.

Section Tracker.

Variable cfg : Config.

(** The body of [updateTrail] on the trail object [motionTrails[id]]. *)
Definition updateTrailObject (blob : Blob) (trail : Trail) : Trail :=
  let '(vx, vy) :=
    match lastOf (positions trail) with
    | Some lastPos =>
        (Double.sub (centerX blob) (Pos.x lastPos),
         Double.sub (centerY blob) (Pos.y lastPos))
    | None => (Double.ofZ 0, Double.ofZ 0)
    end in
  let velocity' :=
    Vec.mk
      (Double.add
         (Double.mul (Vec.x (velocity trail)) (velocitySmoothFactor cfg))
         (Double.mul vx
            (Double.sub (Double.ofZ 1) (velocitySmoothFactor cfg))))
      (Double.add
         (Double.mul (Vec.y (velocity trail)) (velocitySmoothFactor cfg))
         (Double.mul vy
            (Double.sub (Double.ofZ 1) (velocitySmoothFactor cfg)))) in
  let speed' :=
    Double.sqrt
      (Double.add (Double.mul (Vec.x velocity') (Vec.x velocity'))
         (Double.mul (Vec.y velocity') (Vec.y velocity'))) in
  let smoothed' :=
    Vec.mk
      (Double.add
         (Double.mul (Vec.x (smoothedPosition trail)) (smoothFactor cfg))
         (Double.mul (centerX blob)
            (Double.sub (Double.ofZ 1) (smoothFactor cfg))))
      (Double.add
         (Double.mul (Vec.y (smoothedPosition trail)) (smoothFactor cfg))
         (Double.mul (centerY blob)
            (Double.sub (Double.ofZ 1) (smoothFactor cfg)))) in
  let pushed :=
    positions trail
    ++ [Pos.mk (Vec.x smoothed') (Vec.y smoothed') speed' (avgDiff blob) 255] in
  {| positions :=
       if (maxTrailLength cfg <? length pushed)%nat then tl pushed else pushed;
     velocity := velocity';
     smoothedPosition := smoothed';
     speed := speed';
     active := true |}.

Definition updateTrail (id : string) (blob : Blob) (m : Trails) : Trails :=
  alter (updateTrailObject blob) id m.

(** The trail object a blob gets when nothing matches it. *)
Definition newTrail (blob : Blob) : Trail :=
  {| positions := [];
     velocity := Vec.mk (Double.ofZ 0) (Double.ofZ 0);
     smoothedPosition := Vec.mk (centerX blob) (centerY blob);
     speed := Double.ofZ 0;
     active := true |}.

(** [dx = blob.centerX - lastPos.x], [dy = blob.centerY - lastPos.y],
    [distance = Math.sqrt(dx * dx + dy * dy)] *)
Definition distanceTo (blob : Blob) (lastPos : Pos.t) : Double.t :=
  let dx := Double.sub (centerX blob) (Pos.x lastPos) in
  let dy := Double.sub (centerY blob) (Pos.y lastPos) in
  Double.sqrt (Double.add (Double.mul dx dx) (Double.mul dy dy)).

(** The inner [for (const id in motionTrails)] loop of the matching pass,
    from the loop state [(bestMatch, bestDistance)].  [None] is the
    [TypeError] raised by [lastPos.x] when a trail has no position. *)
Fixpoint scanTrails (blob : Blob) (matchedTrailIds : list string)
    (m : Trails) (bestMatch : option string) (bestDistance : Double.t)
    : option (option string) :=
  match m with
  | [] => Some bestMatch
  | (id, trail) :: rest =>
      if has matchedTrailIds id then
        scanTrails blob matchedTrailIds rest bestMatch bestDistance
      else
        match lastOf (positions trail) with
        | None => None
        | Some lastPos =>
            let distance := distanceTo blob lastPos in
            if Double.ltb distance bestDistance then
              scanTrails blob matchedTrailIds rest (Some id) distance
            else
              scanTrails blob matchedTrailIds rest bestMatch bestDistance
        end
  end.

(** The state of the matching pass.  [updated] is a ghost field: the ids
    [updateTrail] has been called with, oldest first. *)
Record Matching : Type := mkMatching {
  trails : Trails;
  matchedTrailIds : list string;
  updated : list string
}.

(** The callback of [blobs.forEach]. *)
Definition matchBlob (st : Matching) (be : Blob * Entropy)
    : option Matching :=
  let '(blob, e) := be in
  match scanTrails blob (matchedTrailIds st) (trails st) None
          (maxMatchDistance cfg) with
  | None => None
  | Some bestMatch =>
      match truthy bestMatch with
      | Some id =>
          Some {| trails := updateTrail id blob (trails st);
                  matchedTrailIds := id :: matchedTrailIds st;
                  updated := updated st ++ [id] |}
      | None =>
          let id := makeId e in
          Some {| trails := updateTrail id blob
                              (assign id (newTrail blob) (trails st));
                  matchedTrailIds := matchedTrailIds st;
                  updated := updated st ++ [id] |}
      end
  end.

(** [blobs.forEach(...)] *)
Fixpoint forEachBlob (blobs : list (Blob * Entropy)) (st : Matching)
    : option Matching :=
  match blobs with
  | [] => Some st
  | be :: rest =>
      match matchBlob st be with
      | None => None
      | Some st' => forEachBlob rest st'
      end
  end.

(** [for (const id in motionTrails) motionTrails[id].active = false] *)
Definition markInactive (m : Trails) : Trails :=
  map (fun '(id, t) =>
         (id, {| positions := positions t; velocity := velocity t;
                 smoothedPosition := smoothedPosition t; speed := speed t;
                 active := false |})) m.

Definition agePosition (pos : Pos.t) : Pos.t :=
  Pos.mk (Pos.x pos) (Pos.y pos) (Pos.speed pos) (Pos.diff pos)
         (Pos.age pos - trailDecay cfg).

(** [positions.forEach(pos => pos.age -= d)] then
    [positions.filter(pos => pos.age > 0)] *)
Definition agePositions (ps : list Pos.t) : list Pos.t :=
  filter (fun pos => (0 <? Pos.age pos)%Z) (map agePosition ps).

(** The last loop of [trackBlobs], over every key of [motionTrails]. *)
Fixpoint ageTrails (m : Trails) : Trails :=
  match m with
  | [] => []
  | (id, trail) :: rest =>
      let ps := agePositions (positions trail) in
      if (length ps =? 0)%nat then ageTrails rest
      else (id, {| positions := ps; velocity := velocity trail;
                   smoothedPosition := smoothedPosition trail;
                   speed := speed trail; active := active trail |})
           :: ageTrails rest
  end.

Definition startMatching (m : Trails) : Matching :=
  {| trails := markInactive m; matchedTrailIds := []; updated := [] |}.

(** One tick of the tracker. *)
Definition trackBlobs (blobs : list (Blob * Entropy)) (m : Trails)
    : option Trails :=
  match forEachBlob blobs (startMatching m) with
  | None => None
  | Some st => Some (ageTrails (trails st))
  end.

(** Ghost: the ids [updateTrail] was called with during the tick. *)
Definition updatedIds (blobs : list (Blob * Entropy)) (m : Trails)
    : option (list string) :=
  match forEachBlob blobs (startMatching m) with
  | None => None
  | Some st => Some (updated st)
  end.

(** Several ticks in a row. *)
Fixpoint ticks (frames : list (list (Blob * Entropy))) (m : Trails)
    : option Trails :=
  match frames with
  | [] => Some m
  | blobs :: rest =>
      match trackBlobs blobs m with
      | None => None
      | Some m' => ticks rest m'
      end
  end.

End Tracker.

(** ** What the matching pass is to do *)

Section TrackerSpec.

Variable cfg : Config.

(** What holds of a trail object between two statements of [trackBlobs]. *)
Definition okTrail (t : Trail) : Prop :=
  positions t <> []
  /\ (length (positions t) <= maxTrailLength cfg)%nat.

(** The invariant of the trail map: keys are distinct and truthy, and
    every trail has between 1 and [maxTrailLength] positions. *)
Definition Inv (m : Trails) : Prop :=
  NoDup (keys m)
  /\ Forall (fun kt => fst kt <> ""%string /\ okTrail (snd kt)) m.

(** The Euclidean distance between the points [(px, py)] and [(qx, qy)]
    in binary64: the root of the sum of the squared differences, each
    operation rounded. *)
Definition euclidean (px py qx qy : Double.t) : Double.t :=
  Double.sqrt
    (Double.add (Double.mul (Double.sub px qx) (Double.sub px qx))
       (Double.mul (Double.sub py qy) (Double.sub py qy))).

(** The distance from the centroid of a blob to the position a trail
    recorded last. *)
Definition distanceOf (blob : Blob) (t : Trail) : option Double.t :=
  match lastOf (positions t) with
  | Some lastPos =>
      Some (euclidean (centerX blob) (centerY blob)
              (Pos.x lastPos) (Pos.y lastPos))
  | None => None
  end.

(** The trail lies at a distance below [bound] from the blob. *)
Definition within (bound : Double.t) (blob : Blob) (t : Trail) : Prop :=
  match distanceOf blob t with
  | Some d => Double.ltb d bound = true
  | None => False
  end.

Definition inRange (blob : Blob) (t : Trail) : Prop :=
  within (maxMatchDistance cfg) blob t.

(** [t] is strictly nearer to the blob than [u]; a trail whose distance
    is [NaN] is below no bound and is never the nearest. *)
Definition nearer (blob : Blob) (t u : Trail) : Prop :=
  match distanceOf blob t, distanceOf blob u with
  | Some a, Some b => Double.ltb a b = true \/ b = Double.NaN
  | _, _ => False
  end.

(** [t] is at least as near to the blob as [u]: the distance of [u] is
    not below that of [t]. *)
Definition notFarther (blob : Blob) (t u : Trail) : Prop :=
  match distanceOf blob t, distanceOf blob u with
  | Some a, Some b => Double.ltb b a = false
  | _, _ => False
  end.

(** The entry has not been matched in this tick. *)
Definition unmatched (ids : list string) (kt : string * Trail) : Prop :=
  has ids (fst kt) = false.

(** The step [st -> st'] binds the blob to an existing trail: the first,
    in enumeration order, of the nearest not yet matched trails, which is
    in range. *)
Definition bindsNearest (st st' : Matching) (blob : Blob) : Prop :=
  exists l1 id t l2,
    trails st = l1 ++ (id, t) :: l2
    /\ ~ In id (keys l1)
    /\ has (matchedTrailIds st) id = false
    /\ inRange blob t
    /\ (forall kt, In kt l1 -> unmatched (matchedTrailIds st) kt ->
                   nearer blob t (snd kt))
    /\ (forall kt, In kt l2 -> unmatched (matchedTrailIds st) kt ->
                   notFarther blob t (snd kt))
    /\ trails st' = l1 ++ (id, updateTrailObject cfg blob t) :: l2
    /\ active (updateTrailObject cfg blob t) = true
    /\ matchedTrailIds st' = id :: matchedTrailIds st
    /\ updated st' = updated st ++ [id].

(** The step [st -> st'] finds no unmatched trail in range and stores a
    new trail object, updated once, under a generated id. *)
Definition startsTrail (st st' : Matching) (blob : Blob) (e : Entropy)
    : Prop :=
  (forall kt, In kt (trails st) -> unmatched (matchedTrailIds st) kt ->
              ~ inRange blob (snd kt))
  /\ trails st'
     = assign (makeId e) (updateTrailObject cfg blob (newTrail blob))
         (trails st)
  /\ matchedTrailIds st' = matchedTrailIds st
  /\ updated st' = updated st ++ [makeId e].

(** The trail maps the program can hold between two ticks. *)
Inductive reachable : Trails -> Prop :=
| reachable_start : reachable []
| reachable_tick : forall m blobs m',
    reachable m -> trackBlobs cfg blobs m = Some m' -> reachable m'.

End TrackerSpec.

End Tracker64.

(** * Blob detection *)

(** ** [blobs.sort((a, b) => b.size - a.size).slice(0, max)]

    [Array.prototype.sort] is stable; with a comparator that orders by
    size, largest first, its result is the stable insertion sort below. *)

Section LargestFirst.

Variable A : Type.
Variable size : A -> nat.

Fixpoint insertBySize (a : A) (sorted : list A) : list A :=
  match sorted with
  | [] => [a]
  | b :: rest =>
      if (size a <? size b)%nat then b :: insertBySize a rest
      else a :: b :: rest
  end.

Definition sortBySize (l : list A) : list A := fold_right insertBySize [] l.

(** [sort] then [slice(0, k)]. *)
Definition largest (k : nat) (l : list A) : list A := firstn k (sortBySize l).

(** The elements of size [s], in the order of the list. *)
Definition ofSize (s : nat) (l : list A) : list A :=
  filter (fun a => (size a =? s)%nat) l.

(** Sizes never increase along the list. *)
Definition largestFirst (l : list A) : Prop :=
  StronglySorted (fun a b => (size b <= size a)%nat) l.

End LargestFirst.

(** [visited[i] = true] on the array of flags: an index past the end
    extends the array (the holes read as [undefined], which is falsy). *)
Definition setTrue (visited : list bool) (i : nat) : list bool :=
  firstn i visited ++ repeat false (i - length visited)
  ++ true :: skipn (S i) visited.

(** The four neighbours, in the order of the source: left, right, up,
    down. *)
Definition neighbors : list (Z * Z) :=
  [(-1, 0); (1, 0); (0, -1); (0, 1)]%Z.

(** ** The pixel-grid sketch *)

Module Pixel.
Record t : Type := mk { x : nat; y : nat; diff : Q }.
End Pixel.

Module PixelBlob.
Record t : Type := mk {
  pixels : list Pixel.t;
  avgDiff : Q;
  totalDiff : Q;
  centerX : Q;
  centerY : Q
}.
Definition size (b : t) : nat := length (pixels b).
(** What [trackBlobs] reads of the blob. *)
Definition tracked (b : t) : Blob := mkBlob (centerX b) (centerY b) (avgDiff b).
End PixelBlob.

Module PixelGrid.

Record Config : Type := mkConfig {
  motionThreshold : Q;
  minBlobSize : nat;
  maxBlobs : nat
}.

(** sketch.js lines 7-9. *)
Definition sketch : Config :=
  {| motionThreshold := 30; minBlobSize := 200; maxBlobs := 10 |}.

Section Detector.

Variable cfg : Config.

(** [video.width] and [video.height]; [motionPixels] has one entry per
    pixel. *)
Variable width height : nat.

(** The body of the two loops of [draw] at pixel [(x, y)]: the value
    left in [motionPixels[y * width + x]], the array having been reset
    to 0.  [curr] and [prev] are the RGBA bytes of the two frames. *)
Definition motionPixel (curr prev : list Z) (x y : nat) : Q :=
  let i := ((y * width + x) * 4)%nat in
  let diffR := Z.abs (nth i curr 0 - nth i prev 0)%Z in
  let diffG := Z.abs (nth (i + 1) curr 0 - nth (i + 1) prev 0)%Z in
  let diffB := Z.abs (nth (i + 2) curr 0 - nth (i + 2) prev 0)%Z in
  let avgDiff := inject_Z (diffR + diffG + diffB) / 3 in
  if Qltb (motionThreshold cfg) avgDiff then avgDiff else 0.

(** [motionPixels] after the differencing loops of [draw]. *)
Definition differenceFrames (curr prev : list Z) : list Q :=
  flat_map (fun y => map (fun x => motionPixel curr prev x y) (seq 0 width))
    (seq 0 height).

(** [motionPixels[i] > 0]; reading past the end gives [undefined], and
    [undefined > 0] is false. *)
Definition isMotion (motionPixels : list Q) (i : nat) : bool :=
  Qltb 0 (nth i motionPixels 0).

Definition isVisited (visited : list bool) (i : nat) : bool :=
  nth i visited false.

(** The body of [for (const n of neighbors)] for the pixel [(x, y)]. *)
Definition visitNeighbor (motionPixels : list Q) (x y : nat)
    (st : list nat * list bool) (n : Z * Z) : list nat * list bool :=
  let '(queue, visited) := st in
  let nx := (Z.of_nat x + fst n)%Z in
  let ny := (Z.of_nat y + snd n)%Z in
  if ((0 <=? nx) && (nx <? Z.of_nat width)
      && (0 <=? ny) && (ny <? Z.of_nat height))%Z then
    let neighborIndex := Z.to_nat (ny * Z.of_nat width + nx) in
    if isMotion motionPixels neighborIndex
       && negb (isVisited visited neighborIndex) then
      (queue ++ [neighborIndex], setTrue visited neighborIndex)
    else st
  else st.

(** [while (queue.length > 0)]: the flood fill, at most [fuel] rounds. *)
Fixpoint flood (fuel : nat) (motionPixels : list Q) (queue : list nat)
    (visited : list bool) (blob : PixelBlob.t) : PixelBlob.t * list bool :=
  match fuel with
  | O => (blob, visited)
  | S fuel' =>
      match queue with
      | [] => (blob, visited)
      | pixelIndex :: queue' =>
          let x := (pixelIndex mod width)%nat in
          let y := (pixelIndex / width)%nat in
          let d := nth pixelIndex motionPixels 0 in
          let blob' :=
            PixelBlob.mk
              (PixelBlob.pixels blob ++ [Pixel.mk x y d])
              (PixelBlob.avgDiff blob)
              (PixelBlob.totalDiff blob + d)
              (PixelBlob.centerX blob + inject_Z (Z.of_nat x))
              (PixelBlob.centerY blob + inject_Z (Z.of_nat y)) in
          let '(queue'', visited') :=
            fold_left (visitNeighbor motionPixels x y) neighbors
              (queue', visited) in
          flood fuel' motionPixels queue'' visited' blob'
      end
  end.

(** The motion pixels the flood fills have not reached yet. *)
Definition unvisitedMotion (motionPixels : list Q) (visited : list bool)
    : nat :=
  length
    (filter (fun i => isMotion motionPixels i && negb (isVisited visited i))
       (seq 0 (length motionPixels))).

(** The centre and the average of a kept blob. *)
Definition finish (blob : PixelBlob.t) : PixelBlob.t :=
  let n := inject_Z (Z.of_nat (length (PixelBlob.pixels blob))) in
  PixelBlob.mk (PixelBlob.pixels blob)
    (PixelBlob.totalDiff blob / n)
    (PixelBlob.totalDiff blob)
    (PixelBlob.centerX blob / n)
    (PixelBlob.centerY blob / n).

(** The body of the scan [for (let i = 0; i < motionPixels.length; i++)]. *)
Definition scanPixel (fuel : nat) (motionPixels : list Q)
    (st : list PixelBlob.t * list bool) (i : nat)
    : list PixelBlob.t * list bool :=
  let '(blobs, visited) := st in
  if isMotion motionPixels i && negb (isVisited visited i) then
    let '(blob, visited') :=
      flood fuel motionPixels [i] (setTrue visited i)
        (PixelBlob.mk [] 0 0 0 0) in
    if (minBlobSize cfg <? length (PixelBlob.pixels blob))%nat then
      (blobs ++ [finish blob], visited')
    else (blobs, visited')
  else st.

(** The blobs pushed by the scan, in the order of discovery. *)
Definition discoveredWith (fuel : nat) (motionPixels : list Q)
    : list PixelBlob.t :=
  fst (fold_left (scanPixel fuel motionPixels)
         (seq 0 (length motionPixels))
         ([], repeat false (length motionPixels))).

(** Every pixel enters the queue at most once, so one round per pixel is
    all a flood fill can use (lemma [PixelGrid_flood_fuel] below). *)
Definition discovered (motionPixels : list Q) : list PixelBlob.t :=
  discoveredWith (length motionPixels) motionPixels.

Definition findMotionBlobs (motionPixels : list Q) : list PixelBlob.t :=
  largest PixelBlob.size (maxBlobs cfg) (discovered motionPixels).

End Detector.

End PixelGrid.

(** ** The cell-grid sketch (Night Shift) *)

(** A p5 image: its size and the RGBA bytes of [pixels]. *)
Record Image : Type := mkImage {
  imageWidth : nat;
  imageHeight : nat;
  imagePixels : list Z
}.

(** Storing a number in a [Uint8ClampedArray]: clamped to [0, 255] and
    rounded to the nearest integer, ties to even. *)
Definition toUint8Clamp (q : Q) : Z :=
  if Qle_bool q 0 then 0%Z
  else if Qle_bool 255 q then 255%Z
  else
    let f := Qfloor q in
    let frac := q - inject_Z f in
    if Qltb frac (1 # 2) then f
    else if Qltb (1 # 2) frac then (f + 1)%Z
    else if Z.even f then f else (f + 1)%Z.

(** Storing a binary64 value in a [Uint8ClampedArray]: [NaN] is stored
    as 0, an infinity is clamped, a finite value is clamped and rounded
    as above. *)
Definition storeUint8Clamped (a : Double.t) : Z :=
  match a with
  | S754_nan => 0%Z
  | S754_infinity negative => if negative then 0%Z else 255%Z
  | _ =>
      match Double.toQ a with
      | Some q => toUint8Clamp q
      | None => 0%Z
      end
  end.

(** [image.pixels[index]] as an operand of [*]: the byte, or [NaN] for
    the [undefined] read past the end of the array. *)
Definition pixelByte (image : Image) (index : nat) : Double.t :=
  match nth_error (imagePixels image) index with
  | Some byte => Double.ofZ byte
  | None => Double.NaN
  end.

Definition getBrightness (index : nat) (image : Image) : Double.t :=
  Double.add
    (Double.add
       (Double.mul (pixelByte image index) (Double.decimal 212 1000))
       (Double.mul (pixelByte image (index + 1)) (Double.decimal 715 1000)))
    (Double.mul (pixelByte image (index + 2)) (Double.decimal 72 1000)).

(** The alpha byte written for the pixel whose bytes start at [i]:
    [diff.pixels[i + 3] = abs(b1 - b2)]. *)
Definition differenceAlpha (currFrame prevFrame : Image) (i : nat) : Z :=
  let b1 := getBrightness i currFrame in
  let b2 := getBrightness i prevFrame in
  storeUint8Clamped (Double.abs (Double.sub b1 b2)).

(** [createDifferenceImage]: white, with the brightness difference as
    alpha.  The pixel array of an image holds four bytes per pixel, so
    the loop [for (i = 0; i < pixels.length; i += 4)] runs once per
    pixel. *)
Definition createDifferenceImage (currFrame prevFrame : Image) : Image :=
  {| imageWidth := imageWidth currFrame;
     imageHeight := imageHeight currFrame;
     imagePixels :=
       flat_map
         (fun k => [255; 255; 255;
                    differenceAlpha currFrame prevFrame (4 * k)]%Z)
         (seq 0 (length (imagePixels currFrame) / 4)) |}.

Module Cell.
(** A grid cell [{motion, avgDiff}]. *)
Record t : Type := mk { motion : bool; avgDiff : Q }.
End Cell.

Module CellBlob.
Record t : Type := mk { centerX : Q; centerY : Q; avgDiff : Q; size : nat }.
(** What [trackBlobs] reads of the blob. *)
Definition tracked (b : t) : Blob := mkBlob (centerX b) (centerY b) (avgDiff b).
End CellBlob.

(** [a[i] = f(a[i])] for an index inside the array. *)
Fixpoint updateAt (A : Type) (f : A -> A) (i : nat) (a : list A) : list A :=
  match a, i with
  | [], _ => []
  | v :: rest, O => f v :: rest
  | v :: rest, S i' => v :: updateAt f i' rest
  end.

(** The array of arrays has [gh] rows of [gw] entries. *)
Definition shaped (A : Type) (gw gh : nat) (grid : list (list A)) : Prop :=
  length grid = gh /\ Forall (fun row => length row = gw) grid.

(** The positions [(x, y)] of a [w] by [h] grid, row by row. *)
Definition coords (w h : nat) : list (nat * nat) :=
  flat_map (fun y => map (fun x => (x, y)) (seq 0 w)) (seq 0 h).

Module CellGrid.

Record Config : Type := mkConfig {
  motionThreshold : Z;
  gridSize : nat;
  minGridsForBlob : nat;
  maxBlobs : nat
}.

(** sketch.js lines 417-420. *)
Definition sketch : Config :=
  {| motionThreshold := 20; gridSize := 10; minGridsForBlob := 1;
     maxBlobs := 100 |}.

Definition Grid : Type := list (list Cell.t).

(** [grid[y][x]]; the program reads inside the grid only. *)
Definition cellAt (grid : Grid) (x y : nat) : Cell.t :=
  nth x (nth y grid []) (Cell.mk false 0).

Definition isVisited (visited : list (list bool)) (x y : nat) : bool :=
  nth x (nth y visited []) false.

(** [visited[y][x] = true], inside the grid. *)
Definition markVisited (visited : list (list bool)) (x y : nat)
    : list (list bool) :=
  updateAt (updateAt (fun _ => true) x) y visited.

Section Detector.

Variable cfg : Config.
Variable diffImage : Image.

(** [Math.ceil(n / GRID_SIZE)] *)
Definition cells (n : nat) : nat := ((n + gridSize cfg - 1) / gridSize cfg)%nat.

Definition gridWidth : nat := cells (imageWidth diffImage).
Definition gridHeight : nat := cells (imageHeight diffImage).

(** [diffImage.pixels[(y * width + x) * 4 + 3]] *)
Definition alphaAt (x y : nat) : Z :=
  nth ((y * imageWidth diffImage + x) * 4 + 3) (imagePixels diffImage) 0%Z.

Definition emptyGrid : Grid :=
  repeat (repeat (Cell.mk false 0) gridWidth) gridHeight.

(** The body of the accumulation loops at pixel [(x, y)]. *)
Definition addPixel (y : nat) (grid : Grid) (x : nat) : Grid :=
  let gridX := (x / gridSize cfg)%nat in
  let gridY := (y / gridSize cfg)%nat in
  if (motionThreshold cfg <? alphaAt x y)%Z then
    updateAt
      (updateAt
         (fun c => Cell.mk true (Cell.avgDiff c + inject_Z (alphaAt x y)))
         gridX)
      gridY grid
  else grid.

(** "Calculate motion in each grid cell". *)
Definition accumulate : Grid :=
  fold_left
    (fun grid y => fold_left (addPixel y) (seq 0 (imageWidth diffImage)) grid)
    (seq 0 (imageHeight diffImage)) emptyGrid.

(** "Normalize grid values". *)
Definition normalizeCell (c : Cell.t) : Cell.t :=
  if Cell.motion c then
    Cell.mk true
      (Cell.avgDiff c / inject_Z (Z.of_nat (gridSize cfg * gridSize cfg)))
  else c.

Definition motionGrid : Grid := map (map normalizeCell) accumulate.

(** The pixels of the image, in the order of the two loops. *)
Definition pixelCoords : list (nat * nat) :=
  coords (imageWidth diffImage) (imageHeight diffImage).

(** The pixel lies in the cell [(gx, gy)] and exceeds the threshold. *)
Definition contributes (gx gy : nat) (p : nat * nat) : bool :=
  (fst p / gridSize cfg =? gx)%nat && (snd p / gridSize cfg =? gy)%nat
  && (motionThreshold cfg <? alphaAt (fst p) (snd p))%Z.

(** The difference values of the pixels that contribute to a cell. *)
Definition contributing (gx gy : nat) : list Z :=
  map (fun p => alphaAt (fst p) (snd p))
    (filter (contributes gx gy) pixelCoords).

Definition sumZ (l : list Z) : Z := fold_right Z.add 0%Z l.

(** The aggregate intensity as the specification words it: "the mean of
    contributing pixel values". *)
Definition meanOfContributing (gx gy : nat) : Q :=
  inject_Z (sumZ (contributing gx gy))
  / inject_Z (Z.of_nat (length (contributing gx gy))).

(** The body of [for (const n of neighbors)] for the cell [(x, y)]. *)
Definition visitNeighbor (grid : Grid) (x y : nat)
    (st : list (nat * nat) * list (list bool)) (n : Z * Z)
    : list (nat * nat) * list (list bool) :=
  let '(queue, visited) := st in
  let nx := (Z.of_nat x + fst n)%Z in
  let ny := (Z.of_nat y + snd n)%Z in
  if ((0 <=? nx) && (nx <? Z.of_nat gridWidth)
      && (0 <=? ny) && (ny <? Z.of_nat gridHeight))%Z
     && Cell.motion (cellAt grid (Z.to_nat nx) (Z.to_nat ny))
     && negb (isVisited visited (Z.to_nat nx) (Z.to_nat ny)) then
    (queue ++ [(Z.to_nat nx, Z.to_nat ny)],
     markVisited visited (Z.to_nat nx) (Z.to_nat ny))
  else st.

(** The accumulators of one component: [cellsInBlob], [totalDiff],
    [centerX] and [centerY]. *)
Record Component : Type := mkComponent {
  cellsInBlob : list (nat * nat);
  totalDiff : Q;
  sumX : Q;
  sumY : Q
}.

(** [while (queue.length > 0)], at most [fuel] rounds. *)
Fixpoint flood (fuel : nat) (grid : Grid) (queue : list (nat * nat))
    (visited : list (list bool)) (acc : Component)
    : Component * list (list bool) :=
  match fuel with
  | O => (acc, visited)
  | S fuel' =>
      match queue with
      | [] => (acc, visited)
      | (x, y) :: queue' =>
          let acc' :=
            {| cellsInBlob := cellsInBlob acc ++ [(x, y)];
               totalDiff := totalDiff acc + Cell.avgDiff (cellAt grid x y);
               sumX := sumX acc + inject_Z (Z.of_nat x);
               sumY := sumY acc + inject_Z (Z.of_nat y) |} in
          let '(queue'', visited') :=
            fold_left (visitNeighbor grid x y) neighbors (queue', visited) in
          flood fuel' grid queue'' visited' acc'
      end
  end.

(** The motion cells the flood fills have not reached yet. *)
Definition unvisitedMotion (grid : Grid) (visited : list (list bool)) : nat :=
  length
    (filter (fun c => Cell.motion (cellAt grid (fst c) (snd c))
                      && negb (isVisited visited (fst c) (snd c)))
       (coords gridWidth gridHeight)).

(** The blob object pushed for a component. *)
Definition toBlob (acc : Component) : CellBlob.t :=
  let n := inject_Z (Z.of_nat (length (cellsInBlob acc))) in
  let g := inject_Z (Z.of_nat (gridSize cfg)) in
  CellBlob.mk (sumX acc / n * g + g / 2) (sumY acc / n * g + g / 2)
    (totalDiff acc / n) (length (cellsInBlob acc)).

(** The body of the scan loops at cell [(x, y)]. *)
Definition scanCell (fuel : nat) (grid : Grid) (y : nat)
    (st : list CellBlob.t * list (list bool)) (x : nat)
    : list CellBlob.t * list (list bool) :=
  let '(blobs, visited) := st in
  if Cell.motion (cellAt grid x y) && negb (isVisited visited x y) then
    let '(acc, visited') :=
      flood fuel grid [(x, y)] (markVisited visited x y)
        (mkComponent [] 0 0 0) in
    if (minGridsForBlob cfg <=? length (cellsInBlob acc))%nat then
      (blobs ++ [toBlob acc], visited')
    else (blobs, visited')
  else st.

(** The blobs pushed by the scan of the grid, in the order of discovery. *)
Definition discoveredWith (fuel : nat) (grid : Grid) : list CellBlob.t :=
  fst (fold_left
         (fun st y => fold_left (scanCell fuel grid y) (seq 0 gridWidth) st)
         (seq 0 gridHeight)
         ([], repeat (repeat false gridWidth) gridHeight)).

(** One round per cell is all a flood fill can use. *)
Definition discovered : list CellBlob.t :=
  discoveredWith (gridWidth * gridHeight) motionGrid.

Definition findMotionBlobs : list CellBlob.t :=
  largest CellBlob.size (maxBlobs cfg) discovered.

End Detector.

End CellGrid.

(** ** Connected components *)

(** Two grid positions are 4-neighbours. *)
Definition adjacent (p q : nat * nat) : Prop :=
  (snd p = snd q /\ (fst q = S (fst p) \/ fst p = S (fst q)))
  \/ (fst p = fst q /\ (snd q = S (snd p) \/ snd p = S (snd q))).

(** The list starts with a seed, and every later position is a
    4-neighbour of a position before it. *)
Inductive spreads : list (nat * nat) -> Prop :=
| spreads_seed : forall p, spreads [p]
| spreads_step : forall l p q,
    spreads l -> In p l -> adjacent p q -> spreads (l ++ [q]).

Definition sumQ (l : list Q) : Q := fold_right Qplus 0 l.

Definition sumNat (l : list nat) : Q :=
  sumQ (map (fun n => inject_Z (Z.of_nat n)) l).

(** Where a pixel record lies. *)
Definition pixelPlace (p : Pixel.t) : nat * nat := (Pixel.x p, Pixel.y p).

Section PixelComponents.

Variable width height : nat.
Variable motionPixels : list Q.

(** The position of the pixel of index [i]. *)
Definition placeOf (i : nat) : nat * nat :=
  ((i mod width)%nat, (i / width)%nat).

(** The record the flood fill pushes for the pixel of index [i]. *)
Definition pixelAt (i : nat) : Pixel.t :=
  Pixel.mk (i mod width) (i / width) (nth i motionPixels 0).

(** [j] is a motion pixel of the frame next to [i]. *)
Definition motionNeighbour (i j : nat) : Prop :=
  (j < width * height)%nat
  /\ adjacent (placeOf i) (placeOf j)
  /\ PixelGrid.isMotion motionPixels j = true.

(** The blob under construction holds the records of the pixels [I], in
    that order, and their sums. *)
Definition gathers (blob : PixelBlob.t) (I : list nat) : Prop :=
  PixelBlob.pixels blob = map pixelAt I
  /\ PixelBlob.totalDiff blob == sumQ (map (fun i => nth i motionPixels 0) I)
  /\ PixelBlob.centerX blob == sumNat (map (fun i => (i mod width)%nat) I)
  /\ PixelBlob.centerY blob == sumNat (map (fun i => (i / width)%nat) I).

(** The state of a flood fill that started from the flags [V0]: the
    pixels taken so far, followed by the queue, spread from the seed
    without repetition over motion pixels that were not flagged before,
    the flags are those of [V0] and of these pixels, and every motion
    neighbour of a pixel already taken is flagged. *)
Definition floodInv (V0 : list bool) (queue : list nat) (visited : list bool)
    (blob : PixelBlob.t) : Prop :=
  exists I,
    gathers blob I
    /\ spreads (map placeOf (I ++ queue))
    /\ NoDup (I ++ queue)
    /\ (forall i, In i (I ++ queue) ->
          PixelGrid.isMotion motionPixels i = true
          /\ PixelGrid.isVisited V0 i = false)
    /\ (forall i, PixelGrid.isVisited visited i
                  = PixelGrid.isVisited V0 i
                    || existsb (Nat.eqb i) (I ++ queue))
    /\ (forall i j, In i I -> motionNeighbour i j ->
                    PixelGrid.isVisited visited j = true).

(** The blob pushed for the pixels [I]. *)
Definition finished (b : PixelBlob.t) (I : list nat) : Prop :=
  let n := inject_Z (Z.of_nat (length I)) in
  PixelBlob.pixels b = map pixelAt I
  /\ PixelBlob.totalDiff b == sumQ (map (fun i => nth i motionPixels 0) I)
  /\ PixelBlob.avgDiff b == PixelBlob.totalDiff b / n
  /\ PixelBlob.centerX b == sumNat (map (fun i => (i mod width)%nat) I) / n
  /\ PixelBlob.centerY b == sumNat (map (fun i => (i / width)%nat) I) / n.

(** A component: spread from a seed over flagged motion pixels, and
    holding every motion neighbour of its pixels. *)
Definition component (visited : list bool) (I : list nat) : Prop :=
  spreads (map placeOf I)
  /\ (forall i, In i I ->
        PixelGrid.isMotion motionPixels i = true
        /\ PixelGrid.isVisited visited i = true)
  /\ (forall i j, In i I -> motionNeighbour i j -> In j I).

(** The state of the scan: the blobs pushed so far are disjoint
    components, and the flagged pixels have their motion neighbours
    flagged. *)
Definition scanInv (blobs : list PixelBlob.t) (visited : list bool) : Prop :=
  (exists Is,
     Forall2 finished blobs Is
     /\ NoDup (concat Is)
     /\ Forall (component visited) Is)
  /\ (forall i j, PixelGrid.isVisited visited i = true ->
                  PixelGrid.isMotion motionPixels i = true ->
                  motionNeighbour i j ->
                  PixelGrid.isVisited visited j = true).

End PixelComponents.

Definition pairEqb (a b : nat * nat) : bool :=
  (fst a =? fst b)%nat && (snd a =? snd b)%nat.

Section CellComponents.

Variable cfg : CellGrid.Config.
Variable diffImage : Image.
Variable grid : CellGrid.Grid.

(** The cell lies in the grid and is marked as motion. *)
Definition motionCell (c : nat * nat) : Prop :=
  (fst c < CellGrid.gridWidth cfg diffImage)%nat
  /\ (snd c < CellGrid.gridHeight cfg diffImage)%nat
  /\ Cell.motion (CellGrid.cellAt grid (fst c) (snd c)) = true.

Definition visitedCell (visited : list (list bool)) (c : nat * nat) : bool :=
  CellGrid.isVisited visited (fst c) (snd c).

Definition intensity (c : nat * nat) : Q :=
  Cell.avgDiff (CellGrid.cellAt grid (fst c) (snd c)).

(** The state of a flood fill that started from the flags [V0]: the
    cells taken so far, followed by the queue, spread from the seed
    without repetition over motion cells that were not flagged before,
    the accumulators hold the sums over the cells taken, the flags are
    those of [V0] and of these cells, and every motion neighbour of a
    cell already taken is flagged. *)
Definition cellFloodInv (V0 : list (list bool)) (queue : list (nat * nat))
    (visited : list (list bool)) (acc : CellGrid.Component) : Prop :=
  shaped (CellGrid.gridWidth cfg diffImage)
    (CellGrid.gridHeight cfg diffImage) visited
  /\ CellGrid.totalDiff acc
     == sumQ (map intensity (CellGrid.cellsInBlob acc))
  /\ CellGrid.sumX acc == sumNat (map fst (CellGrid.cellsInBlob acc))
  /\ CellGrid.sumY acc == sumNat (map snd (CellGrid.cellsInBlob acc))
  /\ spreads (CellGrid.cellsInBlob acc ++ queue)
  /\ NoDup (CellGrid.cellsInBlob acc ++ queue)
  /\ (forall c, In c (CellGrid.cellsInBlob acc ++ queue) ->
        motionCell c /\ visitedCell V0 c = false)
  /\ (forall c, visitedCell visited c
                = visitedCell V0 c
                  || existsb (pairEqb c) (CellGrid.cellsInBlob acc ++ queue))
  /\ (forall c d, In c (CellGrid.cellsInBlob acc) -> motionCell d ->
                  adjacent c d -> visitedCell visited d = true).

(** The blob pushed for the component made of [cells]. *)
Definition described (b : CellBlob.t) (cells : list (nat * nat)) : Prop :=
  let n := inject_Z (Z.of_nat (length cells)) in
  let g := inject_Z (Z.of_nat (CellGrid.gridSize cfg)) in
  CellBlob.size b = length cells
  /\ CellBlob.avgDiff b == sumQ (map intensity cells) / n
  /\ CellBlob.centerX b == sumNat (map fst cells) / n * g + g / 2
  /\ CellBlob.centerY b == sumNat (map snd cells) / n * g + g / 2.

(** A component: spread from a seed over flagged motion cells, and
    holding every motion neighbour of its cells. *)
Definition cellComponent (visited : list (list bool))
    (cells : list (nat * nat)) : Prop :=
  spreads cells
  /\ (forall c, In c cells -> motionCell c /\ visitedCell visited c = true)
  /\ (forall c d, In c cells -> motionCell d -> adjacent c d -> In d cells).

(** The state of the scan: the blobs pushed so far describe disjoint
    components, and the flagged cells have their motion neighbours
    flagged. *)
Definition cellScanInv (blobs : list CellBlob.t)
    (visited : list (list bool)) : Prop :=
  shaped (CellGrid.gridWidth cfg diffImage)
    (CellGrid.gridHeight cfg diffImage) visited
  /\ (exists comps,
        Forall2 described blobs comps
        /\ NoDup (concat comps)
        /\ Forall (cellComponent visited) comps)
  /\ (forall c d, visitedCell visited c = true -> motionCell c ->
                  motionCell d -> adjacent c d ->
                  visitedCell visited d = true).

(** The state of the scan, with what became of the flagged cells: each
    lies in the component of a blob pushed so far, or in a component too
    small to be pushed. *)
Definition cellCovered (blobs : list CellBlob.t)
    (visited : list (list bool)) : Prop :=
  exists comps,
    Forall2 described blobs comps
    /\ NoDup (concat comps)
    /\ Forall (cellComponent visited) comps
    /\ (forall c, visitedCell visited c = true ->
          In c (concat comps)
          \/ (exists small,
                In c small
                /\ (length small < CellGrid.minGridsForBlob cfg)%nat
                /\ cellComponent visited small)).

End CellComponents.

(** ** Sample inputs *)

(** An image given by its alpha bytes, row by row. *)
Definition imageOfAlphas (w h : nat) (alphas : list Z) : Image :=
  mkImage w h (flat_map (fun a => [255; 255; 255; a]%Z) alphas).

(** Ten by ten pixels, one full cell of the Night Shift grid: a single
    pixel differs, by 50. *)
Definition oneBrightPixel : Image :=
  imageOfAlphas 10 10 (50%Z :: repeat 0%Z 99).

(** One grey frame of two pixels. *)
Definition greyFrame : Image :=
  mkImage 2 1 [90; 90; 90; 255; 120; 120; 120; 255]%Z.

Definition blobAt (cx cy : Q) : Blob := mkBlob cx cy 40.

(** Clock and random values: two draws in a first tick, two in the tick
    that follows 33 ms later. *)
Definition firstDraw : Entropy := mkEntropy 1745600000000 417.
Definition firstDraw' : Entropy := mkEntropy 1745600000000 52.
Definition secondDraw : Entropy := mkEntropy 1745600000033 903.
Definition secondDraw' : Entropy := mkEntropy 1745600000033 268.

Definition sampleTrail : Trail :=
  {| positions := [Pos.mk 105 105 (Rat 0) 40 247];
     velocity := Vec.mk 0 0;
     smoothedPosition := Vec.mk 105 105;
     speed := Rat 0;
     active := true |}.

Definition sampleTrails : Trails :=
  [("blob_1745600000000_417"%string, sampleTrail)].

(** The trail map after one tick with a single blob at (105, 105). *)
Definition afterOneTick : Trails :=
  Eval vm_compute in
    match trackBlobs nightShift [(blobAt 105 105, firstDraw)] [] with
    | Some m => m
    | None => []
    end.

(** A trail object whose smoothed position is the origin. *)
Definition originTrail : Trail := newTrail (blobAt 0 0).

(** Thirty-two ticks: a far blob in the first, none afterwards. *)
Definition quietFrames : list (list (Blob * Entropy)) :=
  [(blobAt 405 405, secondDraw)] :: repeat [] 31.

(** The ids and ages of a trail map, for display. *)
Definition agesOf (m : Trails) : list (string * list Z) :=
  map (fun kt => (fst kt, map Pos.age (positions (snd kt)))) m.

(** ** The count of active trails *)

(** [Object.keys(motionTrails).filter((id) => motionTrails[id].active).length],
    the count [draw] prints as "Detected motion areas". *)
Definition activeCount (m : Trails) : nat :=
  length (filter (fun kt => active (snd kt)) m).

(** ** [draw]

    [draw] copies the video frame, blurs it, finds the blobs that differ
    from the previous frame, tracks them, renders, and keeps the frame
    for the next call.  The definitions below give what a call does to
    [prevFrame] and [motionTrails] once the video is loaded; [currFrame]
    is the blurred copy of the video frame.  Rendering changes neither. *)

(** [trackBlobs(blobs)]: [entropy k] is what the clock and the random
    generator return while the [k]-th blob is processed. *)
Definition trackAll (cfg : Config) (entropy : nat -> Entropy)
    (blobs : list Blob) (m : Trails) : option Trails :=
  trackBlobs cfg (combine blobs (map entropy (seq 0 (length blobs)))) m.

(** The pixel-grid [draw]; the last component is the count it prints as
    "Detected motion areas". *)
Definition pixelDraw (cfg : PixelGrid.Config) (tracker : Config)
    (width height : nat) (entropy : nat -> Entropy) (currFrame : list Z)
    (st : list Z * Trails) : option (list Z * Trails * nat) :=
  let '(prevFrame, m) := st in
  let motionPixels :=
    PixelGrid.differenceFrames cfg width height currFrame prevFrame in
  let blobs := PixelGrid.findMotionBlobs cfg width height motionPixels in
  match trackAll tracker entropy (map PixelBlob.tracked blobs) m with
  | None => None
  | Some m' => Some (currFrame, m', activeCount m')
  end.

(** The cell-grid [draw]. *)
Definition cellDraw (cfg : CellGrid.Config) (tracker : Config)
    (entropy : nat -> Entropy) (currFrame : Image) (st : Image * Trails)
    : option (Image * Trails) :=
  let '(prevFrame, m) := st in
  let diffImage := createDifferenceImage currFrame prevFrame in
  let blobs := CellGrid.findMotionBlobs cfg diffImage in
  match trackAll tracker entropy (map CellBlob.tracked blobs) m with
  | None => None
  | Some m' => Some (currFrame, m')
  end.

(** ** Rendering *)

(** The colour channel [Math.max(0, 255 - (speed / maxSpeed) * 255)] that
    [drawTrails] and [drawBlobs] pass as green and blue, kept symbolic
    like the square root it is computed from. *)
Record Shade : Type := mkShade { shadeSpeed : Num; shadeMax : Q }.

(** [stroke(255, green, blue, alpha); strokeWeight(3);
    line(x1, y1, x2, y2)] *)
Record Stroke : Type := mkStroke {
  strokeShade : Shade;
  strokeAlpha : Z;
  lineX1 : Q;
  lineY1 : Q;
  lineX2 : Q;
  lineY2 : Q
}.

(** [fill(255, green, blue); noStroke(); ellipse(x, y, 15, 15)] *)
Record Dot : Type := mkDot { dotShade : Shade; dotX : Q; dotY : Q }.

Section Rendering.

(** How a coordinate of the video becomes one of the canvas: unchanged in
    the pixel-grid sketch, multiplied by [scaleX] and [scaleY] in the
    cell-grid sketch. *)
Variable onCanvasX onCanvasY : Q -> Q.

(** 15 in the pixel-grid sketch, [MAX_SPEED_FOR_COLOR] in the other. *)
Variable maxSpeedForColor : Q.

(** [for (let i = 0; i < trail.positions.length - 1; i++)]: one line
    from each position to the next. *)
Fixpoint trailStrokes (ps : list Pos.t) : list Stroke :=
  match ps with
  | pos :: (nextPos :: _) as rest =>
      mkStroke (mkShade (Pos.speed pos) maxSpeedForColor) (Pos.age pos)
        (onCanvasX (Pos.x pos)) (onCanvasY (Pos.y pos))
        (onCanvasX (Pos.x nextPos)) (onCanvasY (Pos.y nextPos))
      :: trailStrokes rest
  | _ => []
  end.

(** The lines [drawTrails] draws, in order. *)
Definition drawTrails (m : Trails) : list Stroke :=
  flat_map (fun kt => trailStrokes (positions (snd kt))) m.

(** The dots the cell-grid [drawBlobs] draws, in order. *)
Definition drawBlobs (m : Trails) : list Dot :=
  flat_map
    (fun kt =>
       let trail := snd kt in
       if active trail && (0 <? length (positions trail))%nat then
         match lastOf (positions trail) with
         | Some lastPos =>
             [mkDot (mkShade (speed trail) maxSpeedForColor)
                (onCanvasX (Pos.x lastPos)) (onCanvasY (Pos.y lastPos))]
         | None => []
         end
       else [])
    m.

End Rendering.

Section TrackerShape.

Variable cfg : Config.

(** The ages of a trail never decrease from the oldest record to the
    newest, none exceeds [hi], and each is 255 minus a multiple of the
    decay. *)
Definition agesRegular (hi : Z) (t : Trail) : Prop :=
  StronglySorted Z.le (map Pos.age (positions t))
  /\ Forall (fun pos => (Pos.age pos <= hi)%Z
                        /\ (trailDecay cfg | 255 - Pos.age pos)%Z)
       (positions t).

(** The newest record of the trail carries its current smoothed position
    and speed. *)
Definition headsTrail (t : Trail) : Prop :=
  exists pos,
    lastOf (positions t) = Some pos
    /\ Pos.x pos = Vec.x (smoothedPosition t)
    /\ Pos.y pos = Vec.y (smoothedPosition t)
    /\ Pos.speed pos = speed t.

(** The trail object with its [active] flag cleared. *)
Definition inactive (t : Trail) : Trail :=
  {| positions := positions t; velocity := velocity t;
     smoothedPosition := smoothedPosition t; speed := speed t;
     active := false |}.

(** What the aging loop leaves of one trail object: nothing when no
    position keeps a positive age. *)
Definition agedTrail (t : Trail) : option Trail :=
  match agePositions cfg (positions t) with
  | [] => None
  | ps => Some {| positions := ps; velocity := velocity t;
                  smoothedPosition := smoothedPosition t; speed := speed t;
                  active := active t |}
  end.

End TrackerShape.

(** ** Trail ids *)

(** The string holds no underscore, as the decimal numerals do. *)
Fixpoint underscoreFree (s : string) : bool :=
  match s with
  | EmptyString => true
  | String c rest => negb (Ascii.eqb c "_"%char) && underscoreFree rest
  end.

(** ** More sample inputs *)


(** The grey frame with its two pixels exchanged. *)
Definition swappedFrame : Image :=
  mkImage 2 1 [120; 120; 120; 255; 90; 90; 90; 255]%Z.

(** Two frames of one pixel whose brightnesses, [74.852] and [54.352],
    differ by [20.5] in exact arithmetic. *)
Definition tieFrame : Image := mkImage 1 1 [0; 92; 126; 255]%Z.
Definition tieFrame' : Image := mkImage 1 1 [254; 0; 7; 255]%Z.

(** The difference of their brightnesses as the program computes it. *)
Definition tieChange : Q := 5770237022568450 # 281474976710656.

(** The motion map of a frame of 21 by 10 pixels that all changed by 31
    on average, and the blob found in it. *)
Definition motionField : list Q := repeat 31 210.

Definition fieldBlob : PixelBlob.t :=
  Eval vm_compute in
    hd (PixelBlob.mk [] 0 0 0 0)
      (PixelGrid.findMotionBlobs PixelGrid.sketch 21 10 motionField).

(** The blob found in the image with one bright pixel. *)
Definition brightCellBlob : CellBlob.t :=
  Eval vm_compute in
    hd (CellBlob.mk 0 0 0 0)
      (CellGrid.findMotionBlobs CellGrid.sketch oneBrightPixel).

(** Two frames of 21 by 10 pixels, uniformly grey, and the values of
    the clock and the random generator during one call of [draw]. *)
Definition lightFrame : list Z := repeat 120%Z 840.
Definition darkFrame : list Z := repeat 20%Z 840.

Definition sampleEntropy (k : nat) : Entropy :=
  mkEntropy 1745600000066 (N.of_nat (417 + 31 * k)).

(** A canvas twice as large as the video. *)
Definition twice (q : Q) : Q := q * 2.

(** Two ticks: one blob, then the same blob ten pixels to the right
    together with a second one far away. *)
Definition secondFrame : list (Blob * Entropy) :=
  [(blobAt 115 105, secondDraw); (blobAt 405 405, secondDraw')].

Definition afterTwoTicks : Trails :=
  Eval vm_compute in
    match trackBlobs nightShift secondFrame afterOneTick with
    | Some m => m
    | None => []
    end.

(** The first trail after the second tick. *)
Definition movedTrail : Trail :=
  Eval vm_compute in
    match lookup "blob_1745600000000_417"%string afterTwoTicks with
    | Some t => t
    | None => originTrail
    end.

(** A tick whose only blob is far from the first trail. *)
Definition farFrame : list (Blob * Entropy) :=
  [(blobAt 405 405, secondDraw')].

Definition afterFarTick : Trails :=
  Eval vm_compute in
    match trackBlobs nightShift farFrame afterOneTick with
    | Some m => m
    | None => []
    end.

(** Binary64: a blob at the origin, a blob at (3, 0) in the next tick,
    which is bound to the trail of the first. *)
Definition blob64 (cx cy : Double.t) : Tracker64.Blob :=
  Tracker64.mkBlob cx cy (Double.ofZ 40).

Definition driftFrames : list (list (Tracker64.Blob * Entropy)) :=
  [[(blob64 (Double.ofZ 0) (Double.ofZ 0), firstDraw)];
   [(blob64 (Double.ofZ 3) (Double.ofZ 0), secondDraw)]].

(** The trail map after these two ticks: the last position of its one
    trail is at [x = 0 * 0.8 + 3 * (1 - 0.8)], which is
    [0.5999999999999999]. *)
Definition drifted : Tracker64.Trails :=
  Eval vm_compute in
    match Tracker64.ticks Tracker64.nightShift driftFrames [] with
    | Some m => m
    | None => []
    end.

(** A blob at (100.6, 0). *)
Definition farBlob : Tracker64.Blob :=
  blob64 (Double.decimal 1006 10) (Double.ofZ 0).

(** A blob at (60, 0). *)
Definition nearBlob : Tracker64.Blob :=
  blob64 (Double.ofZ 60) (Double.ofZ 0).

(** Clock and random values of a third tick. *)
Definition thirdDraw : Entropy := mkEntropy 1745600000066 731.

(** * Proofs *)

(** ** Rationals and symbolic roots *)

Lemma Qltb_lt (a b : Q) : Qltb a b = true <-> a < b.
Proof.
  unfold Qltb. rewrite negb_true_iff. split; intro H.
  - apply Qnot_le_lt. intro Hle. apply Qle_bool_iff in Hle. congruence.
  - destruct (Qle_bool b a) eqn:E; [|reflexivity].
    apply Qle_bool_iff in E. exfalso. exact (Qlt_not_le _ _ H E).
Qed.

Lemma Qltb_ge (a b : Q) : Qltb a b = false <-> b <= a.
Proof.
  unfold Qltb. rewrite negb_false_iff. apply Qle_bool_iff.
Qed.

Lemma Sqrt_lt_trans (a b : Q) (n : Num) :
  Num_ltb (Sqrt a) (Sqrt b) = true -> Num_ltb (Sqrt b) n = true ->
  Num_ltb (Sqrt a) n = true.
Proof.
  destruct n as [q|c]; simpl; intros Hab Hbn.
  - apply andb_true_iff in Hbn. destruct Hbn as [Hq Hb].
    apply andb_true_iff. split; [assumption|].
    apply Qltb_lt in Hab, Hb. apply Qltb_lt. eapply Qlt_trans; eassumption.
  - apply Qltb_lt in Hab, Hbn. apply Qltb_lt. eapply Qlt_trans; eassumption.
Qed.

Lemma Sqrt_lt_below (a b : Q) (n : Num) :
  Num_ltb (Sqrt a) n = true -> Num_ltb (Sqrt b) n = false ->
  Num_ltb (Sqrt a) (Sqrt b) = true.
Proof.
  destruct n as [q|c]; simpl; intros Ha Hb.
  - apply andb_true_iff in Ha. destruct Ha as [Hq Ha]. rewrite Hq in Hb.
    simpl in Hb. apply Qltb_lt in Ha. apply Qltb_ge in Hb. apply Qltb_lt.
    eapply Qlt_le_trans; eassumption.
  - apply Qltb_lt in Ha. apply Qltb_ge in Hb. apply Qltb_lt.
    eapply Qlt_le_trans; eassumption.
Qed.

Lemma Sqrt_lt_asym (a b : Q) :
  Num_ltb (Sqrt a) (Sqrt b) = true -> Num_ltb (Sqrt b) (Sqrt a) = false.
Proof.
  simpl. intro H. apply Qltb_lt in H. apply Qltb_ge. apply Qlt_le_weak, H.
Qed.

(** ** The association list *)

Lemma lastOf_snoc (A : Type) (l : list A) (a : A) : lastOf (l ++ [a]) = Some a.
Proof.
  unfold lastOf. rewrite length_app. simpl.
  replace (length l + 1 - 1)%nat with (length l) by lia.
  rewrite nth_error_app2 by lia. rewrite Nat.sub_diag. reflexivity.
Qed.

Lemma lastOf_nonempty (A : Type) (l : list A) :
  l <> [] -> exists a, lastOf l = Some a.
Proof.
  intro H. destruct (exists_last H) as [l' [a ->]].
  exists a. apply lastOf_snoc.
Qed.

Lemma keys_alter (f : Trail -> Trail) (id : string) (m : Trails) :
  keys (alter f id m) = keys m.
Proof.
  induction m as [|[k u] rest IH]; simpl; [reflexivity|].
  destruct (String.eqb k id); simpl; [reflexivity|]. now rewrite IH.
Qed.

Lemma keys_assign (id : string) (t : Trail) (m : Trails) :
  keys (assign id t m) = if existsb (String.eqb id) (keys m) then keys m
                         else keys m ++ [id].
Proof.
  induction m as [|[k u] rest IH]; simpl; [reflexivity|].
  rewrite (String.eqb_sym id k).
  destruct (String.eqb k id) eqn:E; simpl; [reflexivity|].
  rewrite IH. now destruct (existsb (String.eqb id) (keys rest)).
Qed.

Lemma existsb_eqb_In (id : string) (l : list string) :
  existsb (String.eqb id) l = true <-> In id l.
Proof.
  rewrite existsb_exists. split.
  - intros [x [Hx E]]. apply String.eqb_eq in E. now subst.
  - intro H. exists id. split; [assumption|apply String.eqb_refl].
Qed.

Lemma has_In (ids : list string) (id : string) :
  has ids id = true <-> In id ids.
Proof. apply existsb_eqb_In. Qed.

Lemma has_not_In (ids : list string) (id : string) :
  has ids id = false <-> ~ In id ids.
Proof.
  rewrite <- has_In. destruct (has ids id); split; intro H;
    congruence || (intro; congruence) || (exfalso; now apply H).
Qed.

Lemma NoDup_keys_assign (id : string) (t : Trail) (m : Trails) :
  NoDup (keys m) -> NoDup (keys (assign id t m)).
Proof.
  intro H. rewrite keys_assign.
  destruct (existsb (String.eqb id) (keys m)) eqn:E; [assumption|].
  apply NoDup_app; [assumption|constructor; [intros []|constructor]| ].
  intros x Hx [<-|[]].
  apply existsb_eqb_In in Hx. congruence.
Qed.

Lemma In_alter_other (f : Trail -> Trail) (id0 id : string) (t : Trail)
    (m : Trails) :
  id <> id0 -> (In (id, t) (alter f id0 m) <-> In (id, t) m).
Proof.
  intro Hne. induction m as [|[k u] rest IH]; simpl; [tauto|].
  destruct (String.eqb k id0) eqn:E; simpl.
  - apply String.eqb_eq in E. subst k. split; intros [H|H]; auto;
      inversion H; congruence.
  - rewrite IH. tauto.
Qed.

Lemma In_assign_other (id0 id : string) (t0 t : Trail) (m : Trails) :
  id <> id0 -> (In (id, t) (assign id0 t0 m) <-> In (id, t) m).
Proof.
  intro Hne. induction m as [|[k u] rest IH]; simpl.
  - split; [intros [H|[]]; inversion H; congruence|tauto].
  - destruct (String.eqb k id0) eqn:E; simpl.
    + apply String.eqb_eq in E. subst k. split; intros [H|H]; auto;
        inversion H; congruence.
    + rewrite IH. tauto.
Qed.

Lemma Forall_alter (P : string * Trail -> Prop) (f : Trail -> Trail)
    (id : string) (m : Trails) :
  (forall t, P (id, t) -> P (id, f t)) ->
  Forall P m -> Forall P (alter f id m).
Proof.
  intros Hf. induction 1 as [|[k u] rest Hh Ht IH]; simpl; [constructor|].
  destruct (String.eqb k id) eqn:E.
  - apply String.eqb_eq in E. subst k. constructor; auto.
  - constructor; auto.
Qed.

Lemma Forall_assign (P : string * Trail -> Prop) (id : string) (t : Trail)
    (m : Trails) :
  P (id, t) -> Forall P m -> Forall P (assign id t m).
Proof.
  intros Ht. induction 1 as [|[k u] rest Hh Hr IH]; simpl.
  - repeat constructor. assumption.
  - destruct (String.eqb k id) eqn:E.
    + apply String.eqb_eq in E. subst k. constructor; auto.
    + constructor; auto.
Qed.

Lemma lookup_assign_same (id : string) (t : Trail) (m : Trails) :
  lookup id (assign id t m) = Some t.
Proof.
  induction m as [|[k u] rest IH]; simpl.
  - now rewrite String.eqb_refl.
  - destruct (String.eqb k id) eqn:E; simpl; rewrite E; auto.
Qed.

Lemma lookup_alter_same (f : Trail -> Trail) (id : string) (m : Trails) :
  lookup id (alter f id m) = option_map f (lookup id m).
Proof.
  induction m as [|[k u] rest IH]; simpl; [reflexivity|].
  destruct (String.eqb k id) eqn:E; simpl; rewrite E; auto.
Qed.

Lemma lookup_split (l1 l2 : Trails) (id : string) (t : Trail) :
  ~ In id (keys l1) -> lookup id (l1 ++ (id, t) :: l2) = Some t.
Proof.
  induction l1 as [|[k u] rest IH]; simpl; intro H.
  - now rewrite String.eqb_refl.
  - destruct (String.eqb k id) eqn:E.
    + apply String.eqb_eq in E. subst. exfalso. apply H. now left.
    + apply IH. intro. apply H. now right.
Qed.

Lemma makeId_truthy (e : Entropy) : makeId e <> ""%string.
Proof. unfold makeId. simpl. discriminate. Qed.

(** ** The nearest-trail scan *)

Section Scan.

Variable cfg : Config.
Variable blob : Blob.
Variable ids : list string.

(** What the scan returns from an arbitrary loop state: either nothing
    beats the incoming best, or the result is the first of the nearest
    unmatched trails. *)
Lemma scanTrails_spec (m : Trails) :
  Forall (fun kt => positions (snd kt) <> []) m ->
  forall (bestMatch : option string) (bestDistance : Num),
  exists r, scanTrails blob ids m bestMatch bestDistance = Some r
  /\ ((r = bestMatch
       /\ forall kt, In kt m -> unmatched ids kt ->
                     ~ within bestDistance blob (snd kt))
      \/ exists l1 id t l2,
           m = l1 ++ (id, t) :: l2 /\ r = Some id
           /\ has ids id = false
           /\ within bestDistance blob t
           /\ (forall kt, In kt l1 -> unmatched ids kt ->
                          nearer blob t (snd kt))
           /\ (forall kt, In kt l2 -> unmatched ids kt ->
                          notFarther blob t (snd kt))).
Proof.
  induction 1 as [|[id0 t0] rest Hne Hrest IH]; intros bm bd;
    cbn [scanTrails].
  - exists bm. split; [reflexivity|]. left. split; [reflexivity|].
    intros kt [].
  - destruct (has ids id0) eqn:Hhas.
    + destruct (IH bm bd) as [r [Hr Hcase]]. exists r. split; [exact Hr|].
      destruct Hcase as [[-> Hnone]|[l1 [id [t [l2 Hb]]]]].
      * left. split; [reflexivity|]. intros kt [<-|Hin] Hu; auto.
        unfold unmatched in Hu. simpl in Hu. congruence.
      * destruct Hb as [-> [-> [Hid [Hw [H1 H2]]]]].
        right. exists ((id0, t0) :: l1), id, t, l2.
        repeat split; auto.
        intros kt [<-|Hin] Hu; auto.
        unfold unmatched in Hu. simpl in Hu. congruence.
    + simpl in Hne. destruct (lastOf_nonempty Hne) as [p0 Hp0]. rewrite Hp0.
      destruct (Num_ltb (distanceTo blob p0) bd) eqn:Hlt.
      * destruct (IH (Some id0) (distanceTo blob p0)) as [r [Hr Hcase]].
        exists r. split; [exact Hr|]. right.
        destruct Hcase as [[-> Hnone]|[l1 [id [t [l2 Hb]]]]].
        -- exists [], id0, t0, rest. repeat split; auto.
           ++ unfold within, distanceOf. rewrite Hp0. exact Hlt.
           ++ intros kt [].
           ++ intros kt Hin Hu. specialize (Hnone kt Hin Hu).
              unfold notFarther, within, distanceOf in *. rewrite Hp0. simpl.
              rewrite Forall_forall in Hrest.
              destruct (lastOf_nonempty (Hrest kt Hin)) as [p Hp].
              rewrite Hp in *. simpl in *. unfold Num_le, Num_lt in *.
              destruct (Num_ltb (distanceTo blob p) (distanceTo blob p0));
                [exfalso; now apply Hnone|reflexivity].
        -- destruct Hb as [-> [-> [Hid [Hw [H1 H2]]]]].
           exists ((id0, t0) :: l1), id, t, l2. repeat split; auto.
           ++ unfold within, distanceOf in *.
              destruct (lastOf (positions t)) as [p|]; [|contradiction].
              simpl in *. unfold Num_lt in *.
              eapply Sqrt_lt_trans; [exact Hw|exact Hlt].
           ++ intros kt [<-|Hin] Hu; auto.
              unfold nearer, within, distanceOf in *. simpl. rewrite Hp0.
              destruct (lastOf (positions t)) as [p|]; [|contradiction].
              exact Hw.
      * destruct (IH bm bd) as [r [Hr Hcase]]. exists r. split; [exact Hr|].
        destruct Hcase as [[-> Hnone]|[l1 [id [t [l2 Hb]]]]].
        -- left. split; [reflexivity|]. intros kt [<-|Hin] Hu; auto.
           unfold within, distanceOf. simpl. rewrite Hp0. simpl.
           unfold Num_lt. congruence.
        -- destruct Hb as [-> [-> [Hid [Hw [H1 H2]]]]].
           right. exists ((id0, t0) :: l1), id, t, l2. repeat split; auto.
           intros kt [<-|Hin] Hu; auto.
           unfold nearer, within, distanceOf in *. simpl. rewrite Hp0.
           destruct (lastOf (positions t)) as [p|]; [|contradiction].
           simpl in *. unfold Num_lt in *.
           eapply Sqrt_lt_below; [exact Hw|exact Hlt].
Qed.

(** The scan returns the incoming best or the key of an unmatched entry. *)
Lemma scanTrails_result (m : Trails) (bestMatch : option string)
    (bestDistance : Num) (r : option string) :
  scanTrails blob ids m bestMatch bestDistance = Some r ->
  r = bestMatch
  \/ exists id, r = Some id /\ In id (keys m) /\ has ids id = false.
Proof.
  revert bestMatch bestDistance.
  induction m as [|[id0 t0] rest IH]; intros bm bd; cbn [scanTrails].
  - intro H. inversion H. now left.
  - destruct (has ids id0) eqn:Hhas.
    + intro H. destruct (IH _ _ H) as [->|[id [-> [Hin Hid]]]]; [now left|].
      right. exists id. simpl. auto.
    + destruct (lastOf (positions t0)) as [p0|]; [|discriminate].
      destruct (Num_ltb (distanceTo blob p0) bd).
      * intro H. right.
        destruct (IH _ _ H) as [->|[id [-> [Hin Hid]]]].
        -- exists id0. simpl. auto.
        -- exists id. simpl. auto.
      * intro H. destruct (IH _ _ H) as [->|[id [-> [Hin Hid]]]];
          [now left|].
        right. exists id. simpl. auto.
Qed.

End Scan.

(** ** Statements of the tracker, one by one *)

Section Statements.

Variable cfg : Config.

Lemma updateTrailObject_positions (blob : Blob) (t : Trail) :
  exists pos,
    Pos.age pos = 255%Z
    /\ Pos.diff pos = avgDiff blob
    /\ positions (updateTrailObject cfg blob t)
       = if (maxTrailLength cfg <? length (positions t ++ [pos]))%nat
         then tl (positions t ++ [pos]) else positions t ++ [pos].
Proof.
  unfold updateTrailObject.
  destruct (match lastOf (positions t) with
            | Some lastPos => _ | None => _ end) as [vx vy].
  simpl. eexists. split; [|split]; [| |reflexivity]; reflexivity.
Qed.

Lemma alter_assign (f : Trail -> Trail) (id : string) (t : Trail)
    (m : Trails) :
  alter f id (assign id t m) = assign id (f t) m.
Proof.
  induction m as [|[k u] rest IH]; simpl.
  - now rewrite String.eqb_refl.
  - destruct (String.eqb k id) eqn:E; simpl; rewrite E; [reflexivity|].
    now rewrite IH.
Qed.

Lemma agePositions_le (ps : list Pos.t) :
  (length (agePositions cfg ps) <= length ps)%nat.
Proof.
  unfold agePositions. etransitivity; [apply filter_length_le|].
  now rewrite length_map.
Qed.

Lemma agePositions_ages (B : Z) (ps : list Pos.t) :
  Forall (fun pos => (Pos.age pos <= B)%Z) ps ->
  Forall (fun pos => (0 < Pos.age pos <= B - trailDecay cfg)%Z)
    (agePositions cfg ps).
Proof.
  intro H. unfold agePositions. apply Forall_forall. intros p Hp.
  apply filter_In in Hp. destruct Hp as [Hp Hpos].
  apply in_map_iff in Hp. destruct Hp as [q [<- Hq]].
  rewrite Forall_forall in H. specialize (H q Hq).
  apply Z.ltb_lt in Hpos. simpl in *. lia.
Qed.

(** Every entry that survives the aging loop is an entry of the map it
    started from, with its positions aged. *)
Lemma In_ageTrails (id : string) (t' : Trail) (m : Trails) :
  In (id, t') (ageTrails cfg m) ->
  exists t, In (id, t) m
    /\ positions t' = agePositions cfg (positions t)
    /\ positions t' <> [].
Proof.
  induction m as [|[k u] rest IH]; simpl; [intros []|].
  destruct (Nat.eqb_spec (length (agePositions cfg (positions u))) 0).
  - intro H. destruct (IH H) as [t [Hin Ht]]. exists t. auto.
  - intros [H|H].
    + inversion H; subst. exists u. simpl. repeat split; auto.
      intro E. rewrite E in n. now apply n.
    + destruct (IH H) as [t [Hin Ht]]. exists t. auto.
Qed.

Lemma keys_ageTrails (id : string) (m : Trails) :
  In id (keys (ageTrails cfg m)) -> In id (keys m).
Proof.
  unfold keys. rewrite !in_map_iff.
  intros [[k t'] [<- Hin]]. destruct (In_ageTrails _ _ _ Hin) as [t [Ht _]].
  now exists (k, t).
Qed.

Lemma NoDup_keys_ageTrails (m : Trails) :
  NoDup (keys m) -> NoDup (keys (ageTrails cfg m)).
Proof.
  induction m as [|[k u] rest IH]; simpl; intro H; [constructor|].
  inversion H as [|? ? Hk Hr]; subst.
  destruct (length (agePositions cfg (positions u)) =? 0)%nat; auto.
  simpl. constructor; auto. intro Hin. apply Hk.
  now apply keys_ageTrails.
Qed.

Lemma In_alter (f : Trail -> Trail) (id0 id : string) (t' : Trail)
    (m : Trails) :
  In (id, t') (alter f id0 m) ->
  In (id, t') m \/ (id = id0 /\ exists t, In (id, t) m /\ t' = f t).
Proof.
  induction m as [|[k u] rest IH]; simpl; [tauto|].
  destruct (String.eqb k id0) eqn:E; simpl.
  - apply String.eqb_eq in E. subst k. intros [H|H]; [|tauto].
    inversion H; subst. right. split; [reflexivity|]. exists u. auto.
  - intros [H|H]; [tauto|]. destruct (IH H) as [H'|[-> [t [Ht ->]]]]; auto.
    right. split; [reflexivity|]. exists t. auto.
Qed.

Lemma In_assign (id0 id : string) (t0 t' : Trail) (m : Trails) :
  In (id, t') (assign id0 t0 m) ->
  In (id, t') m \/ (id = id0 /\ t' = t0).
Proof.
  induction m as [|[k u] rest IH]; simpl.
  - intros [H|[]]. inversion H. auto.
  - destruct (String.eqb k id0) eqn:E; simpl.
    + apply String.eqb_eq in E. subst k. intros [H|H]; [|tauto].
      inversion H. auto.
    + intros [H|H]; [tauto|]. destruct (IH H); auto.
Qed.

Lemma updateTrailObject_ages (B : Z) (blob : Blob) (t : Trail) :
  (255 <= B)%Z ->
  Forall (fun pos => (Pos.age pos <= B)%Z) (positions t) ->
  Forall (fun pos => (Pos.age pos <= B)%Z)
    (positions (updateTrailObject cfg blob t)).
Proof.
  intros HB Ha.
  destruct (updateTrailObject_positions blob t) as [pos [Hage [_ ->]]].
  assert (Hall : Forall (fun pos => (Pos.age pos <= B)%Z)
                   (positions t ++ [pos])).
  { apply Forall_app. split; [assumption|]. repeat constructor. lia. }
  destruct (maxTrailLength cfg <? length (positions t ++ [pos]))%nat;
    [|assumption].
  destruct (positions t ++ [pos]); [constructor|]. now inversion Hall.
Qed.

(** What one run of the [forEach] callback does to the state. *)
Lemma matchBlob_cases (st st' : Matching) (blob : Blob) (e : Entropy) :
  matchBlob cfg st (blob, e) = Some st' ->
  exists id,
    updated st' = updated st ++ [id]
    /\ ((trails st' = alter (updateTrailObject cfg blob) id (trails st)
         /\ matchedTrailIds st' = id :: matchedTrailIds st
         /\ has (matchedTrailIds st) id = false
         /\ In id (keys (trails st)))
        \/ (trails st'
            = assign id (updateTrailObject cfg blob (newTrail blob)) (trails st)
            /\ matchedTrailIds st' = matchedTrailIds st
            /\ id = makeId e)).
Proof.
  unfold matchBlob.
  destruct (scanTrails blob (matchedTrailIds st) (trails st) None
              (Rat (maxMatchDistance cfg))) as [r|] eqn:E; [|discriminate].
  destruct (scanTrails_result _ _ _ _ _ E) as [->|[id [-> [Hin Hhas]]]].
  - simpl. intro H. inversion H; subst; clear H. simpl.
    exists (makeId e). split; [reflexivity|]. right.
    unfold updateTrail. rewrite alter_assign. auto.
  - unfold truthy. destruct (String.eqb id "").
    + intro H. inversion H; subst; clear H. simpl.
      exists (makeId e). split; [reflexivity|]. right.
      unfold updateTrail. rewrite alter_assign. auto.
    + intro H. inversion H; subst; clear H. simpl.
      exists id. split; [reflexivity|]. left. auto.
Qed.

Lemma agesBelow_matchBlob (id : string) (B : Z) (st st' : Matching)
    (be : Blob * Entropy) :
  matchBlob cfg st be = Some st' ->
  (255 <= B)%Z \/ ~ In id (updated st') ->
  agesBelow id B (trails st) -> agesBelow id B (trails st').
Proof.
  destruct be as [blob e]. intros E HB Ha.
  destruct (matchBlob_cases _ _ _ E) as [id0 [Hu Hcase]].
  assert (Hor : (255 <= B)%Z \/ id <> id0).
  { destruct HB as [HB|HB]; [now left|]. right. intros ->. apply HB.
    rewrite Hu. apply in_or_app. right. now left. }
  intros t' Hin.
  destruct Hcase as [[Ht _]|[Ht _]]; rewrite Ht in Hin.
  - apply In_alter in Hin. destruct Hin as [Hin|[-> [t [Hin ->]]]]; auto.
    destruct Hor as [HB'|Hne]; [|congruence].
    apply updateTrailObject_ages; auto.
  - apply In_assign in Hin. destruct Hin as [Hin|[-> ->]]; auto.
    destruct Hor as [HB'|Hne]; [|congruence].
    apply updateTrailObject_ages; [assumption|simpl; constructor].
Qed.

Lemma updated_grows (blobs : list (Blob * Entropy)) (st st' : Matching) :
  forEachBlob cfg blobs st = Some st' ->
  forall id, In id (updated st) -> In id (updated st').
Proof.
  revert st. induction blobs as [|[blob e] rest IH]; intros st;
    cbn [forEachBlob].
  - intros H. now inversion H.
  - destruct (matchBlob cfg st (blob, e)) as [st1|] eqn:E; [|discriminate].
    intros H id Hin. apply (IH _ H).
    destruct (matchBlob_cases _ _ _ E) as [id0 [-> _]].
    apply in_or_app. now left.
Qed.

Lemma agesBelow_forEachBlob (id : string) (B : Z)
    (blobs : list (Blob * Entropy)) (st st' : Matching) :
  forEachBlob cfg blobs st = Some st' ->
  (255 <= B)%Z \/ ~ In id (updated st') ->
  agesBelow id B (trails st) -> agesBelow id B (trails st').
Proof.
  revert st. induction blobs as [|[blob e] rest IH]; intros st;
    cbn [forEachBlob].
  - intros H. now inversion H.
  - destruct (matchBlob cfg st (blob, e)) as [st1|] eqn:E; [|discriminate].
    intros H HB Ha. apply (IH _ H HB).
    eapply agesBelow_matchBlob; [exact E| |assumption].
    destruct HB as [HB|HB]; [now left|]. right. intro Hin. apply HB.
    eapply updated_grows; eassumption.
Qed.

(** A trail is matched at most once in a tick: [matchedTrailIds] never
    holds an id twice. *)
Lemma matchedTrailIds_NoDup (blobs : list (Blob * Entropy))
    (st st' : Matching) :
  forEachBlob cfg blobs st = Some st' ->
  NoDup (matchedTrailIds st) -> NoDup (matchedTrailIds st').
Proof.
  revert st. induction blobs as [|[blob e] rest IH]; intros st;
    cbn [forEachBlob].
  - intros H. now inversion H.
  - destruct (matchBlob cfg st (blob, e)) as [st1|] eqn:E; [|discriminate].
    intros H Hnd. apply (IH _ H).
    destruct (matchBlob_cases _ _ _ E)
      as [id [_ [[_ [-> [Hhas _]]]|[_ [-> _]]]]]; [|exact Hnd].
    constructor; [|exact Hnd]. now apply has_not_In.
Qed.

Lemma agesBelow_markInactive (id : string) (B : Z) (m : Trails) :
  agesBelow id B m -> agesBelow id B (markInactive m).
Proof.
  intros Ha t Hin. unfold markInactive in Hin. apply in_map_iff in Hin.
  destruct Hin as [[k u] [Heq Hin]]. inversion Heq; subst. simpl.
  now apply Ha.
Qed.

(** Whatever survives the aging loop has a position of positive age. *)
Lemma ageTrails_alive (id : string) (t' : Trail) (m : Trails) :
  In (id, t') (ageTrails cfg m) ->
  exists pos, In pos (positions t') /\ (0 < Pos.age pos)%Z.
Proof.
  intro Hin. destruct (In_ageTrails _ _ _ Hin) as [t [Ht [Hps Hne]]].
  destruct (positions t') as [|pos ps] eqn:E; [congruence|].
  exists pos. split; [now left|].
  assert (Hp : In pos (agePositions cfg (positions t))).
  { rewrite <- Hps. now left. }
  unfold agePositions in Hp. apply filter_In in Hp.
  now apply Z.ltb_lt.
Qed.

Lemma lookup_None (id : string) (m : Trails) :
  (forall t, ~ In (id, t) m) -> lookup id m = None.
Proof.
  induction m as [|[k u] rest IH]; simpl; intro H; [reflexivity|].
  destruct (String.eqb k id) eqn:E.
  - apply String.eqb_eq in E. subst. exfalso. apply (H u). now left.
  - apply IH. intros t Hin. apply (H t). now right.
Qed.

End Statements.

(** ** The invariant is kept by every statement of [trackBlobs] *)

Section TrackerInvariant.

Variable cfg : Config.
Hypothesis Hlen : (1 <= maxTrailLength cfg)%nat.


Lemma updateTrailObject_ok (blob : Blob) (t : Trail) :
  (length (positions t) <= maxTrailLength cfg)%nat ->
  okTrail cfg (updateTrailObject cfg blob t).
Proof.
  intros Hl.
  destruct (updateTrailObject_positions cfg blob t) as [pos [Hage [_ Hps]]].
  unfold okTrail. rewrite Hps. clear Hps.
  rewrite length_app. simpl.
  destruct (Nat.ltb_spec (maxTrailLength cfg) (length (positions t) + 1)).
  - destruct (positions t) as [|a ps] eqn:E; simpl in *; [lia|].
    split.
    + destruct ps; discriminate.
    + rewrite length_app. simpl. lia.
  - split.
    + destruct (positions t); discriminate.
    + rewrite length_app. simpl. lia.
Qed.


Lemma Inv_updateTrail (id : string) (blob : Blob) (m : Trails) :
  Inv cfg m -> Inv cfg (updateTrail cfg id blob m).
Proof.
  intros [Hnd Hall]. split.
  - unfold updateTrail. now rewrite keys_alter.
  - apply Forall_alter; [|assumption].
    intros t [Hk [_ Hl]]. split; [assumption|].
    now apply updateTrailObject_ok.
Qed.

Lemma Inv_create (e : Entropy) (blob : Blob) (m : Trails) :
  Inv cfg m ->
  Inv cfg (updateTrail cfg (makeId e) blob
             (assign (makeId e) (newTrail blob) m)).
Proof.
  intros [Hnd Hall]. unfold updateTrail. rewrite alter_assign. split.
  - now apply NoDup_keys_assign.
  - apply Forall_assign; [|assumption]. split; [apply makeId_truthy|].
    apply updateTrailObject_ok; simpl; lia.
Qed.

Lemma keys_markInactive (m : Trails) : keys (markInactive m) = keys m.
Proof.
  unfold keys, markInactive. rewrite map_map. apply map_ext.
  now intros [k t].
Qed.

Lemma Inv_markInactive (m : Trails) : Inv cfg m -> Inv cfg (markInactive m).
Proof.
  intros [Hnd Hall]. split; [now rewrite keys_markInactive|].
  unfold markInactive. apply Forall_map.
  eapply Forall_impl; [|exact Hall]. now intros [k t].
Qed.


Lemma Inv_ageTrails (m : Trails) : Inv cfg m -> Inv cfg (ageTrails cfg m).
Proof.
  intros [Hnd Hall]. split; [now apply NoDup_keys_ageTrails|].
  apply Forall_forall. intros [k t'] Hin.
  destruct (In_ageTrails _ _ _ _ Hin) as [t [Ht [Hps Hne]]].
  rewrite Forall_forall in Hall. destruct (Hall _ Ht) as [Hk [_ Hl]].
  simpl in *. split; [assumption|]. split; [assumption|].
  rewrite Hps. etransitivity; [apply agePositions_le|assumption].
Qed.

Lemma alter_split (f : Trail -> Trail) (l1 l2 : Trails) (id : string)
    (t : Trail) :
  ~ In id (keys l1) ->
  alter f id (l1 ++ (id, t) :: l2) = l1 ++ (id, f t) :: l2.
Proof.
  induction l1 as [|[k u] rest IH]; simpl; intro H.
  - now rewrite String.eqb_refl.
  - destruct (String.eqb k id) eqn:E.
    + apply String.eqb_eq in E. subst. exfalso. apply H. now left.
    + rewrite IH; [reflexivity|]. intro. apply H. now right.
Qed.

Lemma updateTrailObject_active (blob : Blob) (t : Trail) :
  active (updateTrailObject cfg blob t) = true.
Proof.
  unfold updateTrailObject.
  now destruct (match lastOf (positions t) with
                | Some lastPos => _ | None => _ end).
Qed.

Lemma Inv_positions (m : Trails) :
  Inv cfg m -> Forall (fun kt => positions (snd kt) <> []) m.
Proof.
  intros [_ H]. eapply Forall_impl; [|exact H].
  intros kt [_ [Hne _]]. exact Hne.
Qed.

(** One blob: the callback succeeds, keeps the invariant, and either
    binds the blob to the nearest unmatched trail or starts a trail. *)
Lemma matchBlob_spec (st : Matching) (blob : Blob) (e : Entropy) :
  Inv cfg (trails st) ->
  exists st', matchBlob cfg st (blob, e) = Some st'
    /\ Inv cfg (trails st')
    /\ (bindsNearest cfg st st' blob \/ startsTrail cfg st st' blob e).
Proof.
  intro HI. unfold matchBlob.
  destruct (scanTrails_spec blob (matchedTrailIds st) (Inv_positions HI)
              None (Rat (maxMatchDistance cfg))) as [r [-> Hcase]].
  destruct Hcase as [[-> Hnone]|[l1 [id [t [l2 Hb]]]]].
  - simpl. eexists. split; [reflexivity|]. simpl. split.
    + now apply Inv_create.
    + right. unfold startsTrail. simpl. unfold updateTrail.
      rewrite alter_assign. auto.
  - destruct Hb as [Hm [-> [Hid [Hw [H1 H2]]]]].
    assert (Hk : id <> ""%string).
    { destruct HI as [_ Hall]. rewrite Forall_forall in Hall.
      apply (Hall (id, t)). rewrite Hm. apply in_elt. }
    assert (Hl1 : ~ In id (keys l1)).
    { destruct HI as [Hnd _]. rewrite Hm in Hnd. unfold keys in Hnd.
      rewrite map_app in Hnd. simpl in Hnd.
      apply NoDup_remove_2 in Hnd. intro Hin. apply Hnd.
      apply in_or_app. now left. }
    unfold truthy. apply String.eqb_neq in Hk. rewrite Hk.
    eexists. split; [reflexivity|]. simpl. split.
    + now apply Inv_updateTrail.
    + left. exists l1, id, t, l2. repeat split; auto.
      * unfold updateTrail. rewrite Hm. now apply alter_split.
      * apply updateTrailObject_active.
Qed.

Lemma forEachBlob_Inv (blobs : list (Blob * Entropy)) (st : Matching) :
  Inv cfg (trails st) ->
  exists st', forEachBlob cfg blobs st = Some st' /\ Inv cfg (trails st').
Proof.
  revert st. induction blobs as [|[blob e] rest IH]; intros st HI;
    cbn [forEachBlob].
  - now exists st.
  - destruct (matchBlob_spec st blob e HI) as [st1 [-> [HI1 _]]].
    now apply IH.
Qed.

(** A tick never raises from a state that satisfies the invariant. *)
Lemma trackBlobs_total (blobs : list (Blob * Entropy)) (m : Trails) :
  Inv cfg m ->
  exists m', trackBlobs cfg blobs m = Some m' /\ Inv cfg m'.
Proof.
  intro HI. unfold trackBlobs.
  destruct (forEachBlob_Inv blobs (startMatching m)) as [st [-> HI']].
  - simpl. now apply Inv_markInactive.
  - eexists. split; [reflexivity|]. now apply Inv_ageTrails.
Qed.

Lemma reachable_Inv (m : Trails) : reachable cfg m -> Inv cfg m.
Proof.
  induction 1 as [|m blobs m' _ IH E].
  - split; constructor.
  - destruct (trackBlobs_total blobs IH) as [m'' [E' HI]].
    congruence.
Qed.

End TrackerInvariant.

(** ** Ages under a positive decay *)

Section Ages.

Variable cfg : Config.
Hypothesis Hdecay : (0 < trailDecay cfg)%Z.

Lemma agesBelow_ageTrails (id : string) (B : Z) (m : Trails) :
  agesBelow id B m -> agesBelow id (B - trailDecay cfg) (ageTrails cfg m).
Proof.
  intros Ha t' Hin. destruct (In_ageTrails _ _ _ _ Hin) as [t [Ht [-> _]]].
  eapply Forall_impl; [|apply (agePositions_ages cfg (Ha _ Ht))].
  cbv beta. intros. lia.
Qed.


(** The aging loop spares no trail: at the end of a tick every recorded
    age, of bound and unbound trails alike, is at most 255 minus the
    decay. *)
Lemma trackBlobs_ages_all (blobs : list (Blob * Entropy)) (m m' : Trails) :
  trackBlobs cfg blobs m = Some m' -> Young m ->
  forall id, agesBelow id (255 - trailDecay cfg) m'.
Proof.
  unfold trackBlobs.
  destruct (forEachBlob cfg blobs (startMatching m)) as [st|] eqn:E;
    [|discriminate].
  intros H HY id. inversion H; subst; clear H.
  apply agesBelow_ageTrails.
  eapply agesBelow_forEachBlob; [exact E|left; apply Z.le_refl|].
  simpl. apply agesBelow_markInactive, HY.
Qed.

Lemma Young_trackBlobs (blobs : list (Blob * Entropy)) (m m' : Trails) :
  trackBlobs cfg blobs m = Some m' -> Young m -> Young m'.
Proof.
  intros E HY id t Hin.
  eapply Forall_impl; [|exact (trackBlobs_ages_all _ E HY id t Hin)].
  cbv beta. intros. lia.
Qed.

Lemma reachable_Young (m : Trails) : reachable cfg m -> Young m.
Proof.
  induction 1 as [|m blobs m' _ IH E].
  - intros id t [].
  - eapply Young_trackBlobs; eassumption.
Qed.


End Ages.

(** ** Eviction of a trail that is no longer matched *)

Lemma ceilDiv_covers (a d : Z) :
  (0 < d)%Z -> (0 < a)%Z ->
  (a <= Z.of_nat (Z.to_nat (ceilDiv a d)) * d)%Z.
Proof.
  intros Hd Ha. unfold ceilDiv.
  pose proof (Z.mul_succ_div_gt (a + d - 1) d Hd) as Hgt.
  assert (H0 : (0 <= (a + d - 1) / d)%Z) by (apply Z.div_pos; lia).
  rewrite Z2Nat.id by assumption. nia.
Qed.

Section Eviction.

Variable cfg : Config.
Hypothesis Hlen : (1 <= maxTrailLength cfg)%nat.
Hypothesis Hdecay : (0 < trailDecay cfg)%Z.

(** Each tick that leaves [id] alone lowers the bound on its ages by the
    decay, and what is left after a tick has a position of positive age. *)
Lemma neverUpdated_run (id : string) (frames : list (list (Blob * Entropy))) :
  forall (m : Trails) (B : Z),
  Inv cfg m -> agesBelow id B m -> neverUpdated cfg id frames m ->
  exists m', ticks cfg frames m = Some m'
    /\ Inv cfg m'
    /\ agesBelow id (B - Z.of_nat (length frames) * trailDecay cfg) m'
    /\ (frames <> [] ->
        forall t, In (id, t) m' ->
                  exists pos, In pos (positions t) /\ (0 < Pos.age pos)%Z).
Proof.
  induction frames as [|blobs rest IH]; intros m B HI Ha Hn.
  - exists m. cbn [ticks length].
    split; [reflexivity|]. split; [assumption|]. split.
    + replace (B - Z.of_nat 0 * trailDecay cfg)%Z with B by lia.
      assumption.
    + intro H. now contradiction H.
  - cbn [ticks neverUpdated] in *. unfold updatedIds, trackBlobs in *.
    destruct (forEachBlob_Inv Hlen blobs (startMatching m)) as [st [E HIst]].
    { simpl. now apply Inv_markInactive. }
    rewrite E in *. destruct Hn as [Hnot Hrest].
    assert (Hst : agesBelow id B (trails st)).
    { eapply agesBelow_forEachBlob; [exact E|now right|].
      simpl. now apply agesBelow_markInactive. }
    apply (@agesBelow_ageTrails cfg) in Hst.
    assert (HIa : Inv cfg (ageTrails cfg (trails st)))
      by (apply Inv_ageTrails; assumption).
    destruct (IH _ _ HIa Hst Hrest)
      as [m' [Et [HI' [Ha' Hpos]]]].
    exists m'. split; [exact Et|]. split; [exact HI'|]. split.
    + intros t Hin. eapply Forall_impl; [|exact (Ha' t Hin)].
      cbv beta. intros pos Hp. cbn [length]. lia.
    + intros _ t Hin. destruct rest as [|blobs' rest'].
      * cbn [ticks] in Et. inversion Et; subst.
        eapply ageTrails_alive; eassumption.
      * apply Hpos; [discriminate|assumption].
Qed.

End Eviction.

(** ** Exponential smoothing *)

Section Smoothing.

Variable cfg : Config.

Lemma smoothed_updateTrailObject (blob : Blob) (t : Trail) :
  smoothedPosition (updateTrailObject cfg blob t)
  = Vec.mk (Vec.x (smoothedPosition t) * smoothFactor cfg
            + centerX blob * (1 - smoothFactor cfg))
           (Vec.y (smoothedPosition t) * smoothFactor cfg
            + centerY blob * (1 - smoothFactor cfg)).
Proof.
  unfold updateTrailObject.
  now destruct (match lastOf (positions t) with
                | Some lastPos => _ | None => _ end).
Qed.

Lemma Qpower_succ_nat (f : Q) (k : nat) :
  f ^ Z.of_nat (S k) == f * f ^ Z.of_nat k.
Proof.
  rewrite Nat2Z.inj_succ. unfold Z.succ. rewrite Z.add_comm.
  rewrite Qpower_plus' by lia. reflexivity.
Qed.

(** The closed form of the moving average under a constant input. *)
Lemma smoothed_updates (Dx Dy : Q) (blobs : list Blob) :
  Forall (fun blob => centerX blob == Dx /\ centerY blob == Dy) blobs ->
  forall t : Trail,
    Vec.x (smoothedPosition (updates cfg blobs t))
    == Dx + (Vec.x (smoothedPosition t) - Dx)
            * smoothFactor cfg ^ Z.of_nat (length blobs)
    /\ Vec.y (smoothedPosition (updates cfg blobs t))
       == Dy + (Vec.y (smoothedPosition t) - Dy)
               * smoothFactor cfg ^ Z.of_nat (length blobs).
Proof.
  induction 1 as [|blob rest [Hx Hy] _ IH]; intro t.
  - simpl. split; ring.
  - unfold updates in *. cbn [fold_left length].
    destruct (IH (updateTrailObject cfg blob t)) as [IHx IHy].
    rewrite IHx, IHy, smoothed_updateTrailObject. cbn [Vec.x Vec.y].
    rewrite !Qpower_succ_nat, Hx, Hy. split; ring.
Qed.


End Smoothing.

(** ** The order of binary64 *)

Ltac order_cases :=
  repeat match goal with
  | |- context [(?a ?= ?b)%Z] => destruct (Z.compare_spec a b)
  | H : context [(?a ?= ?b)%Z] |- _ => destruct (Z.compare_spec a b)
  | |- context [PosDef.Pos.compare_cont Eq ?a ?b] =>
      change (PosDef.Pos.compare_cont Eq a b) with (Pos.compare a b);
      destruct (Pos.compare_spec a b)
  | H : context [PosDef.Pos.compare_cont Eq ?a ?b] |- _ =>
      change (PosDef.Pos.compare_cont Eq a b) with (Pos.compare a b) in H;
      destruct (Pos.compare_spec a b)
  end.

Ltac order_by_cases a b c :=
  unfold Double.ltb, SFltb;
  destruct a as [[]|[]| |[] ? ?], b as [[]|[]| |[] ? ?],
    c as [[]|[]| |[] ? ?]; simpl; try discriminate; try reflexivity;
  order_cases; simpl; intros; subst; try discriminate; try reflexivity;
  try lia.

Lemma Double_ltb_trans (a b c : Double.t) :
  Double.ltb a b = true -> Double.ltb b c = true -> Double.ltb a c = true.
Proof. order_by_cases a b c. Qed.

(** What is not below a bound lies above all that is below it. *)
Lemma Double_ltb_below (a b n : Double.t) :
  Double.ltb a n = true -> Double.ltb b n = false ->
  Double.ltb a b = true \/ b = Double.NaN.
Proof.
  intros Ha Hb.
  destruct b as [sb|sb| |sb mb eb]; [left|left|right; reflexivity|left];
    revert Ha Hb; unfold Double.ltb, SFltb;
    [destruct sb|destruct sb|destruct sb];
    destruct a as [[]|[]| |[] ma ea], n as [[]|[]| |[] mn en]; simpl;
    try discriminate; try reflexivity;
    order_cases; simpl; intros; subst; try discriminate; try reflexivity;
    try lia.
Qed.

(** ** The tracker in binary64: the trail map *)

Section Binary64Map.

Import Tracker64.

Lemma keys_alter64 (f : Trail -> Trail) (id : string) (m : Trails) :
  keys (alter f id m) = keys m.
Proof.
  induction m as [|[k u] rest IH]; simpl; [reflexivity|].
  destruct (String.eqb k id); simpl; [reflexivity|]. now rewrite IH.
Qed.

Lemma keys_assign64 (id : string) (t : Trail) (m : Trails) :
  keys (assign id t m) = if existsb (String.eqb id) (keys m) then keys m
                         else keys m ++ [id].
Proof.
  induction m as [|[k u] rest IH]; simpl; [reflexivity|].
  rewrite (String.eqb_sym id k).
  destruct (String.eqb k id) eqn:E; simpl; [reflexivity|].
  rewrite IH. now destruct (existsb (String.eqb id) (keys rest)).
Qed.

Lemma NoDup_keys_assign64 (id : string) (t : Trail) (m : Trails) :
  NoDup (keys m) -> NoDup (keys (assign id t m)).
Proof.
  intro H. rewrite keys_assign64.
  destruct (existsb (String.eqb id) (keys m)) eqn:E; [assumption|].
  apply NoDup_app; [assumption|constructor; [intros []|constructor]| ].
  intros x Hx [<-|[]].
  apply existsb_eqb_In in Hx. congruence.
Qed.

Lemma Forall_alter64 (P : string * Trail -> Prop) (f : Trail -> Trail)
    (id : string) (m : Trails) :
  (forall t, P (id, t) -> P (id, f t)) ->
  Forall P m -> Forall P (alter f id m).
Proof.
  intros Hf. induction 1 as [|[k u] rest Hh Ht IH]; simpl; [constructor|].
  destruct (String.eqb k id) eqn:E.
  - apply String.eqb_eq in E. subst k. constructor; auto.
  - constructor; auto.
Qed.

Lemma Forall_assign64 (P : string * Trail -> Prop) (id : string) (t : Trail)
    (m : Trails) :
  P (id, t) -> Forall P m -> Forall P (assign id t m).
Proof.
  intros Ht. induction 1 as [|[k u] rest Hh Hr IH]; simpl.
  - repeat constructor. assumption.
  - destruct (String.eqb k id) eqn:E.
    + apply String.eqb_eq in E. subst k. constructor; auto.
    + constructor; auto.
Qed.


Lemma alter_assign64 (f : Trail -> Trail) (id : string) (t : Trail)
    (m : Trails) :
  alter f id (assign id t m) = assign id (f t) m.
Proof.
  induction m as [|[k u] rest IH]; simpl.
  - now rewrite String.eqb_refl.
  - destruct (String.eqb k id) eqn:E; simpl; rewrite E; [reflexivity|].
    now rewrite IH.
Qed.

Lemma alter_split64 (f : Trail -> Trail) (l1 l2 : Trails) (id : string)
    (t : Trail) :
  ~ In id (keys l1) ->
  alter f id (l1 ++ (id, t) :: l2) = l1 ++ (id, f t) :: l2.
Proof.
  induction l1 as [|[k u] rest IH]; simpl; intro H.
  - now rewrite String.eqb_refl.
  - destruct (String.eqb k id) eqn:E.
    + apply String.eqb_eq in E. subst. exfalso. apply H. now left.
    + rewrite IH; [reflexivity|]. intro. apply H. now right.
Qed.

End Binary64Map.

(** ** The tracker in binary64: the nearest-trail scan *)

Section Binary64Scan.

Import Tracker64.

Variable cfg : Config.
Variable blob : Blob.
Variable ids : list string.

(** The distance the loop computes is the Euclidean one. *)
Lemma distanceOf_distanceTo (t : Trail) (p : Pos.t) :
  lastOf (positions t) = Some p -> distanceOf blob t = Some (distanceTo blob p).
Proof. unfold distanceOf. now intros ->. Qed.

(** What the scan returns from an arbitrary loop state: either nothing
    beats the incoming best, or the result is the first of the nearest
    unmatched trails. *)
Lemma scanTrails_spec64 (m : Trails) :
  Forall (fun kt => positions (snd kt) <> []) m ->
  forall (bestMatch : option string) (bestDistance : Double.t),
  exists r, scanTrails blob ids m bestMatch bestDistance = Some r
  /\ ((r = bestMatch
       /\ forall kt, In kt m -> unmatched ids kt ->
                     ~ within bestDistance blob (snd kt))
      \/ exists l1 id t l2,
           m = l1 ++ (id, t) :: l2 /\ r = Some id
           /\ has ids id = false
           /\ within bestDistance blob t
           /\ (forall kt, In kt l1 -> unmatched ids kt ->
                          nearer blob t (snd kt))
           /\ (forall kt, In kt l2 -> unmatched ids kt ->
                          notFarther blob t (snd kt))).
Proof.
  induction 1 as [|[id0 t0] rest Hne Hrest IH]; intros bm bd;
    cbn [scanTrails].
  - exists bm. split; [reflexivity|]. left. split; [reflexivity|].
    intros kt [].
  - destruct (has ids id0) eqn:Hhas.
    + destruct (IH bm bd) as [r [Hr Hcase]]. exists r. split; [exact Hr|].
      destruct Hcase as [[-> Hnone]|[l1 [id [t [l2 Hb]]]]].
      * left. split; [reflexivity|]. intros kt [<-|Hin] Hu; auto.
        unfold unmatched in Hu. simpl in Hu. congruence.
      * destruct Hb as [-> [-> [Hid [Hw [H1 H2]]]]].
        right. exists ((id0, t0) :: l1), id, t, l2.
        repeat split; auto.
        intros kt [<-|Hin] Hu; auto.
        unfold unmatched in Hu. simpl in Hu. congruence.
    + simpl in Hne. destruct (lastOf_nonempty Hne) as [p0 Hp0]. rewrite Hp0.
      pose proof (distanceOf_distanceTo t0 Hp0) as Hd0.
      cbv zeta.
      destruct (Double.ltb (distanceTo blob p0) bd) eqn:Hlt.
      * destruct (IH (Some id0) (distanceTo blob p0)) as [r [Hr Hcase]].
        exists r. split; [exact Hr|]. right.
        destruct Hcase as [[-> Hnone]|[l1 [id [t [l2 Hb]]]]].
        -- exists [], id0, t0, rest. repeat split; auto.
           ++ unfold within. rewrite Hd0. exact Hlt.
           ++ intros kt [].
           ++ intros kt Hin Hu. specialize (Hnone kt Hin Hu).
              unfold notFarther, within in *. rewrite Hd0.
              rewrite Forall_forall in Hrest.
              destruct (lastOf_nonempty (Hrest kt Hin)) as [p Hp].
              rewrite (distanceOf_distanceTo _ Hp) in *.
              destruct (Double.ltb (distanceTo blob p) (distanceTo blob p0));
                [exfalso; now apply Hnone|reflexivity].
        -- destruct Hb as [-> [-> [Hid [Hw [H1 H2]]]]].
           exists ((id0, t0) :: l1), id, t, l2. repeat split; auto.
           ++ unfold within in *.
              destruct (distanceOf blob t) as [d|]; [|contradiction].
              eapply Double_ltb_trans; [exact Hw|exact Hlt].
           ++ intros kt [<-|Hin] Hu; auto.
              unfold nearer, within in *. simpl. rewrite Hd0.
              destruct (distanceOf blob t) as [d|]; [|contradiction].
              now left.
      * destruct (IH bm bd) as [r [Hr Hcase]]. exists r. split; [exact Hr|].
        destruct Hcase as [[-> Hnone]|[l1 [id [t [l2 Hb]]]]].
        -- left. split; [reflexivity|]. intros kt [<-|Hin] Hu; auto.
           unfold within. simpl. rewrite Hd0. congruence.
        -- destruct Hb as [-> [-> [Hid [Hw [H1 H2]]]]].
           right. exists ((id0, t0) :: l1), id, t, l2. repeat split; auto.
           intros kt [<-|Hin] Hu; auto.
           unfold nearer, within in *. simpl. rewrite Hd0.
           destruct (distanceOf blob t) as [d|]; [|contradiction].
           eapply Double_ltb_below; [exact Hw|exact Hlt].
Qed.

End Binary64Scan.

(** ** The tracker in binary64: the invariant through the matching pass *)

Section Binary64Invariant.

Import Tracker64.

Variable cfg : Config.
Hypothesis Hlen : (1 <= maxTrailLength cfg)%nat.

Lemma updateTrailObject_ok64 (blob : Blob) (t : Trail) :
  (length (positions t) <= maxTrailLength cfg)%nat ->
  okTrail cfg (updateTrailObject cfg blob t).
Proof.
  intros Hl. unfold okTrail, updateTrailObject.
  destruct (match lastOf (positions t) with
            | Some lastPos => _ | None => _ end) as [vx vy].
  cbn [positions]. rewrite length_app. cbn [length].
  set (pos := Pos.mk _ _ _ _ _).
  destruct (Nat.ltb_spec (maxTrailLength cfg) (length (positions t) + 1)).
  - destruct (positions t) as [|a ps] eqn:E; simpl in *; [lia|].
    split.
    + destruct ps; discriminate.
    + rewrite length_app. simpl. lia.
  - split.
    + destruct (positions t); discriminate.
    + rewrite length_app. simpl. lia.
Qed.

Lemma updateTrailObject_active64 (blob : Blob) (t : Trail) :
  active (updateTrailObject cfg blob t) = true.
Proof.
  unfold updateTrailObject.
  now destruct (match lastOf (positions t) with
                | Some lastPos => _ | None => _ end).
Qed.

Lemma Inv_updateTrail64 (id : string) (blob : Blob) (m : Trails) :
  Inv cfg m -> Inv cfg (updateTrail cfg id blob m).
Proof.
  intros [Hnd Hall]. split.
  - unfold updateTrail. now rewrite keys_alter64.
  - apply Forall_alter64; [|assumption].
    intros t [Hk [_ Hl]]. split; [assumption|].
    now apply updateTrailObject_ok64.
Qed.

Lemma Inv_create64 (e : Entropy) (blob : Blob) (m : Trails) :
  Inv cfg m ->
  Inv cfg (updateTrail cfg (makeId e) blob
             (assign (makeId e) (newTrail blob) m)).
Proof.
  intros [Hnd Hall]. unfold updateTrail. rewrite alter_assign64. split.
  - now apply NoDup_keys_assign64.
  - apply Forall_assign64; [|assumption]. split; [apply makeId_truthy|].
    apply updateTrailObject_ok64; simpl; lia.
Qed.

Lemma Inv_markInactive64 (m : Trails) : Inv cfg m -> Inv cfg (markInactive m).
Proof.
  intros [Hnd Hall]. split.
  - unfold keys, markInactive. rewrite map_map.
    rewrite (map_ext _ fst); [exact Hnd|]. now intros [k t].
  - unfold markInactive. apply Forall_map.
    eapply Forall_impl; [|exact Hall]. now intros [k t].
Qed.

Lemma Inv_positions64 (m : Trails) :
  Inv cfg m -> Forall (fun kt => positions (snd kt) <> []) m.
Proof.
  intros [_ H]. eapply Forall_impl; [|exact H].
  intros kt [_ [Hne _]]. exact Hne.
Qed.

(** One blob: the callback succeeds, keeps the invariant, and either
    binds the blob to the nearest unmatched trail or starts a trail. *)
Lemma matchBlob_spec64 (st : Matching) (blob : Blob) (e : Entropy) :
  Inv cfg (trails st) ->
  exists st', matchBlob cfg st (blob, e) = Some st'
    /\ Inv cfg (trails st')
    /\ (bindsNearest cfg st st' blob \/ startsTrail cfg st st' blob e).
Proof.
  intro HI. unfold matchBlob.
  destruct (scanTrails_spec64 blob (matchedTrailIds st) (Inv_positions64 HI)
              None (maxMatchDistance cfg)) as [r [-> Hcase]].
  destruct Hcase as [[-> Hnone]|[l1 [id [t [l2 Hb]]]]].
  - simpl. eexists. split; [reflexivity|]. simpl. split.
    + now apply Inv_create64.
    + right. unfold startsTrail. simpl. unfold updateTrail.
      rewrite alter_assign64. auto.
  - destruct Hb as [Hm [-> [Hid [Hw [H1 H2]]]]].
    assert (Hk : id <> ""%string).
    { destruct HI as [_ Hall]. rewrite Forall_forall in Hall.
      apply (Hall (id, t)). rewrite Hm. apply in_elt. }
    assert (Hl1 : ~ In id (keys l1)).
    { destruct HI as [Hnd _]. rewrite Hm in Hnd. unfold keys in Hnd.
      rewrite map_app in Hnd. simpl in Hnd.
      apply NoDup_remove_2 in Hnd. intro Hin. apply Hnd.
      apply in_or_app. now left. }
    unfold truthy. apply String.eqb_neq in Hk. rewrite Hk.
    eexists. split; [reflexivity|]. simpl. split.
    + now apply Inv_updateTrail64.
    + left. exists l1, id, t, l2. repeat split; auto.
      * unfold updateTrail. rewrite Hm. now apply alter_split64.
      * apply updateTrailObject_active64.
Qed.

Lemma forEachBlob_Inv64 (blobs : list (Blob * Entropy)) (st : Matching) :
  Inv cfg (trails st) ->
  exists st', forEachBlob cfg blobs st = Some st' /\ Inv cfg (trails st').
Proof.
  revert st. induction blobs as [|[blob e] rest IH]; intros st HI;
    cbn [forEachBlob].
  - now exists st.
  - destruct (matchBlob_spec64 st blob e HI) as [st1 [-> [HI1 _]]].
    now apply IH.
Qed.

Lemma In_ageTrails64 (id : string) (t' : Trail) (m : Trails) :
  In (id, t') (ageTrails cfg m) ->
  exists t, In (id, t) m
    /\ positions t' = agePositions cfg (positions t)
    /\ positions t' <> [].
Proof.
  induction m as [|[k u] rest IH]; simpl; [intros []|].
  destruct (Nat.eqb_spec (length (agePositions cfg (positions u))) 0).
  - intro H. destruct (IH H) as [t [Hin Ht]]. exists t. auto.
  - intros [H|H].
    + inversion H; subst. exists u. simpl. repeat split; auto.
      intro E. rewrite E in n. now apply n.
    + destruct (IH H) as [t [Hin Ht]]. exists t. auto.
Qed.

Lemma NoDup_keys_ageTrails64 (m : Trails) :
  NoDup (keys m) -> NoDup (keys (ageTrails cfg m)).
Proof.
  induction m as [|[k u] rest IH]; simpl; intro H; [constructor|].
  inversion H as [|? ? Hk Hr]; subst.
  destruct (length (agePositions cfg (positions u)) =? 0)%nat; auto.
  simpl. constructor; auto. intro Hin. apply Hk.
  unfold keys in *. rewrite in_map_iff in *.
  destruct Hin as [[k' t'] [<- Hin]].
  destruct (In_ageTrails64 _ _ _ Hin) as [t [Ht _]]. now exists (k', t).
Qed.

Lemma Inv_ageTrails64 (m : Trails) : Inv cfg m -> Inv cfg (ageTrails cfg m).
Proof.
  intros [Hnd Hall]. split; [now apply NoDup_keys_ageTrails64|].
  apply Forall_forall. intros [k t'] Hin.
  destruct (In_ageTrails64 _ _ _ Hin) as [t [Ht [Hps Hne]]].
  rewrite Forall_forall in Hall. destruct (Hall _ Ht) as [Hk [_ Hl]].
  simpl in *. split; [assumption|]. split; [assumption|].
  rewrite Hps. unfold agePositions.
  etransitivity; [apply filter_length_le|]. now rewrite length_map.
Qed.

(** A tick never raises from a state that satisfies the invariant. *)
Lemma trackBlobs_total64 (blobs : list (Blob * Entropy)) (m : Trails) :
  Inv cfg m ->
  exists m', trackBlobs cfg blobs m = Some m' /\ Inv cfg m'.
Proof.
  intro HI. unfold trackBlobs.
  destruct (forEachBlob_Inv64 blobs (startMatching m)) as [st [-> HI']].
  - simpl. now apply Inv_markInactive64.
  - eexists. split; [reflexivity|]. now apply Inv_ageTrails64.
Qed.

(** Every trail map the program can hold satisfies the invariant. *)
Lemma reachable_Inv64 (m : Trails) : reachable cfg m -> Inv cfg m.
Proof.
  induction 1 as [|m blobs m' _ IH E].
  - split; constructor.
  - destruct (trackBlobs_total64 blobs IH) as [m'' [E' HI]].
    congruence.
Qed.

End Binary64Invariant.



(** * The tracker: stated properties *)

Section SampleFacts.

Lemma sampleTrails_Inv : Inv nightShift sampleTrails.
Proof.
  split.
  - repeat constructor. simpl. tauto.
  - repeat constructor; simpl; try discriminate; lia.
Qed.

Lemma sampleTrails_Young : Young sampleTrails.
Proof.
  intros id t [H|[]]. inversion H; subst. simpl.
  repeat constructor. simpl. lia.
Qed.

End SampleFacts.

(** C1.  The aging loop of [trackBlobs] runs over every key of
    [motionTrails], bound or not, although its comment reads "Age inactive
    trails".  Two ticks with the same blob: the second tick binds the blob
    to the trail of the first (the trail is updated and active), and yet
    the position recorded in the first tick goes from age 247 to 239 and
    the appended position ends the tick at 247, not 255. *)
Theorem C1_bound_trail_is_aged :
  let first := [(blobAt 105 105, firstDraw)] in
  let second := [(blobAt 105 105, secondDraw)] in
  option_map agesOf (ticks nightShift [first] [])
  = Some [("blob_1745600000000_417"%string, [247%Z])]
  /\ option_map agesOf (ticks nightShift [first; second] [])
     = Some [("blob_1745600000000_417"%string, [239%Z; 247%Z])]
  /\ (exists m, ticks nightShift [first] [] = Some m
        /\ updatedIds nightShift second m
           = Some ["blob_1745600000000_417"%string])
  /\ option_map (map (fun kt => active (snd kt)))
       (ticks nightShift [first; second] []) = Some [true]
  /\ option_map agesOf (ticks pixelSketch [first; second] [])
     = Some [("blob_1745600000000_417"%string, [239%Z; 247%Z])].
Proof.
  cbv zeta. split; [vm_compute; reflexivity|].
  split; [vm_compute; reflexivity|].
  split; [|split; vm_compute; reflexivity].
  eexists. split; [vm_compute; reflexivity|]. vm_compute. reflexivity.
Qed.

(** C10.  A trail created in a tick is not added to [matchedTrailIds]:
    a later blob of the same tick can be bound to it.  Starting from no
    trail, two blobs twenty pixels apart: both calls of [updateTrail] go to
    the trail the first blob created, which ends the tick with two
    positions; there is no second trail. *)
Theorem C10_created_trail_updated_twice :
  let blobs := [(blobAt 105 105, firstDraw);
                (blobAt 125 105, firstDraw')] in
  updatedIds nightShift blobs []
  = Some ["blob_1745600000000_417"%string; "blob_1745600000000_417"%string]
  /\ option_map agesOf (trackBlobs nightShift blobs [])
     = Some [("blob_1745600000000_417"%string, [247%Z; 247%Z])]
  /\ updatedIds pixelSketch blobs []
     = Some ["blob_1745600000000_417"%string; "blob_1745600000000_417"%string].
Proof.
  cbv zeta. repeat split; vm_compute; reflexivity.
Qed.

Lemma forEachBlob_app (cfg : Config) (pre post : list (Blob * Entropy))
    (st : Matching) :
  forEachBlob cfg (pre ++ post) st
  = match forEachBlob cfg pre st with
    | Some st1 => forEachBlob cfg post st1
    | None => None
    end.
Proof.
  revert st. induction pre as [|be rest IH]; intro st; cbn [forEachBlob app].
  - reflexivity.
  - destruct (matchBlob cfg st be); [apply IH|reflexivity].
Qed.

Lemma Inv_bounded (cfg : Config) (m : Trails) :
  Inv cfg m ->
  forall id t, In (id, t) m ->
    (1 <= length (positions t) <= maxTrailLength cfg)%nat.
Proof.
  intros [_ Hall] id t Hin. rewrite Forall_forall in Hall.
  destruct (Hall _ Hin) as [_ [Hne Hl]]. simpl in *.
  destruct (positions t); [congruence|]. simpl in *. lia.
Qed.

Lemma keys_ageTrails_iff (cfg : Config) (id : string) (m : Trails) :
  In id (keys (ageTrails cfg m))
  <-> exists t, In (id, t) m /\ agePositions cfg (positions t) <> [].
Proof.
  induction m as [|[k u] rest IH]; cbn [ageTrails].
  - simpl. split; [intros []|intros [t [[] _]]].
  - destruct (Nat.eqb_spec (length (agePositions cfg (positions u))) 0)
      as [E|E].
    + rewrite IH. apply length_zero_iff_nil in E. split.
      * intros [t [Hin Hne]]. exists t. split; [now right|assumption].
      * intros [t [[H|Hin] Hne]]; [inversion H; subst; congruence|].
        now exists t.
    + cbn [keys map fst In]. fold (keys (ageTrails cfg rest)). rewrite IH.
      split.
      * intros [<-|[t [Hin Hne]]].
        -- exists u. split; [now left|]. intro H. rewrite H in E. now apply E.
        -- exists t. split; [now right|assumption].
      * intros [t [[H|Hin] Hne]]; [inversion H; now left|].
        right. now exists t.
Qed.

(** C2.  A trail that is not updated for [ceil(255 / trailDecay)] ticks in
    a row is gone at the end of them: every tick lowers all its ages by
    the decay, none of them started above 255, and the aging loop deletes
    a trail once no position of positive age is left. *)
Theorem C2_unmatched_trail_evicted (cfg : Config) (m : Trails) (id : string)
    (frames : list (list (Blob * Entropy))) :
  (1 <= maxTrailLength cfg)%nat ->
  (0 < trailDecay cfg)%Z ->
  Inv cfg m -> Young m ->
  length frames = Z.to_nat (ceilDiv 255 (trailDecay cfg)) ->
  neverUpdated cfg id frames m ->
  exists m', ticks cfg frames m = Some m'
    /\ lookup id m' = None /\ ~ In id (keys m').
Proof.
  intros Hlen Hdecay HI HY Hn Hnever.
  destruct (@neverUpdated_run cfg Hlen id frames m 255%Z HI (HY id) Hnever)
    as [m' [Et [_ [Ha Hpos]]]].
  assert (Hcover := @ceilDiv_covers 255 (trailDecay cfg) Hdecay ltac:(lia)).
  rewrite <- Hn in Hcover.
  assert (Hne : frames <> []).
  { intros ->. simpl in Hcover. lia. }
  assert (Hno : forall t, ~ In (id, t) m').
  { intros t Hin. destruct (Hpos Hne t Hin) as [pos [Hp Hage]].
    specialize (Ha t Hin). rewrite Forall_forall in Ha.
    specialize (Ha pos Hp). cbv beta in Ha. lia. }
  exists m'. split; [exact Et|]. split; [now apply lookup_None|].
  unfold keys. rewrite in_map_iff. intros [[k t] [Hk Hin]].
  simpl in Hk. subst k. exact (Hno t Hin).
Qed.

Lemma C2_unmatched_trail_evicted_witness :
  In "blob_1745600000000_417"%string (keys sampleTrails)
  /\ length quietFrames = 32%nat
  /\ exists m', ticks nightShift quietFrames sampleTrails = Some m'
       /\ lookup "blob_1745600000000_417"%string m' = None
       /\ ~ In "blob_1745600000000_417"%string (keys m').
Proof.
  split; [now left|]. split; [reflexivity|].
  apply (@C2_unmatched_trail_evicted nightShift sampleTrails
           "blob_1745600000000_417"%string quietFrames).
  - simpl. lia.
  - simpl. lia.
  - exact sampleTrails_Inv.
  - exact sampleTrails_Young.
  - reflexivity.
  - vm_compute. repeat split; intro H;
      try (destruct H as [H|H]; [discriminate H|]); exact H.
Defined.



(** A blob in range is bound: the blob at (60, 0) is at distance
    [59.4] from the trail of [drifted], and [updateTrail] is called with
    the id of that trail. *)
Example near_blob_is_bound :
  Tracker64.keys drifted = ["blob_1745600000000_417"%string]
  /\ Tracker64.updatedIds Tracker64.nightShift [(nearBlob, thirdDraw)] drifted
     = Some ["blob_1745600000000_417"%string].
Proof. split; vm_compute; reflexivity. Qed.

(** The comparison is made on the rounded distance.  The trail of
    [drifted] ends at [x = 0.5999999999999999]; for the blob at
    [x = 100.6] the program computes [dx = 100] and the distance [100],
    which is not below [maxMatchDistance]: the blob starts a second
    trail, although the two points are less than 100 apart. *)
Example rounded_distance_starts_trail :
  (forall kt, In kt drifted ->
     Tracker64.distanceOf farBlob (snd kt) = Some (Double.ofZ 100)
     /\ ~ Tracker64.inRange Tracker64.nightShift farBlob (snd kt)
     /\ exists p x cx,
          lastOf (Tracker64.positions (snd kt)) = Some p
          /\ Double.toQ (Tracker64.Pos.x p) = Some x
          /\ Double.toQ (Tracker64.Pos.y p) = Some 0
          /\ Double.toQ (Tracker64.centerX farBlob) = Some cx
          /\ Double.toQ (Tracker64.centerY farBlob) = Some 0
          /\ cx - x < 100)
  /\ Tracker64.updatedIds Tracker64.nightShift [(farBlob, thirdDraw)] drifted
     = Some ["blob_1745600000066_731"%string]
  /\ option_map Tracker64.keys
       (Tracker64.trackBlobs Tracker64.nightShift [(farBlob, thirdDraw)]
          drifted)
     = Some ["blob_1745600000000_417"%string;
             "blob_1745600000066_731"%string].
Proof.
  split; [|split; vm_compute; reflexivity].
  intros kt [<-|[]]. split; [vm_compute; reflexivity|].
  split; [vm_compute; discriminate|].
  eexists _, _, _. split; [vm_compute; reflexivity|].
  split; [vm_compute; reflexivity|]. split; [vm_compute; reflexivity|].
  split; [vm_compute; reflexivity|]. split; [vm_compute; reflexivity|].
  vm_compute. reflexivity.
Qed.

(** The matching is greedy, not optimal: with trails at (200, 200) and
    (260, 200), the blob at (240, 200) takes the trail at (260, 200),
    which was the only one in range of the blob at (300, 200); binding the
    first blob to the other trail would have matched both. *)
Example greedy_is_not_optimal :
  let trailAt x :=
    {| Tracker64.positions :=
         [Tracker64.Pos.mk (Double.ofZ x) (Double.ofZ 200) (Double.ofZ 0)
            (Double.ofZ 40) 247];
       Tracker64.velocity := Tracker64.Vec.mk (Double.ofZ 0) (Double.ofZ 0);
       Tracker64.smoothedPosition :=
         Tracker64.Vec.mk (Double.ofZ x) (Double.ofZ 200);
       Tracker64.speed := Double.ofZ 0;
       Tracker64.active := true |} in
  let m := [("blob_1745600000000_417"%string, trailAt 200%Z);
            ("blob_1745600000000_52"%string, trailAt 260%Z)] in
  Tracker64.updatedIds Tracker64.pixelSketch
    [(blob64 (Double.ofZ 240) (Double.ofZ 200), secondDraw);
     (blob64 (Double.ofZ 300) (Double.ofZ 200), secondDraw')] m
  = Some ["blob_1745600000000_52"%string; "blob_1745600000033_268"%string].
Proof. vm_compute. reflexivity. Qed.

(** C8.  Step response of the position smoothing: a trail whose smoothed
    position is the origin and that is updated [k] times with blobs at
    the constant centroid [D] has its smoothed position at
    [D * (1 - f ^ k)], [f] being [smoothFactor]; exact over the
    rationals, for every factor and so for those in [0, 1]. *)
Theorem C8_step_response (cfg : Config) (Dx Dy : Q) (blobs : list Blob)
    (t : Trail) :
  Vec.x (smoothedPosition t) == 0 ->
  Vec.y (smoothedPosition t) == 0 ->
  Forall (fun blob => centerX blob == Dx /\ centerY blob == Dy) blobs ->
  Vec.x (smoothedPosition (updates cfg blobs t))
  == Dx * (1 - smoothFactor cfg ^ Z.of_nat (length blobs))
  /\ Vec.y (smoothedPosition (updates cfg blobs t))
     == Dy * (1 - smoothFactor cfg ^ Z.of_nat (length blobs)).
Proof.
  intros Hx Hy Hall.
  destruct (smoothed_updates cfg Hall t) as [Ex Ey].
  rewrite Ex, Ey, Hx, Hy. split; ring.
Qed.

Lemma C8_step_response_witness :
  Vec.x (smoothedPosition
           (updates nightShift
              [blobAt 10 20; blobAt 10 20; blobAt 10 20] originTrail))
  == 10 * (1 - (8 # 10) ^ 3)
  /\ Vec.y (smoothedPosition
              (updates nightShift
                 [blobAt 10 20; blobAt 10 20; blobAt 10 20] originTrail))
     == 20 * (1 - (8 # 10) ^ 3).
Proof.
  apply (@C8_step_response nightShift 10 20
           [blobAt 10 20; blobAt 10 20; blobAt 10 20] originTrail).
  - reflexivity.
  - reflexivity.
  - repeat constructor; reflexivity.
Defined.

(** C9.  The position sequence is a bounded FIFO.  [updateTrail] appends
    one record of age 255 and, when that makes the sequence longer than
    [maxTrailLength], drops the oldest; so in every reachable trail map,
    after every blob of a tick and at the end of the tick, every trail
    holds between 1 and [maxTrailLength] positions, and the keys left by
    the tick are exactly those of the trails that keep a position after
    aging: a trail whose sequence empties is deleted in the same tick. *)
Theorem C9_bounded_fifo (cfg : Config) (m : Trails) :
  (1 <= maxTrailLength cfg)%nat ->
  reachable cfg m ->
  (forall id t, In (id, t) m ->
     (1 <= length (positions t) <= maxTrailLength cfg)%nat)
  /\ (forall blob t,
        (length (positions t) <= maxTrailLength cfg)%nat ->
        exists pos,
          Pos.age pos = 255%Z
          /\ positions (updateTrailObject cfg blob t)
             = (if (maxTrailLength cfg <? length (positions t ++ [pos]))%nat
                then tl (positions t ++ [pos]) else positions t ++ [pos])
          /\ (length (positions (updateTrailObject cfg blob t))
              <= maxTrailLength cfg)%nat)
  /\ (forall blobs,
        exists st m',
          forEachBlob cfg blobs (startMatching m) = Some st
          /\ (forall id t, In (id, t) (trails st) ->
                (1 <= length (positions t) <= maxTrailLength cfg)%nat)
          /\ trackBlobs cfg blobs m = Some m'
          /\ m' = ageTrails cfg (trails st)
          /\ (forall id, In id (keys m')
                <-> exists t, In (id, t) (trails st)
                              /\ agePositions cfg (positions t) <> [])
          /\ (forall id t, In (id, t) m' ->
                (1 <= length (positions t) <= maxTrailLength cfg)%nat)).
Proof.
  intros Hlen Hr. pose proof (reachable_Inv Hlen Hr) as HI.
  split; [now apply Inv_bounded|]. split.
  - intros blob t Hl.
    destruct (updateTrailObject_positions cfg blob t) as [pos [Hage [_ Hps]]].
    exists pos. split; [exact Hage|]. split; [exact Hps|].
    now apply updateTrailObject_ok.
  - intro blobs.
    destruct (forEachBlob_Inv Hlen blobs (startMatching m)) as [st [E HIst]].
    { simpl. now apply Inv_markInactive. }
    exists st, (ageTrails cfg (trails st)).
    split; [exact E|]. split; [now apply Inv_bounded|].
    split; [unfold trackBlobs; now rewrite E|]. split; [reflexivity|].
    split; [intro id; apply keys_ageTrails_iff|].
    apply Inv_bounded. now apply Inv_ageTrails.
Qed.

Lemma afterOneTick_reachable : reachable nightShift afterOneTick.
Proof.
  apply (@reachable_tick nightShift []
           [(blobAt 105 105, firstDraw)] afterOneTick).
  - apply reachable_start.
  - vm_compute. reflexivity.
Qed.

Lemma C9_bounded_fifo_witness :
  (forall id t, In (id, t) afterOneTick ->
     (1 <= length (positions t) <= maxTrailLength nightShift)%nat)
  /\ (forall blob t,
        (length (positions t) <= maxTrailLength nightShift)%nat ->
        exists pos,
          Pos.age pos = 255%Z
          /\ positions (updateTrailObject nightShift blob t)
             = (if (maxTrailLength nightShift
                    <? length (positions t ++ [pos]))%nat
                then tl (positions t ++ [pos]) else positions t ++ [pos])
          /\ (length (positions (updateTrailObject nightShift blob t))
              <= maxTrailLength nightShift)%nat)
  /\ (forall blobs,
        exists st m',
          forEachBlob nightShift blobs (startMatching afterOneTick) = Some st
          /\ (forall id t, In (id, t) (trails st) ->
                (1 <= length (positions t) <= maxTrailLength nightShift)%nat)
          /\ trackBlobs nightShift blobs afterOneTick = Some m'
          /\ m' = ageTrails nightShift (trails st)
          /\ (forall id, In id (keys m')
                <-> exists t, In (id, t) (trails st)
                              /\ agePositions nightShift (positions t) <> [])
          /\ (forall id t, In (id, t) m' ->
                (1 <= length (positions t) <= maxTrailLength nightShift)%nat)).
Proof.
  apply (@C9_bounded_fifo nightShift afterOneTick).
  - simpl. lia.
  - exact afterOneTick_reachable.
Defined.

(** * The detector: sorting and truncation *)

Section LargestFirstFacts.

Variable A : Type.
Variable size : A -> nat.

Lemma In_insertBySize (a c : A) (l : list A) :
  In c (insertBySize size a l) <-> c = a \/ In c l.
Proof.
  induction l as [|b rest IH]; simpl.
  - intuition.
  - destruct (size a <? size b)%nat; simpl; [rewrite IH|]; intuition.
Qed.

Lemma insertBySize_sorted (a : A) (l : list A) :
  largestFirst size l -> largestFirst size (insertBySize size a l).
Proof.
  unfold largestFirst. induction 1 as [|b rest Hs IH Hb]; simpl.
  - repeat constructor.
  - destruct (Nat.ltb_spec (size a) (size b)).
    + constructor; [exact IH|]. apply Forall_forall. intros c Hc.
      apply In_insertBySize in Hc. destruct Hc as [->|Hc]; [lia|].
      rewrite Forall_forall in Hb. now apply Hb.
    + constructor; [now constructor|]. constructor; [assumption|].
      eapply Forall_impl; [|exact Hb]. cbv beta. intros c Hc. lia.
Qed.

Lemma sortBySize_sorted (l : list A) : largestFirst size (sortBySize size l).
Proof.
  induction l as [|a rest IH]; simpl; [constructor|].
  now apply insertBySize_sorted.
Qed.

Lemma insertBySize_perm (a : A) (l : list A) :
  Permutation (insertBySize size a l) (a :: l).
Proof.
  induction l as [|b rest IH]; simpl; [reflexivity|].
  destruct (size a <? size b)%nat; [|reflexivity].
  rewrite IH. apply perm_swap.
Qed.

Lemma sortBySize_perm (l : list A) : Permutation (sortBySize size l) l.
Proof.
  induction l as [|a rest IH]; simpl; [reflexivity|].
  rewrite insertBySize_perm. now constructor.
Qed.

(** Stability: an insertion passes over strictly larger elements only. *)
Lemma ofSize_insertBySize (s : nat) (a : A) (l : list A) :
  ofSize size s (insertBySize size a l)
  = if (size a =? s)%nat then a :: ofSize size s l else ofSize size s l.
Proof.
  unfold ofSize. induction l as [|b rest IH]; simpl; [reflexivity|].
  destruct (Nat.ltb_spec (size a) (size b)); simpl.
  - rewrite IH.
    destruct (Nat.eqb_spec (size a) s), (Nat.eqb_spec (size b) s);
      try reflexivity. lia.
  - reflexivity.
Qed.

Lemma ofSize_sortBySize (s : nat) (l : list A) :
  ofSize size s (sortBySize size l) = ofSize size s l.
Proof.
  induction l as [|a rest IH]; simpl; [reflexivity|].
  rewrite ofSize_insertBySize, IH. unfold ofSize. simpl.
  now destruct (size a =? s)%nat.
Qed.

Lemma largestFirst_firstn (k : nat) (l : list A) :
  largestFirst size l -> largestFirst size (firstn k l).
Proof.
  unfold largestFirst. intro H. revert k.
  induction H as [|b rest Hs IH Hb]; intros [|k]; simpl; try constructor.
  - apply IH.
  - apply Forall_forall. intros c Hc. rewrite Forall_forall in Hb.
    apply Hb. revert Hc. clear. revert k.
    induction rest as [|d rest IH]; intros [|k]; simpl; try tauto.
    intros [H|H]; [now left|right; eauto].
Qed.

(** What [sort] followed by [slice(0, k)] returns. *)
Lemma largest_spec (k : nat) (l : list A) :
  (length (largest size k l) <= k)%nat
  /\ largestFirst size (largest size k l)
  /\ incl (largest size k l) l
  /\ forall s, exists later,
       ofSize size s l = ofSize size s (largest size k l) ++ later.
Proof.
  unfold largest. split; [apply firstn_le_length|].
  split; [apply largestFirst_firstn, sortBySize_sorted|]. split.
  - intros a Ha. apply (Permutation_in a (sortBySize_perm l)).
    revert Ha. generalize (sortBySize size l). clear. intro l. revert k.
    induction l as [|d rest IH]; intros [|k]; simpl; try tauto.
    intros [H|H]; [now left|right; eauto].
  - intro s. exists (ofSize size s (skipn k (sortBySize size l))).
    rewrite <- (ofSize_sortBySize s l).
    rewrite <- (firstn_skipn k (sortBySize size l)) at 1.
    unfold ofSize. apply filter_app.
Qed.

End LargestFirstFacts.

(** C7.  In both sketches [findMotionBlobs] returns at most [maxBlobs]
    blobs, sizes never increase along the returned list, and for every
    size the returned blobs of that size are the first to have been
    pushed by the scan, in the order in which the scan pushed them. *)
Theorem C7_at_most_maxBlobs_largest_first :
  (forall (cfg : PixelGrid.Config) (width height : nat)
          (motionPixels : list Q),
     let out := PixelGrid.findMotionBlobs cfg width height motionPixels in
     (length out <= PixelGrid.maxBlobs cfg)%nat
     /\ largestFirst PixelBlob.size out
     /\ incl out (PixelGrid.discovered cfg width height motionPixels)
     /\ forall s, exists later,
          ofSize PixelBlob.size s
            (PixelGrid.discovered cfg width height motionPixels)
          = ofSize PixelBlob.size s out ++ later)
  /\ (forall (cfg : CellGrid.Config) (diffImage : Image),
        let out := CellGrid.findMotionBlobs cfg diffImage in
        (length out <= CellGrid.maxBlobs cfg)%nat
        /\ largestFirst CellBlob.size out
        /\ incl out (CellGrid.discovered cfg diffImage)
        /\ forall s, exists later,
             ofSize CellBlob.size s (CellGrid.discovered cfg diffImage)
             = ofSize CellBlob.size s out ++ later).
Proof.
  split; intros; apply largest_spec.
Qed.

(** * The detector: identical frames *)

Lemma fold_left_invariant (A B : Type) (P : A -> Prop) (f : A -> B -> A)
    (l : list B) (a : A) :
  (forall a b, P a -> In b l -> P (f a b)) -> P a -> P (fold_left f l a).
Proof.
  revert a. induction l as [|b rest IH]; intros a Hf Ha; simpl; [exact Ha|].
  apply IH.
  - intros a' b' Ha' Hb'. apply Hf; [assumption|now right].
  - apply Hf; [assumption|now left].
Qed.

Lemma largest_nil (A : Type) (size : A -> nat) (k : nat) :
  largest size k [] = [].
Proof. unfold largest. simpl. apply firstn_nil. Qed.

Section PixelGridStill.

Variable cfg : PixelGrid.Config.
Variable width height : nat.

Lemma motionPixel_same (frame : list Z) (x y : nat) :
  PixelGrid.motionPixel cfg width frame frame x y == 0.
Proof.
  unfold PixelGrid.motionPixel. rewrite !Z.sub_diag. simpl Z.abs.
  simpl Z.add.
  destruct (Qltb (PixelGrid.motionThreshold cfg) (inject_Z 0 / 3));
    reflexivity.
Qed.

Lemma differenceFrames_same (frame : list Z) :
  Forall (fun q => q == 0)
    (PixelGrid.differenceFrames cfg width height frame frame).
Proof.
  unfold PixelGrid.differenceFrames. apply Forall_forall. intros q Hq.
  apply in_flat_map in Hq. destruct Hq as [y [_ Hq]].
  apply in_map_iff in Hq. destruct Hq as [x [<- _]].
  apply motionPixel_same.
Qed.

Lemma isMotion_zero (motionPixels : list Q) (i : nat) :
  Forall (fun q => q == 0) motionPixels ->
  PixelGrid.isMotion motionPixels i = false.
Proof.
  intro H. unfold PixelGrid.isMotion. apply Qltb_ge.
  destruct (nth_in_or_default i motionPixels 0) as [Hin| ->].
  - rewrite Forall_forall in H. rewrite (H _ Hin). apply Qle_refl.
  - apply Qle_refl.
Qed.

(** Without a motion pixel the scan starts no flood fill. *)
Lemma discoveredWith_zero (fuel : nat) (motionPixels : list Q) :
  Forall (fun q => q == 0) motionPixels ->
  PixelGrid.discoveredWith cfg width height fuel motionPixels = [].
Proof.
  intro H. unfold PixelGrid.discoveredWith.
  apply (fold_left_invariant (fun st => fst st = [])); [|reflexivity].
  intros [blobs visited] i Hb _. unfold PixelGrid.scanPixel.
  rewrite (isMotion_zero i H). exact Hb.
Qed.

End PixelGridStill.

Section CellGridStill.

Variable cfg : CellGrid.Config.

(** [b - b] is zero, or [NaN] when [b] is not finite: the byte is 0. *)
Lemma storeUint8Clamped_diag (b : Double.t) :
  storeUint8Clamped (Double.abs (Double.sub b b)) = 0%Z.
Proof.
  destruct b as [[]|[]| |s m e]; try reflexivity.
  unfold Double.sub, SFsub. rewrite Z.sub_diag. reflexivity.
Qed.

Lemma differenceAlpha_same (curr prev : Image) (i : nat) :
  imagePixels curr = imagePixels prev ->
  differenceAlpha curr prev i = 0%Z.
Proof.
  intro H. unfold differenceAlpha, getBrightness, pixelByte. rewrite H.
  cbv zeta. apply storeUint8Clamped_diag.
Qed.

(** The alpha byte of pixel [j] in an array of RGBA quadruples. *)
Lemma nth_alpha (a : nat -> Z) (l : list nat) (j : nat) :
  nth (j * 4 + 3) (flat_map (fun k => [255; 255; 255; a k]%Z) l) 0%Z
  = match nth_error l j with
    | Some k => a k
    | None => 0%Z
    end.
Proof.
  revert j. induction l as [|k rest IH]; intros [|j]; simpl;
    try reflexivity.
  apply IH.
Qed.

Lemma alphaAt_same (curr prev : Image) (x y : nat) :
  imagePixels curr = imagePixels prev ->
  CellGrid.alphaAt (createDifferenceImage curr prev) x y = 0%Z.
Proof.
  intro H. unfold CellGrid.alphaAt, createDifferenceImage.
  cbn [imagePixels imageWidth]. rewrite nth_alpha.
  destruct (nth_error _ _); [|reflexivity].
  now apply differenceAlpha_same.
Qed.

Lemma cellAt_emptyGrid (diffImage : Image) (x y : nat) :
  CellGrid.cellAt (CellGrid.emptyGrid cfg diffImage) x y = Cell.mk false 0.
Proof.
  unfold CellGrid.cellAt, CellGrid.emptyGrid.
  destruct (nth_in_or_default y
              (repeat (repeat (Cell.mk false 0)
                         (CellGrid.gridWidth cfg diffImage))
                 (CellGrid.gridHeight cfg diffImage)) []) as [Hin|E].
  - apply repeat_spec in Hin. rewrite Hin.
    destruct (nth_in_or_default x
                (repeat (Cell.mk false 0) (CellGrid.gridWidth cfg diffImage))
                (Cell.mk false 0)) as [Hin'|E']; [|exact E'].
    now apply repeat_spec in Hin'.
  - rewrite E. now destruct x.
Qed.

Lemma cellAt_normalized (grid : CellGrid.Grid) (x y : nat) :
  CellGrid.cellAt (map (map (CellGrid.normalizeCell cfg)) grid) x y
  = CellGrid.normalizeCell cfg (CellGrid.cellAt grid x y).
Proof.
  unfold CellGrid.cellAt.
  change (@nil Cell.t) with (map (CellGrid.normalizeCell cfg) []) at 1.
  rewrite map_nth.
  change (Cell.mk false 0)
    with (CellGrid.normalizeCell cfg (Cell.mk false 0)) at 1.
  now rewrite map_nth.
Qed.

(** A grid without a motion cell yields no blob. *)
Lemma discoveredWith_still (diffImage : Image) (fuel : nat)
    (grid : CellGrid.Grid) :
  (forall x y, Cell.motion (CellGrid.cellAt grid x y) = false) ->
  CellGrid.discoveredWith cfg diffImage fuel grid = [].
Proof.
  intro H. unfold CellGrid.discoveredWith.
  apply (fold_left_invariant (fun st => fst st = [])); [|reflexivity].
  intros st y Hst _.
  apply (fold_left_invariant (fun st => fst st = [])); [|exact Hst].
  intros [blobs visited] x Hb _. unfold CellGrid.scanCell.
  rewrite H. exact Hb.
Qed.

Lemma accumulate_still (diffImage : Image) :
  (0 <= CellGrid.motionThreshold cfg)%Z ->
  (forall x y, CellGrid.alphaAt diffImage x y = 0%Z) ->
  CellGrid.accumulate cfg diffImage = CellGrid.emptyGrid cfg diffImage.
Proof.
  intros Hthr Hzero. unfold CellGrid.accumulate.
  apply (fold_left_invariant
           (fun g => g = CellGrid.emptyGrid cfg diffImage)); [|reflexivity].
  intros g y Hg _.
  apply (fold_left_invariant
           (fun g => g = CellGrid.emptyGrid cfg diffImage)); [|exact Hg].
  intros g' x Hg' _. unfold CellGrid.addPixel. rewrite Hzero.
  destruct (Z.ltb_spec (CellGrid.motionThreshold cfg) 0); [lia|exact Hg'].
Qed.

End CellGridStill.

(** C6.  Two frames with the same pixel data give a motion signal that is
    zero everywhere - [motionPixels] in the pixel-grid sketch, the alpha
    channel of the difference image in the cell-grid sketch - and
    [findMotionBlobs] returns the empty list on it (in the cell-grid
    sketch for a threshold that is not negative). *)
Theorem C6_identical_frames_no_blobs :
  (forall (cfg : PixelGrid.Config) (width height : nat) (frame : list Z),
     let motionPixels :=
       PixelGrid.differenceFrames cfg width height frame frame in
     Forall (fun q => q == 0) motionPixels
     /\ PixelGrid.findMotionBlobs cfg width height motionPixels = [])
  /\ (forall (cfg : CellGrid.Config) (currFrame prevFrame : Image),
        (0 <= CellGrid.motionThreshold cfg)%Z ->
        imagePixels currFrame = imagePixels prevFrame ->
        let diffImage := createDifferenceImage currFrame prevFrame in
        (forall x y, CellGrid.alphaAt diffImage x y = 0%Z)
        /\ (forall x y,
              CellGrid.cellAt (CellGrid.motionGrid cfg diffImage) x y
              = Cell.mk false 0)
        /\ CellGrid.findMotionBlobs cfg diffImage = []).
Proof.
  split.
  - intros cfg width height frame motionPixels.
    pose proof (differenceFrames_same cfg width height frame) as Hz.
    split; [exact Hz|]. unfold PixelGrid.findMotionBlobs, PixelGrid.discovered.
    fold motionPixels in Hz.
    rewrite (discoveredWith_zero cfg width height _ Hz). apply largest_nil.
  - intros cfg currFrame prevFrame Hthr Hsame diffImage.
    assert (Hz : forall x y, CellGrid.alphaAt diffImage x y = 0%Z).
    { intros x y. now apply alphaAt_same. }
    assert (Hg : forall x y,
               CellGrid.cellAt (CellGrid.motionGrid cfg diffImage) x y
               = Cell.mk false 0).
    { intros x y. unfold CellGrid.motionGrid.
      rewrite (accumulate_still cfg diffImage Hthr Hz).
      rewrite cellAt_normalized, cellAt_emptyGrid. reflexivity. }
    split; [exact Hz|]. split; [exact Hg|].
    unfold CellGrid.findMotionBlobs, CellGrid.discovered.
    rewrite discoveredWith_still; [apply largest_nil|].
    intros x y. now rewrite Hg.
Qed.

Lemma C6_identical_frames_no_blobs_witness :
  (0 <= CellGrid.motionThreshold CellGrid.sketch)%Z
  /\ imagePixels greyFrame = imagePixels greyFrame
  /\ (forall x y,
        CellGrid.alphaAt (createDifferenceImage greyFrame greyFrame) x y
        = 0%Z)
  /\ (forall x y,
        CellGrid.cellAt
          (CellGrid.motionGrid CellGrid.sketch
             (createDifferenceImage greyFrame greyFrame)) x y
        = Cell.mk false 0)
  /\ CellGrid.findMotionBlobs CellGrid.sketch
       (createDifferenceImage greyFrame greyFrame) = [].
Proof.
  split; [simpl; lia|]. split; [reflexivity|].
  apply (proj2 C6_identical_frames_no_blobs CellGrid.sketch
           greyFrame greyFrame).
  - simpl. lia.
  - reflexivity.
Defined.

(** * The detector: the minimum size *)

Section MinimumSize.

(** Pixel-grid sketch: only components strictly larger than
    [minBlobSize] are pushed. *)
Lemma PixelGrid_discovered_sizes (cfg : PixelGrid.Config)
    (width height : nat) (motionPixels : list Q) :
  Forall (fun b => (PixelGrid.minBlobSize cfg < PixelBlob.size b)%nat)
    (PixelGrid.discovered cfg width height motionPixels).
Proof.
  unfold PixelGrid.discovered, PixelGrid.discoveredWith.
  apply (fold_left_invariant
           (fun st => Forall
              (fun b => (PixelGrid.minBlobSize cfg < PixelBlob.size b)%nat)
              (fst st))); [|constructor].
  intros [blobs visited] i Hb _. unfold PixelGrid.scanPixel.
  destruct (PixelGrid.isMotion motionPixels i
            && negb (PixelGrid.isVisited visited i)); [|exact Hb].
  destruct (PixelGrid.flood _ _ _ _ _ _ _) as [blob visited'].
  destruct (Nat.ltb_spec (PixelGrid.minBlobSize cfg)
              (length (PixelBlob.pixels blob))); [|exact Hb].
  simpl in *. apply Forall_app. split; [exact Hb|].
  repeat constructor. assumption.
Qed.

(** Cell-grid sketch: components of at least [minGridsForBlob] cells are
    pushed. *)
Lemma CellGrid_discovered_sizes (cfg : CellGrid.Config) (diffImage : Image) :
  Forall (fun b => (CellGrid.minGridsForBlob cfg <= CellBlob.size b)%nat)
    (CellGrid.discovered cfg diffImage).
Proof.
  unfold CellGrid.discovered, CellGrid.discoveredWith.
  apply (fold_left_invariant
           (fun st => Forall
              (fun b => (CellGrid.minGridsForBlob cfg <= CellBlob.size b)%nat)
              (fst st))); [|constructor].
  intros st y Hst _.
  apply (fold_left_invariant
           (fun st => Forall
              (fun b => (CellGrid.minGridsForBlob cfg <= CellBlob.size b)%nat)
              (fst st))); [|exact Hst].
  intros [blobs visited] x Hb _. unfold CellGrid.scanCell.
  destruct (Cell.motion _ && negb _); [|exact Hb].
  destruct (CellGrid.flood _ _ _ _ _ _) as [acc visited'].
  destruct (Nat.leb_spec (CellGrid.minGridsForBlob cfg)
              (length (CellGrid.cellsInBlob acc))); [|exact Hb].
  simpl in *. apply Forall_app. split; [exact Hb|].
  repeat constructor. assumption.
Qed.

End MinimumSize.

(** C3.  The pixel-grid sketch tests [blob.pixels.length > minBlobSize]:
    whatever the input, every blob it returns has more than [minBlobSize]
    pixels, so a component of exactly the minimum is never kept; a row of
    exactly [minBlobSize] = 200 motion pixels, one component, is dropped,
    and a row of 201 is kept.  The cell-grid sketch tests
    [cellsInBlob.length >= MIN_GRIDS_FOR_BLOB]: its blobs have at least
    the minimum size, and a component of exactly the minimum, one cell,
    is kept. *)
Theorem C3_component_of_minimum_size :
  (forall (cfg : PixelGrid.Config) (width height : nat)
          (motionPixels : list Q),
     Forall (fun b => (PixelGrid.minBlobSize cfg < PixelBlob.size b)%nat)
       (PixelGrid.findMotionBlobs cfg width height motionPixels))
  /\ PixelGrid.findMotionBlobs PixelGrid.sketch 200 1 (repeat 31 200) = []
  /\ map PixelBlob.size
       (PixelGrid.findMotionBlobs PixelGrid.sketch 201 1 (repeat 31 201))
     = [201%nat]
  /\ (forall (cfg : CellGrid.Config) (diffImage : Image),
        Forall (fun b => (CellGrid.minGridsForBlob cfg <= CellBlob.size b)%nat)
          (CellGrid.findMotionBlobs cfg diffImage))
  /\ map CellBlob.size
       (CellGrid.findMotionBlobs CellGrid.sketch (imageOfAlphas 1 1 [50%Z]))
     = [CellGrid.minGridsForBlob CellGrid.sketch].
Proof.
  split.
  { intros cfg width height motionPixels. apply Forall_forall. intros b Hb.
    apply (proj1 (proj2 (proj2 (largest_spec PixelBlob.size _ _)))) in Hb.
    pose proof (PixelGrid_discovered_sizes cfg width height motionPixels)
      as H.
    rewrite Forall_forall in H. now apply H. }
  split; [vm_compute; reflexivity|]. split; [vm_compute; reflexivity|].
  split; [|vm_compute; reflexivity].
  intros cfg diffImage. apply Forall_forall. intros b Hb.
  apply (proj1 (proj2 (proj2 (largest_spec CellBlob.size _ _)))) in Hb.
  pose proof (CellGrid_discovered_sizes cfg diffImage) as H.
  rewrite Forall_forall in H. now apply H.
Qed.

(** * The detector: motion per grid cell *)

Lemma length_updateAt (A : Type) (f : A -> A) (i : nat) (a : list A) :
  length (updateAt f i a) = length a.
Proof.
  revert i. induction a as [|v rest IH]; intros [|i]; simpl; auto.
Qed.

Lemma nth_updateAt (A : Type) (f : A -> A) (i j : nat) (a : list A) (d : A) :
  nth j (updateAt f i a) d
  = if (i =? j)%nat && (i <? length a)%nat then f (nth j a d) else nth j a d.
Proof.
  revert i j. induction a as [|v rest IH]; intros [|i] [|j]; simpl;
    try reflexivity.
  - now rewrite andb_false_r.
  - rewrite IH. reflexivity.
Qed.

Lemma fold_left_flat_map (A B C : Type) (f : A -> C -> A) (g : B -> list C)
    (l : list B) (a : A) :
  fold_left f (flat_map g l) a
  = fold_left (fun acc b => fold_left f (g b) acc) l a.
Proof.
  revert a. induction l as [|b rest IH]; intro a; simpl; [reflexivity|].
  now rewrite fold_left_app, IH.
Qed.

Lemma fold_left_map (A B C : Type) (f : A -> C -> A) (h : B -> C)
    (l : list B) (a : A) :
  fold_left f (map h l) a = fold_left (fun acc b => f acc (h b)) l a.
Proof.
  revert a. induction l as [|b rest IH]; intro a; simpl; [reflexivity|].
  apply IH.
Qed.

Lemma fold_left_ext (A B : Type) (f g : A -> B -> A) (l : list B) (a : A) :
  (forall a b, f a b = g a b) -> fold_left f l a = fold_left g l a.
Proof.
  intro H. revert a. induction l as [|b rest IH]; intro a; simpl;
    [reflexivity|].
  now rewrite H, IH.
Qed.

Lemma Forall_updateAt (A : Type) (P : A -> Prop) (f : A -> A) (i : nat)
    (a : list A) :
  (forall v, P v -> P (f v)) -> Forall P a -> Forall P (updateAt f i a).
Proof.
  intros Hf H. revert i.
  induction H as [|v rest Hv Hr IH]; intros [|i]; simpl; constructor; auto.
Qed.

Lemma filter_none (A : Type) (f : A -> bool) (l : list A) :
  existsb f l = false -> filter f l = [].
Proof.
  induction l as [|a rest IH]; simpl; [reflexivity|].
  intro H. apply orb_false_iff in H. destruct H as [Ha Hr].
  rewrite Ha. now apply IH.
Qed.

Lemma coords_spec (w h x y : nat) :
  In (x, y) (coords w h) <-> (x < w)%nat /\ (y < h)%nat.
Proof.
  unfold coords. rewrite in_flat_map. split.
  - intros [y' [Hy Hin]]. apply in_map_iff in Hin.
    destruct Hin as [x' [E Hx]]. inversion E; subst.
    apply in_seq in Hy, Hx. lia.
  - intros [Hx Hy]. exists y. split; [apply in_seq; lia|].
    apply in_map_iff. exists x. split; [reflexivity|apply in_seq; lia].
Qed.

Lemma NoDup_row (y : nat) (xs : list nat) :
  NoDup xs -> NoDup (map (fun x => (x, y)) xs).
Proof.
  induction 1 as [|x rest Hx Hr IH]; simpl; constructor; [|exact IH].
  rewrite in_map_iff. intros [x1 [E Hin]]. inversion E; subst.
  contradiction.
Qed.

Lemma NoDup_rows (xs ys : list nat) :
  NoDup xs -> NoDup ys ->
  NoDup (flat_map (fun y => map (fun x => (x, y)) xs) ys).
Proof.
  intros Hxs. induction 1 as [|y rest Hy Hr IH]; simpl; [constructor|].
  apply NoDup_app; [now apply NoDup_row|exact IH|].
  intros [x1 y1] Hin1 Hin2. apply in_map_iff in Hin1.
  destruct Hin1 as [x2 [E _]]. inversion E; subst.
  apply in_flat_map in Hin2. destruct Hin2 as [y2 [Hy2 Hin2]].
  apply in_map_iff in Hin2. destruct Hin2 as [x3 [E' _]].
  inversion E'; subst. contradiction.
Qed.

Lemma coords_NoDup (w h : nat) : NoDup (coords w h).
Proof. apply NoDup_rows; apply seq_NoDup. Qed.

Section CellGridCells.

Variable cfg : CellGrid.Config.
Variable diffImage : Image.

Lemma shaped_emptyGrid :
  shaped (CellGrid.gridWidth cfg diffImage)
    (CellGrid.gridHeight cfg diffImage) (CellGrid.emptyGrid cfg diffImage).
Proof.
  unfold shaped, CellGrid.emptyGrid. split.
  - apply repeat_length.
  - apply Forall_forall. intros row Hrow. apply repeat_spec in Hrow.
    subst. apply repeat_length.
Qed.

Lemma shaped_update (A : Type) (gw gh : nat) (f : A -> A) (tx ty : nat)
    (grid : list (list A)) :
  shaped gw gh grid ->
  shaped gw gh (updateAt (updateAt f tx) ty grid).
Proof.
  intros [Hl Hrows]. split.
  - now rewrite length_updateAt.
  - apply Forall_updateAt; [|assumption].
    intros row Hr. now rewrite length_updateAt.
Qed.

Lemma nth2_updateAt (A : Type) (d : A) (gw gh : nat) (f : A -> A)
    (tx ty gx gy : nat) (grid : list (list A)) :
  shaped gw gh grid -> (tx < gw)%nat -> (ty < gh)%nat ->
  nth gx (nth gy (updateAt (updateAt f tx) ty grid) []) d
  = if (tx =? gx)%nat && (ty =? gy)%nat then f (nth gx (nth gy grid []) d)
    else nth gx (nth gy grid []) d.
Proof.
  intros [Hl Hrows] Hx Hy.
  rewrite nth_updateAt.
  destruct (Nat.eqb_spec ty gy) as [->|Hne]; simpl;
    [|now rewrite andb_false_r].
  assert (E : (gy <? length grid)%nat = true) by (apply Nat.ltb_lt; lia).
  rewrite E, nth_updateAt.
  assert (Hrow : length (nth gy grid []) = gw).
  { rewrite Forall_forall in Hrows. apply Hrows, nth_In. lia. }
  rewrite Hrow.
  assert (E' : (tx <? gw)%nat = true) by (now apply Nat.ltb_lt).
  rewrite E'. now rewrite !andb_true_r.
Qed.

Lemma cellAt_update (gw gh : nat) (f : Cell.t -> Cell.t) (tx ty gx gy : nat)
    (grid : CellGrid.Grid) :
  shaped gw gh grid -> (tx < gw)%nat -> (ty < gh)%nat ->
  CellGrid.cellAt (updateAt (updateAt f tx) ty grid) gx gy
  = if (tx =? gx)%nat && (ty =? gy)%nat then f (CellGrid.cellAt grid gx gy)
    else CellGrid.cellAt grid gx gy.
Proof. apply nth2_updateAt. Qed.

(** The two accumulation loops are one pass over the pixels. *)
Lemma accumulate_pass :
  CellGrid.accumulate cfg diffImage
  = fold_left
      (fun grid p => CellGrid.addPixel cfg diffImage (snd p) grid (fst p))
      (CellGrid.pixelCoords diffImage) (CellGrid.emptyGrid cfg diffImage).
Proof.
  unfold CellGrid.accumulate, CellGrid.pixelCoords, coords.
  rewrite fold_left_flat_map. apply fold_left_ext. intros grid y.
  now rewrite fold_left_map.
Qed.

(** What one pixel inside the grid does to a cell. *)
Lemma addPixel_cell (gx gy x y : nat) (grid : CellGrid.Grid) :
  (x / CellGrid.gridSize cfg < CellGrid.gridWidth cfg diffImage)%nat ->
  (y / CellGrid.gridSize cfg < CellGrid.gridHeight cfg diffImage)%nat ->
  shaped (CellGrid.gridWidth cfg diffImage)
    (CellGrid.gridHeight cfg diffImage) grid ->
  CellGrid.cellAt (CellGrid.addPixel cfg diffImage y grid x) gx gy
  = if CellGrid.contributes cfg diffImage gx gy (x, y) then
      Cell.mk true
        (Cell.avgDiff (CellGrid.cellAt grid gx gy)
         + inject_Z (CellGrid.alphaAt diffImage x y))
    else CellGrid.cellAt grid gx gy.
Proof.
  intros Hx Hy Hs. unfold CellGrid.addPixel, CellGrid.contributes.
  cbn [fst snd].
  destruct (CellGrid.motionThreshold cfg
            <? CellGrid.alphaAt diffImage x y)%Z.
  - rewrite (cellAt_update _ _ _ Hs Hx Hy). now rewrite andb_true_r.
  - now rewrite andb_false_r.
Qed.

(** What a pass over pixels that fall inside the grid adds to a cell. *)
Lemma pass_cell (gx gy : nat) (l : list (nat * nat)) :
  Forall (fun p =>
            (fst p / CellGrid.gridSize cfg
             < CellGrid.gridWidth cfg diffImage)%nat
            /\ (snd p / CellGrid.gridSize cfg
                < CellGrid.gridHeight cfg diffImage)%nat) l ->
  forall grid,
  shaped (CellGrid.gridWidth cfg diffImage)
    (CellGrid.gridHeight cfg diffImage) grid ->
  Cell.motion
    (CellGrid.cellAt
       (fold_left
          (fun grid p => CellGrid.addPixel cfg diffImage (snd p) grid (fst p))
          l grid) gx gy)
  = Cell.motion (CellGrid.cellAt grid gx gy)
    || existsb (CellGrid.contributes cfg diffImage gx gy) l
  /\ Cell.avgDiff
       (CellGrid.cellAt
          (fold_left
             (fun grid p =>
                CellGrid.addPixel cfg diffImage (snd p) grid (fst p))
             l grid) gx gy)
     == Cell.avgDiff (CellGrid.cellAt grid gx gy)
        + inject_Z
            (CellGrid.sumZ
               (map (fun p => CellGrid.alphaAt diffImage (fst p) (snd p))
                  (filter (CellGrid.contributes cfg diffImage gx gy) l))).
Proof.
  induction 1 as [|[x y] rest [Hx Hy] _ IH]; intros grid Hs.
  - simpl. rewrite orb_false_r. split; [reflexivity|]. ring.
  - cbn [fold_left existsb filter fst snd] in *.
    assert (Hs1 : shaped (CellGrid.gridWidth cfg diffImage)
                    (CellGrid.gridHeight cfg diffImage)
                    (CellGrid.addPixel cfg diffImage y grid x)).
    { unfold CellGrid.addPixel.
      destruct (_ <? _)%Z; [now apply shaped_update|assumption]. }
    destruct (IH _ Hs1) as [IHm IHa].
    rewrite IHm, IHa, (@addPixel_cell gx gy x y grid Hx Hy Hs).
    destruct (CellGrid.contributes cfg diffImage gx gy (x, y)).
    + cbn [Cell.motion Cell.avgDiff map CellGrid.sumZ fold_right fst snd].
      split; [now rewrite orb_true_r|].
      fold (CellGrid.sumZ
              (map (fun p => CellGrid.alphaAt diffImage (fst p) (snd p))
                 (filter (CellGrid.contributes cfg diffImage gx gy) rest))).
      rewrite inject_Z_plus. ring.
    + split; reflexivity.
Qed.

Lemma pixelCoords_spec (x y : nat) :
  In (x, y) (CellGrid.pixelCoords diffImage)
  <-> (x < imageWidth diffImage)%nat /\ (y < imageHeight diffImage)%nat.
Proof. apply coords_spec. Qed.

Hypothesis Hgrid : (0 < CellGrid.gridSize cfg)%nat.

Lemma cells_covers (n i : nat) :
  (i < n)%nat -> (i / CellGrid.gridSize cfg < CellGrid.cells cfg n)%nat.
Proof.
  intro H. unfold CellGrid.cells.
  apply Nat.Div0.div_lt_upper_bound.
  pose proof (Nat.div_mod_eq (n + CellGrid.gridSize cfg - 1)
                (CellGrid.gridSize cfg)) as E.
  pose proof (Nat.mod_upper_bound (n + CellGrid.gridSize cfg - 1)
                (CellGrid.gridSize cfg) ltac:(lia)) as Hm.
  lia.
Qed.

Lemma pixelCoords_inside :
  Forall (fun p =>
            (fst p / CellGrid.gridSize cfg
             < CellGrid.gridWidth cfg diffImage)%nat
            /\ (snd p / CellGrid.gridSize cfg
                < CellGrid.gridHeight cfg diffImage)%nat)
    (CellGrid.pixelCoords diffImage).
Proof.
  apply Forall_forall. intros [x y] Hin. apply pixelCoords_spec in Hin.
  destruct Hin as [Hx Hy]. simpl. split; now apply cells_covers.
Qed.

End CellGridCells.

(** C4, as the code has it.  A grid cell is marked as motion exactly when
    some pixel of the image inside it exceeds the threshold, and its
    intensity, once normalised, is the sum of the difference values of
    those pixels divided by [GRID_SIZE * GRID_SIZE], the area of a full
    cell - not by the number of pixels that contributed. *)
Theorem C4_cell_motion_and_intensity (cfg : CellGrid.Config)
    (diffImage : Image) (gx gy : nat) :
  (0 < CellGrid.gridSize cfg)%nat ->
  (Cell.motion (CellGrid.cellAt (CellGrid.motionGrid cfg diffImage) gx gy)
   = true
   <-> exists x y,
         (x < imageWidth diffImage)%nat /\ (y < imageHeight diffImage)%nat
         /\ (x / CellGrid.gridSize cfg)%nat = gx
         /\ (y / CellGrid.gridSize cfg)%nat = gy
         /\ (CellGrid.motionThreshold cfg
             < CellGrid.alphaAt diffImage x y)%Z)
  /\ Cell.avgDiff (CellGrid.cellAt (CellGrid.motionGrid cfg diffImage) gx gy)
     == inject_Z (CellGrid.sumZ (CellGrid.contributing cfg diffImage gx gy))
        / inject_Z (Z.of_nat (CellGrid.gridSize cfg * CellGrid.gridSize cfg)).
Proof.
  intro Hgrid. unfold CellGrid.motionGrid.
  rewrite cellAt_normalized, accumulate_pass.
  destruct (@pass_cell cfg diffImage gx gy (CellGrid.pixelCoords diffImage)
              (@pixelCoords_inside cfg diffImage Hgrid)
              (CellGrid.emptyGrid cfg diffImage)
              (shaped_emptyGrid cfg diffImage)) as [Hm Ha].
  rewrite cellAt_emptyGrid in Hm, Ha. cbn [Cell.motion Cell.avgDiff] in Hm, Ha.
  rewrite orb_false_l in Hm. rewrite Qplus_0_l in Ha.
  fold (CellGrid.contributing cfg diffImage gx gy) in Ha.
  set (cell := CellGrid.cellAt _ gx gy) in *.
  assert (Hex : existsb (CellGrid.contributes cfg diffImage gx gy)
                  (CellGrid.pixelCoords diffImage) = true
                <-> exists x y,
                      (x < imageWidth diffImage)%nat
                      /\ (y < imageHeight diffImage)%nat
                      /\ (x / CellGrid.gridSize cfg)%nat = gx
                      /\ (y / CellGrid.gridSize cfg)%nat = gy
                      /\ (CellGrid.motionThreshold cfg
                          < CellGrid.alphaAt diffImage x y)%Z).
  { rewrite existsb_exists. unfold CellGrid.contributes. split.
    - intros [[x y] [Hin Hc]]. apply pixelCoords_spec in Hin.
      cbn [fst snd] in Hc. apply andb_true_iff in Hc. destruct Hc as [Hc Ht].
      apply andb_true_iff in Hc. destruct Hc as [Ex Ey].
      apply Nat.eqb_eq in Ex, Ey. apply Z.ltb_lt in Ht.
      exists x, y. tauto.
    - intros [x [y [Hx [Hy [Ex [Ey Ht]]]]]]. exists (x, y).
      split; [now apply pixelCoords_spec|]. cbn [fst snd].
      apply Nat.eqb_eq in Ex, Ey. apply Z.ltb_lt in Ht.
      now rewrite Ex, Ey, Ht. }
  unfold CellGrid.normalizeCell.
  destruct (Cell.motion cell) eqn:Em; cbn [Cell.motion Cell.avgDiff].
  - split; [|now rewrite Ha].
    rewrite <- Hex, <- Hm. tauto.
  - split.
    + rewrite Em. rewrite <- Hex, <- Hm. split; congruence.
    + rewrite Ha. symmetry in Hm.
      unfold CellGrid.contributing.
      rewrite (filter_none _ _ Hm). simpl. unfold Qdiv. ring.
Qed.

Lemma C4_cell_motion_and_intensity_witness :
  (0 < CellGrid.gridSize CellGrid.sketch)%nat
  /\ (Cell.motion
        (CellGrid.cellAt (CellGrid.motionGrid CellGrid.sketch oneBrightPixel)
           0 0) = true
      <-> exists x y,
            (x < imageWidth oneBrightPixel)%nat
            /\ (y < imageHeight oneBrightPixel)%nat
            /\ (x / CellGrid.gridSize CellGrid.sketch)%nat = 0%nat
            /\ (y / CellGrid.gridSize CellGrid.sketch)%nat = 0%nat
            /\ (CellGrid.motionThreshold CellGrid.sketch
                < CellGrid.alphaAt oneBrightPixel x y)%Z)
  /\ Cell.avgDiff
       (CellGrid.cellAt (CellGrid.motionGrid CellGrid.sketch oneBrightPixel)
          0 0)
     == inject_Z
          (CellGrid.sumZ
             (CellGrid.contributing CellGrid.sketch oneBrightPixel 0 0))
        / inject_Z
            (Z.of_nat (CellGrid.gridSize CellGrid.sketch
                       * CellGrid.gridSize CellGrid.sketch)).
Proof.
  split; [simpl; lia|].
  apply (@C4_cell_motion_and_intensity CellGrid.sketch oneBrightPixel 0 0).
  simpl. lia.
Defined.

(** C4, as stated, fails.  In a full cell of 100 pixels of which one
    differs by 50, the only contributing value is 50 and so is their mean,
    while the cell stores 50 / 100. *)
Lemma C4_intensity_is_not_the_mean :
  Cell.motion
    (CellGrid.cellAt (CellGrid.motionGrid CellGrid.sketch oneBrightPixel) 0 0)
  = true
  /\ CellGrid.contributing CellGrid.sketch oneBrightPixel 0 0 = [50%Z]
  /\ CellGrid.meanOfContributing CellGrid.sketch oneBrightPixel 0 0 == 50
  /\ Cell.avgDiff
       (CellGrid.cellAt (CellGrid.motionGrid CellGrid.sketch oneBrightPixel)
          0 0) == 1 # 2
  /\ ~ Cell.avgDiff
         (CellGrid.cellAt (CellGrid.motionGrid CellGrid.sketch oneBrightPixel)
            0 0)
       == CellGrid.meanOfContributing CellGrid.sketch oneBrightPixel 0 0.
Proof.
  split; [vm_compute; reflexivity|]. split; [vm_compute; reflexivity|].
  split; [vm_compute; reflexivity|]. split; [vm_compute; reflexivity|].
  vm_compute. discriminate.
Qed.

(** * The flood fills end within their bound *)

Section Counting.

Variable A : Type.
Hypothesis eq_dec : forall a b : A, {a = b} + {a <> b}.

(** Clearing the predicate at one element of a duplicate-free list
    removes exactly one element from the filtered list. *)
Lemma filter_length_clear (p p' : A -> bool) (l : list A) (i : A) :
  NoDup l -> In i l -> p i = true -> p' i = false ->
  (forall j, j <> i -> p' j = p j) ->
  (length (filter p' l) + 1 = length (filter p l))%nat.
Proof.
  intros Hnd Hin Hp Hp' Hother.
  induction Hnd as [|a rest Ha Hnd IH]; [contradiction|].
  simpl. destruct (eq_dec a i) as [->|Hne].
  - rewrite Hp, Hp'. simpl.
    rewrite (filter_ext_in p' p rest); [lia|].
    intros j Hj. apply Hother. intros ->. contradiction.
  - destruct Hin as [E|Hin]; [congruence|].
    rewrite (Hother a Hne). specialize (IH Hin).
    destruct (p a); simpl; lia.
Qed.

End Counting.

Section PixelGridFlood.

Variable cfg : PixelGrid.Config.
Variable width height : nat.
Variable motionPixels : list Q.

Lemma isVisited_setTrue (visited : list bool) (i j : nat) :
  PixelGrid.isVisited (setTrue visited i) j
  = if (j =? i)%nat then true else PixelGrid.isVisited visited j.
Proof.
  unfold PixelGrid.isVisited, setTrue.
  set (prefix := firstn i visited ++ repeat false (i - length visited)).
  assert (Hlen : length prefix = i).
  { unfold prefix. rewrite length_app, length_firstn, repeat_length. lia. }
  rewrite app_assoc. fold prefix.
  destruct (Nat.eqb_spec j i) as [->|Hne].
  - rewrite <- Hlen at 1. apply nth_middle.
  - destruct (Nat.lt_ge_cases j i) as [Hlt|Hge].
    + rewrite app_nth1 by lia. unfold prefix.
      destruct (Nat.lt_ge_cases j (length visited)) as [Hin|Hout].
      * rewrite app_nth1 by (rewrite length_firstn; lia).
        rewrite nth_firstn.
        now destruct (Nat.ltb_spec j i); [|lia].
      * rewrite app_nth2 by (rewrite length_firstn; lia).
        rewrite (nth_overflow visited) by lia.
        destruct (nth_in_or_default (j - length (firstn i visited))
                    (repeat false (i - length visited)) false) as [H|H];
          [now apply repeat_spec in H|exact H].
    + rewrite app_nth2 by lia. rewrite Hlen.
      destruct (j - i)%nat as [|k] eqn:E; [lia|]. cbn [nth].
      rewrite nth_skipn. f_equal. lia.
Qed.

Lemma isMotion_inside (i : nat) :
  PixelGrid.isMotion motionPixels i = true -> (i < length motionPixels)%nat.
Proof.
  unfold PixelGrid.isMotion. intro H.
  destruct (Nat.lt_ge_cases i (length motionPixels)) as [Hlt|Hge];
    [exact Hlt|].
  rewrite nth_overflow in H by lia. discriminate H.
Qed.

(** Marking an unvisited motion pixel lowers the count by one. *)
Lemma unvisitedMotion_setTrue (visited : list bool) (i : nat) :
  PixelGrid.isMotion motionPixels i = true ->
  PixelGrid.isVisited visited i = false ->
  (PixelGrid.unvisitedMotion motionPixels (setTrue visited i) + 1
   = PixelGrid.unvisitedMotion motionPixels visited)%nat.
Proof.
  intros Hm Hv. unfold PixelGrid.unvisitedMotion.
  apply (filter_length_clear Nat.eq_dec) with (i := i).
  - apply seq_NoDup.
  - apply in_seq. pose proof (isMotion_inside i Hm). lia.
  - now rewrite Hm, Hv.
  - rewrite isVisited_setTrue, Nat.eqb_refl. now rewrite andb_false_r.
  - intros j Hj. rewrite isVisited_setTrue.
    now destruct (Nat.eqb_spec j i).
Qed.

Lemma PixelGrid_visitNeighbor_measure (x y : nat) (queue : list nat)
    (visited : list bool) (n : Z * Z) :
  let st := PixelGrid.visitNeighbor width height motionPixels x y
              (queue, visited) n in
  (length (fst st) + PixelGrid.unvisitedMotion motionPixels (snd st)
   = length queue + PixelGrid.unvisitedMotion motionPixels visited)%nat.
Proof.
  cbv zeta. unfold PixelGrid.visitNeighbor.
  destruct (_ && _ && _ && _); [|reflexivity].
  destruct (PixelGrid.isMotion motionPixels _) eqn:Hm; [|reflexivity].
  destruct (PixelGrid.isVisited visited _) eqn:Hv; [reflexivity|].
  cbn [negb andb fst snd]. rewrite length_app. cbn [length].
  pose proof (unvisitedMotion_setTrue visited _ Hm Hv). lia.
Qed.

Lemma PixelGrid_visitNeighbors_measure (x y : nat) (ns : list (Z * Z))
    (queue : list nat) (visited : list bool) :
  let st := fold_left (PixelGrid.visitNeighbor width height motionPixels x y)
              ns (queue, visited) in
  (length (fst st) + PixelGrid.unvisitedMotion motionPixels (snd st)
   = length queue + PixelGrid.unvisitedMotion motionPixels visited)%nat.
Proof.
  cbv zeta. revert queue visited.
  induction ns as [|n rest IH]; intros queue visited; [reflexivity|].
  cbn [fold_left].
  pose proof (PixelGrid_visitNeighbor_measure x y queue visited n) as H.
  cbv zeta in H.
  destruct (PixelGrid.visitNeighbor width height motionPixels x y
              (queue, visited) n) as [q1 v1].
  rewrite IH. exact H.
Qed.

(** Fuel beyond the pixels still in play is never used. *)
Lemma PixelGrid_flood_fuel (fuel extra : nat) :
  forall (queue : list nat) (visited : list bool) (blob : PixelBlob.t),
  (length queue + PixelGrid.unvisitedMotion motionPixels visited
   <= fuel)%nat ->
  PixelGrid.flood width height (fuel + extra) motionPixels queue visited blob
  = PixelGrid.flood width height fuel motionPixels queue visited blob.
Proof.
  induction fuel as [|fuel IH]; intros queue visited blob Hm.
  - destruct queue; [|simpl in Hm; lia]. now destruct extra.
  - cbn [Nat.add PixelGrid.flood]. destruct queue as [|i queue];
      [reflexivity|].
    pose proof (PixelGrid_visitNeighbors_measure (i mod width) (i / width)
                  neighbors queue visited) as H.
    cbv zeta in H.
    destruct (fold_left _ neighbors (queue, visited)) as [q1 v1].
    apply IH. cbn [fst snd length] in *. lia.
Qed.

(** [discovered] runs every flood fill to the end. *)
Lemma PixelGrid_discovered_fuel (extra : nat) :
  PixelGrid.discoveredWith cfg width height (length motionPixels + extra)
    motionPixels
  = PixelGrid.discovered cfg width height motionPixels.
Proof.
  unfold PixelGrid.discovered, PixelGrid.discoveredWith. f_equal.
  apply fold_left_ext. intros [blobs visited] i. unfold PixelGrid.scanPixel.
  destruct (PixelGrid.isMotion motionPixels i) eqn:Hm; [|reflexivity].
  destruct (PixelGrid.isVisited visited i) eqn:Hv; [reflexivity|].
  cbn [negb andb]. rewrite PixelGrid_flood_fuel; [reflexivity|].
  pose proof (unvisitedMotion_setTrue visited i Hm Hv) as H.
  assert (Hle : (PixelGrid.unvisitedMotion motionPixels visited
                 <= length motionPixels)%nat).
  { unfold PixelGrid.unvisitedMotion.
    etransitivity; [apply filter_length_le|]. now rewrite length_seq. }
  cbn [length]. lia.
Qed.

End PixelGridFlood.

Lemma fold_left_ext_inv (A B : Type) (P : A -> Prop) (f g : A -> B -> A)
    (l : list B) (a : A) :
  (forall a b, P a -> In b l -> f a b = g a b /\ P (g a b)) ->
  P a -> fold_left f l a = fold_left g l a /\ P (fold_left g l a).
Proof.
  revert a. induction l as [|b rest IH]; intros a H Ha; simpl; [auto|].
  destruct (H a b Ha (or_introl eq_refl)) as [E Hb]. rewrite E.
  apply IH; [|exact Hb]. intros a' b' Ha' Hb'. apply H; [exact Ha'|now right].
Qed.

Section CellGridFlood.

Variable cfg : CellGrid.Config.
Variable diffImage : Image.
Variable grid : CellGrid.Grid.

Lemma pair_eq_dec (a b : nat * nat) : {a = b} + {a <> b}.
Proof. decide equality; apply Nat.eq_dec. Qed.

Lemma shaped_markVisited (gw gh x y : nat) (visited : list (list bool)) :
  shaped gw gh visited -> shaped gw gh (CellGrid.markVisited visited x y).
Proof. apply shaped_update. Qed.

Lemma isVisited_markVisited (gw gh x y x' y' : nat)
    (visited : list (list bool)) :
  shaped gw gh visited -> (x < gw)%nat -> (y < gh)%nat ->
  CellGrid.isVisited (CellGrid.markVisited visited x y) x' y'
  = if (x =? x')%nat && (y =? y')%nat then true
    else CellGrid.isVisited visited x' y'.
Proof.
  intros Hs Hx Hy. unfold CellGrid.isVisited, CellGrid.markVisited.
  now rewrite (nth2_updateAt false (fun _ => true) x' y' Hs Hx Hy).
Qed.

(** Marking an unvisited motion cell lowers the count by one. *)
Lemma unvisitedMotion_markVisited (x y : nat) (visited : list (list bool)) :
  shaped (CellGrid.gridWidth cfg diffImage)
    (CellGrid.gridHeight cfg diffImage) visited ->
  (x < CellGrid.gridWidth cfg diffImage)%nat ->
  (y < CellGrid.gridHeight cfg diffImage)%nat ->
  Cell.motion (CellGrid.cellAt grid x y) = true ->
  CellGrid.isVisited visited x y = false ->
  (CellGrid.unvisitedMotion cfg diffImage grid
     (CellGrid.markVisited visited x y) + 1
   = CellGrid.unvisitedMotion cfg diffImage grid visited)%nat.
Proof.
  intros Hs Hx Hy Hm Hv. unfold CellGrid.unvisitedMotion.
  apply (filter_length_clear pair_eq_dec) with (i := (x, y)).
  - apply coords_NoDup.
  - now apply coords_spec.
  - cbn [fst snd]. now rewrite Hm, Hv.
  - cbn [fst snd]. rewrite (isVisited_markVisited x y Hs Hx Hy).
    rewrite !Nat.eqb_refl. now rewrite andb_false_r.
  - intros [x' y'] Hne. cbn [fst snd].
    rewrite (isVisited_markVisited x' y' Hs Hx Hy).
    destruct (Nat.eqb_spec x x'), (Nat.eqb_spec y y'); try reflexivity.
    subst. now contradiction Hne.
Qed.

Lemma CellGrid_visitNeighbor_measure (x y : nat) (queue : list (nat * nat))
    (visited : list (list bool)) (n : Z * Z) :
  shaped (CellGrid.gridWidth cfg diffImage)
    (CellGrid.gridHeight cfg diffImage) visited ->
  let st := CellGrid.visitNeighbor cfg diffImage grid x y
              (queue, visited) n in
  shaped (CellGrid.gridWidth cfg diffImage)
    (CellGrid.gridHeight cfg diffImage) (snd st)
  /\ (length (fst st) + CellGrid.unvisitedMotion cfg diffImage grid (snd st)
      = length queue
        + CellGrid.unvisitedMotion cfg diffImage grid visited)%nat.
Proof.
  intro Hs. cbv zeta. unfold CellGrid.visitNeighbor.
  destruct ((0 <=? Z.of_nat x + fst n)%Z
            && (Z.of_nat x + fst n
                <? Z.of_nat (CellGrid.gridWidth cfg diffImage))%Z
            && (0 <=? Z.of_nat y + snd n)%Z
            && (Z.of_nat y + snd n
                <? Z.of_nat (CellGrid.gridHeight cfg diffImage))%Z) eqn:Hb;
    [|now split].
  destruct (Cell.motion _) eqn:Hm; [|now split].
  destruct (CellGrid.isVisited visited _ _) eqn:Hv; [now split|].
  cbn [negb andb fst snd]. split; [now apply shaped_markVisited|].
  rewrite length_app. cbn [length].
  apply andb_true_iff in Hb. destruct Hb as [Hb Hb4].
  apply andb_true_iff in Hb. destruct Hb as [Hb Hb3].
  apply andb_true_iff in Hb. destruct Hb as [Hb1 Hb2].
  apply Z.leb_le in Hb1, Hb3. apply Z.ltb_lt in Hb2, Hb4.
  assert (Hx : (Z.to_nat (Z.of_nat x + fst n)
                < CellGrid.gridWidth cfg diffImage)%nat) by lia.
  assert (Hy : (Z.to_nat (Z.of_nat y + snd n)
                < CellGrid.gridHeight cfg diffImage)%nat) by lia.
  pose proof (unvisitedMotion_markVisited Hs Hx Hy Hm Hv). lia.
Qed.

Lemma CellGrid_visitNeighbors_measure (x y : nat) (ns : list (Z * Z)) :
  forall (queue : list (nat * nat)) (visited : list (list bool)),
  shaped (CellGrid.gridWidth cfg diffImage)
    (CellGrid.gridHeight cfg diffImage) visited ->
  let st := fold_left (CellGrid.visitNeighbor cfg diffImage grid x y) ns
              (queue, visited) in
  shaped (CellGrid.gridWidth cfg diffImage)
    (CellGrid.gridHeight cfg diffImage) (snd st)
  /\ (length (fst st) + CellGrid.unvisitedMotion cfg diffImage grid (snd st)
      = length queue
        + CellGrid.unvisitedMotion cfg diffImage grid visited)%nat.
Proof.
  cbv zeta. induction ns as [|n rest IH]; intros queue visited Hs;
    [now split|].
  cbn [fold_left].
  destruct (CellGrid_visitNeighbor_measure x y queue n Hs) as [Hs1 H1].
  destruct (CellGrid.visitNeighbor cfg diffImage grid x y (queue, visited) n)
    as [q1 v1].
  destruct (IH q1 v1 Hs1) as [Hs2 H2]. split; [exact Hs2|].
  cbn [fst snd] in *. lia.
Qed.

(** Fuel beyond the cells still in play is never used, and the flags
    keep their shape. *)
Lemma CellGrid_flood_fuel (fuel extra : nat) :
  forall (queue : list (nat * nat)) (visited : list (list bool))
         (acc : CellGrid.Component),
  shaped (CellGrid.gridWidth cfg diffImage)
    (CellGrid.gridHeight cfg diffImage) visited ->
  (length queue + CellGrid.unvisitedMotion cfg diffImage grid visited
   <= fuel)%nat ->
  CellGrid.flood cfg diffImage (fuel + extra) grid queue visited acc
  = CellGrid.flood cfg diffImage fuel grid queue visited acc
  /\ shaped (CellGrid.gridWidth cfg diffImage)
       (CellGrid.gridHeight cfg diffImage)
       (snd (CellGrid.flood cfg diffImage fuel grid queue visited acc)).
Proof.
  induction fuel as [|fuel IH]; intros queue visited acc Hs Hm.
  - destruct queue; [|simpl in Hm; lia]. now destruct extra.
  - cbn [Nat.add CellGrid.flood]. destruct queue as [|[x y] queue];
      [now split|].
    destruct (CellGrid_visitNeighbors_measure x y neighbors queue Hs)
      as [Hs1 H].
    destruct (fold_left _ neighbors (queue, visited)) as [q1 v1].
    apply IH; [exact Hs1|]. cbn [fst snd length] in *. lia.
Qed.

End CellGridFlood.

(** [discovered] runs every flood fill of the grid to the end. *)
Lemma CellGrid_discovered_fuel (cfg : CellGrid.Config) (diffImage : Image)
    (extra : nat) :
  CellGrid.discoveredWith cfg diffImage
    (CellGrid.gridWidth cfg diffImage * CellGrid.gridHeight cfg diffImage
     + extra)
    (CellGrid.motionGrid cfg diffImage)
  = CellGrid.discovered cfg diffImage.
Proof.
  unfold CellGrid.discovered, CellGrid.discoveredWith. f_equal.
  set (gw := CellGrid.gridWidth cfg diffImage).
  set (gh := CellGrid.gridHeight cfg diffImage).
  set (grid := CellGrid.motionGrid cfg diffImage).
  apply (fold_left_ext_inv
           (fun st : list CellBlob.t * list (list bool) =>
              shaped gw gh (snd st))).
  - intros st y Hst Hy. apply in_seq in Hy.
    apply (fold_left_ext_inv
             (fun st : list CellBlob.t * list (list bool) =>
                shaped gw gh (snd st))); [|exact Hst].
    intros [blobs visited] x Hv Hx. apply in_seq in Hx. cbn [snd] in Hv.
    unfold CellGrid.scanCell.
    destruct (Cell.motion (CellGrid.cellAt grid x y)) eqn:Hm; [|now split].
    destruct (CellGrid.isVisited visited x y) eqn:Hvis; [now split|].
    cbn [negb andb].
    assert (Hmark : shaped gw gh (CellGrid.markVisited visited x y))
      by now apply shaped_markVisited.
    assert (Hbound :
              (length [(x, y)]
               + CellGrid.unvisitedMotion cfg diffImage grid
                   (CellGrid.markVisited visited x y)
               <= gw * gh)%nat).
    { pose proof (@unvisitedMotion_markVisited cfg diffImage grid x y visited
                    Hv ltac:(fold gw; lia) ltac:(fold gh; lia) Hm Hvis) as H.
      assert (Hle : (CellGrid.unvisitedMotion cfg diffImage grid visited
                     <= gw * gh)%nat).
      { unfold CellGrid.unvisitedMotion.
        etransitivity; [apply filter_length_le|].
        unfold coords. rewrite (flat_map_constant_length
                                  (c := CellGrid.gridWidth cfg diffImage)).
        - rewrite length_seq. fold gw gh. lia.
        - intros ? _. now rewrite length_map, length_seq. }
      cbn [length]. lia. }
    destruct (@CellGrid_flood_fuel cfg diffImage grid (gw * gh) extra
                [(x, y)] (CellGrid.markVisited visited x y)
                (CellGrid.mkComponent [] 0 0 0) Hmark Hbound) as [E Hs].
    rewrite E.
    destruct (CellGrid.flood cfg diffImage (gw * gh) grid [(x, y)]
                (CellGrid.markVisited visited x y)
                (CellGrid.mkComponent [] 0 0 0)) as [acc visited'].
    cbn [snd] in Hs.
    destruct (_ <=? _)%nat; now split.
  - unfold shaped. cbn [snd]. split; [apply repeat_length|].
    apply Forall_forall. intros row Hrow. apply repeat_spec in Hrow.
    subst. apply repeat_length.
Qed.

(** * Further properties of the tracker *)

Lemma StronglySorted_snoc (A : Type) (R : A -> A -> Prop) (l : list A)
    (x : A) :
  StronglySorted R l -> Forall (fun a => R a x) l ->
  StronglySorted R (l ++ [x]).
Proof.
  induction 1 as [|a rest Hs IH Ha]; intro Hx; simpl.
  - repeat constructor.
  - inversion Hx; subst. constructor; [now apply IH|].
    apply Forall_app. split; [assumption|]. now repeat constructor.
Qed.

Lemma StronglySorted_last (A : Type) (R : A -> A -> Prop) (l : list A)
    (x : A) :
  StronglySorted R (l ++ [x]) -> Forall (fun a => R a x) l.
Proof.
  induction l as [|a rest IH]; simpl; intro H; [constructor|].
  inversion H as [|? ? Hs Ha]; subst. constructor; [|now apply IH].
  rewrite Forall_forall in Ha. apply Ha, in_or_app. right. now left.
Qed.

Lemma lastOf_Some (A : Type) (l : list A) (a : A) :
  lastOf l = Some a -> exists l', l = l' ++ [a].
Proof.
  intro H. destruct l as [|b rest]; [discriminate|].
  destruct (@exists_last _ (b :: rest) ltac:(discriminate)) as [l' [c E]].
  rewrite E in H. rewrite lastOf_snoc in H. inversion H; subst.
  now exists l'.
Qed.

Section TrackerShapeFacts.

Variable cfg : Config.

(** The record [updateTrail] pushes, in terms of the updated trail. *)
Lemma updateTrailObject_pushed (blob : Blob) (t : Trail) :
  let t' := updateTrailObject cfg blob t in
  let pos := Pos.mk (Vec.x (smoothedPosition t')) (Vec.y (smoothedPosition t'))
               (speed t') (avgDiff blob) 255 in
  positions t'
  = if (maxTrailLength cfg <? length (positions t ++ [pos]))%nat
    then tl (positions t ++ [pos]) else positions t ++ [pos].
Proof.
  cbv zeta. unfold updateTrailObject.
  destruct (match lastOf (positions t) with
            | Some lastPos => _ | None => _ end) as [vx vy].
  reflexivity.
Qed.

Lemma updateTrailObject_regular (blob : Blob) (t : Trail) :
  agesRegular cfg 255 t -> agesRegular cfg 255 (updateTrailObject cfg blob t).
Proof.
  intros [Hs Ha]. unfold agesRegular.
  rewrite (updateTrailObject_pushed blob t).
  set (pos := Pos.mk _ _ _ _ 255).
  assert (Hs' : StronglySorted Z.le (map Pos.age (positions t ++ [pos]))).
  { rewrite map_app. apply StronglySorted_snoc; [exact Hs|].
    apply Forall_map. eapply Forall_impl; [|exact Ha].
    cbv beta. intros p [Hp _]. exact Hp. }
  assert (Ha' : Forall (fun p => (Pos.age p <= 255)%Z
                                 /\ (trailDecay cfg | 255 - Pos.age p)%Z)
                  (positions t ++ [pos])).
  { apply Forall_app. split; [exact Ha|]. repeat constructor.
    - apply Z.le_refl.
    - unfold pos. cbn [Pos.age]. rewrite Z.sub_diag. apply Z.divide_0_r. }
  destruct (maxTrailLength cfg <? length (positions t ++ [pos]))%nat;
    [|now split].
  destruct (positions t ++ [pos]) as [|a rest]; [now split|].
  simpl in *. split; [now inversion Hs'|now inversion Ha'].
Qed.

Lemma updateTrailObject_heads (blob : Blob) (t : Trail) :
  (1 <= maxTrailLength cfg)%nat ->
  headsTrail (updateTrailObject cfg blob t).
Proof.
  intro Hlen. unfold headsTrail.
  rewrite (updateTrailObject_pushed blob t).
  set (pos := Pos.mk _ _ _ _ 255). exists pos.
  split; [|now repeat split].
  destruct (Nat.ltb_spec (maxTrailLength cfg) (length (positions t ++ [pos])));
    [|apply lastOf_snoc].
  rewrite length_app in H. simpl in H.
  destruct (positions t) as [|a rest]; [simpl in H; lia|].
  simpl. apply lastOf_snoc.
Qed.

Lemma agePositions_app (ps qs : list Pos.t) :
  agePositions cfg (ps ++ qs) = agePositions cfg ps ++ agePositions cfg qs.
Proof. unfold agePositions. now rewrite map_app, filter_app. Qed.

(** Aging keeps the order of the ages and drops records from the old end
    only. *)
Lemma agePositions_regular (hi : Z) (t : Trail) :
  agesRegular cfg hi t ->
  StronglySorted Z.le (map Pos.age (agePositions cfg (positions t)))
  /\ Forall (fun pos => (0 < Pos.age pos <= hi - trailDecay cfg)%Z
                        /\ (trailDecay cfg | 255 - Pos.age pos)%Z)
       (agePositions cfg (positions t)).
Proof.
  intros [Hs Ha]. split.
  - induction (positions t) as [|a ps IH]; [constructor|].
    simpl in Hs. inversion Hs as [|? ? Hs1 Hs2]; subst.
    inversion Ha as [|? ? _ Ha1]; subst.
    change (a :: ps) with ([a] ++ ps). rewrite agePositions_app.
    unfold agePositions at 1. simpl.
    destruct (0 <? Pos.age a - trailDecay cfg)%Z; simpl; [|now apply IH].
    constructor; [now apply IH|].
    apply Forall_map, Forall_forall. intros q Hq.
    unfold agePositions in Hq. apply filter_In in Hq. destruct Hq as [Hq _].
    apply in_map_iff in Hq. destruct Hq as [q0 [<- Hq0]].
    unfold agePosition. cbn [Pos.age].
    rewrite Forall_forall in Hs2.
    specialize (Hs2 (Pos.age q0) (in_map Pos.age _ _ Hq0)). lia.
  - apply Forall_forall. intros q Hq. unfold agePositions in Hq.
    apply filter_In in Hq. destruct Hq as [Hq Hpos].
    apply in_map_iff in Hq. destruct Hq as [q0 [<- Hq0]].
    rewrite Forall_forall in Ha. destruct (Ha q0 Hq0) as [Hle Hdiv].
    apply Z.ltb_lt in Hpos. unfold agePosition in *. cbn [Pos.age] in *.
    split; [lia|].
    replace (255 - (Pos.age q0 - trailDecay cfg))%Z
      with ((255 - Pos.age q0) + trailDecay cfg)%Z by lia.
    apply Z.divide_add_r; [exact Hdiv|apply Z.divide_refl].
Qed.

Lemma lastOf_agePositions (ps : list Pos.t) (p : Pos.t) :
  StronglySorted Z.le (map Pos.age ps) ->
  lastOf ps = Some p -> agePositions cfg ps <> [] ->
  lastOf (agePositions cfg ps) = Some (agePosition cfg p).
Proof.
  intros Hs Hl Hne. destruct (lastOf_Some _ Hl) as [ps' ->].
  rewrite agePositions_app in *. unfold agePositions at 2. simpl.
  destruct (Z.ltb_spec 0 (Pos.age p - trailDecay cfg)) as [Hp|Hp];
    [apply lastOf_snoc|].
  exfalso. apply Hne. rewrite map_app in Hs. simpl in Hs.
  apply StronglySorted_last in Hs.
  unfold agePositions at 2. simpl.
  destruct (Z.ltb_spec 0 (Pos.age p - trailDecay cfg)); [lia|].
  rewrite app_nil_r. unfold agePositions.
  apply filter_none. apply not_true_is_false. intro Hex.
  apply existsb_exists in Hex. destruct Hex as [q [Hq Hpos]].
  apply in_map_iff in Hq. destruct Hq as [q0 [<- Hq0]].
  apply Z.ltb_lt in Hpos. unfold agePosition in Hpos. cbn [Pos.age] in Hpos.
  rewrite Forall_forall in Hs.
  specialize (Hs (Pos.age q0) (in_map Pos.age _ _ Hq0)). lia.
Qed.

(** A property of single trail objects that [updateTrail] establishes or
    keeps holds of every trail after the matching pass. *)
Lemma forEachBlob_each (P : Trail -> Prop) (blobs : list (Blob * Entropy)) :
  (forall blob t, P t -> P (updateTrailObject cfg blob t)) ->
  (forall blob, P (updateTrailObject cfg blob (newTrail blob))) ->
  forall st st',
  forEachBlob cfg blobs st = Some st' ->
  (forall id t, In (id, t) (trails st) -> P t) ->
  forall id t, In (id, t) (trails st') -> P t.
Proof.
  intros Hup Hnew. induction blobs as [|[blob e] rest IH]; intros st st';
    cbn [forEachBlob].
  - intros H. now inversion H.
  - destruct (matchBlob cfg st (blob, e)) as [st1|] eqn:E; [|discriminate].
    intros H Hall. apply (IH _ _ H). intros id t Hin.
    destruct (@matchBlob_cases cfg _ _ _ _ E) as [id0 [_ [[Ht _]|[Ht _]]]];
      rewrite Ht in Hin.
    + apply In_alter in Hin. destruct Hin as [Hin|[-> [u [Hu ->]]]]; eauto.
    + apply In_assign in Hin. destruct Hin as [Hin|[-> ->]]; eauto.
Qed.

End TrackerShapeFacts.

Section TrackerShapeInvariant.

Variable cfg : Config.

Lemma In_markInactive (id : string) (t : Trail) (m : Trails) :
  In (id, t) (markInactive m) ->
  exists u, In (id, u) m
    /\ t = {| positions := positions u; velocity := velocity u;
              smoothedPosition := smoothedPosition u; speed := speed u;
              active := false |}.
Proof.
  unfold markInactive. intro H. apply in_map_iff in H.
  destruct H as [[k u] [E Hin]]. inversion E; subst. now exists u.
Qed.

(** An entry left by the aging loop is an entry it met, with aged
    positions and nothing else changed. *)
Lemma In_ageTrails_full (id : string) (t' : Trail) (m : Trails) :
  In (id, t') (ageTrails cfg m) ->
  exists t, In (id, t) m
    /\ agePositions cfg (positions t) <> []
    /\ t' = {| positions := agePositions cfg (positions t);
               velocity := velocity t;
               smoothedPosition := smoothedPosition t; speed := speed t;
               active := active t |}.
Proof.
  induction m as [|[k u] rest IH]; simpl; [intros []|].
  destruct (Nat.eqb_spec (length (agePositions cfg (positions u))) 0).
  - intro H. destruct (IH H) as [t [Hin Ht]]. exists t. auto.
  - intros [H|H].
    + inversion H; subst. exists u. repeat split; auto.
      intro E. rewrite E in n. now apply n.
    + destruct (IH H) as [t [Hin Ht]]. exists t. auto.
Qed.

Lemma trackBlobs_regular (blobs : list (Blob * Entropy)) (m m' : Trails) :
  trackBlobs cfg blobs m = Some m' ->
  (forall id t, In (id, t) m -> agesRegular cfg 255 t) ->
  forall id t, In (id, t) m' ->
    StronglySorted Z.le (map Pos.age (positions t))
    /\ Forall (fun pos => (0 < Pos.age pos <= 255 - trailDecay cfg)%Z
                          /\ (trailDecay cfg | 255 - Pos.age pos)%Z)
         (positions t).
Proof.
  unfold trackBlobs.
  destruct (forEachBlob cfg blobs (startMatching m)) as [st|] eqn:E;
    [|discriminate].
  intros H Hm id t' Hin. inversion H; subst; clear H.
  destruct (In_ageTrails_full _ _ _ Hin) as [t [Ht [_ ->]]].
  cbn [positions]. apply agePositions_regular.
  apply (@forEachBlob_each cfg (agesRegular cfg 255) blobs
           (@updateTrailObject_regular cfg)) with (st := startMatching m)
                                                  (st' := st) (id := id);
    try assumption.
  - intro blob. apply updateTrailObject_regular. split; constructor.
  - intros id0 t0 Hin0. cbn [startMatching trails] in Hin0.
    destruct (In_markInactive _ _ _ Hin0) as [u [Hu ->]].
    exact (Hm _ _ Hu).
Qed.

Lemma trackBlobs_heads (blobs : list (Blob * Entropy)) (m m' : Trails) :
  (1 <= maxTrailLength cfg)%nat ->
  trackBlobs cfg blobs m = Some m' ->
  (forall id t, In (id, t) m -> agesRegular cfg 255 t /\ headsTrail t) ->
  forall id t, In (id, t) m' -> headsTrail t.
Proof.
  intro Hlen. unfold trackBlobs.
  destruct (forEachBlob cfg blobs (startMatching m)) as [st|] eqn:E;
    [|discriminate].
  intros H Hm id t' Hin. inversion H; subst; clear H.
  destruct (In_ageTrails_full _ _ _ Hin) as [t [Ht [Hne ->]]].
  assert (Hst : agesRegular cfg 255 t /\ headsTrail t).
  { apply (@forEachBlob_each cfg
             (fun t => agesRegular cfg 255 t /\ headsTrail t) blobs)
      with (st := startMatching m) (st' := st) (id := id); try assumption.
    - intros blob u [Hu _]. split; [now apply updateTrailObject_regular|].
      now apply updateTrailObject_heads.
    - intro blob. split; [|now apply updateTrailObject_heads].
      apply updateTrailObject_regular. split; constructor.
    - intros id0 t0 Hin0. cbn [startMatching trails] in Hin0.
      destruct (In_markInactive _ _ _ Hin0) as [u [Hu ->]].
      destruct (Hm _ _ Hu) as [Hr [pos Hpos]]. split; [exact Hr|].
      exists pos. exact Hpos. }
  destruct Hst as [[Hs _] [pos [Hl [Hx [Hy Hsp]]]]].
  exists (agePosition cfg pos). cbn [positions smoothedPosition speed].
  split; [now apply lastOf_agePositions|]. now repeat split.
Qed.

Lemma reachable_regular (m : Trails) :
  (0 < trailDecay cfg)%Z -> reachable cfg m ->
  forall id t, In (id, t) m ->
    StronglySorted Z.le (map Pos.age (positions t))
    /\ Forall (fun pos => (0 < Pos.age pos <= 255 - trailDecay cfg)%Z
                          /\ (trailDecay cfg | 255 - Pos.age pos)%Z)
         (positions t).
Proof.
  intro Hd. induction 1 as [|m blobs m' _ IH E]; [intros id t []|].
  eapply trackBlobs_regular; [exact E|]. intros id t Hin.
  destruct (IH id t Hin) as [Hs Ha]. split; [exact Hs|].
  eapply Forall_impl; [|exact Ha]. cbv beta. intros pos [H1 H2].
  split; [lia|exact H2].
Qed.

Lemma reachable_heads (m : Trails) :
  (1 <= maxTrailLength cfg)%nat -> (0 < trailDecay cfg)%Z ->
  reachable cfg m -> forall id t, In (id, t) m -> headsTrail t.
Proof.
  intros Hlen Hd Hr. pose proof (reachable_regular Hd Hr) as Hreg.
  revert Hreg. induction Hr as [|m blobs m' Hr IH E]; [intros _ id t []|].
  intros _. eapply trackBlobs_heads; [exact Hlen|exact E|]. intros id t Hin.
  pose proof (reachable_regular Hd Hr) as Hreg.
  split; [|exact (IH Hreg id t Hin)].
  destruct (Hreg id t Hin) as [Hs Ha]. split; [exact Hs|].
  eapply Forall_impl; [|exact Ha]. cbv beta. intros pos [H1 H2].
  split; [lia|exact H2].
Qed.

End TrackerShapeInvariant.

(** X1.  Between two ticks the ages along a trail never decrease from the
    oldest record to the newest, every age is positive and at most 255
    minus the decay, and every age is 255 minus a multiple of the
    decay. *)
Theorem X1_ages_between_ticks (cfg : Config) (m : Trails) (id : string)
    (t : Trail) :
  (0 < trailDecay cfg)%Z ->
  reachable cfg m -> In (id, t) m ->
  StronglySorted Z.le (map Pos.age (positions t))
  /\ Forall (fun pos => (0 < Pos.age pos <= 255 - trailDecay cfg)%Z
                        /\ (trailDecay cfg | 255 - Pos.age pos)%Z)
       (positions t).
Proof.
  intros Hd Hr Hin. exact (reachable_regular Hd Hr id t Hin).
Qed.

(** X2.  Between two ticks the newest record of every trail carries the
    trail's smoothed position and speed, so the distance used to match a
    blob is the distance from its centroid to the smoothed position. *)
Theorem X2_newest_record_is_smoothed_position (cfg : Config) (m : Trails)
    (id : string) (t : Trail) (blob : Blob) :
  (1 <= maxTrailLength cfg)%nat -> (0 < trailDecay cfg)%Z ->
  reachable cfg m -> In (id, t) m ->
  headsTrail t
  /\ distanceOf blob t
     = Some (Math_sqrt
               ((centerX blob - Vec.x (smoothedPosition t))
                * (centerX blob - Vec.x (smoothedPosition t))
                + (centerY blob - Vec.y (smoothedPosition t))
                  * (centerY blob - Vec.y (smoothedPosition t)))).
Proof.
  intros Hlen Hd Hr Hin.
  pose proof (reachable_heads Hlen Hd Hr id t Hin) as Hh.
  split; [exact Hh|]. destruct Hh as [pos [Hl [Hx [Hy _]]]].
  unfold distanceOf. rewrite Hl. cbn [option_map]. unfold distanceTo.
  now rewrite Hx, Hy.
Qed.

(** ** Lookups through a tick *)

Lemma lookup_alter_other (f : Trail -> Trail) (id0 id : string) (m : Trails) :
  id <> id0 -> lookup id (alter f id0 m) = lookup id m.
Proof.
  intro Hne. induction m as [|[k u] rest IH]; simpl; [reflexivity|].
  destruct (String.eqb k id0) eqn:E; simpl.
  - apply String.eqb_eq in E. subst k.
    destruct (String.eqb_spec id0 id); [congruence|reflexivity].
  - now rewrite IH.
Qed.

Lemma lookup_assign_other (id0 id : string) (t0 : Trail) (m : Trails) :
  id <> id0 -> lookup id (assign id0 t0 m) = lookup id m.
Proof.
  intro Hne. induction m as [|[k u] rest IH]; simpl.
  - destruct (String.eqb_spec id0 id); [congruence|reflexivity].
  - destruct (String.eqb k id0) eqn:E; simpl.
    + apply String.eqb_eq in E. subst k.
      destruct (String.eqb_spec id0 id); [congruence|reflexivity].
    + now rewrite IH.
Qed.

Lemma lookup_markInactive (id : string) (m : Trails) :
  lookup id (markInactive m) = option_map inactive (lookup id m).
Proof.
  induction m as [|[k u] rest IH]; simpl; [reflexivity|].
  destruct (String.eqb k id); [reflexivity|exact IH].
Qed.

Lemma lookup_In (id : string) (t : Trail) (m : Trails) :
  lookup id m = Some t -> In (id, t) m.
Proof.
  induction m as [|[k u] rest IH]; simpl; [discriminate|].
  destruct (String.eqb_spec k id).
  - intro H. inversion H; subst. now left.
  - intro H. right. now apply IH.
Qed.

Lemma In_lookup (id : string) (t : Trail) (m : Trails) :
  NoDup (keys m) -> In (id, t) m -> lookup id m = Some t.
Proof.
  induction m as [|[k u] rest IH]; simpl; [intros _ []|].
  intros Hnd [H|H].
  - inversion H; subst. now rewrite String.eqb_refl.
  - inversion Hnd as [|? ? Hk Hr]; subst.
    destruct (String.eqb_spec k id) as [->|Hne]; [|now apply IH].
    exfalso. apply Hk. unfold keys. apply in_map_iff. now exists (id, t).
Qed.

Lemma lookup_keys (id : string) (m : Trails) :
  In id (keys m) -> exists t, lookup id m = Some t.
Proof.
  induction m as [|[k u] rest IH]; simpl; [intros []|].
  destruct (String.eqb_spec k id) as [->|Hne]; [now exists u|].
  intros [H|H]; [contradiction|now apply IH].
Qed.

Section TickLookups.

Variable cfg : Config.

Lemma lookup_ageTrails (id : string) (m : Trails) :
  NoDup (keys m) ->
  lookup id (ageTrails cfg m)
  = match lookup id m with
    | Some t => agedTrail cfg t
    | None => None
    end.
Proof.
  induction m as [|[k u] rest IH]; intro Hnd; [reflexivity|].
  inversion Hnd as [|? ? Hk Hr]; subst. cbn [ageTrails lookup].
  destruct (String.eqb_spec k id) as [->|Hne].
  - unfold agedTrail.
    destruct (agePositions cfg (positions u)) as [|p ps] eqn:E.
    + cbn [length Nat.eqb]. apply lookup_None. intros t Hin.
      apply Hk. apply keys_ageTrails with (cfg := cfg).
      unfold keys. apply in_map_iff. now exists (id, t).
    + cbn [length Nat.eqb lookup]. now rewrite String.eqb_refl.
  - destruct (length (agePositions cfg (positions u)) =? 0)%nat;
      [now apply IH|].
    cbn [lookup]. destruct (String.eqb_spec k id); [contradiction|].
    now apply IH.
Qed.

Lemma NoDup_keys_matchBlob (st st' : Matching) (be : Blob * Entropy) :
  matchBlob cfg st be = Some st' ->
  NoDup (keys (trails st)) -> NoDup (keys (trails st')).
Proof.
  destruct be as [blob e]. intros E Hnd.
  destruct (@matchBlob_cases cfg _ _ _ _ E) as [id [_ [[-> _]|[-> _]]]].
  - now rewrite keys_alter.
  - now apply NoDup_keys_assign.
Qed.

Lemma NoDup_keys_forEachBlob (blobs : list (Blob * Entropy))
    (st st' : Matching) :
  forEachBlob cfg blobs st = Some st' ->
  NoDup (keys (trails st)) -> NoDup (keys (trails st')).
Proof.
  revert st. induction blobs as [|be rest IH]; intro st; cbn [forEachBlob].
  - intro H. now inversion H.
  - destruct (matchBlob cfg st be) as [st1|] eqn:E; [|discriminate].
    intros H Hnd. apply (IH _ H). eapply NoDup_keys_matchBlob; eassumption.
Qed.

(** The matching pass leaves alone what it does not update. *)
Lemma lookup_forEachBlob (id : string) (blobs : list (Blob * Entropy))
    (st st' : Matching) :
  forEachBlob cfg blobs st = Some st' ->
  ~ In id (updated st') ->
  lookup id (trails st') = lookup id (trails st).
Proof.
  revert st. induction blobs as [|[blob e] rest IH]; intro st;
    cbn [forEachBlob].
  - intro H. now inversion H.
  - destruct (matchBlob cfg st (blob, e)) as [st1|] eqn:E; [|discriminate].
    intros H Hnot. rewrite (IH _ H Hnot).
    destruct (@matchBlob_cases cfg _ _ _ _ E) as [id0 [Hu Hcase]].
    assert (Hne : id <> id0).
    { intros ->. apply Hnot. eapply updated_grows; [exact H|].
      rewrite Hu. apply in_or_app. right. now left. }
    destruct Hcase as [[-> _]|[-> _]].
    + now apply lookup_alter_other.
    + now apply lookup_assign_other.
Qed.

End TickLookups.

(** X3.  A tick leaves a trail that no blob updates untouched apart from
    clearing its [active] flag and aging its positions: velocity, smoothed
    position and speed are kept, the trail is deleted exactly when no
    position keeps a positive age, and an id that is absent and not
    updated stays absent. *)
Theorem X3_unmatched_trail_only_ages (cfg : Config) (m m' : Trails)
    (blobs : list (Blob * Entropy)) (ids : list string) (id : string) :
  NoDup (keys m) ->
  trackBlobs cfg blobs m = Some m' ->
  updatedIds cfg blobs m = Some ids ->
  ~ In id ids ->
  lookup id m'
  = match lookup id m with
    | Some t => agedTrail cfg (inactive t)
    | None => None
    end.
Proof.
  unfold trackBlobs, updatedIds. intro Hnd.
  destruct (forEachBlob cfg blobs (startMatching m)) as [st|] eqn:E;
    [|discriminate].
  intros H1 H2 Hnot. inversion H1; inversion H2; subst; clear H1 H2.
  rewrite lookup_ageTrails.
  - erewrite lookup_forEachBlob; [|exact E|exact Hnot].
    cbn [startMatching trails].
    rewrite lookup_markInactive. now destruct (lookup id m).
  - eapply NoDup_keys_forEachBlob; [exact E|]. cbn [startMatching trails].
    now rewrite keys_markInactive.
Qed.

(** ** Active trails *)

Section ActiveTrails.

Variable cfg : Config.
Hypothesis Hlen : (1 <= maxTrailLength cfg)%nat.

Lemma updateTrailObject_last_age (blob : Blob) (t : Trail) :
  exists pos, lastOf (positions (updateTrailObject cfg blob t)) = Some pos
              /\ Pos.age pos = 255%Z.
Proof.
  rewrite (updateTrailObject_pushed cfg blob t).
  set (pos := Pos.mk _ _ _ _ 255). exists pos. split; [|reflexivity].
  destruct (Nat.ltb_spec (maxTrailLength cfg) (length (positions t ++ [pos])))
    as [H|H]; [|apply lastOf_snoc].
  rewrite length_app in H. simpl in H.
  destruct (positions t) as [|a rest]; [simpl in H; lia|].
  simpl. apply lastOf_snoc.
Qed.

(** During the matching pass the trails updated so far are active and end
    with a record of age 255; the others are inactive. *)
Lemma forEachBlob_active (blobs : list (Blob * Entropy)) :
  forall st st',
  forEachBlob cfg blobs st = Some st' ->
  (forall id, In id (updated st) ->
     exists t, lookup id (trails st) = Some t /\ active t = true
       /\ exists pos, lastOf (positions t) = Some pos
                      /\ Pos.age pos = 255%Z) ->
  (forall id t, ~ In id (updated st) -> lookup id (trails st) = Some t ->
                active t = false) ->
  (forall id, In id (updated st') ->
     exists t, lookup id (trails st') = Some t /\ active t = true
       /\ exists pos, lastOf (positions t) = Some pos
                      /\ Pos.age pos = 255%Z)
  /\ (forall id t, ~ In id (updated st') -> lookup id (trails st') = Some t ->
                   active t = false).
Proof.
  induction blobs as [|[blob e] rest IH]; intros st st'; cbn [forEachBlob].
  - intros H. inversion H; subst. auto.
  - destruct (matchBlob cfg st (blob, e)) as [st1|] eqn:E; [|discriminate].
    intros H Hon Hoff. apply (IH _ _ H).
    + intros id Hin.
      destruct (@matchBlob_cases cfg _ _ _ _ E) as [id0 [Hu Hcase]].
      destruct (string_dec id id0) as [->|Hne].
      * destruct Hcase as [[-> [_ [_ Hk]]]|[-> _]].
        -- destruct (lookup_keys _ _ Hk) as [u Hu0].
           exists (updateTrailObject cfg blob u).
           rewrite lookup_alter_same, Hu0. split; [reflexivity|].
           split; [apply updateTrailObject_active|].
           apply updateTrailObject_last_age.
        -- exists (updateTrailObject cfg blob (newTrail blob)).
           rewrite lookup_assign_same. split; [reflexivity|].
           split; [apply updateTrailObject_active|].
           apply updateTrailObject_last_age.
      * assert (Hin0 : In id (updated st)).
        { rewrite Hu in Hin. apply in_app_or in Hin.
          destruct Hin as [Hin|[Hin|[]]]; [exact Hin|congruence]. }
        destruct (Hon id Hin0) as [t Ht]. exists t.
        destruct Hcase as [[-> _]|[-> _]].
        -- now rewrite lookup_alter_other.
        -- now rewrite lookup_assign_other.
    + intros id t Hnot Hl.
      destruct (@matchBlob_cases cfg _ _ _ _ E) as [id0 [Hu Hcase]].
      assert (Hne : id <> id0).
      { intros ->. apply Hnot. rewrite Hu. apply in_or_app. right. now left. }
      assert (Hnot0 : ~ In id (updated st)).
      { intro Hin. apply Hnot. rewrite Hu. apply in_or_app. now left. }
      apply (Hoff id t Hnot0).
      destruct Hcase as [[Ht _]|[Ht _]]; rewrite Ht in Hl.
      * now rewrite lookup_alter_other in Hl.
      * now rewrite lookup_assign_other in Hl.
Qed.

Lemma length_updated (blobs : list (Blob * Entropy)) :
  forall st st',
  forEachBlob cfg blobs st = Some st' ->
  length (updated st') = (length (updated st) + length blobs)%nat.
Proof.
  clear Hlen. induction blobs as [|[blob e] rest IH]; intros st st'; cbn [forEachBlob].
  - intro H. inversion H; subst. simpl. lia.
  - destruct (matchBlob cfg st (blob, e)) as [st1|] eqn:E; [|discriminate].
    intro H. rewrite (IH _ _ H).
    destruct (@matchBlob_cases cfg _ _ _ _ E) as [id0 [-> _]].
    rewrite length_app. simpl. lia.
Qed.

(** After the tick: the updated trails are there and active, the others
    inactive. *)
Lemma tick_active (blobs : list (Blob * Entropy)) (m : Trails)
    (st : Matching) :
  (trailDecay cfg < 255)%Z ->
  NoDup (keys m) ->
  forEachBlob cfg blobs (startMatching m) = Some st ->
  (forall id, In id (updated st) ->
     exists t, lookup id (ageTrails cfg (trails st)) = Some t
               /\ active t = true)
  /\ (forall id t, lookup id (ageTrails cfg (trails st)) = Some t ->
        (active t = true <-> In id (updated st))).
Proof.
  intros Hd Hnd E.
  assert (Hnd' : NoDup (keys (trails st))).
  { eapply NoDup_keys_forEachBlob; [exact E|]. cbn [startMatching trails].
    now rewrite keys_markInactive. }
  destruct (forEachBlob_active blobs _ E) as [Hon Hoff].
  { intros id []. }
  { intros id t _ Hl. cbn [startMatching trails] in Hl.
    rewrite lookup_markInactive in Hl.
    destruct (lookup id m); [|discriminate]. now inversion Hl. }
  assert (Hkeep : forall id, In id (updated st) ->
            exists t, lookup id (ageTrails cfg (trails st)) = Some t
                      /\ active t = true).
  { intros id Hin. destruct (Hon id Hin) as [t [Hl [Hact [pos [Hp Hage]]]]].
    rewrite (@lookup_ageTrails cfg id _ Hnd'), Hl. unfold agedTrail.
    destruct (agePositions cfg (positions t)) as [|q qs] eqn:Ea.
    - exfalso. destruct (lastOf_Some _ Hp) as [ps Hps].
      rewrite Hps, agePositions_app in Ea. unfold agePositions at 2 in Ea.
      cbn [map filter agePosition Pos.age] in Ea. rewrite Hage in Ea.
      destruct (Z.ltb_spec 0 (255 - trailDecay cfg)); [|lia].
      now destruct (agePositions cfg ps).
    - eexists. split; [reflexivity|exact Hact]. }
  split; [exact Hkeep|].
  intros id t' Hl. rewrite (@lookup_ageTrails cfg id _ Hnd') in Hl.
  destruct (lookup id (trails st)) as [t|] eqn:Hmid; [|discriminate].
  assert (Hact : active t' = active t).
  { unfold agedTrail in Hl.
    destruct (agePositions cfg (positions t)); [discriminate|].
    now inversion Hl. }
  rewrite Hact. destruct (in_dec string_dec id (updated st)) as [Hin|Hnot].
  - destruct (Hon id Hin) as [u [Hu [Hau _]]].
    rewrite Hmid in Hu. inversion Hu; subst. tauto.
  - rewrite (Hoff id t Hnot Hmid). split; [discriminate|contradiction].
Qed.

End ActiveTrails.

(** X4.  With a decay below 255, every trail a tick updates is in the map
    after the tick and active, and among the trails left by the tick the
    active ones are exactly the updated ones. *)
Theorem X4_active_iff_updated (cfg : Config) (m m' : Trails)
    (blobs : list (Blob * Entropy)) (ids : list string) :
  (1 <= maxTrailLength cfg)%nat -> (trailDecay cfg < 255)%Z ->
  NoDup (keys m) ->
  trackBlobs cfg blobs m = Some m' ->
  updatedIds cfg blobs m = Some ids ->
  (forall id, In id ids ->
     exists t, lookup id m' = Some t /\ active t = true)
  /\ (forall id t, lookup id m' = Some t -> (active t = true <-> In id ids)).
Proof.
  unfold trackBlobs, updatedIds. intros Hlen Hd Hnd.
  destruct (forEachBlob cfg blobs (startMatching m)) as [st|] eqn:E;
    [|discriminate].
  intros H1 H2. inversion H1; inversion H2; subst; clear H1 H2.
  exact (@tick_active cfg Hlen blobs m st Hd Hnd E).
Qed.

Lemma NoDup_keys_filter (f : string * Trail -> bool) (m : Trails) :
  NoDup (keys m) -> NoDup (keys (filter f m)).
Proof.
  induction m as [|[k u] rest IH]; simpl; intro H; [constructor|].
  inversion H as [|? ? Hk Hr]; subst.
  destruct (f (k, u)); [|now apply IH]. simpl. constructor; [|now apply IH].
  intro Hin. apply Hk. unfold keys in *. apply in_map_iff in Hin.
  destruct Hin as [[k' t] [Ek Hin]]. apply filter_In in Hin.
  apply in_map_iff. exists (k', t). tauto.
Qed.

(** The active trails after a tick are counted by the distinct ids
    updated during the tick. *)
Lemma tick_activeCount (cfg : Config) (m m' : Trails)
    (blobs : list (Blob * Entropy)) (ids : list string) :
  (1 <= maxTrailLength cfg)%nat -> (trailDecay cfg < 255)%Z ->
  NoDup (keys m) ->
  trackBlobs cfg blobs m = Some m' ->
  updatedIds cfg blobs m = Some ids ->
  activeCount m' = length (nodup string_dec ids)
  /\ (activeCount m' <= length blobs)%nat.
Proof.
  unfold trackBlobs, updatedIds. intros Hlen Hd Hnd.
  destruct (forEachBlob cfg blobs (startMatching m)) as [st|] eqn:E;
    [|discriminate].
  intros H1 H2. inversion H1; inversion H2; subst; clear H1 H2.
  destruct (@tick_active cfg Hlen blobs m st Hd Hnd E) as [Hon Hiff].
  assert (Hnd' : NoDup (keys (ageTrails cfg (trails st)))).
  { apply NoDup_keys_ageTrails. eapply NoDup_keys_forEachBlob; [exact E|].
    cbn [startMatching trails]. now rewrite keys_markInactive. }
  set (m' := ageTrails cfg (trails st)) in *.
  assert (Hcount : activeCount m' = length (nodup string_dec (updated st))).
  { unfold activeCount.
    rewrite <- (length_map fst (filter (fun kt => active (snd kt)) m')).
    apply Permutation_length. apply NoDup_Permutation.
    - apply NoDup_keys_filter; exact Hnd'.
    - apply NoDup_nodup.
    - intro id. rewrite nodup_In. split.
      + intro Hin. apply in_map_iff in Hin.
        destruct Hin as [[k t] [Ek Hin]]. simpl in Ek. subst k.
        apply filter_In in Hin. destruct Hin as [Hin Hact]. simpl in Hact.
        apply (Hiff id t); [now apply In_lookup|exact Hact].
      + intro Hin. destruct (Hon id Hin) as [t [Hl Hact]].
        apply in_map_iff. exists (id, t). split; [reflexivity|].
        apply filter_In. split; [now apply lookup_In|exact Hact]. }
  split; [exact Hcount|]. rewrite Hcount.
  pose proof (@length_updated cfg blobs _ _ E) as Hlu.
  cbn [startMatching updated length] in Hlu.
  pose proof (NoDup_incl_length (NoDup_nodup string_dec (updated st))
                (fun a H => proj1 (nodup_In string_dec (updated st) a) H)).
  lia.
Qed.

(** X5.  With a decay below 255, the count [draw] prints as "Detected
    motion areas" is the number of distinct ids [updateTrail] was called
    with in the tick, so it never exceeds the number of blobs. *)
Theorem X5_active_count (cfg : Config) (m m' : Trails)
    (blobs : list (Blob * Entropy)) (ids : list string) :
  (1 <= maxTrailLength cfg)%nat -> (trailDecay cfg < 255)%Z ->
  NoDup (keys m) ->
  trackBlobs cfg blobs m = Some m' ->
  updatedIds cfg blobs m = Some ids ->
  activeCount m' = length (nodup string_dec ids)
  /\ (activeCount m' <= length blobs)%nat.
Proof.
  intros Hlen Hd Hnd E Eids.
  exact (@tick_activeCount cfg m m' blobs ids Hlen Hd Hnd E Eids).
Qed.

(** ** The properties on two sample ticks *)

Lemma afterTwoTicks_reachable : reachable nightShift afterTwoTicks.
Proof.
  apply (@reachable_tick nightShift afterOneTick secondFrame afterTwoTicks).
  - exact afterOneTick_reachable.
  - vm_compute. reflexivity.
Qed.

Lemma X1_ages_between_ticks_witness :
  StronglySorted Z.le (map Pos.age (positions movedTrail))
  /\ Forall (fun pos => (0 < Pos.age pos <= 255 - trailDecay nightShift)%Z
                        /\ (trailDecay nightShift | 255 - Pos.age pos)%Z)
       (positions movedTrail).
Proof.
  apply (@X1_ages_between_ticks nightShift afterTwoTicks
           "blob_1745600000000_417"%string movedTrail).
  - reflexivity.
  - exact afterTwoTicks_reachable.
  - left. reflexivity.
Defined.

Lemma X2_newest_record_is_smoothed_position_witness :
  headsTrail movedTrail
  /\ distanceOf (blobAt 120 105) movedTrail
     = Some (Math_sqrt ((120 - Vec.x (smoothedPosition movedTrail))
                        * (120 - Vec.x (smoothedPosition movedTrail))
                        + (105 - Vec.y (smoothedPosition movedTrail))
                          * (105 - Vec.y (smoothedPosition movedTrail)))).
Proof.
  apply (@X2_newest_record_is_smoothed_position nightShift afterTwoTicks
           "blob_1745600000000_417"%string movedTrail (blobAt 120 105)).
  - simpl. lia.
  - reflexivity.
  - exact afterTwoTicks_reachable.
  - left. reflexivity.
Defined.

Lemma X3_unmatched_trail_only_ages_witness :
  lookup "blob_1745600000000_417"%string afterFarTick
  = match lookup "blob_1745600000000_417"%string afterOneTick with
    | Some t => agedTrail nightShift (inactive t)
    | None => None
    end.
Proof.
  apply (@X3_unmatched_trail_only_ages nightShift afterOneTick afterFarTick
           farFrame ["blob_1745600000033_268"%string]).
  - vm_compute. constructor; [intros []|constructor].
  - vm_compute. reflexivity.
  - vm_compute. reflexivity.
  - intros [H|[]]. discriminate H.
Defined.

Lemma X4_active_iff_updated_witness :
  (forall id,
     In id ["blob_1745600000000_417"%string;
            "blob_1745600000033_268"%string] ->
     exists t, lookup id afterTwoTicks = Some t /\ active t = true)
  /\ (forall id t, lookup id afterTwoTicks = Some t ->
        (active t = true
         <-> In id ["blob_1745600000000_417"%string;
                    "blob_1745600000033_268"%string])).
Proof.
  apply (@X4_active_iff_updated nightShift afterOneTick afterTwoTicks
           secondFrame).
  - simpl. lia.
  - reflexivity.
  - vm_compute. constructor; [intros []|constructor].
  - vm_compute. reflexivity.
  - vm_compute. reflexivity.
Defined.

Lemma X5_active_count_witness :
  activeCount afterTwoTicks
  = length (nodup string_dec ["blob_1745600000000_417"%string;
                              "blob_1745600000033_268"%string])
  /\ (activeCount afterTwoTicks <= length secondFrame)%nat.
Proof.
  apply (@X5_active_count nightShift afterOneTick afterTwoTicks secondFrame).
  - simpl. lia.
  - reflexivity.
  - vm_compute. constructor; [intros []|constructor].
  - vm_compute. reflexivity.
  - vm_compute. reflexivity.
Defined.

(** * Trail ids *)

Lemma underscoreFree_numeral (d : Decimal.uint) :
  underscoreFree (NilEmpty.string_of_uint d) = true.
Proof. induction d; simpl; auto. Qed.

Lemma underscoreFree_decimal (n : N) : underscoreFree (decimal n) = true.
Proof.
  unfold decimal, NilZero.string_of_uint.
  destruct (N.to_uint n); try apply underscoreFree_numeral. reflexivity.
Qed.

(** The text before the first underscore and the text after it are read
    back from the concatenation. *)
Lemma append_underscore_inj (s1 s2 t1 t2 : string) :
  underscoreFree s1 = true -> underscoreFree s2 = true ->
  (s1 ++ String "_"%char t1 = s2 ++ String "_"%char t2)%string ->
  s1 = s2 /\ t1 = t2.
Proof.
  revert s2. induction s1 as [|c s1 IH]; intros [|c2 s2]; simpl.
  - intros _ _ H. now inversion H.
  - intros _ H2 H. inversion H; subst. simpl in H2. discriminate.
  - intros H1 _ H. inversion H; subst. simpl in H1. discriminate.
  - intros H1 H2 H. injection H as Hc Hrest. subst c2.
    apply andb_prop in H1, H2.
    destruct (IH s2 (proj2 H1) (proj2 H2) Hrest) as [-> ->]. now split.
Qed.

Lemma decimal_inj (n1 n2 : N) : decimal n1 = decimal n2 -> n1 = n2.
Proof.
  unfold decimal. intro H. apply DecimalN.Unsigned.to_uint_inj.
  assert (Hnn : forall n, N.to_uint n <> Decimal.Nil).
  { intros [|q]; [discriminate|apply DecimalPos.Unsigned.to_uint_nonnil]. }
  pose proof (NilZero.usu _ (Hnn n1)) as E1.
  pose proof (NilZero.usu _ (Hnn n2)) as E2.
  rewrite H in E1. rewrite E1 in E2. now inversion E2.
Qed.

(** X6.  Two generated ids are the same string exactly when the clock
    values and the random numbers they were built from are the same. *)
Theorem X6_ids_equal_iff (e1 e2 : Entropy) :
  makeId e1 = makeId e2 <-> now e1 = now e2 /\ random e1 = random e2.
Proof.
  split.
  - unfold makeId. intro H. cbn [append] in H.
    injection H as H.
    apply append_underscore_inj in H; try apply underscoreFree_decimal.
    destruct H as [Hn Hr]. split; now apply decimal_inj.
  - intros [Hn Hr]. unfold makeId. now rewrite Hn, Hr.
Qed.



(** * The motion map of the pixel-grid sketch *)

(** Entry [y * w + x] of an array filled row by row. *)
Lemma nth_rows (A : Type) (f : nat -> nat -> A) (d : A) (w : nat) :
  forall (h y0 x y : nat),
  (x < w)%nat -> (y < h)%nat ->
  nth (y * w + x)
    (flat_map (fun y => map (fun x => f x y) (seq 0 w)) (seq y0 h)) d
  = f x (y0 + y)%nat.
Proof.
  induction h as [|h IH]; intros y0 x y Hx Hy; [lia|].
  cbn [seq flat_map]. destruct y as [|y].
  - rewrite app_nth1 by (rewrite length_map, length_seq; simpl; lia).
    simpl. rewrite (nth_indep _ d (f 0%nat y0))
      by (rewrite length_map, length_seq; lia).
    rewrite (map_nth (fun x => f x y0)), seq_nth by lia.
    f_equal; lia.
  - rewrite app_nth2 by (rewrite length_map, length_seq; simpl; lia).
    rewrite length_map, length_seq.
    replace (S y * w + x - w)%nat with (y * w + x)%nat by (simpl; lia).
    rewrite IH by lia. f_equal. lia.
Qed.

Lemma length_rows (A : Type) (f : nat -> nat -> A) (w : nat) :
  forall h y0,
  length (flat_map (fun y => map (fun x => f x y) (seq 0 w)) (seq y0 h))
  = (w * h)%nat.
Proof.
  induction h as [|h IH]; intro y0; [simpl; lia|].
  cbn [seq flat_map]. rewrite length_app, length_map, length_seq, IH. lia.
Qed.

(** X8.  The differencing loops of the pixel-grid [draw] fill one entry
    per pixel; swapping the two frames gives the same map; and the entry
    of a pixel is the mean of the three absolute channel differences when
    that mean exceeds the threshold, 0 otherwise, so the pixel is a
    motion pixel for [findMotionBlobs] exactly when the mean exceeds both
    the threshold and 0. *)
Theorem X8_motion_map (cfg : PixelGrid.Config) (width height : nat)
    (curr prev : list Z) :
  let motionPixels := PixelGrid.differenceFrames cfg width height curr prev in
  length motionPixels = (width * height)%nat
  /\ motionPixels = PixelGrid.differenceFrames cfg width height prev curr
  /\ forall x y, (x < width)%nat -> (y < height)%nat ->
       let i := ((y * width + x) * 4)%nat in
       let mean :=
         inject_Z (Z.abs (nth i curr 0 - nth i prev 0)
                   + Z.abs (nth (i + 1) curr 0 - nth (i + 1) prev 0)
                   + Z.abs (nth (i + 2) curr 0 - nth (i + 2) prev 0))%Z / 3 in
       nth (y * width + x) motionPixels 0
       = (if Qltb (PixelGrid.motionThreshold cfg) mean then mean else 0)
       /\ (PixelGrid.isMotion motionPixels (y * width + x) = true
           <-> PixelGrid.motionThreshold cfg < mean /\ 0 < mean).
Proof.
  cbv zeta. unfold PixelGrid.differenceFrames. split; [apply length_rows|].
  split.
  - apply flat_map_ext. intro y. apply map_ext. intro x.
    unfold PixelGrid.motionPixel.
    assert (Hsym : forall a b : Z, Z.abs (a - b) = Z.abs (b - a)) by lia.
    now rewrite !(Hsym (nth _ curr 0%Z) (nth _ prev 0%Z)).
  - intros x y Hx Hy. unfold PixelGrid.isMotion.
    rewrite (nth_rows (fun x y => PixelGrid.motionPixel cfg width curr prev x y)
               0 0 Hx Hy).
    cbn [Nat.add]. unfold PixelGrid.motionPixel. cbv zeta.
    split; [reflexivity|].
    set (mean := inject_Z _ / 3).
    destruct (Qltb (PixelGrid.motionThreshold cfg) mean) eqn:E.
    + apply Qltb_lt in E. split.
      * intro H. apply Qltb_lt in H. now split.
      * intros [_ H]. now apply Qltb_lt.
    + split; [discriminate|]. intros [H _]. apply Qltb_lt in H. congruence.
Qed.

(** * The difference image of the cell-grid sketch *)

Lemma toUint8Clamp_range (q : Q) : (0 <= toUint8Clamp q <= 255)%Z.
Proof.
  unfold toUint8Clamp.
  destruct (Qle_bool q 0) eqn:E0; [lia|].
  destruct (Qle_bool 255 q) eqn:E1; [lia|].
  assert (H0 : 0 < q).
  { apply Qnot_le_lt. intro H. apply Qle_bool_iff in H. congruence. }
  assert (H1 : q < 255).
  { apply Qnot_le_lt. intro H. apply Qle_bool_iff in H. congruence. }
  assert (Hf0 : (0 <= Qfloor q)%Z).
  { change 0%Z with (Qfloor 0). apply Qfloor_resp_le. lra. }
  assert (Hf1 : (Qfloor q <= 254)%Z).
  { assert (Qfloor q < 255)%Z; [|lia].
    rewrite Zlt_Qlt. eapply Qle_lt_trans; [apply Qfloor_le|exact H1]. }
  cbv zeta. destruct (Qltb _ _); [lia|]. destruct (Qltb _ _); [lia|].
  destruct (Z.even _); lia.
Qed.

(** The stored byte exceeds an integer [T] exactly when the number
    exceeds [T + 1/2], or reaches it when [T] is odd: a tie is rounded to
    the even neighbour. *)
Lemma toUint8Clamp_above (q : Q) (T : Z) :
  (0 <= T < 255)%Z ->
  ((T < toUint8Clamp q)%Z
   <-> if Z.even T then inject_Z T + (1 # 2) < q
       else inject_Z T + (1 # 2) <= q).
Proof.
  intros [HT0 HT1].
  assert (Hcmp : forall a b : Z, (a < b)%Z -> inject_Z a + 1 <= inject_Z b).
  { intros a b Hab. unfold Qle, Qplus, inject_Z. simpl. lia. }
  assert (HT0' : 0 <= inject_Z T) by (unfold Qle, inject_Z; simpl; lia).
  assert (HT1' : inject_Z T + 1 <= 255) by (apply (Hcmp T 255%Z); lia).
  unfold toUint8Clamp.
  destruct (Qle_bool q 0) eqn:E0.
  { apply Qle_bool_iff in E0. split; [lia|]. destruct (Z.even T); lra. }
  destruct (Qle_bool 255 q) eqn:E1.
  { apply Qle_bool_iff in E1. split; [|lia]. intros _.
    destruct (Z.even T); lra. }
  cbv zeta.
  pose proof (Qfloor_le q) as Hfl. pose proof (Qlt_floor q) as Hfu.
  rewrite inject_Z_plus in Hfu. change (inject_Z 1) with 1 in Hfu.
  set (f := Qfloor q) in *.
  destruct (Z.lt_trichotomy T f) as [Hlt|[Heq|Hgt]].
  - pose proof (Hcmp _ _ Hlt) as Hlt'. split.
    + intros _. destruct (Z.even T); lra.
    + intros _.
      destruct (Qltb _ _); [lia|]. destruct (Qltb _ _); [lia|].
      destruct (Z.even f); lia.
  - subst T.
    destruct (Qltb (q - inject_Z f) (1 # 2)) eqn:Ea.
    { apply Qltb_lt in Ea. split; [lia|]. destruct (Z.even f); lra. }
    apply Qltb_ge in Ea.
    destruct (Qltb (1 # 2) (q - inject_Z f)) eqn:Eb.
    { apply Qltb_lt in Eb. split; [|lia]. intros _.
      destruct (Z.even f); lra. }
    apply Qltb_ge in Eb.
    destruct (Z.even f); split; intros; try lia; lra.
  - pose proof (Hcmp _ _ Hgt) as Hgt'. split.
    + intro H. exfalso. revert H.
      destruct (Qltb _ _); [lia|]. destruct (Qltb _ _); [lia|].
      destruct (Z.even f); lia.
    + destruct (Z.even T); lra.
Qed.

Lemma storeUint8Clamped_range (a : Double.t) :
  (0 <= storeUint8Clamped a <= 255)%Z.
Proof.
  destruct a as [s|[]| |s m e]; cbn [storeUint8Clamped Double.toQ];
    try lia; apply toUint8Clamp_range.
Qed.

Lemma storeUint8Clamped_finite (a : Double.t) (q : Q) :
  Double.toQ a = Some q -> storeUint8Clamped a = toUint8Clamp q.
Proof.
  destruct a as [s|s| |s m e]; cbn [storeUint8Clamped Double.toQ];
    intro H; try discriminate; now inversion H.
Qed.

(** The sign given to the rounding only sets the sign of its result. *)
Lemma binary_round_aux_sign (s : bool) (m e : Z) (l : location) :
  SFabs (binary_round_aux Double.prec Double.emax s m e l)
  = SFabs (binary_round_aux Double.prec Double.emax false m e l).
Proof.
  unfold binary_round_aux.
  destruct (shr_fexp Double.prec Double.emax m e l) as [mrs' e'].
  destruct (shr_fexp _ _ _ _ _) as [mrs'' e''].
  destruct (shr_m mrs''); try reflexivity.
  destruct (e'' <=? _)%Z; reflexivity.
Qed.

Lemma binary_normalize_opp (z e : Z) :
  SFabs (binary_normalize Double.prec Double.emax (- z) e false)
  = SFabs (binary_normalize Double.prec Double.emax z e false).
Proof.
  destruct z; simpl; try reflexivity; unfold binary_round;
    destruct (shl_align _ _ _); rewrite (binary_round_aux_sign true);
    reflexivity.
Qed.

(** [abs(a - b)] and [abs(b - a)] are the same value. *)
Lemma Double_abs_sub_sym (a b : Double.t) :
  Double.abs (Double.sub a b) = Double.abs (Double.sub b a).
Proof.
  unfold Double.abs, Double.sub.
  destruct a as [[]|[]| |sa ma ea], b as [[]|[]| |sb mb eb]; try reflexivity.
  unfold SFsub. rewrite (Z.min_comm eb ea).
  rewrite <- binary_normalize_opp. f_equal. f_equal. lia.
Qed.

Lemma nth_quad (a : nat -> Z) (l : list nat) (j c : nat) :
  (j < length l)%nat -> (c < 3)%nat ->
  nth (4 * j + c) (flat_map (fun k => [255; 255; 255; a k]%Z) l) 0%Z = 255%Z.
Proof.
  revert j. induction l as [|k rest IH]; intros j Hj Hc; [simpl in Hj; lia|].
  destruct j as [|j].
  - destruct c as [|[|[|c]]]; try reflexivity; lia.
  - replace (4 * S j + c)%nat with (S (S (S (S (4 * j + c))))) by lia.
    cbn [flat_map app nth]. apply IH; [simpl in Hj; lia|exact Hc].
Qed.

(** X9.  In the difference image every pixel is white.  Its alpha byte
    is computed in binary64: the brightness of a frame is
    [(r * 0.212 + g * 0.715) + b * 0.072], every product and sum rounded,
    and the byte stores the absolute value [change] of the rounded
    difference of the two brightnesses.  The byte is the same whichever
    of the two frames is taken as the current one, lies between 0 and
    255, and exceeds an integer threshold [T] exactly when the computed
    [change] exceeds [T + 1/2] - or reaches it, when [T] is odd. *)
Theorem X9_difference_alpha (currFrame prevFrame : Image) (k : nat) (T : Z)
    (q : Q) :
  (k < length (imagePixels currFrame) / 4)%nat ->
  (0 <= T < 255)%Z ->
  let out := imagePixels (createDifferenceImage currFrame prevFrame) in
  let brightness image :=
    Double.add
      (Double.add
         (Double.mul (pixelByte image (4 * k)) (Double.decimal 212 1000))
         (Double.mul (pixelByte image (4 * k + 1))
            (Double.decimal 715 1000)))
      (Double.mul (pixelByte image (4 * k + 2)) (Double.decimal 72 1000)) in
  let change :=
    Double.abs (Double.sub (brightness currFrame) (brightness prevFrame)) in
  Double.toQ change = Some q ->
  nth (4 * k) out 0%Z = 255%Z
  /\ nth (4 * k + 1) out 0%Z = 255%Z
  /\ nth (4 * k + 2) out 0%Z = 255%Z
  /\ nth (4 * k + 3) out 0%Z = differenceAlpha prevFrame currFrame (4 * k)
  /\ (0 <= nth (4 * k + 3) out 0 <= 255)%Z
  /\ ((T < nth (4 * k + 3) out 0)%Z
      <-> if Z.even T then inject_Z T + (1 # 2) < q
          else inject_Z T + (1 # 2) <= q).
Proof.
  intros Hk HT. cbv zeta. intro Hq.
  unfold createDifferenceImage. cbn [imagePixels].
  set (n := (length (imagePixels currFrame) / 4)%nat) in *.
  assert (Hlen : (k < length (seq 0 n))%nat) by now rewrite length_seq.
  split.
  { rewrite <- (Nat.add_0_r (4 * k)). apply nth_quad; [exact Hlen|lia]. }
  split; [apply nth_quad; [exact Hlen|lia]|].
  split; [apply nth_quad; [exact Hlen|lia]|].
  assert (Ha : nth (4 * k + 3)
                 (flat_map
                    (fun k0 => [255; 255; 255;
                                differenceAlpha currFrame prevFrame (4 * k0)]%Z)
                    (seq 0 n)) 0%Z
               = differenceAlpha currFrame prevFrame (4 * k)).
  { rewrite (Nat.mul_comm 4 k), nth_alpha.
    rewrite (nth_error_nth' (seq 0 n) 0%nat Hlen), seq_nth by exact Hk.
    cbn [Nat.add]. now rewrite (Nat.mul_comm k 4). }
  rewrite Ha. unfold differenceAlpha, getBrightness. cbv zeta.
  split; [now rewrite Double_abs_sub_sym|].
  split; [apply storeUint8Clamped_range|].
  rewrite (storeUint8Clamped_finite _ Hq). now apply toUint8Clamp_above.
Qed.

Lemma X9_difference_alpha_witness :
  nth 0 (imagePixels (createDifferenceImage tieFrame tieFrame')) 0%Z = 255%Z
  /\ nth 1 (imagePixels (createDifferenceImage tieFrame tieFrame')) 0%Z
     = 255%Z
  /\ nth 2 (imagePixels (createDifferenceImage tieFrame tieFrame')) 0%Z
     = 255%Z
  /\ nth 3 (imagePixels (createDifferenceImage tieFrame tieFrame')) 0%Z
     = differenceAlpha tieFrame' tieFrame 0
  /\ (0 <= nth 3 (imagePixels (createDifferenceImage tieFrame tieFrame')) 0
       <= 255)%Z
  /\ ((20 < nth 3 (imagePixels (createDifferenceImage tieFrame tieFrame')) 0)%Z
      <-> inject_Z 20 + (1 # 2) < tieChange).
Proof.
  apply (@X9_difference_alpha tieFrame tieFrame' 0 20 tieChange).
  - vm_compute. lia.
  - lia.
  - vm_compute. reflexivity.
Defined.

(** Off the tie: the two brightnesses of [tieFrame] and [tieFrame'] differ
    by 20.5 in exact arithmetic, which would be stored as 20; the value
    computed is [20.5 + 2 ^ -47], and the byte stored is 21. *)
Example difference_alpha_off_the_tie :
  Double.toQ
    (Double.abs (Double.sub (getBrightness 0 tieFrame)
                   (getBrightness 0 tieFrame')))
  = Some tieChange
  /\ tieChange == (41 # 2) + (1 # 2) ^ 47
  /\ imagePixels (createDifferenceImage tieFrame tieFrame')
     = [255; 255; 255; 21]%Z.
Proof.
  split; [vm_compute; reflexivity|]. split; vm_compute; reflexivity.
Qed.

(** * Blobs are connected components: the pixel-grid sketch *)

Lemma spreads_extend (l : list (nat * nat)) (p : nat * nat)
    (qs : list (nat * nat)) :
  spreads l -> In p l -> Forall (adjacent p) qs -> spreads (l ++ qs).
Proof.
  intros Hl Hp. revert l Hl Hp.
  induction qs as [|q rest IH]; intros l Hl Hp Hq.
  - now rewrite app_nil_r.
  - inversion Hq as [|? ? Hadj Hrest]; subst.
    replace (l ++ q :: rest) with ((l ++ [q]) ++ rest)
      by now rewrite <- app_assoc.
    apply IH; [|apply in_or_app; now left|exact Hrest].
    now apply spreads_step with (p := p).
Qed.

Lemma spreads_nonempty (l : list (nat * nat)) : spreads l -> l <> [].
Proof. intros [p|l' p q _ _ _]; [discriminate|now destruct l']. Qed.

Lemma adjacent_sym (p q : nat * nat) : adjacent p q -> adjacent q p.
Proof. unfold adjacent. intuition. Qed.

Lemma sumQ_app (l1 l2 : list Q) : sumQ (l1 ++ l2) == sumQ l1 + sumQ l2.
Proof.
  induction l1 as [|a rest IH]; simpl; [ring|]. rewrite IH. ring.
Qed.

Lemma existsb_eqb_iff (k : nat) (l : list nat) :
  existsb (Nat.eqb k) l = true <-> In k l.
Proof.
  rewrite existsb_exists. split.
  - intros [x [Hin E]]. apply Nat.eqb_eq in E. now subst.
  - intro H. exists k. split; [exact H|apply Nat.eqb_refl].
Qed.

Lemma existsb_eqb_false (k : nat) (l : list nat) :
  existsb (Nat.eqb k) l = false <-> ~ In k l.
Proof.
  rewrite <- existsb_eqb_iff. now destruct (existsb (Nat.eqb k) l).
Qed.

Section Places.

Variable width : nat.

Lemma placeOf_inside (height i : nat) :
  (i < width * height)%nat ->
  (fst (placeOf width i) < width)%nat /\ (snd (placeOf width i) < height)%nat.
Proof.
  intro Hi. assert (Hw : (0 < width)%nat).
  { destruct width; [simpl in Hi|]; lia. }
  unfold placeOf. simpl.
  split; [apply Nat.mod_upper_bound; lia|].
  apply Nat.Div0.div_lt_upper_bound. nia.
Qed.

Lemma placeOf_index (x y : nat) :
  (x < width)%nat -> placeOf width (y * width + x) = (x, y).
Proof.
  intro Hx. unfold placeOf. f_equal.
  - rewrite Nat.add_comm, Nat.Div0.mod_add. now apply Nat.mod_small.
  - rewrite Nat.add_comm, Nat.div_add by lia.
    rewrite Nat.div_small by exact Hx. reflexivity.
Qed.

Lemma index_placeOf (i : nat) :
  (snd (placeOf width i) * width + fst (placeOf width i))%nat = i.
Proof.
  unfold placeOf. simpl. rewrite (Nat.div_mod_eq i width) at 3. lia.
Qed.

Lemma placeOf_inj (i j : nat) : placeOf width i = placeOf width j -> i = j.
Proof.
  intro H. rewrite <- (index_placeOf i), <- (index_placeOf j). now rewrite H.
Qed.

(** Every pixel of the frame next to [i] is one of its four neighbours. *)
Lemma adjacent_neighbor (i j : nat) :
  adjacent (placeOf width i) (placeOf width j) ->
  exists n, In n neighbors
    /\ Z.of_nat (j mod width) = (Z.of_nat (i mod width) + fst n)%Z
    /\ Z.of_nat (j / width) = (Z.of_nat (i / width) + snd n)%Z.
Proof.
  unfold adjacent, placeOf, neighbors. cbn [fst snd].
  intros [[Hy [Hx|Hx]]|[Hx [Hy|Hy]]].
  - exists (1, 0)%Z. cbn [In fst snd]. split; [tauto|lia].
  - exists (-1, 0)%Z. cbn [In fst snd]. split; [tauto|lia].
  - exists (0, 1)%Z. cbn [In fst snd]. split; [tauto|lia].
  - exists (0, -1)%Z. cbn [In fst snd]. split; [tauto|lia].
Qed.

End Places.

Section PixelComponentsFacts.

Variable cfg : PixelGrid.Config.
Variable width height : nat.
Variable motionPixels : list Q.
Hypothesis Hsize : length motionPixels = (width * height)%nat.

(** One neighbour of the pixel [i]: what the body of the loop adds. *)
Lemma visitNeighbor_spec (i : nat) (queue : list nat) (visited : list bool)
    (n : Z * Z) :
  (i < width * height)%nat -> In n neighbors ->
  let st := PixelGrid.visitNeighbor width height motionPixels
              (i mod width) (i / width) (queue, visited) n in
  exists added,
    fst st = queue ++ added
    /\ (forall k, PixelGrid.isVisited (snd st) k
                  = PixelGrid.isVisited visited k
                    || existsb (Nat.eqb k) added)
    /\ Forall (fun j => motionNeighbour width height motionPixels i j
                        /\ PixelGrid.isVisited visited j = false) added
    /\ NoDup added
    /\ (forall j, (j < width * height)%nat ->
                  Z.of_nat (j mod width) = (Z.of_nat (i mod width) + fst n)%Z ->
                  Z.of_nat (j / width) = (Z.of_nat (i / width) + snd n)%Z ->
                  PixelGrid.isMotion motionPixels j = true ->
                  PixelGrid.isVisited (snd st) j = true).
Proof.
  intros Hi Hn. cbv zeta. unfold PixelGrid.visitNeighbor.
  destruct (@placeOf_inside width height i Hi) as [Hx Hy]. cbn [placeOf fst snd] in Hx, Hy.
  set (nx := (Z.of_nat (i mod width) + fst n)%Z).
  set (ny := (Z.of_nat (i / width) + snd n)%Z).
  destruct ((0 <=? nx)%Z && (nx <? Z.of_nat width)%Z && (0 <=? ny)%Z
            && (ny <? Z.of_nat height)%Z) eqn:Eb.
  - apply andb_prop in Eb. destruct Eb as [Eb Hny1].
    apply andb_prop in Eb. destruct Eb as [Eb Hny0].
    apply andb_prop in Eb. destruct Eb as [Hnx0 Hnx1].
    apply Z.leb_le in Hnx0, Hny0. apply Z.ltb_lt in Hnx1, Hny1.
    assert (Eidx : Z.to_nat (ny * Z.of_nat width + nx)
                   = (Z.to_nat ny * width + Z.to_nat nx)%nat) by nia.
    rewrite Eidx. set (j0 := (Z.to_nat ny * width + Z.to_nat nx)%nat).
    assert (Hplace : placeOf width j0 = (Z.to_nat nx, Z.to_nat ny)).
    { apply placeOf_index. lia. }
    assert (Hj0 : (j0 < width * height)%nat) by (unfold j0; nia).
    assert (Hsame : forall j, Z.of_nat (j mod width) = nx ->
                              Z.of_nat (j / width) = ny -> j = j0).
    { intros j H1 H2. apply (@placeOf_inj width). rewrite Hplace. unfold placeOf.
      f_equal; lia. }
    assert (Hadj : adjacent (placeOf width i) (placeOf width j0)).
    { rewrite Hplace. unfold adjacent, placeOf. cbn [fst snd].
      clear Hsame Hplace Hj0 Eidx. subst j0. unfold nx, ny in *. clear nx ny.
      destruct Hn as [<-|[<-|[<-|[<-|[]]]]]; cbn [fst snd] in *; lia. }
    destruct (PixelGrid.isMotion motionPixels j0) eqn:Hm.
    + destruct (PixelGrid.isVisited visited j0) eqn:Hv; cbn [negb andb].
      * exists []. cbn [fst snd]. split; [now rewrite app_nil_r|].
        split; [intro k; simpl; now rewrite orb_false_r|].
        split; [constructor|]. split; [constructor|].
        intros j _ H1 H2 _. now rewrite (Hsame j H1 H2).
      * exists [j0]. cbn [fst snd]. split; [reflexivity|].
        split.
        { intro k. rewrite isVisited_setTrue. simpl. rewrite orb_false_r.
          destruct (k =? j0)%nat; [now rewrite orb_true_r|
                                   now rewrite orb_false_r]. }
        split; [constructor; [|constructor]; repeat split; assumption|].
        split; [constructor; [intros []|constructor]|].
        intros j _ H1 H2 _. rewrite (Hsame j H1 H2), isVisited_setTrue.
        now rewrite Nat.eqb_refl.
    + cbn [andb]. exists []. cbn [fst snd]. split; [now rewrite app_nil_r|].
      split; [intro k; simpl; now rewrite orb_false_r|].
      split; [constructor|]. split; [constructor|].
      intros j _ H1 H2 Hmj. rewrite (Hsame j H1 H2) in Hmj. congruence.
  - exists []. cbn [fst snd]. split; [now rewrite app_nil_r|].
    split; [intro k; simpl; now rewrite orb_false_r|].
    split; [constructor|]. split; [constructor|].
    intros j Hj H1 H2 _. exfalso.
    destruct (@placeOf_inside width height j Hj) as [Hjx Hjy].
    cbn [placeOf fst snd] in Hjx, Hjy. fold nx in H1. fold ny in H2.
    assert (Hin : ((0 <=? nx)%Z && (nx <? Z.of_nat width)%Z && (0 <=? ny)%Z
                   && (ny <? Z.of_nat height)%Z) = true).
    { rewrite !andb_true_iff, !Z.leb_le, !Z.ltb_lt. lia. }
    congruence.
Qed.

(** The four neighbours of the pixel [i]: what the loop adds. *)
Lemma visitNeighbors_spec (i : nat) (ns : list (Z * Z)) :
  (i < width * height)%nat -> incl ns neighbors ->
  forall (queue : list nat) (visited : list bool),
  let st := fold_left (PixelGrid.visitNeighbor width height motionPixels
                         (i mod width) (i / width)) ns (queue, visited) in
  exists added,
    fst st = queue ++ added
    /\ (forall k, PixelGrid.isVisited (snd st) k
                  = PixelGrid.isVisited visited k
                    || existsb (Nat.eqb k) added)
    /\ Forall (fun j => motionNeighbour width height motionPixels i j
                        /\ PixelGrid.isVisited visited j = false) added
    /\ NoDup added
    /\ (forall n j, In n ns -> (j < width * height)%nat ->
                  Z.of_nat (j mod width) = (Z.of_nat (i mod width) + fst n)%Z ->
                  Z.of_nat (j / width) = (Z.of_nat (i / width) + snd n)%Z ->
                  PixelGrid.isMotion motionPixels j = true ->
                  PixelGrid.isVisited (snd st) j = true).
Proof.
  intro Hi. induction ns as [|n rest IH]; intros Hincl queue visited.
  - exists []. cbn [fold_left fst snd]. split; [now rewrite app_nil_r|].
    split; [intro k; simpl; now rewrite orb_false_r|].
    split; [constructor|]. split; [constructor|]. intros n j [].
  - cbn [fold_left].
    destruct (@visitNeighbor_spec i queue visited n Hi
                (Hincl n (or_introl eq_refl)))
      as [a1 [Hq1 [Hv1 [Hf1 [Hn1 Hc1]]]]].
    destruct (PixelGrid.visitNeighbor width height motionPixels
                (i mod width) (i / width) (queue, visited) n) as [q1 v1].
    cbn [fst snd] in Hq1, Hv1, Hc1. subst q1.
    destruct (IH (fun m Hm => Hincl m (or_intror Hm)) (queue ++ a1) v1)
      as [a2 [Hq2 [Hv2 [Hf2 [Hn2 Hc2]]]]].
    cbv zeta in Hq2, Hv2, Hc2.
    set (st := fold_left _ rest (queue ++ a1, v1)) in *.
    exists (a1 ++ a2). split; [now rewrite Hq2, app_assoc|].
    split.
    { intro k. rewrite Hv2, Hv1, existsb_app. now rewrite orb_assoc. }
    split.
    { apply Forall_app. split; [exact Hf1|].
      eapply Forall_impl; [|exact Hf2]. cbv beta. intros j [Hmn Hvj].
      split; [exact Hmn|]. rewrite Hv1 in Hvj.
      now apply orb_false_elim in Hvj. }
    split.
    { apply NoDup_app; [exact Hn1|exact Hn2|].
      intros j Hj1 Hj2. rewrite Forall_forall in Hf2.
      destruct (Hf2 j Hj2) as [_ Hvj]. rewrite Hv1 in Hvj.
      apply orb_false_elim in Hvj. destruct Hvj as [_ Hvj].
      apply existsb_eqb_false in Hvj. contradiction. }
    intros m j [<-|Hm] Hj H1 H2 Hmj.
    + rewrite Hv2, (Hc1 j Hj H1 H2 Hmj). reflexivity.
    + now apply (Hc2 m j Hm).
Qed.

Lemma sumNat_snoc (l : list nat) (n : nat) :
  sumNat (l ++ [n]) == sumNat l + inject_Z (Z.of_nat n).
Proof. unfold sumNat. rewrite map_app, sumQ_app. simpl. ring. Qed.

(** The flood fill keeps its invariant and ends with an empty queue. *)
Lemma flood_spec (V0 : list bool) (fuel : nat) :
  forall (queue : list nat) (visited : list bool) (blob : PixelBlob.t),
  floodInv width height motionPixels V0 queue visited blob ->
  (length queue + PixelGrid.unvisitedMotion motionPixels visited
   <= fuel)%nat ->
  let r := PixelGrid.flood width height fuel motionPixels queue visited blob in
  floodInv width height motionPixels V0 [] (snd r) (fst r)
  /\ (forall k, PixelGrid.isVisited visited k = true ->
                PixelGrid.isVisited (snd r) k = true).
Proof.
  induction fuel as [|fuel IH]; intros queue visited blob HI Hm; cbv zeta.
  - destruct queue; [now split|simpl in Hm; lia].
  - cbn [PixelGrid.flood]. destruct queue as [|i q']; [now split|].
    destruct HI as [I [Hg [Hs [Hnd [Hmo [Hv Hcl]]]]]].
    assert (Him : PixelGrid.isMotion motionPixels i = true).
    { apply Hmo. apply in_or_app. right. now left. }
    assert (Hi : (i < width * height)%nat).
    { rewrite <- Hsize. now apply isMotion_inside. }
    destruct (@visitNeighbors_spec i neighbors Hi (incl_refl _) q' visited)
      as [added [Hq [Hv' [Hf [Hna Hc]]]]].
    pose proof (@PixelGrid_visitNeighbors_measure width height motionPixels
                  (i mod width) (i / width) neighbors q' visited) as Hmeas.
    cbv zeta in Hq, Hv', Hc, Hmeas.
    destruct (fold_left _ neighbors (q', visited)) as [q1 v1].
    cbn [fst snd] in Hq, Hv', Hc, Hmeas. subst q1.
    rewrite Forall_forall in Hf.
    assert (EL : (I ++ [i]) ++ q' ++ added = (I ++ i :: q') ++ added).
    { now rewrite <- !app_assoc. }
    match goal with
    | |- floodInv _ _ _ _ _ (snd ?r) (fst ?r) /\ _ =>
        assert (Hstep : floodInv width height motionPixels V0 [] (snd r)
                          (fst r)
                        /\ (forall k, PixelGrid.isVisited v1 k = true ->
                                      PixelGrid.isVisited (snd r) k = true));
        [|split; [exact (proj1 Hstep)|];
          intros k Hk; apply (proj2 Hstep); now rewrite Hv', Hk]
    end.
    apply IH; [|cbn [length] in Hm; lia].
    exists (I ++ [i]). rewrite EL.
    destruct Hg as [Hp [Ht [Hx Hy]]].
    split.
    { unfold gathers. cbn [PixelBlob.pixels PixelBlob.totalDiff
                           PixelBlob.centerX PixelBlob.centerY].
      split; [rewrite Hp, map_app; reflexivity|].
      split; [rewrite map_app, sumQ_app, Ht; simpl; ring|].
      split; rewrite map_app; cbn [map]; rewrite sumNat_snoc.
      - now rewrite Hx.
      - now rewrite Hy. }
    split.
    { rewrite map_app. apply spreads_extend with (p := placeOf width i).
      - exact Hs.
      - apply in_map. apply in_or_app. right. now left.
      - apply Forall_forall. intros p Hp'. apply in_map_iff in Hp'.
        destruct Hp' as [j [<- Hj]]. now destruct (Hf j Hj) as [[_ [Ha _]] _]. }
    split.
    { apply NoDup_app; [exact Hnd|exact Hna|].
      intros j Hj1 Hj2. destruct (Hf j Hj2) as [_ Hvj].
      rewrite Hv in Hvj. apply orb_false_elim in Hvj.
      destruct Hvj as [_ Hvj]. apply existsb_eqb_false in Hvj.
      contradiction. }
    split.
    { intros j Hj. apply in_app_or in Hj. destruct Hj as [Hj|Hj].
      - now apply Hmo.
      - destruct (Hf j Hj) as [[_ [_ Hmj]] Hvj]. split; [exact Hmj|].
        rewrite Hv in Hvj. now apply orb_false_elim in Hvj. }
    split.
    { intro k. rewrite Hv', Hv, (existsb_app _ (I ++ i :: q') added).
      now rewrite orb_assoc. }
    intros i0 j Hin Hmn. apply in_app_or in Hin.
    destruct Hin as [Hin|[<-|[]]].
    + now rewrite Hv', (Hcl i0 j Hin Hmn).
    + destruct Hmn as [Hj [Hadj Hmj]].
      destruct (@adjacent_neighbor width i j Hadj) as [n [Hn [H1 H2]]].
      now apply (Hc n j Hn Hj H1 H2 Hmj).
Qed.

Lemma isVisited_repeat (n i : nat) :
  PixelGrid.isVisited (repeat false n) i = false.
Proof.
  unfold PixelGrid.isVisited.
  destruct (nth_in_or_default i (repeat false n) false) as [H|H];
    [now apply repeat_spec in H|exact H].
Qed.

Lemma finished_finish (blob : PixelBlob.t) (I : list nat) :
  gathers width motionPixels blob I ->
  finished width motionPixels (PixelGrid.finish blob) I.
Proof.
  intros [Hp [Ht [Hx Hy]]]. unfold finished, PixelGrid.finish. cbv zeta.
  cbn [PixelBlob.pixels PixelBlob.totalDiff PixelBlob.avgDiff
       PixelBlob.centerX PixelBlob.centerY].
  rewrite Hp, length_map. split; [reflexivity|]. split; [exact Ht|].
  split; [reflexivity|]. split; [now rewrite Hx|now rewrite Hy].
Qed.

(** Flags are only ever set: a component stays one. *)
Lemma component_grows (v v' : list bool) (I : list nat) :
  (forall i, PixelGrid.isVisited v i = true ->
             PixelGrid.isVisited v' i = true) ->
  component width height motionPixels v I ->
  component width height motionPixels v' I.
Proof.
  intros Hle [Hs [Hm Hc]]. split; [exact Hs|]. split; [|exact Hc].
  intros i Hi. destruct (Hm i Hi) as [H1 H2]. split; [exact H1|now apply Hle].
Qed.

(** One step of the scan keeps its invariant. *)
Lemma scanPixel_inv (blobs : list PixelBlob.t) (visited : list bool)
    (i : nat) :
  scanInv width height motionPixels blobs visited ->
  let st := PixelGrid.scanPixel cfg width height (length motionPixels)
              motionPixels (blobs, visited) i in
  scanInv width height motionPixels (fst st) (snd st).
Proof.
  intros [[Is [HF [Hnd Hcomp]]] Hclosed]. cbv zeta.
  unfold PixelGrid.scanPixel.
  destruct (PixelGrid.isMotion motionPixels i
            && negb (PixelGrid.isVisited visited i)) eqn:E;
    [|split; [now exists Is|exact Hclosed]].
  apply andb_prop in E. destruct E as [Hm Hv].
  apply negb_true_iff in Hv.
  assert (HI0 : floodInv width height motionPixels visited [i]
                  (setTrue visited i) (PixelBlob.mk [] 0 0 0 0)).
  { exists []. split; [repeat split; reflexivity|].
    split; [apply spreads_seed|].
    split; [constructor; [intros []|constructor]|].
    split; [intros j [<-|[]]; now split|].
    split; [|intros i0 j []].
    intro k. rewrite isVisited_setTrue. simpl. rewrite orb_false_r.
    destruct (k =? i)%nat; [now rewrite orb_true_r|now rewrite orb_false_r]. }
  assert (Hfuel : (length [i]
                   + PixelGrid.unvisitedMotion motionPixels (setTrue visited i)
                   <= length motionPixels)%nat).
  { pose proof (@unvisitedMotion_setTrue motionPixels visited i Hm Hv) as H.
    assert (Hle : (PixelGrid.unvisitedMotion motionPixels visited
                   <= length motionPixels)%nat).
    { unfold PixelGrid.unvisitedMotion.
      etransitivity; [apply filter_length_le|]. now rewrite length_seq. }
    cbn [length]. lia. }
  pose proof (@flood_spec visited (length motionPixels) [i]
                (setTrue visited i) (PixelBlob.mk [] 0 0 0 0) HI0 Hfuel)
    as [HI _].
  cbv zeta in HI.
  destruct (PixelGrid.flood width height (length motionPixels) motionPixels
              [i] (setTrue visited i) (PixelBlob.mk [] 0 0 0 0))
    as [blob v'].
  cbn [fst snd] in HI. destruct HI as [I [Hg [Hs [HndI [Hmo [Hv' Hcl]]]]]].
  rewrite app_nil_r in Hs, HndI, Hmo, Hv'.
  assert (Hgrow : forall k, PixelGrid.isVisited visited k = true ->
                            PixelGrid.isVisited v' k = true).
  { intros k Hk. now rewrite Hv', Hk. }
  assert (Hclosed' : forall a b,
             PixelGrid.isVisited v' a = true ->
             PixelGrid.isMotion motionPixels a = true ->
             motionNeighbour width height motionPixels a b ->
             PixelGrid.isVisited v' b = true).
  { intros a b Ha Hma Hab. rewrite Hv' in Ha.
    apply orb_true_iff in Ha. destruct Ha as [Ha|Ha].
    - apply Hgrow. now apply (Hclosed a b).
    - apply existsb_eqb_iff in Ha. now apply (Hcl a b). }
  assert (Hold : Forall (component width height motionPixels v') Is).
  { eapply Forall_impl; [|exact Hcomp]. intro J. now apply component_grows. }
  destruct (PixelGrid.minBlobSize cfg <? length (PixelBlob.pixels blob))%nat;
    cbn [fst snd]; (split; [|exact Hclosed']); [|now exists Is].
  exists (Is ++ [I]). split.
  { apply Forall2_app; [exact HF|]. constructor; [|constructor].
    now apply finished_finish. }
  split.
  { rewrite concat_app. cbn [concat]. rewrite app_nil_r.
    apply NoDup_app; [exact Hnd|exact HndI|].
    intros a Ha1 Ha2. apply in_concat in Ha1.
    destruct Ha1 as [J [HJ HaJ]]. rewrite Forall_forall in Hcomp.
    destruct (Hcomp J HJ) as [_ [HmJ _]]. destruct (HmJ a HaJ) as [_ Hva].
    destruct (Hmo a Ha2) as [_ Hva']. congruence. }
  apply Forall_app. split; [exact Hold|]. constructor; [|constructor].
  split; [exact Hs|]. split.
  { intros a Ha. destruct (Hmo a Ha) as [Hma _]. split; [exact Hma|].
    rewrite Hv'. apply existsb_eqb_iff in Ha. rewrite Ha.
    apply orb_true_r. }
  intros a b Ha Hab. pose proof (Hcl a b Ha Hab) as Hvb.
  rewrite Hv' in Hvb. apply orb_true_iff in Hvb.
  destruct Hvb as [Hvb|Hvb]; [|now apply existsb_eqb_iff in Hvb].
  exfalso. destruct Hab as [Hb [Hadj Hmb]]. destruct (Hmo a Ha) as [Hma Hva].
  assert (Hba : motionNeighbour width height motionPixels b a).
  { split; [rewrite <- Hsize; now apply isMotion_inside|].
    split; [now apply adjacent_sym|exact Hma]. }
  rewrite (Hclosed b a Hvb Hmb Hba) in Hva. discriminate Hva.
Qed.

(** The blobs pushed by the scan are disjoint components. *)
Lemma discovered_components :
  exists Is visited,
    Forall2 (finished width motionPixels)
      (PixelGrid.discovered cfg width height motionPixels) Is
    /\ NoDup (concat Is)
    /\ Forall (component width height motionPixels visited) Is.
Proof.
  unfold PixelGrid.discovered, PixelGrid.discoveredWith.
  assert (H : scanInv width height motionPixels
                (fst (fold_left
                        (PixelGrid.scanPixel cfg width height
                           (length motionPixels) motionPixels)
                        (seq 0 (length motionPixels))
                        ([], repeat false (length motionPixels))))
                (snd (fold_left
                        (PixelGrid.scanPixel cfg width height
                           (length motionPixels) motionPixels)
                        (seq 0 (length motionPixels))
                        ([], repeat false (length motionPixels))))).
  { apply (fold_left_invariant
             (fun st => scanInv width height motionPixels (fst st) (snd st))).
    - intros [blobs visited] i Hst _. now apply scanPixel_inv.
    - cbn [fst snd]. split.
      + exists []. split; [constructor|]. split; constructor.
      + intros i j Hi. rewrite isVisited_repeat in Hi. discriminate Hi. }
  destruct H as [[Is H] _]. now exists Is, (snd (fold_left
    (PixelGrid.scanPixel cfg width height (length motionPixels) motionPixels)
    (seq 0 (length motionPixels)) ([], repeat false (length motionPixels)))).
Qed.

End PixelComponentsFacts.

(** ** What holds of the blobs returned *)

Lemma Forall2_In_l (A B : Type) (R : A -> B -> Prop) (l : list A)
    (l' : list B) (a : A) :
  Forall2 R l l' -> In a l -> exists b, In b l' /\ R a b.
Proof.
  induction 1 as [|x y l l' Hxy _ IH]; [intros []|].
  intros [<-|Hin].
  - exists y. split; [now left|exact Hxy].
  - destruct (IH Hin) as [b [Hb Hab]]. exists b. split; [now right|exact Hab].
Qed.

Lemma NoDup_map_injective (A B : Type) (f : A -> B) (l : list A) :
  (forall a b, f a = f b -> a = b) -> NoDup l -> NoDup (map f l).
Proof.
  intros Hinj. induction 1 as [|a l Ha _ IH]; simpl; constructor; [|exact IH].
  intro Hin. apply in_map_iff in Hin. destruct Hin as [b [E Hb]].
  apply Hinj in E. now subst.
Qed.

(** Sorting and truncating a list keeps its parts apart. *)
Lemma NoDup_flat_map_largest (A B : Type) (size : A -> nat)
    (f : A -> list B) (k : nat) (l : list A) :
  NoDup (flat_map f l) -> NoDup (flat_map f (largest size k l)).
Proof.
  intro H. unfold largest.
  assert (Hs : NoDup (flat_map f (sortBySize size l))).
  { eapply Permutation_NoDup; [|exact H].
    apply Permutation_flat_map. symmetry. apply sortBySize_perm. }
  rewrite <- (firstn_skipn k (sortBySize size l)) in Hs.
  rewrite flat_map_app in Hs. now apply NoDup_app_remove_r in Hs.
Qed.

Lemma sumQ_pos (l : list Q) :
  l <> [] -> Forall (fun q => 0 < q) l -> 0 < sumQ l.
Proof.
  intros Hne H. induction H as [|q rest Hq Hrest IH]; [congruence|].
  simpl. destruct rest as [|r rest'].
  - simpl. lra.
  - assert (0 < sumQ (r :: rest')) by (apply IH; discriminate). lra.
Qed.

Lemma sumNat_bounds (w : nat) (l : list nat) :
  Forall (fun n => (n < w)%nat) l ->
  0 <= sumNat l
  /\ sumNat l <= (inject_Z (Z.of_nat w) - 1) * inject_Z (Z.of_nat (length l)).
Proof.
  induction 1 as [|n rest Hn _ [IH0 IH1]].
  - unfold sumNat. cbn [map sumQ fold_right length Z.of_nat].
    change (inject_Z 0) with 0. split; [lra|].
    setoid_replace ((inject_Z (Z.of_nat w) - 1) * 0) with 0 by ring. lra.
  - unfold sumNat in *. cbn [map sumQ fold_right length].
    fold (sumQ (map (fun n => inject_Z (Z.of_nat n)) rest)) in *.
    rewrite Nat2Z.inj_succ. unfold Z.succ. rewrite inject_Z_plus.
    assert (H0 : 0 <= inject_Z (Z.of_nat n)).
    { unfold Qle, inject_Z. simpl. lia. }
    assert (H1 : inject_Z (Z.of_nat n) + 1 <= inject_Z (Z.of_nat w)).
    { unfold Qle, Qplus, inject_Z. simpl. lia. }
    change (inject_Z 1) with 1. split; [lra|].
    set (a := inject_Z (Z.of_nat n)) in *.
    set (W := inject_Z (Z.of_nat w)) in *.
    set (L := inject_Z (Z.of_nat (length rest))) in *.
    set (S := sumQ _) in *.
    setoid_replace ((W - 1) * (L + 1)) with ((W - 1) * L + (W - 1)) by ring.
    lra.
Qed.

Lemma mean_bounds (w : nat) (l : list nat) :
  l <> [] -> Forall (fun n => (n < w)%nat) l ->
  0 <= sumNat l / inject_Z (Z.of_nat (length l))
  /\ sumNat l / inject_Z (Z.of_nat (length l)) <= inject_Z (Z.of_nat w) - 1.
Proof.
  intros Hne H. destruct (sumNat_bounds H) as [H0 H1].
  assert (Hn : 0 < inject_Z (Z.of_nat (length l))).
  { destruct l; [congruence|]. unfold Qlt, inject_Z. simpl. lia. }
  split.
  - apply Qle_shift_div_l; [exact Hn|]. lra.
  - apply Qle_shift_div_r; [exact Hn|exact H1].
Qed.

Section PixelBlobs.

Variable cfg : PixelGrid.Config.
Variable width height : nat.
Variable motionPixels : list Q.
Hypothesis Hsize : length motionPixels = (width * height)%nat.

(** A returned blob is the finished record of a component. *)
Lemma returned_blob (b : PixelBlob.t) :
  In b (PixelGrid.findMotionBlobs cfg width height motionPixels) ->
  exists I visited,
    finished width motionPixels b I
    /\ component width height motionPixels visited I.
Proof.
  intro Hb. unfold PixelGrid.findMotionBlobs in Hb.
  apply (proj1 (proj2 (proj2 (largest_spec PixelBlob.size _ _)))) in Hb.
  destruct (@discovered_components cfg width height motionPixels Hsize)
    as [Is [visited [HF [_ Hc]]]].
  destruct (@Forall2_In_l _ _ _ _ _ b HF Hb) as [I [HI Hfin]].
  rewrite Forall_forall in Hc. exists I, visited. split; [exact Hfin|].
  now apply Hc.
Qed.

Lemma places_pixelAt (I : list nat) :
  map pixelPlace (map (pixelAt width motionPixels) I) = map (placeOf width) I.
Proof. rewrite map_map. reflexivity. Qed.

End PixelBlobs.

(** X10.  On a motion map with one entry per pixel, every record of
    every blob returned by the pixel-grid [findMotionBlobs] is a pixel of
    the frame, carries the entry of the motion map at its position, which
    is positive; and no position occurs twice, neither within a blob nor
    in two blobs. *)
Theorem X10_pixel_blobs_hold_motion_pixels (cfg : PixelGrid.Config)
    (width height : nat) (motionPixels : list Q) :
  length motionPixels = (width * height)%nat ->
  let out := PixelGrid.findMotionBlobs cfg width height motionPixels in
  (forall b p, In b out -> In p (PixelBlob.pixels b) ->
     (Pixel.x p < width)%nat /\ (Pixel.y p < height)%nat
     /\ Pixel.diff p = nth (Pixel.y p * width + Pixel.x p) motionPixels 0
     /\ 0 < Pixel.diff p)
  /\ NoDup (flat_map (fun b => map pixelPlace (PixelBlob.pixels b)) out).
Proof.
  intros Hsize out. split.
  - intros b p Hb Hp.
    destruct (@returned_blob cfg width height motionPixels Hsize b Hb) as [I [v [[Hpx _] [_ [Hm _]]]]].
    rewrite Hpx in Hp. apply in_map_iff in Hp. destruct Hp as [i [<- Hi]].
    destruct (Hm i Hi) as [Hmi _].
    assert (Hin : (i < width * height)%nat).
    { rewrite <- Hsize. now apply isMotion_inside. }
    destruct (@placeOf_inside width height i Hin) as [Hx Hy].
    unfold pixelAt. cbn [Pixel.x Pixel.y Pixel.diff placeOf fst snd] in *.
    split; [exact Hx|]. split; [exact Hy|].
    pose proof (index_placeOf width i) as Hidx.
    cbn [placeOf fst snd] in Hidx. rewrite Hidx. split; [reflexivity|].
    now apply Qltb_lt.
  - apply NoDup_flat_map_largest.
    destruct (@discovered_components cfg width height motionPixels Hsize)
      as [Is [v [HF [Hnd _]]]].
    assert (E : flat_map (fun b => map pixelPlace (PixelBlob.pixels b))
                  (PixelGrid.discovered cfg width height motionPixels)
                = map (placeOf width) (concat Is)).
    { induction HF as [|b I bs Is' [Hpx _] _ IH]; [reflexivity|].
      cbn [flat_map concat]. rewrite map_app, IH, Hpx, places_pixelAt.
      - reflexivity.
      - simpl in Hnd. now apply NoDup_app_remove_l in Hnd. }
    rewrite E. apply NoDup_map_injective; [|exact Hnd].
    apply placeOf_inj.
Qed.

(** X11.  For every blob returned by the pixel-grid [findMotionBlobs],
    [totalDiff] is the sum of the [diff] of its pixels, [avgDiff] their
    mean, which is positive, and [centerX], [centerY] are the means of
    the pixel coordinates, so the centre lies inside the frame. *)
Theorem X11_pixel_blob_statistics (cfg : PixelGrid.Config)
    (width height : nat) (motionPixels : list Q) (b : PixelBlob.t) :
  length motionPixels = (width * height)%nat ->
  In b (PixelGrid.findMotionBlobs cfg width height motionPixels) ->
  let n := inject_Z (Z.of_nat (PixelBlob.size b)) in
  PixelBlob.totalDiff b == sumQ (map Pixel.diff (PixelBlob.pixels b))
  /\ PixelBlob.avgDiff b == PixelBlob.totalDiff b / n
  /\ 0 < PixelBlob.avgDiff b
  /\ PixelBlob.centerX b == sumNat (map Pixel.x (PixelBlob.pixels b)) / n
  /\ PixelBlob.centerY b == sumNat (map Pixel.y (PixelBlob.pixels b)) / n
  /\ 0 <= PixelBlob.centerX b <= inject_Z (Z.of_nat width) - 1
  /\ 0 <= PixelBlob.centerY b <= inject_Z (Z.of_nat height) - 1.
Proof.
  intros Hsize Hb.
  destruct (@returned_blob cfg width height motionPixels Hsize b Hb)
    as [I [v [[Hpx [Ht [Ha [Hx Hy]]]] [Hs [Hm _]]]]].
  cbv zeta in *. unfold PixelBlob.size. rewrite Hpx, length_map, !map_map.
  cbn [pixelAt Pixel.x Pixel.y Pixel.diff].
  assert (Hne : I <> []).
  { intro E. apply spreads_nonempty in Hs. now rewrite E in Hs. }
  assert (Hin : forall i, In i I -> (i < width * height)%nat).
  { intros i Hi. rewrite <- Hsize. apply isMotion_inside.
    now destruct (Hm i Hi). }
  assert (Hn : 0 < inject_Z (Z.of_nat (length I))).
  { destruct I; [congruence|]. unfold Qlt, inject_Z. simpl. lia. }
  assert (Hxs : Forall (fun n => (n < width)%nat)
                  (map (fun i => (i mod width)%nat) I)).
  { apply Forall_forall. intros n Hn'. apply in_map_iff in Hn'.
    destruct Hn' as [i [<- Hi]].
    now destruct (@placeOf_inside width height i (Hin i Hi)). }
  assert (Hys : Forall (fun n => (n < height)%nat)
                  (map (fun i => (i / width)%nat) I)).
  { apply Forall_forall. intros n Hn'. apply in_map_iff in Hn'.
    destruct Hn' as [i [<- Hi]].
    now destruct (@placeOf_inside width height i (Hin i Hi)). }
  assert (Hmx : map (fun i => (i mod width)%nat) I <> [])
    by (destruct I; [congruence|discriminate]).
  assert (Hmy : map (fun i => (i / width)%nat) I <> [])
    by (destruct I; [congruence|discriminate]).
  pose proof (mean_bounds Hmx Hxs) as Bx.
  pose proof (mean_bounds Hmy Hys) as By.
  rewrite length_map in Bx, By.
  split; [exact Ht|]. split; [exact Ha|]. split.
  { rewrite Ha, Ht. apply Qlt_shift_div_l; [exact Hn|].
    setoid_replace (0 * inject_Z (Z.of_nat (length I))) with 0 by ring.
    apply sumQ_pos; [destruct I; [congruence|discriminate]|].
    apply Forall_forall. intros q Hq. apply in_map_iff in Hq.
    destruct Hq as [i [<- Hi]]. apply Qltb_lt. now destruct (Hm i Hi). }
  split; [exact Hx|]. split; [exact Hy|].
  rewrite Hx, Hy. split; assumption.
Qed.

(** X12.  Every blob returned by the pixel-grid [findMotionBlobs] is a
    4-connected component of the motion pixels: its records start with a
    seed and each later one is a 4-neighbour of a record before it, and
    every motion pixel of the frame that is a 4-neighbour of one of its
    pixels belongs to it. *)
Theorem X12_pixel_blobs_are_components (cfg : PixelGrid.Config)
    (width height : nat) (motionPixels : list Q) (b : PixelBlob.t) :
  length motionPixels = (width * height)%nat ->
  In b (PixelGrid.findMotionBlobs cfg width height motionPixels) ->
  spreads (map pixelPlace (PixelBlob.pixels b))
  /\ forall p x y,
       In p (PixelBlob.pixels b) ->
       (x < width)%nat -> (y < height)%nat ->
       adjacent (pixelPlace p) (x, y) ->
       0 < nth (y * width + x) motionPixels 0 ->
       In (x, y) (map pixelPlace (PixelBlob.pixels b)).
Proof.
  intros Hsize Hb.
  destruct (@returned_blob cfg width height motionPixels Hsize b Hb) as [I [v [[Hpx _] [Hs [_ Hc]]]]].
  rewrite Hpx, places_pixelAt. split; [exact Hs|].
  intros p x y Hp Hx Hy Hadj Hpos.
  apply in_map_iff in Hp. destruct Hp as [i [<- Hi]].
  assert (Hplace : placeOf width (y * width + x) = (x, y))
    by now apply placeOf_index.
  rewrite <- Hplace. apply in_map. apply (Hc i); [exact Hi|].
  split; [nia|]. split.
  - rewrite Hplace. exact Hadj.
  - now apply Qltb_lt.
Qed.

Lemma X10_pixel_blobs_hold_motion_pixels_witness :
  (forall b p,
     In b (PixelGrid.findMotionBlobs PixelGrid.sketch 21 10 motionField) ->
     In p (PixelBlob.pixels b) ->
     (Pixel.x p < 21)%nat /\ (Pixel.y p < 10)%nat
     /\ Pixel.diff p = nth (Pixel.y p * 21 + Pixel.x p) motionField 0
     /\ 0 < Pixel.diff p)
  /\ NoDup (flat_map (fun b => map pixelPlace (PixelBlob.pixels b))
              (PixelGrid.findMotionBlobs PixelGrid.sketch 21 10 motionField)).
Proof.
  apply (@X10_pixel_blobs_hold_motion_pixels PixelGrid.sketch 21 10
           motionField).
  reflexivity.
Defined.

Lemma X11_pixel_blob_statistics_witness :
  PixelBlob.totalDiff fieldBlob
  == sumQ (map Pixel.diff (PixelBlob.pixels fieldBlob))
  /\ PixelBlob.avgDiff fieldBlob
     == PixelBlob.totalDiff fieldBlob
        / inject_Z (Z.of_nat (PixelBlob.size fieldBlob))
  /\ 0 < PixelBlob.avgDiff fieldBlob
  /\ PixelBlob.centerX fieldBlob
     == sumNat (map Pixel.x (PixelBlob.pixels fieldBlob))
        / inject_Z (Z.of_nat (PixelBlob.size fieldBlob))
  /\ PixelBlob.centerY fieldBlob
     == sumNat (map Pixel.y (PixelBlob.pixels fieldBlob))
        / inject_Z (Z.of_nat (PixelBlob.size fieldBlob))
  /\ 0 <= PixelBlob.centerX fieldBlob <= inject_Z (Z.of_nat 21) - 1
  /\ 0 <= PixelBlob.centerY fieldBlob <= inject_Z (Z.of_nat 10) - 1.
Proof.
  apply (@X11_pixel_blob_statistics PixelGrid.sketch 21 10 motionField
           fieldBlob).
  - reflexivity.
  - vm_compute. left. reflexivity.
Defined.

Lemma X12_pixel_blobs_are_components_witness :
  spreads (map pixelPlace (PixelBlob.pixels fieldBlob))
  /\ forall p x y,
       In p (PixelBlob.pixels fieldBlob) ->
       (x < 21)%nat -> (y < 10)%nat ->
       adjacent (pixelPlace p) (x, y) ->
       0 < nth (y * 21 + x) motionField 0 ->
       In (x, y) (map pixelPlace (PixelBlob.pixels fieldBlob)).
Proof.
  apply (@X12_pixel_blobs_are_components PixelGrid.sketch 21 10 motionField
           fieldBlob).
  - reflexivity.
  - vm_compute. left. reflexivity.
Defined.

(** * Blobs are connected components: the cell-grid sketch *)

Lemma pairEqb_eq (a b : nat * nat) : pairEqb a b = true <-> a = b.
Proof.
  destruct a as [a1 a2], b as [b1 b2]. unfold pairEqb. cbn [fst snd].
  rewrite andb_true_iff, !Nat.eqb_eq. split.
  - intros [-> ->]. reflexivity.
  - intro H. inversion H. now split.
Qed.

Lemma existsb_pairEqb_iff (c : nat * nat) (l : list (nat * nat)) :
  existsb (pairEqb c) l = true <-> In c l.
Proof.
  rewrite existsb_exists. split.
  - intros [d [Hin E]]. apply pairEqb_eq in E. now subst.
  - intro H. exists c. split; [exact H|now apply pairEqb_eq].
Qed.

Lemma existsb_pairEqb_false (c : nat * nat) (l : list (nat * nat)) :
  existsb (pairEqb c) l = false <-> ~ In c l.
Proof.
  rewrite <- existsb_pairEqb_iff. now destruct (existsb (pairEqb c) l).
Qed.

(** Every position next to [c] is one of its four neighbours. *)
Lemma adjacent_cell_neighbor (c d : nat * nat) :
  adjacent c d ->
  exists n, In n neighbors
    /\ Z.of_nat (fst d) = (Z.of_nat (fst c) + fst n)%Z
    /\ Z.of_nat (snd d) = (Z.of_nat (snd c) + snd n)%Z.
Proof.
  unfold adjacent, neighbors.
  intros [[Hy [Hx|Hx]]|[Hx [Hy|Hy]]].
  - exists (1, 0)%Z. cbn [In fst snd]. split; [tauto|lia].
  - exists (-1, 0)%Z. cbn [In fst snd]. split; [tauto|lia].
  - exists (0, 1)%Z. cbn [In fst snd]. split; [tauto|lia].
  - exists (0, -1)%Z. cbn [In fst snd]. split; [tauto|lia].
Qed.

Section CellComponentsFacts.

Variable cfg : CellGrid.Config.
Variable diffImage : Image.
Variable grid : CellGrid.Grid.

(** One neighbour of the cell [c]: what the body of the loop adds. *)
Lemma cell_visitNeighbor_spec (c : nat * nat) (queue : list (nat * nat))
    (visited : list (list bool)) (n : Z * Z) :
  shaped (CellGrid.gridWidth cfg diffImage)
    (CellGrid.gridHeight cfg diffImage) visited ->
  In n neighbors ->
  let st := CellGrid.visitNeighbor cfg diffImage grid (fst c) (snd c)
              (queue, visited) n in
  shaped (CellGrid.gridWidth cfg diffImage)
    (CellGrid.gridHeight cfg diffImage) (snd st)
  /\ exists added,
       fst st = queue ++ added
       /\ (forall k, visitedCell (snd st) k
                     = visitedCell visited k || existsb (pairEqb k) added)
       /\ Forall (fun d => motionCell cfg diffImage grid d
                           /\ adjacent c d
                           /\ visitedCell visited d = false) added
       /\ NoDup added
       /\ (forall d, motionCell cfg diffImage grid d ->
                     Z.of_nat (fst d) = (Z.of_nat (fst c) + fst n)%Z ->
                     Z.of_nat (snd d) = (Z.of_nat (snd c) + snd n)%Z ->
                     visitedCell (snd st) d = true).
Proof.
  intros Hs Hn. cbv zeta. unfold CellGrid.visitNeighbor.
  set (nx := (Z.of_nat (fst c) + fst n)%Z).
  set (ny := (Z.of_nat (snd c) + snd n)%Z).
  assert (Hnone : forall st0 : list (nat * nat) * list (list bool),
             st0 = (queue, visited) ->
             (forall d, motionCell cfg diffImage grid d ->
                        Z.of_nat (fst d) = nx -> Z.of_nat (snd d) = ny ->
                        visitedCell visited d = true) ->
             shaped (CellGrid.gridWidth cfg diffImage)
               (CellGrid.gridHeight cfg diffImage) (snd st0)
             /\ exists added,
                  fst st0 = queue ++ added
                  /\ (forall k, visitedCell (snd st0) k
                                = visitedCell visited k
                                  || existsb (pairEqb k) added)
                  /\ Forall (fun d => motionCell cfg diffImage grid d
                                      /\ adjacent c d
                                      /\ visitedCell visited d = false) added
                  /\ NoDup added
                  /\ (forall d, motionCell cfg diffImage grid d ->
                                Z.of_nat (fst d) = nx ->
                                Z.of_nat (snd d) = ny ->
                                visitedCell (snd st0) d = true)).
  { intros st0 -> Hd. cbn [fst snd]. split; [exact Hs|]. exists [].
    split; [now rewrite app_nil_r|].
    split; [intro k; simpl; now rewrite orb_false_r|].
    split; [constructor|]. split; [constructor|exact Hd]. }
  destruct ((0 <=? nx)%Z
            && (nx <? Z.of_nat (CellGrid.gridWidth cfg diffImage))%Z
            && (0 <=? ny)%Z
            && (ny <? Z.of_nat (CellGrid.gridHeight cfg diffImage))%Z)
    eqn:Eb.
  - apply andb_prop in Eb. destruct Eb as [Eb Hny1].
    apply andb_prop in Eb. destruct Eb as [Eb Hny0].
    apply andb_prop in Eb. destruct Eb as [Hnx0 Hnx1].
    apply Z.leb_le in Hnx0, Hny0. apply Z.ltb_lt in Hnx1, Hny1.
    set (d0 := (Z.to_nat nx, Z.to_nat ny)).
    assert (Hsame : forall d, Z.of_nat (fst d) = nx ->
                              Z.of_nat (snd d) = ny -> d = d0).
    { intros [d1 d2] H1 H2. unfold d0. cbn [fst snd] in *. f_equal; lia. }
    assert (Hx0 : (Z.to_nat nx < CellGrid.gridWidth cfg diffImage)%nat)
      by lia.
    assert (Hy0 : (Z.to_nat ny < CellGrid.gridHeight cfg diffImage)%nat)
      by lia.
    assert (Hadj : adjacent c d0).
    { unfold adjacent, d0. cbn [fst snd]. clear Hsame Hnone.
      unfold nx, ny in *. clear nx ny d0.
      destruct Hn as [<-|[<-|[<-|[<-|[]]]]]; cbn [fst snd] in *; lia. }
    destruct (Cell.motion (CellGrid.cellAt grid (Z.to_nat nx) (Z.to_nat ny)))
      eqn:Hm.
    + destruct (CellGrid.isVisited visited (Z.to_nat nx) (Z.to_nat ny))
        eqn:Hv; cbn [negb andb].
      * apply Hnone; [reflexivity|].
        intros d _ H1 H2. now rewrite (Hsame d H1 H2).
      * cbn [fst snd]. split; [now apply shaped_markVisited|].
        exists [d0]. split; [reflexivity|].
        assert (Hmark : forall k,
                   visitedCell
                     (CellGrid.markVisited visited (Z.to_nat nx)
                        (Z.to_nat ny)) k
                   = visitedCell visited k || pairEqb k d0).
        { intro k. unfold visitedCell.
          rewrite (isVisited_markVisited (fst k) (snd k) Hs Hx0 Hy0).
          unfold pairEqb, d0. cbn [fst snd].
          rewrite (Nat.eqb_sym (Z.to_nat nx)), (Nat.eqb_sym (Z.to_nat ny)).
          destruct ((fst k =? Z.to_nat nx)%nat && (snd k =? Z.to_nat ny)%nat);
            [now rewrite orb_true_r|now rewrite orb_false_r]. }
        split.
        { intro k. rewrite Hmark. simpl. now rewrite orb_false_r. }
        split.
        { constructor; [|constructor]. repeat split; assumption. }
        split; [constructor; [intros []|constructor]|].
        intros d _ H1 H2. rewrite (Hsame d H1 H2), Hmark.
        assert (E : pairEqb d0 d0 = true) by now apply pairEqb_eq.
        rewrite E. apply orb_true_r.
    + cbn [andb]. apply Hnone; [reflexivity|].
      intros d [_ [_ Hmd]] H1 H2. rewrite (Hsame d H1 H2) in Hmd.
      unfold d0 in Hmd. cbn [fst snd] in Hmd. congruence.
  - cbn [andb]. apply Hnone; [reflexivity|].
    intros d [Hdx [Hdy _]] H1 H2. exfalso.
    assert (Hin : ((0 <=? nx)%Z
                   && (nx <? Z.of_nat (CellGrid.gridWidth cfg diffImage))%Z
                   && (0 <=? ny)%Z
                   && (ny <? Z.of_nat (CellGrid.gridHeight cfg diffImage))%Z)
                  = true).
    { rewrite !andb_true_iff, !Z.leb_le, !Z.ltb_lt. lia. }
    congruence.
Qed.

(** The four neighbours of the cell [c]: what the loop adds. *)
Lemma cell_visitNeighbors_spec (c : nat * nat) (ns : list (Z * Z)) :
  incl ns neighbors ->
  forall (queue : list (nat * nat)) (visited : list (list bool)),
  shaped (CellGrid.gridWidth cfg diffImage)
    (CellGrid.gridHeight cfg diffImage) visited ->
  let st := fold_left (CellGrid.visitNeighbor cfg diffImage grid
                         (fst c) (snd c)) ns (queue, visited) in
  shaped (CellGrid.gridWidth cfg diffImage)
    (CellGrid.gridHeight cfg diffImage) (snd st)
  /\ exists added,
       fst st = queue ++ added
       /\ (forall k, visitedCell (snd st) k
                     = visitedCell visited k || existsb (pairEqb k) added)
       /\ Forall (fun d => motionCell cfg diffImage grid d
                           /\ adjacent c d
                           /\ visitedCell visited d = false) added
       /\ NoDup added
       /\ (forall n d, In n ns -> motionCell cfg diffImage grid d ->
                       Z.of_nat (fst d) = (Z.of_nat (fst c) + fst n)%Z ->
                       Z.of_nat (snd d) = (Z.of_nat (snd c) + snd n)%Z ->
                       visitedCell (snd st) d = true).
Proof.
  induction ns as [|n rest IH]; intros Hincl queue visited Hs.
  - cbn [fold_left fst snd]. split; [exact Hs|]. exists [].
    split; [now rewrite app_nil_r|].
    split; [intro k; simpl; now rewrite orb_false_r|].
    split; [constructor|]. split; [constructor|]. intros n d [].
  - cbn [fold_left].
    destruct (@cell_visitNeighbor_spec c queue visited n Hs
                (Hincl n (or_introl eq_refl)))
      as [Hs1 [a1 [Hq1 [Hv1 [Hf1 [Hn1 Hc1]]]]]].
    destruct (CellGrid.visitNeighbor cfg diffImage grid (fst c) (snd c)
                (queue, visited) n) as [q1 v1].
    cbn [fst snd] in Hs1, Hq1, Hv1, Hc1. subst q1.
    destruct (IH (fun m Hm => Hincl m (or_intror Hm)) (queue ++ a1) v1 Hs1)
      as [Hs2 [a2 [Hq2 [Hv2 [Hf2 [Hn2 Hc2]]]]]].
    cbv zeta in Hs2, Hq2, Hv2, Hc2.
    set (st := fold_left _ rest (queue ++ a1, v1)) in *.
    split; [exact Hs2|].
    exists (a1 ++ a2). split; [now rewrite Hq2, app_assoc|].
    split.
    { intro k. rewrite Hv2, Hv1, existsb_app. now rewrite orb_assoc. }
    split.
    { apply Forall_app. split; [exact Hf1|].
      eapply Forall_impl; [|exact Hf2]. cbv beta. intros d [Hmd [Had Hvd]].
      split; [exact Hmd|]. split; [exact Had|]. rewrite Hv1 in Hvd.
      now apply orb_false_elim in Hvd. }
    split.
    { apply NoDup_app; [exact Hn1|exact Hn2|].
      intros d Hd1 Hd2. rewrite Forall_forall in Hf2.
      destruct (Hf2 d Hd2) as [_ [_ Hvd]]. rewrite Hv1 in Hvd.
      apply orb_false_elim in Hvd. destruct Hvd as [_ Hvd].
      apply existsb_pairEqb_false in Hvd. contradiction. }
    intros m d [<-|Hm] Hd H1 H2.
    + rewrite Hv2, (Hc1 d Hd H1 H2). reflexivity.
    + now apply (Hc2 m d Hm).
Qed.

(** The flood fill keeps its invariant and ends with an empty queue. *)
Lemma cell_flood_spec (V0 : list (list bool)) (fuel : nat) :
  forall (queue : list (nat * nat)) (visited : list (list bool))
         (acc : CellGrid.Component),
  cellFloodInv cfg diffImage grid V0 queue visited acc ->
  (length queue + CellGrid.unvisitedMotion cfg diffImage grid visited
   <= fuel)%nat ->
  let r := CellGrid.flood cfg diffImage fuel grid queue visited acc in
  cellFloodInv cfg diffImage grid V0 [] (snd r) (fst r)
  /\ (forall k, visitedCell visited k = true ->
                visitedCell (snd r) k = true).
Proof.
  induction fuel as [|fuel IH]; intros queue visited acc HI Hm; cbv zeta.
  - destruct queue; [now split|simpl in Hm; lia].
  - cbn [CellGrid.flood]. destruct queue as [|[x y] q']; [now split|].
    destruct HI as [Hsh [Ht [Hx [Hy [Hs [Hnd [Hmo [Hv Hcl]]]]]]]].
    destruct (@cell_visitNeighbors_spec (x, y) neighbors (incl_refl _)
                q' visited Hsh)
      as [Hsh' [added [Hq [Hv' [Hf [Hna Hc]]]]]].
    pose proof (@CellGrid_visitNeighbors_measure cfg diffImage grid x y
                  neighbors q' visited Hsh) as [_ Hmeas].
    cbv zeta in Hsh', Hq, Hv', Hc, Hmeas. cbn [fst snd] in Hsh', Hq, Hv', Hc.
    destruct (fold_left _ neighbors (q', visited)) as [q1 v1].
    cbn [fst snd] in Hsh', Hq, Hv', Hc, Hmeas. subst q1.
    rewrite Forall_forall in Hf.
    set (I := CellGrid.cellsInBlob acc) in *.
    assert (EL : (I ++ [(x, y)]) ++ q' ++ added
                 = (I ++ (x, y) :: q') ++ added).
    { now rewrite <- !app_assoc. }
    match goal with
    | |- cellFloodInv _ _ _ _ _ (snd ?r) (fst ?r) /\ _ =>
        assert (Hstep : cellFloodInv cfg diffImage grid V0 [] (snd r) (fst r)
                        /\ (forall k, visitedCell v1 k = true ->
                                      visitedCell (snd r) k = true));
        [|split; [exact (proj1 Hstep)|];
          intros k Hk; apply (proj2 Hstep); now rewrite Hv', Hk]
    end.
    apply IH; [|cbn [length] in Hm; lia].
    unfold cellFloodInv.
    cbn [CellGrid.cellsInBlob CellGrid.totalDiff CellGrid.sumX CellGrid.sumY].
    fold I. rewrite EL.
    split; [exact Hsh'|].
    split; [rewrite map_app, sumQ_app, Ht; simpl; unfold intensity;
            cbn [fst snd]; ring|].
    split; [rewrite map_app; cbn [map fst]; now rewrite sumNat_snoc, Hx|].
    split; [rewrite map_app; cbn [map snd]; now rewrite sumNat_snoc, Hy|].
    split.
    { apply spreads_extend with (p := (x, y)).
      - exact Hs.
      - apply in_or_app. right. now left.
      - apply Forall_forall. intros d Hd. now destruct (Hf d Hd) as [_ [Ha _]]. }
    split.
    { apply NoDup_app; [exact Hnd|exact Hna|].
      intros d Hd1 Hd2. destruct (Hf d Hd2) as [_ [_ Hvd]].
      rewrite Hv in Hvd. apply orb_false_elim in Hvd.
      destruct Hvd as [_ Hvd]. apply existsb_pairEqb_false in Hvd.
      contradiction. }
    split.
    { intros d Hd. apply in_app_or in Hd. destruct Hd as [Hd|Hd].
      - now apply Hmo.
      - destruct (Hf d Hd) as [Hmd [_ Hvd]]. split; [exact Hmd|].
        rewrite Hv in Hvd. now apply orb_false_elim in Hvd. }
    split.
    { intro k. rewrite Hv', Hv, (existsb_app _ (I ++ (x, y) :: q') added).
      now rewrite orb_assoc. }
    intros c d Hin Hmd Hadj. apply in_app_or in Hin.
    destruct Hin as [Hin|[<-|[]]].
    + now rewrite Hv', (Hcl c d Hin Hmd Hadj).
    + destruct (adjacent_cell_neighbor Hadj) as [n [Hn [H1 H2]]].
      now apply (Hc n d Hn Hmd H1 H2).
Qed.

Lemma visitedCell_repeat (gw gh : nat) (c : nat * nat) :
  visitedCell (repeat (repeat false gw) gh) c = false.
Proof.
  unfold visitedCell, CellGrid.isVisited.
  destruct (nth_in_or_default (snd c) (repeat (repeat false gw) gh) [])
    as [H|H].
  - apply repeat_spec in H. rewrite H.
    destruct (nth_in_or_default (fst c) (repeat false gw) false) as [H'|H'];
      [now apply repeat_spec in H'|exact H'].
  - rewrite H. now destruct (fst c).
Qed.

(** Flags are only ever set: a component stays one. *)
Lemma cellComponent_grows (v v' : list (list bool))
    (cells : list (nat * nat)) :
  (forall c, visitedCell v c = true -> visitedCell v' c = true) ->
  cellComponent cfg diffImage grid v cells ->
  cellComponent cfg diffImage grid v' cells.
Proof.
  intros Hle [Hs [Hm Hc]]. split; [exact Hs|]. split; [|exact Hc].
  intros c Hc'. destruct (Hm c Hc') as [H1 H2]. split; [exact H1|now apply Hle].
Qed.

(** One step of the scan keeps its invariant. *)
Lemma scanCell_inv (blobs : list CellBlob.t) (visited : list (list bool))
    (x y : nat) :
  (x < CellGrid.gridWidth cfg diffImage)%nat ->
  (y < CellGrid.gridHeight cfg diffImage)%nat ->
  cellScanInv cfg diffImage grid blobs visited ->
  let st := CellGrid.scanCell cfg diffImage
              (CellGrid.gridWidth cfg diffImage
               * CellGrid.gridHeight cfg diffImage)
              grid y (blobs, visited) x in
  cellScanInv cfg diffImage grid (fst st) (snd st).
Proof.
  intros Hx Hy [Hsh [[comps [HF [Hnd Hcomp]]] Hclosed]]. cbv zeta.
  unfold CellGrid.scanCell.
  destruct (Cell.motion (CellGrid.cellAt grid x y)
            && negb (CellGrid.isVisited visited x y)) eqn:E;
    [|split; [exact Hsh|split; [now exists comps|exact Hclosed]]].
  apply andb_prop in E. destruct E as [Hm Hv].
  apply negb_true_iff in Hv.
  assert (Hmark : shaped (CellGrid.gridWidth cfg diffImage)
                    (CellGrid.gridHeight cfg diffImage)
                    (CellGrid.markVisited visited x y))
    by now apply shaped_markVisited.
  assert (HI0 : cellFloodInv cfg diffImage grid visited [(x, y)]
                  (CellGrid.markVisited visited x y)
                  (CellGrid.mkComponent [] 0 0 0)).
  { unfold cellFloodInv.
    cbn [CellGrid.cellsInBlob CellGrid.totalDiff CellGrid.sumX CellGrid.sumY
         app map].
    split; [exact Hmark|]. split; [reflexivity|]. split; [reflexivity|].
    split; [reflexivity|]. split; [apply spreads_seed|].
    split; [constructor; [intros []|constructor]|].
    split; [intros c [<-|[]]; now repeat split|].
    split; [|intros c d []].
    intro k. unfold visitedCell.
    rewrite (isVisited_markVisited (fst k) (snd k) Hsh Hx Hy).
    simpl. rewrite orb_false_r. unfold pairEqb. cbn [fst snd].
    rewrite (Nat.eqb_sym x), (Nat.eqb_sym y).
    destruct ((fst k =? x)%nat && (snd k =? y)%nat);
      [now rewrite orb_true_r|now rewrite orb_false_r]. }
  assert (Hfuel : (length [(x, y)]
                   + CellGrid.unvisitedMotion cfg diffImage grid
                       (CellGrid.markVisited visited x y)
                   <= CellGrid.gridWidth cfg diffImage
                      * CellGrid.gridHeight cfg diffImage)%nat).
  { pose proof (@unvisitedMotion_markVisited cfg diffImage grid x y visited
                  Hsh Hx Hy Hm Hv) as H.
    assert (Hle : (CellGrid.unvisitedMotion cfg diffImage grid visited
                   <= CellGrid.gridWidth cfg diffImage
                      * CellGrid.gridHeight cfg diffImage)%nat).
    { unfold CellGrid.unvisitedMotion.
      etransitivity; [apply filter_length_le|].
      unfold coords. rewrite (flat_map_constant_length
                                (c := CellGrid.gridWidth cfg diffImage)).
      - rewrite length_seq. lia.
      - intros ? _. now rewrite length_map, length_seq. }
    cbn [length]. lia. }
  pose proof (@cell_flood_spec visited _ [(x, y)]
                (CellGrid.markVisited visited x y)
                (CellGrid.mkComponent [] 0 0 0) HI0 Hfuel) as [HI _].
  cbv zeta in HI.
  destruct (CellGrid.flood cfg diffImage _ grid [(x, y)]
              (CellGrid.markVisited visited x y)
              (CellGrid.mkComponent [] 0 0 0)) as [acc v'].
  cbn [fst snd] in HI.
  destruct HI as [Hsh' [Ht [Hsx [Hsy [Hs [HndI [Hmo [Hv' Hcl]]]]]]]].
  set (I := CellGrid.cellsInBlob acc) in *.
  rewrite app_nil_r in Hs, HndI, Hmo, Hv'.
  assert (Hgrow : forall k, visitedCell visited k = true ->
                            visitedCell v' k = true).
  { intros k Hk. now rewrite Hv', Hk. }
  assert (Hclosed' : forall c d,
             visitedCell v' c = true ->
             motionCell cfg diffImage grid c ->
             motionCell cfg diffImage grid d -> adjacent c d ->
             visitedCell v' d = true).
  { intros c d Hc Hmc Hmd Hcd. rewrite Hv' in Hc.
    apply orb_true_iff in Hc. destruct Hc as [Hc|Hc].
    - apply Hgrow. now apply (Hclosed c d).
    - apply existsb_pairEqb_iff in Hc. now apply (Hcl c d). }
  assert (Hold : Forall (cellComponent cfg diffImage grid v') comps).
  { eapply Forall_impl; [|exact Hcomp]. intro J.
    now apply cellComponent_grows. }
  destruct (CellGrid.minGridsForBlob cfg <=? length I)%nat;
    cbn [fst snd]; (split; [exact Hsh'|]); (split; [|exact Hclosed']);
    [|now exists comps].
  exists (comps ++ [I]). split.
  { apply Forall2_app; [exact HF|]. constructor; [|constructor].
    unfold described, CellGrid.toBlob. cbv zeta.
    cbn [CellBlob.size CellBlob.avgDiff CellBlob.centerX CellBlob.centerY].
    fold I. split; [reflexivity|]. split; [now rewrite Ht|].
    split; [now rewrite Hsx|now rewrite Hsy]. }
  split.
  { rewrite concat_app. cbn [concat]. rewrite app_nil_r.
    apply NoDup_app; [exact Hnd|exact HndI|].
    intros c Hc1 Hc2. apply in_concat in Hc1.
    destruct Hc1 as [J [HJ HcJ]]. rewrite Forall_forall in Hcomp.
    destruct (Hcomp J HJ) as [_ [HmJ _]]. destruct (HmJ c HcJ) as [_ Hvc].
    destruct (Hmo c Hc2) as [_ Hvc']. congruence. }
  apply Forall_app. split; [exact Hold|]. constructor; [|constructor].
  split; [exact Hs|]. split.
  { intros c Hc. destruct (Hmo c Hc) as [Hmc _]. split; [exact Hmc|].
    rewrite Hv'. apply existsb_pairEqb_iff in Hc. rewrite Hc.
    apply orb_true_r. }
  intros c d Hc Hmd Hadj. pose proof (Hcl c d Hc Hmd Hadj) as Hvd.
  rewrite Hv' in Hvd. apply orb_true_iff in Hvd.
  destruct Hvd as [Hvd|Hvd]; [|now apply existsb_pairEqb_iff in Hvd].
  exfalso. destruct (Hmo c Hc) as [Hmc Hvc].
  rewrite (Hclosed d c Hvd Hmd Hmc (adjacent_sym Hadj)) in Hvc.
  discriminate Hvc.
Qed.

End CellComponentsFacts.

(** The blobs pushed by the scan describe disjoint components. *)
Lemma cell_discovered_components (cfg : CellGrid.Config)
    (diffImage : Image) :
  exists comps visited,
    Forall2 (described cfg (CellGrid.motionGrid cfg diffImage))
      (CellGrid.discovered cfg diffImage) comps
    /\ NoDup (concat comps)
    /\ Forall (cellComponent cfg diffImage
                 (CellGrid.motionGrid cfg diffImage) visited) comps.
Proof.
  unfold CellGrid.discovered, CellGrid.discoveredWith.
  set (gw := CellGrid.gridWidth cfg diffImage).
  set (gh := CellGrid.gridHeight cfg diffImage).
  set (grid := CellGrid.motionGrid cfg diffImage).
  set (r := fold_left _ (seq 0 gh) _).
  assert (H : cellScanInv cfg diffImage grid (fst r) (snd r)).
  { unfold r.
    apply (fold_left_invariant
             (fun st => cellScanInv cfg diffImage grid (fst st) (snd st))).
    - intros st y Hst Hy. apply in_seq in Hy.
      apply (fold_left_invariant
               (fun st => cellScanInv cfg diffImage grid (fst st) (snd st)));
        [|exact Hst].
      intros [blobs visited] x Hst' Hx. apply in_seq in Hx.
      apply scanCell_inv; [fold gw; lia|fold gh; lia|exact Hst'].
    - cbn [fst snd]. split.
      { unfold shaped. split; [apply repeat_length|].
        apply Forall_forall. intros row Hrow. apply repeat_spec in Hrow.
        subst. apply repeat_length. }
      split.
      + exists []. split; [constructor|]. split; constructor.
      + intros c d Hc. rewrite visitedCell_repeat in Hc. discriminate Hc. }
  destruct H as [_ [[comps H] _]]. now exists comps, (snd r).
Qed.

(** ** What holds of the blobs returned *)

Lemma Forall2_perm (A B : Type) (R : A -> B -> Prop) (l l' : list A) :
  Permutation l l' ->
  forall cs, Forall2 R l cs ->
  exists cs', Permutation cs cs' /\ Forall2 R l' cs'.
Proof.
  induction 1 as [|a l l' _ IH|a b l|l l' l'' _ IH1 _ IH2]; intros cs HF.
  - inversion HF; subst. exists []. split; constructor.
  - inversion HF as [|? c ? cs0 Hac Hrest]; subst.
    destruct (IH cs0 Hrest) as [cs' [Hp HF']].
    exists (c :: cs'). split; [now constructor|now constructor].
  - inversion HF as [|? c ? cs0 Hbc Hrest]; subst.
    inversion Hrest as [|? d ? cs1 Had Hrest']; subst.
    exists (d :: c :: cs1). split; [apply perm_swap|].
    constructor; [exact Had|]. now constructor.
  - destruct (IH1 cs HF) as [cs1 [Hp1 HF1]].
    destruct (IH2 cs1 HF1) as [cs2 [Hp2 HF2]].
    exists cs2. split; [now transitivity cs1|exact HF2].
Qed.

Lemma Forall2_firstn (A B : Type) (R : A -> B -> Prop) (k : nat)
    (l : list A) (cs : list B) :
  Forall2 R l cs -> Forall2 R (firstn k l) (firstn k cs).
Proof.
  intro H. revert k. induction H as [|a c l cs Hac _ IH]; intros [|k]; simpl;
    constructor; [exact Hac|apply IH].
Qed.

Lemma Permutation_concat_lists (A : Type) (l l' : list (list A)) :
  Permutation l l' -> Permutation (concat l) (concat l').
Proof.
  induction 1 as [|a l l' _ IH|a b l|l l' l'' _ IH1 _ IH2]; simpl.
  - constructor.
  - now apply Permutation_app_head.
  - rewrite !app_assoc. apply Permutation_app_tail. apply Permutation_app_comm.
  - now transitivity (concat l').
Qed.

(** Sorting and truncating the blobs keeps, for each blob kept, the
    component it stands for. *)
Lemma largest_Forall2 (A B : Type) (size : A -> nat)
    (R : A -> list B -> Prop) (k : nat) (l : list A) (cs : list (list B)) :
  Forall2 R l cs -> NoDup (concat cs) ->
  exists cs',
    Forall2 R (largest size k l) cs' /\ NoDup (concat cs') /\ incl cs' cs.
Proof.
  intros HF Hnd.
  destruct (Forall2_perm (Permutation_sym (sortBySize_perm size l)) HF)
    as [cs1 [Hp HF1]].
  exists (firstn k cs1). split; [now apply Forall2_firstn|].
  assert (Hnd1 : NoDup (concat cs1)).
  { eapply Permutation_NoDup; [|exact Hnd].
    now apply Permutation_concat_lists. }
  split.
  - rewrite <- (firstn_skipn k cs1), concat_app in Hnd1.
    now apply NoDup_app_remove_r in Hnd1.
  - intros c Hc. apply (Permutation_in c (Permutation_sym Hp)).
    rewrite <- (firstn_skipn k cs1). apply in_or_app. now left.
Qed.

(** X13.  The blobs returned by the cell-grid [findMotionBlobs] stand
    for disjoint 4-connected components of the motion cells: each blob
    has the size of its component, the mean intensity of its cells as
    [avgDiff] and, as centre, the mean cell index scaled by the grid size
    plus half a cell; the cells of a component start with a seed, each
    later one next to a cell before it, all are motion cells of the grid,
    and every motion cell next to one of them belongs to it. *)
Theorem X13_cell_blobs_are_components (cfg : CellGrid.Config)
    (diffImage : Image) :
  (0 < CellGrid.gridSize cfg)%nat ->
  let grid := CellGrid.motionGrid cfg diffImage in
  exists comps,
    Forall2 (described cfg grid) (CellGrid.findMotionBlobs cfg diffImage)
      comps
    /\ NoDup (concat comps)
    /\ Forall (fun cells =>
                 spreads cells
                 /\ (forall c, In c cells -> motionCell cfg diffImage grid c)
                 /\ (forall c d, In c cells ->
                                 motionCell cfg diffImage grid d ->
                                 adjacent c d -> In d cells)) comps.
Proof.
  intros _ grid.
  destruct (cell_discovered_components cfg diffImage)
    as [comps [visited [HF [Hnd Hc]]]].
  destruct (largest_Forall2 CellBlob.size (CellGrid.maxBlobs cfg) HF Hnd)
    as [cs' [HF' [Hnd' Hincl]]].
  exists cs'. split; [exact HF'|]. split; [exact Hnd'|].
  apply Forall_forall. intros cells Hin. rewrite Forall_forall in Hc.
  destruct (Hc cells (Hincl cells Hin)) as [Hs [Hm Hcl]].
  split; [exact Hs|]. split; [|exact Hcl].
  intros c Hc'. now destruct (Hm c Hc').
Qed.

Lemma X13_cell_blobs_are_components_witness :
  exists comps,
    Forall2 (described CellGrid.sketch
               (CellGrid.motionGrid CellGrid.sketch oneBrightPixel))
      (CellGrid.findMotionBlobs CellGrid.sketch oneBrightPixel) comps
    /\ NoDup (concat comps)
    /\ Forall (fun cells =>
                 spreads cells
                 /\ (forall c, In c cells ->
                       motionCell CellGrid.sketch oneBrightPixel
                         (CellGrid.motionGrid CellGrid.sketch oneBrightPixel)
                         c)
                 /\ (forall c d, In c cells ->
                       motionCell CellGrid.sketch oneBrightPixel
                         (CellGrid.motionGrid CellGrid.sketch oneBrightPixel)
                         d ->
                       adjacent c d -> In d cells)) comps.
Proof.
  apply (@X13_cell_blobs_are_components CellGrid.sketch oneBrightPixel).
  simpl. lia.
Defined.

(** X14.  Every blob returned by the cell-grid [findMotionBlobs] counts
    at least one cell and at most the cells of the grid, and its centre
    lies between the centre of the first and the centre of the last cell
    of the grid, in both directions. *)
Theorem X14_cell_blob_bounds (cfg : CellGrid.Config) (diffImage : Image)
    (b : CellBlob.t) :
  (0 < CellGrid.gridSize cfg)%nat ->
  In b (CellGrid.findMotionBlobs cfg diffImage) ->
  let g := inject_Z (Z.of_nat (CellGrid.gridSize cfg)) in
  let gw := CellGrid.gridWidth cfg diffImage in
  let gh := CellGrid.gridHeight cfg diffImage in
  (1 <= CellBlob.size b <= gw * gh)%nat
  /\ g / 2 <= CellBlob.centerX b
  /\ CellBlob.centerX b <= (inject_Z (Z.of_nat gw) - 1) * g + g / 2
  /\ g / 2 <= CellBlob.centerY b
  /\ CellBlob.centerY b <= (inject_Z (Z.of_nat gh) - 1) * g + g / 2.
Proof.
  intros Hg Hb g gw gh.
  destruct (cell_discovered_components cfg diffImage)
    as [comps [visited [HF [Hnd Hc]]]].
  unfold CellGrid.findMotionBlobs in Hb.
  apply (proj1 (proj2 (proj2 (largest_spec CellBlob.size _ _)))) in Hb.
  destruct (@Forall2_In_l _ _ _ _ _ b HF Hb) as [cells [Hin Hd]].
  rewrite Forall_forall in Hc. destruct (Hc cells Hin) as [Hs [Hm _]].
  destruct Hd as [Hsz [_ [Hx Hy]]]. cbv zeta in Hx, Hy.
  fold g in Hx, Hy.
  assert (Hne : cells <> []) by now apply spreads_nonempty.
  assert (Hnd' : NoDup cells).
  { clear - Hnd Hin. induction comps as [|J rest IH]; [destruct Hin|].
    simpl in Hnd. destruct Hin as [->|Hin].
    - now apply NoDup_app_remove_r in Hnd.
    - apply IH; [now apply NoDup_app_remove_l in Hnd|exact Hin]. }
  assert (Hxs : Forall (fun n => (n < gw)%nat) (map fst cells)).
  { apply Forall_forall. intros n Hn. apply in_map_iff in Hn.
    destruct Hn as [c [<- Hc']]. now destruct (Hm c Hc') as [[H _] _]. }
  assert (Hys : Forall (fun n => (n < gh)%nat) (map snd cells)).
  { apply Forall_forall. intros n Hn. apply in_map_iff in Hn.
    destruct Hn as [c [<- Hc']]. now destruct (Hm c Hc') as [[_ [H _]] _]. }
  assert (Hmx : map fst cells <> []) by (destruct cells; [congruence|discriminate]).
  assert (Hmy : map snd cells <> []) by (destruct cells; [congruence|discriminate]).
  pose proof (mean_bounds Hmx Hxs) as [Bx0 Bx1].
  pose proof (mean_bounds Hmy Hys) as [By0 By1].
  rewrite length_map in Bx0, Bx1, By0, By1.
  assert (Hg0 : 0 <= g) by (unfold g, Qle, inject_Z; simpl; lia).
  split.
  { rewrite Hsz. split; [destruct cells; [congruence|simpl; lia]|].
    assert (Hincl : incl cells (coords gw gh)).
    { intros [x y] Hxy. apply coords_spec.
      destruct (Hm (x, y) Hxy) as [[H1 [H2 _]] _]. now split. }
    pose proof (NoDup_incl_length Hnd' Hincl) as Hlen.
    unfold coords in Hlen.
    rewrite (flat_map_constant_length (c := gw)) in Hlen.
    - rewrite length_seq in Hlen. lia.
    - intros ? _. now rewrite length_map, length_seq. }
  rewrite Hx, Hy.
  set (mx := sumNat (map fst cells) / inject_Z (Z.of_nat (length cells))) in *.
  set (my := sumNat (map snd cells) / inject_Z (Z.of_nat (length cells))) in *.
  assert (Hm1 : forall m W : Q, 0 <= m -> m <= W ->
                  g / 2 <= m * g + g / 2 /\ m * g + g / 2 <= W * g + g / 2).
  { intros m W H0 H1. split.
    - assert (0 <= m * g) by now apply Qmult_le_0_compat. lra.
    - assert (m * g <= W * g) by now apply Qmult_le_compat_r. lra. }
  destruct (Hm1 mx _ Bx0 Bx1) as [H1 H2].
  destruct (Hm1 my _ By0 By1) as [H3 H4].
  repeat split; assumption.
Qed.

Lemma X14_cell_blob_bounds_witness :
  (1 <= CellBlob.size brightCellBlob
   <= CellGrid.gridWidth CellGrid.sketch oneBrightPixel
      * CellGrid.gridHeight CellGrid.sketch oneBrightPixel)%nat
  /\ inject_Z (Z.of_nat (CellGrid.gridSize CellGrid.sketch)) / 2
     <= CellBlob.centerX brightCellBlob
  /\ CellBlob.centerX brightCellBlob
     <= (inject_Z
           (Z.of_nat (CellGrid.gridWidth CellGrid.sketch oneBrightPixel)) - 1)
        * inject_Z (Z.of_nat (CellGrid.gridSize CellGrid.sketch))
        + inject_Z (Z.of_nat (CellGrid.gridSize CellGrid.sketch)) / 2
  /\ inject_Z (Z.of_nat (CellGrid.gridSize CellGrid.sketch)) / 2
     <= CellBlob.centerY brightCellBlob
  /\ CellBlob.centerY brightCellBlob
     <= (inject_Z
           (Z.of_nat (CellGrid.gridHeight CellGrid.sketch oneBrightPixel)) - 1)
        * inject_Z (Z.of_nat (CellGrid.gridSize CellGrid.sketch))
        + inject_Z (Z.of_nat (CellGrid.gridSize CellGrid.sketch)) / 2.
Proof.
  apply (@X14_cell_blob_bounds CellGrid.sketch oneBrightPixel
           brightCellBlob).
  - simpl. lia.
  - vm_compute. left. reflexivity.
Defined.

(** * No motion is lost: the pixel-grid sketch *)

Section PixelCoverage.

Variable cfg : PixelGrid.Config.
Variable width height : nat.
Variable motionPixels : list Q.
Hypothesis Hsize : length motionPixels = (width * height)%nat.

(** The start of a flood fill at an unflagged motion pixel. *)
Lemma flood_start (visited : list bool) (i : nat) :
  PixelGrid.isMotion motionPixels i = true ->
  PixelGrid.isVisited visited i = false ->
  floodInv width height motionPixels visited [i] (setTrue visited i)
    (PixelBlob.mk [] 0 0 0 0)
  /\ (length [i] + PixelGrid.unvisitedMotion motionPixels (setTrue visited i)
      <= length motionPixels)%nat.
Proof.
  intros Hm Hv. split.
  - exists []. split; [repeat split; reflexivity|].
    split; [apply spreads_seed|].
    split; [constructor; [intros []|constructor]|].
    split; [intros j [<-|[]]; now split|].
    split; [|intros i0 j []].
    intro k. rewrite isVisited_setTrue. simpl. rewrite orb_false_r.
    destruct (k =? i)%nat; [now rewrite orb_true_r|now rewrite orb_false_r].
  - pose proof (@unvisitedMotion_setTrue motionPixels visited i Hm Hv) as H.
    assert (Hle : (PixelGrid.unvisitedMotion motionPixels visited
                   <= length motionPixels)%nat).
    { unfold PixelGrid.unvisitedMotion.
      etransitivity; [apply filter_length_le|]. now rewrite length_seq. }
    cbn [length]. lia.
Qed.

(** One step of the scan: every flagged pixel stays flagged and lies in
    a blob pushed so far or in a component of at most [minBlobSize]
    pixels, and the pixel scanned is flagged if it is a motion pixel. *)
Lemma scanPixel_covers (blobs : list PixelBlob.t) (visited : list bool)
    (i : nat) :
  scanInv width height motionPixels blobs visited ->
  (forall k, PixelGrid.isVisited visited k = true ->
     (exists b, In b blobs
                /\ In (placeOf width k) (map pixelPlace (PixelBlob.pixels b)))
     \/ (exists I, In k I
           /\ (length I <= PixelGrid.minBlobSize cfg)%nat
           /\ component width height motionPixels visited I)) ->
  let st := PixelGrid.scanPixel cfg width height (length motionPixels)
              motionPixels (blobs, visited) i in
  (forall k, PixelGrid.isVisited (snd st) k = true ->
     (exists b, In b (fst st)
                /\ In (placeOf width k) (map pixelPlace (PixelBlob.pixels b)))
     \/ (exists I, In k I
           /\ (length I <= PixelGrid.minBlobSize cfg)%nat
           /\ component width height motionPixels (snd st) I))
  /\ (forall k, PixelGrid.isVisited visited k = true ->
                PixelGrid.isVisited (snd st) k = true)
  /\ (PixelGrid.isMotion motionPixels i = true ->
      PixelGrid.isVisited (snd st) i = true).
Proof.
  intros [_ Hclosed] Hcov. cbv zeta. unfold PixelGrid.scanPixel.
  destruct (PixelGrid.isMotion motionPixels i) eqn:Hm;
    [|cbn [andb fst snd]; split; [exact Hcov|];
      split; [auto|discriminate]].
  destruct (PixelGrid.isVisited visited i) eqn:Hv;
    [cbn [negb andb fst snd]; split; [exact Hcov|]; split; auto|].
  cbn [negb andb].
  destruct (flood_start visited i Hm Hv) as [HI0 Hfuel].
  pose proof (@flood_spec width height motionPixels Hsize visited
                (length motionPixels) [i] (setTrue visited i)
                (PixelBlob.mk [] 0 0 0 0) HI0 Hfuel) as [HI Hmono].
  cbv zeta in HI, Hmono.
  destruct (PixelGrid.flood width height (length motionPixels) motionPixels
              [i] (setTrue visited i) (PixelBlob.mk [] 0 0 0 0))
    as [blob v'].
  cbn [fst snd] in HI, Hmono.
  destruct HI as [I [[Hpx _] [Hs [HndI [Hmo [Hv' Hcl]]]]]].
  rewrite app_nil_r in Hs, HndI, Hmo, Hv'.
  assert (Hgrow : forall k, PixelGrid.isVisited visited k = true ->
                            PixelGrid.isVisited v' k = true).
  { intros k Hk. now rewrite Hv', Hk. }
  assert (Hseed : PixelGrid.isVisited v' i = true).
  { apply Hmono. rewrite isVisited_setTrue. now rewrite Nat.eqb_refl. }
  assert (HcompI : component width height motionPixels v' I).
  { split; [exact Hs|]. split.
    { intros a Ha. destruct (Hmo a Ha) as [Hma _]. split; [exact Hma|].
      rewrite Hv'. apply existsb_eqb_iff in Ha. rewrite Ha.
      apply orb_true_r. }
    intros a b Ha Hab. pose proof (Hcl a b Ha Hab) as Hvb.
    rewrite Hv' in Hvb. apply orb_true_iff in Hvb.
    destruct Hvb as [Hvb|Hvb]; [|now apply existsb_eqb_iff in Hvb].
    exfalso. destruct Hab as [Hb [Hadj Hmb]].
    destruct (Hmo a Ha) as [Hma Hva].
    assert (Hba : motionNeighbour width height motionPixels b a).
    { split; [rewrite <- Hsize; now apply isMotion_inside|].
      split; [now apply adjacent_sym|exact Hma]. }
    rewrite (Hclosed b a Hvb Hmb Hba) in Hva. discriminate Hva. }
  assert (Hold : forall k, PixelGrid.isVisited visited k = true ->
             forall blobs', incl blobs blobs' ->
             (exists b, In b blobs'
                /\ In (placeOf width k)
                     (map pixelPlace (PixelBlob.pixels b)))
             \/ (exists J, In k J
                   /\ (length J <= PixelGrid.minBlobSize cfg)%nat
                   /\ component width height motionPixels v' J)).
  { intros k Hk blobs' Hincl. destruct (Hcov k Hk) as [[b [Hb Hin]]|[J HJ]].
    - left. exists b. split; [now apply Hincl|exact Hin].
    - right. exists J. destruct HJ as [H1 [H2 H3]].
      split; [exact H1|]. split; [exact H2|].
      eapply component_grows; [exact Hgrow|exact H3]. }
  destruct (Nat.ltb_spec (PixelGrid.minBlobSize cfg)
              (length (PixelBlob.pixels blob))) as [Hbig|Hsmall];
    cbn [fst snd]; (split; [|split; [exact Hgrow|intros _; exact Hseed]]);
    intros k Hk; rewrite Hv' in Hk; apply orb_true_iff in Hk;
    destruct Hk as [Hk|Hk].
  - apply (Hold k Hk). intros b Hb. apply in_or_app. now left.
  - left. exists (PixelGrid.finish blob). split.
    + apply in_or_app. right. now left.
    + unfold PixelGrid.finish. cbn [PixelBlob.pixels].
      rewrite Hpx, places_pixelAt. apply in_map.
      now apply existsb_eqb_iff.
  - apply (Hold k Hk). apply incl_refl.
  - right. exists I. split; [now apply existsb_eqb_iff|].
    split; [|exact HcompI]. rewrite Hpx, length_map in Hsmall. exact Hsmall.
Qed.

(** The scan up to the pixel [n]. *)
Lemma scan_prefix (n : nat) :
  (n <= length motionPixels)%nat ->
  let st := fold_left
              (PixelGrid.scanPixel cfg width height (length motionPixels)
                 motionPixels)
              (seq 0 n) ([], repeat false (length motionPixels)) in
  scanInv width height motionPixels (fst st) (snd st)
  /\ (forall k, PixelGrid.isVisited (snd st) k = true ->
        (exists b, In b (fst st)
                   /\ In (placeOf width k)
                        (map pixelPlace (PixelBlob.pixels b)))
        \/ (exists I, In k I
              /\ (length I <= PixelGrid.minBlobSize cfg)%nat
              /\ component width height motionPixels (snd st) I))
  /\ (forall j, (j < n)%nat -> PixelGrid.isMotion motionPixels j = true ->
                PixelGrid.isVisited (snd st) j = true).
Proof.
  induction n as [|n IH]; intro Hn; cbv zeta.
  - cbn [seq fold_left fst snd]. split.
    { split.
      + exists []. split; [constructor|]. split; constructor.
      + intros i j Hi. rewrite isVisited_repeat in Hi. discriminate Hi. }
    split.
    + intros k Hk. rewrite isVisited_repeat in Hk. discriminate Hk.
    + intros j Hj. lia.
  - rewrite seq_S, fold_left_app. cbn [Nat.add fold_left].
    destruct (IH ltac:(lia)) as [Hinv [Hcov Hdone]]. cbv zeta in *.
    destruct (fold_left _ (seq 0 n) _) as [blobs visited].
    cbn [fst snd] in Hinv, Hcov, Hdone.
    pose proof (@scanPixel_inv cfg width height motionPixels Hsize blobs
                  visited n Hinv) as Hinv'.
    destruct (scanPixel_covers n Hinv Hcov) as [Hcov' [Hgrow Hseed]].
    cbv zeta in Hinv', Hcov', Hgrow, Hseed.
    split; [exact Hinv'|]. split; [exact Hcov'|].
    intros j Hj Hmj. destruct (Nat.eq_dec j n) as [->|Hne].
    + now apply Hseed.
    + apply Hgrow. apply Hdone; [lia|exact Hmj].
Qed.

End PixelCoverage.

(** When fewer than [k] elements come out, nothing was cut off. *)
Lemma largest_all (A : Type) (size : A -> nat) (k : nat) (l : list A)
    (a : A) :
  (length (largest size k l) < k)%nat -> In a l -> In a (largest size k l).
Proof.
  unfold largest. intros Hlen Ha. rewrite length_firstn in Hlen.
  rewrite firstn_all2 by lia.
  apply (Permutation_in a (Permutation_sym (sortBySize_perm size l)) Ha).
Qed.

(** X15.  On a motion map with one entry per pixel, when the pixel-grid
    [findMotionBlobs] returns fewer than [maxBlobs] blobs, every motion
    pixel of the frame belongs to a returned blob or to a 4-connected
    component of at most [minBlobSize] motion pixels. *)
Theorem X15_pixel_motion_is_covered (cfg : PixelGrid.Config)
    (width height : nat) (motionPixels : list Q) (x y : nat) :
  length motionPixels = (width * height)%nat ->
  (length (PixelGrid.findMotionBlobs cfg width height motionPixels)
   < PixelGrid.maxBlobs cfg)%nat ->
  (x < width)%nat -> (y < height)%nat ->
  0 < nth (y * width + x) motionPixels 0 ->
  (exists b,
     In b (PixelGrid.findMotionBlobs cfg width height motionPixels)
     /\ In (x, y) (map pixelPlace (PixelBlob.pixels b)))
  \/ (exists comp,
        In (x, y) comp
        /\ (length comp <= PixelGrid.minBlobSize cfg)%nat
        /\ spreads comp
        /\ (forall c, In c comp ->
              (fst c < width)%nat /\ (snd c < height)%nat
              /\ 0 < nth (snd c * width + fst c) motionPixels 0)
        /\ (forall c x' y', In c comp ->
              (x' < width)%nat -> (y' < height)%nat ->
              adjacent c (x', y') ->
              0 < nth (y' * width + x') motionPixels 0 ->
              In (x', y') comp)).
Proof.
  intros Hsize Hfew Hx Hy Hpos.
  destruct (@scan_prefix cfg width height motionPixels Hsize
              (length motionPixels) (le_n _)) as [_ [Hcov Hdone]].
  cbv zeta in Hcov, Hdone.
  set (i := (y * width + x)%nat).
  assert (Hi : (i < length motionPixels)%nat) by (rewrite Hsize; unfold i; nia).
  assert (Hm : PixelGrid.isMotion motionPixels i = true) by now apply Qltb_lt.
  assert (Hplace : placeOf width i = (x, y)) by now apply placeOf_index.
  destruct (Hcov i (Hdone i Hi Hm)) as [[b [Hb Hin]]|[I [HiI [Hlen Hcomp]]]].
  - left. exists b. split.
    + unfold PixelGrid.findMotionBlobs. now apply largest_all.
    + now rewrite <- Hplace.
  - right. destruct Hcomp as [Hs [Hmo Hcl]].
    exists (map (placeOf width) I).
    split; [rewrite <- Hplace; now apply in_map|].
    split; [now rewrite length_map|]. split; [exact Hs|]. split.
    + intros c Hc. apply in_map_iff in Hc. destruct Hc as [a [<- Ha]].
      destruct (Hmo a Ha) as [Hma _].
      assert (Hin : (a < width * height)%nat).
      { rewrite <- Hsize. now apply isMotion_inside. }
      destruct (@placeOf_inside width height a Hin) as [H1 H2].
      split; [exact H1|]. split; [exact H2|].
      rewrite index_placeOf. now apply Qltb_lt.
    + intros c x' y' Hc Hx' Hy' Hadj Hpos'.
      apply in_map_iff in Hc. destruct Hc as [a [<- Ha]].
      assert (Hplace' : placeOf width (y' * width + x') = (x', y'))
        by now apply placeOf_index.
      rewrite <- Hplace'. apply in_map. apply (Hcl a); [exact Ha|].
      split; [nia|]. split; [now rewrite Hplace'|now apply Qltb_lt].
Qed.

Lemma X15_pixel_motion_is_covered_witness :
  (exists b,
     In b (PixelGrid.findMotionBlobs PixelGrid.sketch 21 10 motionField)
     /\ In (4, 7)%nat (map pixelPlace (PixelBlob.pixels b)))
  \/ (exists comp,
        In (4, 7)%nat comp
        /\ (length comp <= PixelGrid.minBlobSize PixelGrid.sketch)%nat
        /\ spreads comp
        /\ (forall c, In c comp ->
              (fst c < 21)%nat /\ (snd c < 10)%nat
              /\ 0 < nth (snd c * 21 + fst c) motionField 0)
        /\ (forall c x' y', In c comp ->
              (x' < 21)%nat -> (y' < 10)%nat ->
              adjacent c (x', y') ->
              0 < nth (y' * 21 + x') motionField 0 ->
              In (x', y') comp)).
Proof.
  apply (@X15_pixel_motion_is_covered PixelGrid.sketch 21 10 motionField 4 7).
  - reflexivity.
  - vm_compute. lia.
  - lia.
  - lia.
  - vm_compute. reflexivity.
Defined.

(** * No motion is lost: the cell-grid sketch *)

(** A loop whose steps keep [P], establish [Q] for the element handled
    and never undo [Q]. *)
Lemma fold_left_covering (A B : Type) (P : A -> Prop) (Q : A -> B -> Prop)
    (f : A -> B -> A) (l : list B) :
  (forall a b, In b l -> P a ->
     P (f a b) /\ Q (f a b) b /\ forall b', Q a b' -> Q (f a b) b') ->
  forall a, P a ->
  P (fold_left f l a) /\ forall b, In b l -> Q (fold_left f l a) b.
Proof.
  intro Hstep.
  assert (H : forall l', incl l' l -> forall a, P a ->
            P (fold_left f l' a)
            /\ (forall b', Q a b' -> Q (fold_left f l' a) b')
            /\ forall b, In b l' -> Q (fold_left f l' a) b).
  { induction l' as [|b rest IH]; intros Hincl a Ha.
    - simpl. split; [exact Ha|]. split; [auto|intros b []].
    - cbn [fold_left].
      destruct (Hstep a b (Hincl b (or_introl eq_refl)) Ha)
        as [HP [HQ Hkeep]].
      destruct (IH (fun c Hc => Hincl c (or_intror Hc)) (f a b) HP)
        as [HP' [Hkeep' HQ']].
      split; [exact HP'|]. split; [intros b' Hb'; auto|].
      intros c [<-|Hc]; [now apply Hkeep'|now apply HQ']. }
  intros a Ha. destruct (H l (incl_refl l) a Ha) as [H1 [_ H2]]. now split.
Qed.

Section CellCoverage.

Variable cfg : CellGrid.Config.
Variable diffImage : Image.
Variable grid : CellGrid.Grid.

(** One step of the scan: every flagged cell stays flagged and lies in
    the component of a blob pushed so far or in a component too small to
    be pushed, and the cell scanned is flagged if it is a motion cell. *)
Lemma scanCell_covers (blobs : list CellBlob.t) (visited : list (list bool))
    (x y : nat) :
  (x < CellGrid.gridWidth cfg diffImage)%nat ->
  (y < CellGrid.gridHeight cfg diffImage)%nat ->
  cellScanInv cfg diffImage grid blobs visited ->
  cellCovered cfg diffImage grid blobs visited ->
  let st := CellGrid.scanCell cfg diffImage
              (CellGrid.gridWidth cfg diffImage
               * CellGrid.gridHeight cfg diffImage)
              grid y (blobs, visited) x in
  cellCovered cfg diffImage grid (fst st) (snd st)
  /\ (forall k, visitedCell visited k = true ->
                visitedCell (snd st) k = true)
  /\ (Cell.motion (CellGrid.cellAt grid x y) = true ->
      visitedCell (snd st) (x, y) = true).
Proof.
  intros Hx Hy [Hsh [_ Hclosed]] Hcov. cbv zeta. unfold CellGrid.scanCell.
  destruct (Cell.motion (CellGrid.cellAt grid x y)) eqn:Hm;
    [|cbn [andb fst snd]; split; [exact Hcov|];
      split; [auto|discriminate]].
  destruct (CellGrid.isVisited visited x y) eqn:Hv;
    [cbn [negb andb fst snd]; split; [exact Hcov|]; split; auto|].
  cbn [negb andb].
  assert (Hmark : shaped (CellGrid.gridWidth cfg diffImage)
                    (CellGrid.gridHeight cfg diffImage)
                    (CellGrid.markVisited visited x y))
    by now apply shaped_markVisited.
  assert (Hmarked : forall k,
             visitedCell (CellGrid.markVisited visited x y) k
             = visitedCell visited k || pairEqb k (x, y)).
  { intro k. unfold visitedCell.
    rewrite (isVisited_markVisited (fst k) (snd k) Hsh Hx Hy).
    unfold pairEqb. cbn [fst snd].
    rewrite (Nat.eqb_sym x), (Nat.eqb_sym y).
    destruct ((fst k =? x)%nat && (snd k =? y)%nat);
      [now rewrite orb_true_r|now rewrite orb_false_r]. }
  assert (HI0 : cellFloodInv cfg diffImage grid visited [(x, y)]
                  (CellGrid.markVisited visited x y)
                  (CellGrid.mkComponent [] 0 0 0)).
  { unfold cellFloodInv.
    cbn [CellGrid.cellsInBlob CellGrid.totalDiff CellGrid.sumX CellGrid.sumY
         app map].
    split; [exact Hmark|]. split; [reflexivity|]. split; [reflexivity|].
    split; [reflexivity|]. split; [apply spreads_seed|].
    split; [constructor; [intros []|constructor]|].
    split; [intros c [<-|[]]; now repeat split|].
    split; [|intros c d []].
    intro k. rewrite Hmarked. simpl. now rewrite orb_false_r. }
  assert (Hfuel : (length [(x, y)]
                   + CellGrid.unvisitedMotion cfg diffImage grid
                       (CellGrid.markVisited visited x y)
                   <= CellGrid.gridWidth cfg diffImage
                      * CellGrid.gridHeight cfg diffImage)%nat).
  { pose proof (@unvisitedMotion_markVisited cfg diffImage grid x y visited
                  Hsh Hx Hy Hm Hv) as H.
    assert (Hle : (CellGrid.unvisitedMotion cfg diffImage grid visited
                   <= CellGrid.gridWidth cfg diffImage
                      * CellGrid.gridHeight cfg diffImage)%nat).
    { unfold CellGrid.unvisitedMotion.
      etransitivity; [apply filter_length_le|].
      unfold coords. rewrite (flat_map_constant_length
                                (c := CellGrid.gridWidth cfg diffImage)).
      - rewrite length_seq. lia.
      - intros ? _. now rewrite length_map, length_seq. }
    cbn [length]. lia. }
  pose proof (@cell_flood_spec cfg diffImage grid visited _ [(x, y)]
                (CellGrid.markVisited visited x y)
                (CellGrid.mkComponent [] 0 0 0) HI0 Hfuel) as [HI Hmono].
  cbv zeta in HI, Hmono.
  destruct (CellGrid.flood cfg diffImage _ grid [(x, y)]
              (CellGrid.markVisited visited x y)
              (CellGrid.mkComponent [] 0 0 0)) as [acc v'].
  cbn [fst snd] in HI, Hmono.
  destruct HI as [Hsh' [Ht [Hsx [Hsy [Hs [HndI [Hmo [Hv' Hcl]]]]]]]].
  set (I := CellGrid.cellsInBlob acc) in *.
  rewrite app_nil_r in Hs, HndI, Hmo, Hv'.
  assert (Hgrow : forall k, visitedCell visited k = true ->
                            visitedCell v' k = true).
  { intros k Hk. now rewrite Hv', Hk. }
  assert (Hseed : visitedCell v' (x, y) = true).
  { apply Hmono. rewrite Hmarked.
    assert (E : pairEqb (x, y) (x, y) = true) by now apply pairEqb_eq.
    rewrite E. apply orb_true_r. }
  assert (HcompI : cellComponent cfg diffImage grid v' I).
  { split; [exact Hs|]. split.
    { intros c Hc. destruct (Hmo c Hc) as [Hmc _]. split; [exact Hmc|].
      rewrite Hv'. apply existsb_pairEqb_iff in Hc. rewrite Hc.
      apply orb_true_r. }
    intros c d Hc Hmd Hadj. pose proof (Hcl c d Hc Hmd Hadj) as Hvd.
    rewrite Hv' in Hvd. apply orb_true_iff in Hvd.
    destruct Hvd as [Hvd|Hvd]; [|now apply existsb_pairEqb_iff in Hvd].
    exfalso. destruct (Hmo c Hc) as [Hmc Hvc].
    rewrite (Hclosed d c Hvd Hmd Hmc (adjacent_sym Hadj)) in Hvc.
    discriminate Hvc. }
  destruct Hcov as [comps [HF [Hnd [Hcomp Hc]]]].
  assert (Hold : Forall (cellComponent cfg diffImage grid v') comps).
  { eapply Forall_impl; [|exact Hcomp]. intro J.
    now apply cellComponent_grows. }
  assert (Hsmall : forall k, visitedCell visited k = true ->
             In k (concat comps)
             \/ (exists small,
                   In k small
                   /\ (length small < CellGrid.minGridsForBlob cfg)%nat
                   /\ cellComponent cfg diffImage grid v' small)).
  { intros k Hk. destruct (Hc k Hk) as [Hin|[small [H1 [H2 H3]]]];
      [now left|right]. exists small. split; [exact H1|]. split; [exact H2|].
    eapply cellComponent_grows; [exact Hgrow|exact H3]. }
  destruct (Nat.leb_spec (CellGrid.minGridsForBlob cfg) (length I))
    as [Hbig|Hlittle];
    cbn [fst snd]; (split; [|split; [exact Hgrow|intros _; exact Hseed]]).
  - exists (comps ++ [I]). split.
    { apply Forall2_app; [exact HF|]. constructor; [|constructor].
      unfold described, CellGrid.toBlob. cbv zeta.
      cbn [CellBlob.size CellBlob.avgDiff CellBlob.centerX CellBlob.centerY].
      fold I. split; [reflexivity|]. split; [now rewrite Ht|].
      split; [now rewrite Hsx|now rewrite Hsy]. }
    rewrite concat_app. cbn [concat]. rewrite app_nil_r.
    split.
    { apply NoDup_app; [exact Hnd|exact HndI|].
      intros c Hc1 Hc2. apply in_concat in Hc1.
      destruct Hc1 as [J [HJ HcJ]]. rewrite Forall_forall in Hcomp.
      destruct (Hcomp J HJ) as [_ [HmJ _]]. destruct (HmJ c HcJ) as [_ Hvc].
      destruct (Hmo c Hc2) as [_ Hvc']. congruence. }
    split.
    { apply Forall_app. split; [exact Hold|]. now constructor. }
    intros k Hk. rewrite Hv' in Hk. apply orb_true_iff in Hk.
    destruct Hk as [Hk|Hk].
    + destruct (Hsmall k Hk) as [Hin|Hs']; [left|now right].
      apply in_or_app. now left.
    + left. apply in_or_app. right. now apply existsb_pairEqb_iff.
  - exists comps. split; [exact HF|]. split; [exact Hnd|].
    split; [exact Hold|].
    intros k Hk. rewrite Hv' in Hk. apply orb_true_iff in Hk.
    destruct Hk as [Hk|Hk]; [now apply Hsmall|].
    right. exists I. split; [now apply existsb_pairEqb_iff|].
    split; [exact Hlittle|exact HcompI].
Qed.

End CellCoverage.

(** The scan flags every motion cell of the grid, and accounts for it. *)
Lemma cell_discovered_covered (cfg : CellGrid.Config) (diffImage : Image) :
  exists visited,
    cellCovered cfg diffImage (CellGrid.motionGrid cfg diffImage)
      (CellGrid.discovered cfg diffImage) visited
    /\ forall c, motionCell cfg diffImage (CellGrid.motionGrid cfg diffImage) c ->
                 visitedCell visited c = true.
Proof.
  unfold CellGrid.discovered, CellGrid.discoveredWith.
  set (gw := CellGrid.gridWidth cfg diffImage).
  set (gh := CellGrid.gridHeight cfg diffImage).
  set (grid := CellGrid.motionGrid cfg diffImage).
  set (init := (@nil CellBlob.t, repeat (repeat false gw) gh)).
  assert (E : fold_left
                (fun st y =>
                   fold_left (CellGrid.scanCell cfg diffImage (gw * gh) grid y)
                     (seq 0 gw) st) (seq 0 gh) init
              = fold_left
                  (fun st c => CellGrid.scanCell cfg diffImage (gw * gh) grid
                                 (snd c) st (fst c))
                  (coords gw gh) init).
  { unfold coords. rewrite fold_left_flat_map. apply fold_left_ext.
    intros st y. now rewrite fold_left_map. }
  rewrite E.
  destruct (@fold_left_covering _ _
              (fun st => cellScanInv cfg diffImage grid (fst st) (snd st)
                         /\ cellCovered cfg diffImage grid (fst st) (snd st))
              (fun st c => Cell.motion (CellGrid.cellAt grid (fst c) (snd c))
                           = true ->
                           visitedCell (snd st) c = true)
              (fun st c => CellGrid.scanCell cfg diffImage (gw * gh) grid
                             (snd c) st (fst c))
              (coords gw gh)) with (a := init) as [[_ Hcov] Hall].
  - intros [blobs visited] [x y] Hin [Hinv Hcov]. apply coords_spec in Hin.
    destruct Hin as [Hx Hy]. cbn [fst snd] in *.
    pose proof (@scanCell_inv cfg diffImage grid blobs visited x y Hx Hy Hinv)
      as Hinv'.
    destruct (@scanCell_covers cfg diffImage grid blobs visited x y Hx Hy
                Hinv Hcov) as [Hcov' [Hgrow Hseed]].
    cbv zeta in Hinv', Hcov', Hgrow, Hseed.
    split; [now split|]. split; [exact Hseed|].
    intros c Hc Hm. apply Hgrow. now apply Hc.
  - unfold init. cbn [fst snd].
    assert (Hsh : shaped gw gh (repeat (repeat false gw) gh)).
    { unfold shaped. split; [apply repeat_length|].
      apply Forall_forall. intros row Hrow. apply repeat_spec in Hrow.
      subst. apply repeat_length. }
    split.
    + split; [exact Hsh|]. split.
      * exists []. split; [constructor|]. split; constructor.
      * intros c d Hc. rewrite visitedCell_repeat in Hc. discriminate Hc.
    + exists []. split; [constructor|]. split; [constructor|].
      split; [constructor|].
      intros c Hc. rewrite visitedCell_repeat in Hc. discriminate Hc.
  - eexists. split; [exact Hcov|].
    intros [x y] [Hx [Hy Hm]]. cbn [fst snd] in *.
    apply (Hall (x, y)); [now apply coords_spec|exact Hm].
Qed.

(** X16.  When the cell-grid [findMotionBlobs] returns fewer than
    [MAX_BLOBS] blobs, every motion cell of the grid belongs to the
    component of a returned blob or to a 4-connected component of fewer
    than [MIN_GRIDS_FOR_BLOB] motion cells; with a minimum of at most 1,
    every motion cell belongs to the component of a returned blob. *)
Theorem X16_cell_motion_is_covered (cfg : CellGrid.Config)
    (diffImage : Image) :
  (0 < CellGrid.gridSize cfg)%nat ->
  (length (CellGrid.findMotionBlobs cfg diffImage)
   < CellGrid.maxBlobs cfg)%nat ->
  let grid := CellGrid.motionGrid cfg diffImage in
  exists comps,
    Forall2 (described cfg grid) (CellGrid.findMotionBlobs cfg diffImage)
      comps
    /\ (forall c, motionCell cfg diffImage grid c ->
          In c (concat comps)
          \/ (exists small,
                In c small
                /\ (length small < CellGrid.minGridsForBlob cfg)%nat
                /\ spreads small
                /\ (forall d, In d small -> motionCell cfg diffImage grid d)
                /\ (forall d e, In d small ->
                                motionCell cfg diffImage grid e ->
                                adjacent d e -> In e small)))
    /\ ((CellGrid.minGridsForBlob cfg <= 1)%nat ->
        forall c, motionCell cfg diffImage grid c -> In c (concat comps)).
Proof.
  intros _ Hfew grid.
  destruct (cell_discovered_covered cfg diffImage)
    as [visited [[comps [HF [_ [_ Hcov]]]] Hall]].
  fold grid in HF, Hcov, Hall.
  unfold CellGrid.findMotionBlobs, largest in *.
  rewrite length_firstn in Hfew. rewrite firstn_all2 by lia.
  destruct (Forall2_perm
              (Permutation_sym
                 (sortBySize_perm CellBlob.size
                    (CellGrid.discovered cfg diffImage))) HF)
    as [comps' [Hp HF']].
  exists comps'. split; [exact HF'|].
  assert (Hmain : forall c, motionCell cfg diffImage grid c ->
            In c (concat comps')
            \/ (exists small,
                  In c small
                  /\ (length small < CellGrid.minGridsForBlob cfg)%nat
                  /\ spreads small
                  /\ (forall d, In d small ->
                                motionCell cfg diffImage grid d)
                  /\ (forall d e, In d small ->
                                  motionCell cfg diffImage grid e ->
                                  adjacent d e -> In e small))).
  { intros c Hc. destruct (Hcov c (Hall c Hc)) as [Hin|[small [H1 [H2 H3]]]].
    - left. apply (Permutation_in c (Permutation_concat_lists Hp) Hin).
    - right. exists small. destruct H3 as [Hs [Hm Hcl]].
      split; [exact H1|]. split; [exact H2|]. split; [exact Hs|].
      split; [|exact Hcl]. intros d Hd. now destruct (Hm d Hd). }
  split; [exact Hmain|].
  intros Hmin c Hc. destruct (Hmain c Hc) as [Hin|[small [H1 [H2 _]]]];
    [exact Hin|].
  destruct small; [destruct H1|simpl in H2; lia].
Qed.

Lemma X16_cell_motion_is_covered_witness :
  exists comps,
    Forall2 (described CellGrid.sketch
               (CellGrid.motionGrid CellGrid.sketch oneBrightPixel))
      (CellGrid.findMotionBlobs CellGrid.sketch oneBrightPixel) comps
    /\ (forall c,
          motionCell CellGrid.sketch oneBrightPixel
            (CellGrid.motionGrid CellGrid.sketch oneBrightPixel) c ->
          In c (concat comps)
          \/ (exists small,
                In c small
                /\ (length small
                    < CellGrid.minGridsForBlob CellGrid.sketch)%nat
                /\ spreads small
                /\ (forall d, In d small ->
                      motionCell CellGrid.sketch oneBrightPixel
                        (CellGrid.motionGrid CellGrid.sketch oneBrightPixel)
                        d)
                /\ (forall d e, In d small ->
                      motionCell CellGrid.sketch oneBrightPixel
                        (CellGrid.motionGrid CellGrid.sketch oneBrightPixel)
                        e ->
                      adjacent d e -> In e small)))
    /\ ((CellGrid.minGridsForBlob CellGrid.sketch <= 1)%nat ->
        forall c,
          motionCell CellGrid.sketch oneBrightPixel
            (CellGrid.motionGrid CellGrid.sketch oneBrightPixel) c ->
          In c (concat comps)).
Proof.
  apply (@X16_cell_motion_is_covered CellGrid.sketch oneBrightPixel).
  - simpl. lia.
  - vm_compute. lia.
Defined.

(** * One call of [draw] *)

Lemma activeCount_quiet (cfg : Config) (m : Trails) :
  activeCount (ageTrails cfg (markInactive m)) = 0%nat.
Proof.
  unfold activeCount. induction m as [|[id t] rest IH]; [reflexivity|].
  cbn [markInactive map ageTrails positions velocity smoothedPosition speed
       active].
  destruct (length (agePositions cfg (positions t)) =? 0)%nat; [exact IH|].
  cbn [filter snd active]. exact IH.
Qed.

(** A tick leaves at most one active trail per blob. *)
Lemma activeCount_le (cfg : Config) (m m' : Trails)
    (blobs : list (Blob * Entropy)) :
  (1 <= maxTrailLength cfg)%nat -> (trailDecay cfg < 255)%Z ->
  NoDup (keys m) ->
  trackBlobs cfg blobs m = Some m' ->
  (activeCount m' <= length blobs)%nat.
Proof.
  unfold trackBlobs. intros Hlen Hd Hnd.
  destruct (forEachBlob cfg blobs (startMatching m)) as [st|] eqn:E;
    [|discriminate].
  intro H. inversion H; subst; clear H.
  destruct (@tick_active cfg Hlen blobs m st Hd Hnd E) as [_ Hiff].
  assert (Hnd' : NoDup (keys (ageTrails cfg (trails st)))).
  { apply NoDup_keys_ageTrails. eapply NoDup_keys_forEachBlob; [exact E|].
    cbn [startMatching trails]. now rewrite keys_markInactive. }
  pose proof (@length_updated cfg blobs _ _ E) as Hlu.
  cbn [startMatching updated length Nat.add] in Hlu.
  unfold activeCount.
  rewrite <- (length_map fst (filter (fun kt => active (snd kt)) _)).
  rewrite <- Hlu. apply NoDup_incl_length.
  - apply NoDup_keys_filter; exact Hnd'.
  - intros id Hin. apply in_map_iff in Hin.
    destruct Hin as [[k t] [Ek Hin]]. simpl in Ek. subst k.
    apply filter_In in Hin. destruct Hin as [Hin Hact]. simpl in Hact.
    apply (Hiff id t); [now apply In_lookup|exact Hact].
Qed.

Lemma length_zip (A : Type) (entropy : nat -> Entropy) (l : list A) :
  length (combine l (map entropy (seq 0 (length l)))) = length l.
Proof. rewrite length_combine, length_map, length_seq. lia. Qed.

(** X17.  From a trail map the program can hold, with at least one
    position per trail allowed and a decay below 255, a call of the
    pixel-grid [draw] does not raise: it keeps the current frame as the
    previous one, leaves a trail map the program can hold, and prints a
    count of at most [maxBlobs]; when the frame equals the previous one
    it only ages the trails and prints 0. *)
Theorem X17_pixel_draw (cfg : PixelGrid.Config) (tracker : Config)
    (width height : nat) (entropy : nat -> Entropy)
    (currFrame prevFrame : list Z) (m : Trails) :
  (1 <= maxTrailLength tracker)%nat -> (trailDecay tracker < 255)%Z ->
  reachable tracker m ->
  exists m',
    pixelDraw cfg tracker width height entropy currFrame (prevFrame, m)
    = Some (currFrame, m', activeCount m')
    /\ reachable tracker m'
    /\ (activeCount m' <= PixelGrid.maxBlobs cfg)%nat
    /\ (currFrame = prevFrame ->
        m' = ageTrails tracker (markInactive m) /\ activeCount m' = 0%nat).
Proof.
  intros Hlen Hd Hr. unfold pixelDraw, trackAll.
  set (blobs := map PixelBlob.tracked
                  (PixelGrid.findMotionBlobs cfg width height
                     (PixelGrid.differenceFrames cfg width height currFrame
                        prevFrame))).
  set (input := combine blobs (map entropy (seq 0 (length blobs)))).
  pose proof (reachable_Inv Hlen Hr) as HI.
  destruct (@trackBlobs_total tracker Hlen input m HI) as [m' [E _]].
  rewrite E. exists m'. split; [reflexivity|].
  split; [now apply (@reachable_tick tracker m input m')|].
  split.
  - destruct HI as [Hnd _].
    pose proof (@activeCount_le tracker m m' input Hlen Hd Hnd E) as Hle.
    unfold input in Hle. rewrite length_zip in Hle. unfold blobs in Hle.
    rewrite length_map in Hle.
    pose proof (proj1 (largest_spec PixelBlob.size (PixelGrid.maxBlobs cfg)
                         (PixelGrid.discovered cfg width height
                            (PixelGrid.differenceFrames cfg width height
                               currFrame prevFrame)))) as Hk.
    unfold PixelGrid.findMotionBlobs in Hle. lia.
  - intros ->.
    assert (Hnone : input = []).
    { unfold input, blobs, PixelGrid.findMotionBlobs, PixelGrid.discovered.
      rewrite (discoveredWith_zero cfg width height _
                 (differenceFrames_same cfg width height prevFrame)).
      rewrite largest_nil. reflexivity. }
    rewrite Hnone in E. cbn in E. inversion E; subst.
    split; [reflexivity|apply activeCount_quiet].
Qed.

(** X18.  From a trail map the program can hold, with at least one
    position per trail allowed, a call of the cell-grid [draw] does not
    raise: it keeps the current frame as the previous one and leaves a
    trail map the program can hold, with at most [MAX_BLOBS] active
    trails when the decay is below 255; when the frame has the pixels of
    the previous one and the threshold is not negative, it only ages the
    trails. *)
Theorem X18_cell_draw (cfg : CellGrid.Config) (tracker : Config)
    (entropy : nat -> Entropy) (currFrame prevFrame : Image) (m : Trails) :
  (1 <= maxTrailLength tracker)%nat ->
  reachable tracker m ->
  exists m',
    cellDraw cfg tracker entropy currFrame (prevFrame, m)
    = Some (currFrame, m')
    /\ reachable tracker m'
    /\ ((trailDecay tracker < 255)%Z ->
        (activeCount m' <= CellGrid.maxBlobs cfg)%nat)
    /\ ((0 <= CellGrid.motionThreshold cfg)%Z ->
        imagePixels currFrame = imagePixels prevFrame ->
        m' = ageTrails tracker (markInactive m) /\ activeCount m' = 0%nat).
Proof.
  intros Hlen Hr. unfold cellDraw, trackAll.
  set (diffImage := createDifferenceImage currFrame prevFrame).
  set (blobs := map CellBlob.tracked (CellGrid.findMotionBlobs cfg diffImage)).
  set (input := combine blobs (map entropy (seq 0 (length blobs)))).
  pose proof (reachable_Inv Hlen Hr) as HI.
  destruct (@trackBlobs_total tracker Hlen input m HI) as [m' [E _]].
  rewrite E. exists m'. split; [reflexivity|].
  split; [now apply (@reachable_tick tracker m input m')|].
  split.
  - intro Hd. destruct HI as [Hnd _].
    pose proof (@activeCount_le tracker m m' input Hlen Hd Hnd E) as Hle.
    unfold input in Hle. rewrite length_zip in Hle. unfold blobs in Hle.
    rewrite length_map in Hle.
    pose proof (proj1 (largest_spec CellBlob.size (CellGrid.maxBlobs cfg)
                         (CellGrid.discovered cfg diffImage))) as Hk.
    unfold CellGrid.findMotionBlobs in Hle. lia.
  - intros Hthr Hsame.
    assert (Hz : forall x y, CellGrid.alphaAt diffImage x y = 0%Z).
    { intros x y. now apply alphaAt_same. }
    assert (Hg : forall x y,
               Cell.motion
                 (CellGrid.cellAt (CellGrid.motionGrid cfg diffImage) x y)
               = false).
    { intros x y. unfold CellGrid.motionGrid.
      rewrite (accumulate_still cfg diffImage Hthr Hz).
      rewrite cellAt_normalized, cellAt_emptyGrid. reflexivity. }
    assert (Hnone : input = []).
    { unfold input, blobs, CellGrid.findMotionBlobs, CellGrid.discovered.
      rewrite (discoveredWith_still cfg diffImage _ _ Hg).
      rewrite largest_nil. reflexivity. }
    rewrite Hnone in E. cbn in E. inversion E; subst.
    split; [reflexivity|apply activeCount_quiet].
Qed.

Lemma X17_pixel_draw_witness :
  exists m',
    pixelDraw PixelGrid.sketch pixelSketch 21 10 sampleEntropy lightFrame
      (darkFrame, [])
    = Some (lightFrame, m', activeCount m')
    /\ reachable pixelSketch m'
    /\ (activeCount m' <= PixelGrid.maxBlobs PixelGrid.sketch)%nat
    /\ (lightFrame = darkFrame ->
        m' = ageTrails pixelSketch (markInactive [])
        /\ activeCount m' = 0%nat).
Proof.
  apply (@X17_pixel_draw PixelGrid.sketch pixelSketch 21 10 sampleEntropy
           lightFrame darkFrame []).
  - simpl. lia.
  - reflexivity.
  - apply reachable_start.
Defined.

Lemma X18_cell_draw_witness :
  exists m',
    cellDraw CellGrid.sketch nightShift sampleEntropy greyFrame
      (swappedFrame, afterOneTick)
    = Some (greyFrame, m')
    /\ reachable nightShift m'
    /\ ((trailDecay nightShift < 255)%Z ->
        (activeCount m' <= CellGrid.maxBlobs CellGrid.sketch)%nat)
    /\ ((0 <= CellGrid.motionThreshold CellGrid.sketch)%Z ->
        imagePixels greyFrame = imagePixels swappedFrame ->
        m' = ageTrails nightShift (markInactive afterOneTick)
        /\ activeCount m' = 0%nat).
Proof.
  apply (@X18_cell_draw CellGrid.sketch nightShift sampleEntropy greyFrame
           swappedFrame afterOneTick).
  - simpl. lia.
  - exact afterOneTick_reachable.
Defined.

(** * What the truncation drops *)

Lemma StronglySorted_app_between (A : Type) (R : A -> A -> Prop)
    (l1 l2 : list A) :
  StronglySorted R (l1 ++ l2) ->
  forall a b, In a l1 -> In b l2 -> R a b.
Proof.
  induction l1 as [|c rest IH]; intros Hs a b Ha Hb; [destruct Ha|].
  simpl in Hs. inversion Hs as [|? ? Hrest Hall]; subst.
  destruct Ha as [<-|Ha].
  - rewrite Forall_forall in Hall. apply Hall. apply in_or_app. now right.
  - now apply IH.
Qed.

(** [sort] then [slice(0, k)] splits the list into the elements kept and
    elements that are no larger than any of them. *)
Lemma largest_partition (A : Type) (size : A -> nat) (k : nat) (l : list A) :
  exists dropped,
    Permutation (largest size k l ++ dropped) l
    /\ (forall a b, In a (largest size k l) -> In b dropped ->
                    (size b <= size a)%nat)
    /\ ((length l <= k)%nat -> dropped = []).
Proof.
  exists (skipn k (sortBySize size l)). unfold largest. split.
  - rewrite firstn_skipn. apply sortBySize_perm.
  - split.
    + apply (@StronglySorted_app_between _ (fun a b => (size b <= size a)%nat)).
      rewrite firstn_skipn. apply sortBySize_sorted.
    + intro Hlen. apply skipn_all2.
      now rewrite (Permutation_length (sortBySize_perm size l)).
Qed.

(** X19.  In both sketches the blobs [findMotionBlobs] returns and the
    blobs it drops at the truncation make up the blobs pushed by the
    scan; no dropped blob is larger than a returned one, and nothing is
    dropped when the scan pushed at most [maxBlobs] blobs. *)
Theorem X19_dropped_blobs_are_smallest :
  (forall (cfg : PixelGrid.Config) (width height : nat)
          (motionPixels : list Q),
     let out := PixelGrid.findMotionBlobs cfg width height motionPixels in
     let pushed := PixelGrid.discovered cfg width height motionPixels in
     exists dropped,
       Permutation (out ++ dropped) pushed
       /\ (forall a b, In a out -> In b dropped ->
                       (PixelBlob.size b <= PixelBlob.size a)%nat)
       /\ ((length pushed <= PixelGrid.maxBlobs cfg)%nat -> dropped = []))
  /\ (forall (cfg : CellGrid.Config) (diffImage : Image),
        let out := CellGrid.findMotionBlobs cfg diffImage in
        let pushed := CellGrid.discovered cfg diffImage in
        exists dropped,
          Permutation (out ++ dropped) pushed
          /\ (forall a b, In a out -> In b dropped ->
                          (CellBlob.size b <= CellBlob.size a)%nat)
          /\ ((length pushed <= CellGrid.maxBlobs cfg)%nat -> dropped = [])).
Proof.
  split.
  - intros cfg width height motionPixels.
    apply (largest_partition PixelBlob.size (PixelGrid.maxBlobs cfg)
             (PixelGrid.discovered cfg width height motionPixels)).
  - intros cfg diffImage.
    apply (largest_partition CellBlob.size (CellGrid.maxBlobs cfg)
             (CellGrid.discovered cfg diffImage)).
Qed.

(** * The flood fills end *)

(** X20.  Every flood fill ends: a pixel or cell enters the queue at most
    once, so the fill is over after at most as many rounds as the motion
    map has entries (the grid has cells), and allowing more rounds gives
    the same blobs. *)
Theorem X20_flood_fills_end :
  (forall (cfg : PixelGrid.Config) (width height : nat)
          (motionPixels : list Q) (extra : nat),
     PixelGrid.discoveredWith cfg width height
       (length motionPixels + extra) motionPixels
     = PixelGrid.discovered cfg width height motionPixels)
  /\ (forall (cfg : CellGrid.Config) (diffImage : Image) (extra : nat),
        CellGrid.discoveredWith cfg diffImage
          (CellGrid.gridWidth cfg diffImage
           * CellGrid.gridHeight cfg diffImage + extra)
          (CellGrid.motionGrid cfg diffImage)
        = CellGrid.discovered cfg diffImage).
Proof.
  split.
  - intros cfg width height motionPixels extra.
    apply PixelGrid_discovered_fuel.
  - intros cfg diffImage extra. apply CellGrid_discovered_fuel.
Qed.

(** * How many trails a tick can add *)

Lemma length_keys (m : Trails) : length (keys m) = length m.
Proof. apply length_map. Qed.

Lemma length_ageTrails (cfg : Config) (m : Trails) :
  (length (ageTrails cfg m) <= length m)%nat.
Proof.
  induction m as [|[id t] rest IH]; [simpl; lia|].
  cbn [ageTrails].
  destruct (length (agePositions cfg (positions t)) =? 0)%nat; simpl; lia.
Qed.

Lemma forEachBlob_grows (cfg : Config) (blobs : list (Blob * Entropy)) :
  forall st st',
  forEachBlob cfg blobs st = Some st' ->
  (length (trails st') <= length (trails st) + length blobs)%nat
  /\ forall id, In id (keys (trails st')) ->
                In id (keys (trails st)) \/ In id (updated st').
Proof.
  induction blobs as [|[blob e] rest IH]; intros st st'; cbn [forEachBlob].
  - intro H. inversion H; subst. split; [simpl; lia|auto].
  - destruct (matchBlob cfg st (blob, e)) as [st1|] eqn:E; [|discriminate].
    intro H. destruct (IH _ _ H) as [Hlen Hkeys].
    pose proof (@updated_grows cfg rest st1 st' H) as Hup.
    destruct (@matchBlob_cases cfg _ _ _ _ E) as [id0 [Hu Hcase]].
    assert (H1 : (length (trails st1) <= S (length (trails st)))%nat
                 /\ forall id, In id (keys (trails st1)) ->
                      In id (keys (trails st)) \/ id = id0).
    { destruct Hcase as [[-> _]|[-> _]].
      - rewrite <- !length_keys, keys_alter. split; [lia|]. now left.
      - rewrite <- !length_keys, keys_assign.
        destruct (existsb (String.eqb id0) (keys (trails st))).
        + split; [lia|]. now left.
        + rewrite length_app. simpl. split; [lia|].
          intros id Hin. apply in_app_or in Hin.
          destruct Hin as [Hin|[<-|[]]]; [now left|now right]. }
    destruct H1 as [Hl1 Hk1]. split; [simpl; lia|].
    intros id Hin. destruct (Hkeys id Hin) as [Hin1|Hin1]; [|now right].
    destruct (Hk1 id Hin1) as [Hin0|Eid]; [now left|subst id; right].
    apply Hup. rewrite Hu. apply in_or_app. right. now left.
Qed.

(** X21.  A tick adds at most one trail per blob, and only under ids
    that [updateTrail] was called with during the tick: every other key
    of the new map was a key before. *)
Theorem X21_tick_adds_at_most_one_trail_per_blob (cfg : Config)
    (m m' : Trails) (blobs : list (Blob * Entropy)) (ids : list string) :
  trackBlobs cfg blobs m = Some m' ->
  updatedIds cfg blobs m = Some ids ->
  (length m' <= length m + length blobs)%nat
  /\ forall id, In id (keys m') -> In id (keys m) \/ In id ids.
Proof.
  unfold trackBlobs, updatedIds.
  destruct (forEachBlob cfg blobs (startMatching m)) as [st|] eqn:E;
    [|discriminate].
  intros H1 H2. inversion H1; inversion H2; subst; clear H1 H2.
  destruct (forEachBlob_grows cfg blobs _ E) as [Hlen Hkeys].
  cbn [startMatching trails] in Hlen, Hkeys.
  rewrite keys_markInactive in Hkeys.
  assert (Hm : length (markInactive m) = length m) by apply length_map.
  split.
  - pose proof (length_ageTrails cfg (trails st)). lia.
  - intros id Hin. apply Hkeys.
    unfold keys in *. apply in_map_iff in Hin.
    destruct Hin as [[k t] [Ek Hin]]. simpl in Ek. subst k.
    apply In_ageTrails in Hin. destruct Hin as [u [Hu _]].
    apply in_map_iff. now exists (id, u).
Qed.

Lemma X21_tick_adds_at_most_one_trail_per_blob_witness :
  (length afterTwoTicks <= length afterOneTick + length secondFrame)%nat
  /\ forall id, In id (keys afterTwoTicks) ->
       In id (keys afterOneTick)
       \/ In id ["blob_1745600000000_417"%string;
                 "blob_1745600000033_268"%string].
Proof.
  apply (@X21_tick_adds_at_most_one_trail_per_blob nightShift afterOneTick
           afterTwoTicks secondFrame).
  - vm_compute. reflexivity.
  - vm_compute. reflexivity.
Defined.

(** * Rendering *)

Section RenderingFacts.

Variable onCanvasX onCanvasY : Q -> Q.
Variable maxSpeedForColor : Q.

Lemma length_trailStrokes (ps : list Pos.t) :
  length (trailStrokes onCanvasX onCanvasY maxSpeedForColor ps)
  = (length ps - 1)%nat.
Proof.
  induction ps as [|pos [|nextPos rest] IH]; [reflexivity|reflexivity|].
  cbn [trailStrokes length] in *. rewrite IH. lia.
Qed.

Lemma alpha_trailStrokes (ps : list Pos.t) :
  map strokeAlpha (trailStrokes onCanvasX onCanvasY maxSpeedForColor ps)
  = removelast (map Pos.age ps).
Proof.
  induction ps as [|pos [|nextPos rest] IH]; [reflexivity|reflexivity|].
  cbn [trailStrokes map strokeAlpha removelast] in *. now rewrite IH.
Qed.

(** Each line starts where the line before it ends. *)
Lemma trailStrokes_chain (ps : list Pos.t) (d : Stroke) (k : nat) :
  let strokes := trailStrokes onCanvasX onCanvasY maxSpeedForColor ps in
  (S k < length strokes)%nat ->
  lineX2 (nth k strokes d) = lineX1 (nth (S k) strokes d)
  /\ lineY2 (nth k strokes d) = lineY1 (nth (S k) strokes d).
Proof.
  cbv zeta. revert k.
  induction ps as [|pos [|nextPos [|third rest]] IH]; intros k Hk;
    try (simpl in Hk; lia).
  destruct k as [|k].
  - cbn [trailStrokes nth lineX1 lineX2 lineY1 lineY2]. now split.
  - change (trailStrokes onCanvasX onCanvasY maxSpeedForColor
              (pos :: nextPos :: third :: rest))
      with (mkStroke (mkShade (Pos.speed pos) maxSpeedForColor) (Pos.age pos)
              (onCanvasX (Pos.x pos)) (onCanvasY (Pos.y pos))
              (onCanvasX (Pos.x nextPos)) (onCanvasY (Pos.y nextPos))
            :: trailStrokes onCanvasX onCanvasY maxSpeedForColor
                 (nextPos :: third :: rest)) in *.
    cbn [nth length] in *. apply IH. lia.
Qed.

Lemma StronglySorted_removelast (l : list Z) :
  StronglySorted Z.le l -> StronglySorted Z.le (removelast l).
Proof.
  induction 1 as [|a rest Hs IH Ha]; [constructor|].
  destruct rest as [|b rest']; [constructor|].
  change (removelast (a :: b :: rest')) with (a :: removelast (b :: rest')).
  constructor; [exact IH|].
  apply Forall_forall. intros c Hc. rewrite Forall_forall in Ha. apply Ha.
  clear - Hc. revert b Hc. induction rest' as [|e rest IH]; intros b Hc.
  - destruct Hc.
  - change (removelast (b :: e :: rest)) with (b :: removelast (e :: rest))
      in Hc.
    destruct Hc as [<-|Hc]; [now left|right; now apply IH].
Qed.

Lemma In_removelast (A : Type) (l : list A) (a : A) :
  In a (removelast l) -> In a l.
Proof.
  induction l as [|b [|c rest] IH]; [intros []|intros []|].
  change (removelast (b :: c :: rest)) with (b :: removelast (c :: rest)).
  intros [<-|H]; [now left|right; now apply IH].
Qed.

End RenderingFacts.

(** X22.  [drawTrails] draws, for every trail the program can hold, one
    line less than the trail has positions, each starting where the one
    before it ends; the alpha of a line is the age of the position it
    starts from, so with a positive decay it lies above 0 and at most at
    255 minus the decay, and never decreases from the oldest line of a
    trail to the newest. *)
Theorem X22_trail_strokes (cfg : Config) (onCanvasX onCanvasY : Q -> Q)
    (maxSpeedForColor : Q) (m : Trails) (id : string) (t : Trail) :
  (0 < trailDecay cfg)%Z -> reachable cfg m -> In (id, t) m ->
  let strokes :=
    trailStrokes onCanvasX onCanvasY maxSpeedForColor (positions t) in
  incl strokes (drawTrails onCanvasX onCanvasY maxSpeedForColor m)
  /\ length strokes = (length (positions t) - 1)%nat
  /\ map strokeAlpha strokes = removelast (map Pos.age (positions t))
  /\ StronglySorted Z.le (map strokeAlpha strokes)
  /\ Forall (fun s => (0 < strokeAlpha s <= 255 - trailDecay cfg)%Z) strokes
  /\ forall d k, (S k < length strokes)%nat ->
       lineX2 (nth k strokes d) = lineX1 (nth (S k) strokes d)
       /\ lineY2 (nth k strokes d) = lineY1 (nth (S k) strokes d).
Proof.
  intros Hd Hr Hin strokes.
  destruct (reachable_regular Hd Hr id t Hin) as [Hs Ha].
  split.
  { intros s Hs'. unfold drawTrails. apply in_flat_map.
    exists (id, t). split; [exact Hin|exact Hs']. }
  split; [apply length_trailStrokes|].
  split; [apply alpha_trailStrokes|].
  split.
  { unfold strokes. rewrite alpha_trailStrokes.
    now apply StronglySorted_removelast. }
  split.
  { apply Forall_forall. intros s Hs'.
    assert (Hal : In (strokeAlpha s) (map strokeAlpha strokes))
      by now apply in_map.
    unfold strokes in Hal. rewrite alpha_trailStrokes in Hal.
    apply In_removelast in Hal. apply in_map_iff in Hal.
    destruct Hal as [pos [<- Hpos]]. rewrite Forall_forall in Ha.
    now destruct (Ha pos Hpos). }
  intros d k Hk. now apply trailStrokes_chain.
Qed.

Lemma X22_trail_strokes_witness :
  incl (trailStrokes twice twice 50
          (positions movedTrail))
    (drawTrails twice twice 50 afterTwoTicks)
  /\ length (trailStrokes twice twice 50
               (positions movedTrail))
     = (length (positions movedTrail) - 1)%nat
  /\ map strokeAlpha
       (trailStrokes twice twice 50
          (positions movedTrail))
     = removelast (map Pos.age (positions movedTrail))
  /\ StronglySorted Z.le
       (map strokeAlpha
          (trailStrokes twice twice 50
             (positions movedTrail)))
  /\ Forall (fun s => (0 < strokeAlpha s <= 255 - trailDecay nightShift)%Z)
       (trailStrokes twice twice 50
          (positions movedTrail))
  /\ forall d k,
       (S k < length (trailStrokes twice twice 50
                        (positions movedTrail)))%nat ->
       lineX2 (nth k (trailStrokes twice twice 50
                        (positions movedTrail)) d)
       = lineX1 (nth (S k)
                   (trailStrokes twice twice 50
                      (positions movedTrail)) d)
       /\ lineY2 (nth k (trailStrokes twice twice 50
                           (positions movedTrail)) d)
          = lineY1 (nth (S k)
                      (trailStrokes twice twice 50
                         (positions movedTrail)) d).
Proof.
  apply (@X22_trail_strokes nightShift twice twice 50
           afterTwoTicks "blob_1745600000000_417"%string movedTrail).
  - reflexivity.
  - exact afterTwoTicks_reachable.
  - left. reflexivity.
Defined.

(** With every trail holding its smoothed position in its last record,
    [drawBlobs] draws one dot per active trail, at that position. *)
Lemma drawBlobs_active (onCanvasX onCanvasY : Q -> Q) (maxSpeedForColor : Q)
    (m : Trails) :
  (forall id t, In (id, t) m -> headsTrail t) ->
  drawBlobs onCanvasX onCanvasY maxSpeedForColor m
  = map (fun kt =>
           mkDot (mkShade (speed (snd kt)) maxSpeedForColor)
             (onCanvasX (Vec.x (smoothedPosition (snd kt))))
             (onCanvasY (Vec.y (smoothedPosition (snd kt)))))
      (filter (fun kt => active (snd kt)) m).
Proof.
  unfold drawBlobs. induction m as [|[id t] rest IH]; intro H; [reflexivity|].
  cbn [flat_map filter snd]. rewrite IH
    by (intros id' t' Hin; apply (H id' t'); now right).
  destruct (H id t (or_introl eq_refl)) as [pos [Hlast [Hx [Hy _]]]].
  destruct (active t); [|reflexivity].
  assert (Hlen : (0 <? length (positions t))%nat = true).
  { apply Nat.ltb_lt. destruct (positions t); [discriminate Hlast|simpl; lia]. }
  rewrite Hlen, Hlast. cbn [andb app map snd]. now rewrite Hx, Hy.
Qed.

(** X23.  After a tick from a trail map the program can hold, the
    cell-grid [drawBlobs] draws one dot for each distinct id that
    [updateTrail] was called with during the tick and no other, at the
    smoothed position of that trail, coloured by its speed. *)
Theorem X23_dots_mark_updated_trails (cfg : Config)
    (onCanvasX onCanvasY : Q -> Q) (maxSpeedForColor : Q) (m m' : Trails)
    (blobs : list (Blob * Entropy)) (ids : list string) :
  (1 <= maxTrailLength cfg)%nat -> (0 < trailDecay cfg < 255)%Z ->
  reachable cfg m ->
  trackBlobs cfg blobs m = Some m' ->
  updatedIds cfg blobs m = Some ids ->
  let dots := drawBlobs onCanvasX onCanvasY maxSpeedForColor m' in
  length dots = length (nodup string_dec ids)
  /\ forall d,
       In d dots
       <-> exists id t,
             In id ids /\ lookup id m' = Some t
             /\ d = mkDot (mkShade (speed t) maxSpeedForColor)
                      (onCanvasX (Vec.x (smoothedPosition t)))
                      (onCanvasY (Vec.y (smoothedPosition t))).
Proof.
  intros Hlen [Hd0 Hd1] Hr E Eids dots.
  assert (Hr' : reachable cfg m') by now apply (@reachable_tick cfg m blobs m').
  pose proof (reachable_Inv Hlen Hr) as [Hnd _].
  pose proof (reachable_Inv Hlen Hr') as [Hnd' _].
  pose proof (reachable_heads Hlen Hd0 Hr') as Hheads.
  unfold dots. rewrite (drawBlobs_active _ _ _ m' Hheads).
  destruct (@tick_activeCount cfg m m' blobs ids Hlen Hd1 Hnd E Eids)
    as [Hcount _].
  split; [rewrite length_map; exact Hcount|].
  assert (Hiff : forall id t, lookup id m' = Some t ->
                              (active t = true <-> In id ids)).
  { revert E Eids. unfold trackBlobs, updatedIds.
    destruct (forEachBlob cfg blobs (startMatching m)) as [st|] eqn:Est;
      [|discriminate].
    intros H1 H2. inversion H1; inversion H2; subst.
    exact (proj2 (@tick_active cfg Hlen blobs m st Hd1 Hnd Est)). }
  intro d. rewrite in_map_iff. split.
  - intros [[id t] [<- Hin]]. apply filter_In in Hin.
    destruct Hin as [Hin Hact]. cbn [snd] in *.
    exists id, t. pose proof (@In_lookup id t m' Hnd' Hin) as Hl.
    split; [now apply (Hiff id t Hl)|]. split; [exact Hl|reflexivity].
  - intros [id [t [Hid [Hl ->]]]]. exists (id, t). split; [reflexivity|].
    apply filter_In. split; [now apply lookup_In|].
    cbn [snd]. now apply (Hiff id t Hl).
Qed.

Lemma X23_dots_mark_updated_trails_witness :
  length (drawBlobs twice twice 50 afterTwoTicks)
  = length (nodup string_dec ["blob_1745600000000_417"%string;
                              "blob_1745600000033_268"%string])
  /\ forall d,
       In d (drawBlobs twice twice 50 afterTwoTicks)
       <-> exists id t,
             In id ["blob_1745600000000_417"%string;
                    "blob_1745600000033_268"%string]
             /\ lookup id afterTwoTicks = Some t
             /\ d = mkDot (mkShade (speed t) 50)
                      (twice (Vec.x (smoothedPosition t)))
                      (twice (Vec.y (smoothedPosition t))).
Proof.
  apply (@X23_dots_mark_updated_trails nightShift twice twice 50
           afterOneTick afterTwoTicks secondFrame).
  - simpl. lia.
  - split; reflexivity.
  - exact afterOneTick_reachable.
  - vm_compute. reflexivity.
  - vm_compute. reflexivity.
Defined.

(** * The grid covers the image *)

Lemma shaped_accumulate (cfg : CellGrid.Config) (diffImage : Image) :
  shaped (CellGrid.gridWidth cfg diffImage)
    (CellGrid.gridHeight cfg diffImage) (CellGrid.accumulate cfg diffImage).
Proof.
  unfold CellGrid.accumulate.
  apply (fold_left_invariant
           (shaped (CellGrid.gridWidth cfg diffImage)
              (CellGrid.gridHeight cfg diffImage)));
    [|apply shaped_emptyGrid].
  intros grid y Hg _.
  apply (fold_left_invariant
           (shaped (CellGrid.gridWidth cfg diffImage)
              (CellGrid.gridHeight cfg diffImage))); [|exact Hg].
  intros grid' x Hg' _. unfold CellGrid.addPixel.
  destruct (_ <? _)%Z; [now apply shaped_update|exact Hg'].
Qed.

(** X24.  With a positive [GRID_SIZE], the grid of the cell-grid
    [findMotionBlobs] has [gridHeight] rows of [gridWidth] cells, and the
    cell [(floor(x / GRID_SIZE), floor(y / GRID_SIZE))] addressed for a
    pixel of the image always lies inside it; the grid has no column and
    no row beyond the image. *)
Theorem X24_grid_covers_image (cfg : CellGrid.Config) (diffImage : Image) :
  (0 < CellGrid.gridSize cfg)%nat ->
  let g := CellGrid.gridSize cfg in
  let gw := CellGrid.gridWidth cfg diffImage in
  let gh := CellGrid.gridHeight cfg diffImage in
  shaped gw gh (CellGrid.motionGrid cfg diffImage)
  /\ (forall x y, (x < imageWidth diffImage)%nat ->
                  (y < imageHeight diffImage)%nat ->
                  (x / g < gw)%nat /\ (y / g < gh)%nat)
  /\ (forall gx, (gx < gw)%nat -> (gx * g < imageWidth diffImage)%nat)
  /\ (forall gy, (gy < gh)%nat -> (gy * g < imageHeight diffImage)%nat).
Proof.
  intros Hg g gw gh. split.
  { destruct (shaped_accumulate cfg diffImage) as [Hrows Hcols].
    unfold CellGrid.motionGrid, shaped. rewrite length_map.
    split; [exact Hrows|]. apply Forall_forall. intros row Hrow.
    apply in_map_iff in Hrow. destruct Hrow as [r [<- Hr]].
    rewrite length_map. rewrite Forall_forall in Hcols. now apply Hcols. }
  split.
  { intros x y Hx Hy. split; now apply cells_covers. }
  assert (Hceil : forall n k, (k < CellGrid.cells cfg n)%nat ->
                              (k * g < n)%nat).
  { intros n k Hk. unfold CellGrid.cells in Hk. fold g in Hk.
    pose proof (Nat.div_mod_eq (n + g - 1) g) as E.
    pose proof (Nat.mod_upper_bound (n + g - 1) g ltac:(lia)) as Hm.
    nia. }
  split; intros k Hk; now apply Hceil.
Qed.

Lemma X24_grid_covers_image_witness :
  shaped (CellGrid.gridWidth CellGrid.sketch oneBrightPixel)
    (CellGrid.gridHeight CellGrid.sketch oneBrightPixel)
    (CellGrid.motionGrid CellGrid.sketch oneBrightPixel)
  /\ (forall x y, (x < imageWidth oneBrightPixel)%nat ->
                  (y < imageHeight oneBrightPixel)%nat ->
                  (x / CellGrid.gridSize CellGrid.sketch
                   < CellGrid.gridWidth CellGrid.sketch oneBrightPixel)%nat
                  /\ (y / CellGrid.gridSize CellGrid.sketch
                      < CellGrid.gridHeight CellGrid.sketch
                          oneBrightPixel)%nat)
  /\ (forall gx,
        (gx < CellGrid.gridWidth CellGrid.sketch oneBrightPixel)%nat ->
        (gx * CellGrid.gridSize CellGrid.sketch
         < imageWidth oneBrightPixel)%nat)
  /\ (forall gy,
        (gy < CellGrid.gridHeight CellGrid.sketch oneBrightPixel)%nat ->
        (gy * CellGrid.gridSize CellGrid.sketch
         < imageHeight oneBrightPixel)%nat).
Proof.
  apply (@X24_grid_covers_image CellGrid.sketch oneBrightPixel).
  simpl. lia.
Defined.

(** * The intensity of a blob *)



Lemma sumQ_above (lo : Q) (l : list Q) :
  l <> [] -> Forall (fun q => lo < q) l ->
  lo * inject_Z (Z.of_nat (length l)) < sumQ l.
Proof.
  intros Hne H. induction H as [|q rest Hq Hrest IH]; [congruence|].
  cbn [sumQ fold_right length]. fold (sumQ rest).
  rewrite Nat2Z.inj_succ. unfold Z.succ. rewrite inject_Z_plus.
  change (inject_Z 1) with 1.
  set (L := inject_Z (Z.of_nat (length rest))) in *.
  setoid_replace (lo * (L + 1)) with (lo * L + lo) by ring.
  destruct rest as [|r rest'].
  - unfold L. cbn [length Z.of_nat sumQ fold_right].
    change (inject_Z 0) with 0.
    setoid_replace (lo * 0) with 0 by ring. lra.
  - assert (lo * L < sumQ (r :: rest')) by (apply IH; discriminate). lra.
Qed.

(** Every entry of the motion map of [draw] is 0 or above the
    threshold. *)
Lemma differenceFrames_entries (cfg : PixelGrid.Config) (width height : nat)
    (curr prev : list Z) (i : nat) :
  0 < nth i (PixelGrid.differenceFrames cfg width height curr prev) 0 ->
  PixelGrid.motionThreshold cfg
  < nth i (PixelGrid.differenceFrames cfg width height curr prev) 0.
Proof.
  destruct (nth_in_or_default i
              (PixelGrid.differenceFrames cfg width height curr prev) 0)
    as [Hin|E0]; [|rewrite E0; intro H; discriminate H].
  revert Hin. generalize (nth i (PixelGrid.differenceFrames cfg width height
                                   curr prev) 0).
  intros q Hq. unfold PixelGrid.differenceFrames in Hq.
  apply in_flat_map in Hq. destruct Hq as [y [_ Hq]].
  apply in_map_iff in Hq. destruct Hq as [x [<- _]].
  unfold PixelGrid.motionPixel. cbv zeta.
  destruct (Qltb _ _) eqn:E; [intros _; now apply Qltb_lt|].
  intro H. discriminate H.
Qed.

(** X25.  In the pixel-grid [draw], where the motion map comes from the
    two frames, every pixel of every blob found has a [diff] above the
    threshold, and so has the blob's [avgDiff]. *)
Theorem X25_pixel_blobs_exceed_threshold (cfg : PixelGrid.Config)
    (width height : nat) (curr prev : list Z) (b : PixelBlob.t) :
  In b (PixelGrid.findMotionBlobs cfg width height
          (PixelGrid.differenceFrames cfg width height curr prev)) ->
  Forall (fun p => PixelGrid.motionThreshold cfg < Pixel.diff p)
    (PixelBlob.pixels b)
  /\ PixelGrid.motionThreshold cfg < PixelBlob.avgDiff b.
Proof.
  intro Hb.
  set (motionPixels := PixelGrid.differenceFrames cfg width height curr prev)
    in *.
  assert (Hsize : length motionPixels = (width * height)%nat).
  { unfold motionPixels, PixelGrid.differenceFrames. apply length_rows. }
  destruct (@returned_blob cfg width height motionPixels Hsize b Hb)
    as [I [v [[Hpx [Ht [Ha _]]] [Hs [Hm _]]]]].
  cbv zeta in Ha.
  assert (Hne : I <> []).
  { intro E. apply spreads_nonempty in Hs. now rewrite E in Hs. }
  assert (Habove : Forall (fun q => PixelGrid.motionThreshold cfg < q)
                     (map (fun i => nth i motionPixels 0) I)).
  { apply Forall_forall. intros q Hq. apply in_map_iff in Hq.
    destruct Hq as [i [<- Hi]]. apply differenceFrames_entries.
    apply Qltb_lt. now destruct (Hm i Hi). }
  split.
  - rewrite Hpx. apply Forall_forall. intros p Hp.
    apply in_map_iff in Hp. destruct Hp as [i [<- Hi]].
    cbn [pixelAt Pixel.diff]. rewrite Forall_forall in Habove.
    apply Habove. apply in_map_iff. now exists i.
  - assert (Hn : 0 < inject_Z (Z.of_nat (length I))).
    { destruct I; [congruence|]. unfold Qlt, inject_Z. simpl. lia. }
    rewrite Ha, Ht. apply Qlt_shift_div_l; [exact Hn|].
    assert (Hmap : map (fun i => nth i motionPixels 0) I <> [])
      by (destruct I; [congruence|discriminate]).
    pose proof (sumQ_above Hmap Habove) as H.
    now rewrite length_map in H.
Qed.

Lemma X25_pixel_blobs_exceed_threshold_witness :
  Forall (fun p => PixelGrid.motionThreshold PixelGrid.sketch < Pixel.diff p)
    (PixelBlob.pixels
       (hd (PixelBlob.mk [] 0 0 0 0)
          (PixelGrid.findMotionBlobs PixelGrid.sketch 21 10
             (PixelGrid.differenceFrames PixelGrid.sketch 21 10 lightFrame
                darkFrame))))
  /\ PixelGrid.motionThreshold PixelGrid.sketch
     < PixelBlob.avgDiff
         (hd (PixelBlob.mk [] 0 0 0 0)
            (PixelGrid.findMotionBlobs PixelGrid.sketch 21 10
               (PixelGrid.differenceFrames PixelGrid.sketch 21 10 lightFrame
                  darkFrame))).
Proof.
  apply (@X25_pixel_blobs_exceed_threshold PixelGrid.sketch 21 10 lightFrame
           darkFrame).
  vm_compute. left. reflexivity.
Defined.


Section CellIntensity.

Variable cfg : CellGrid.Config.
Variable diffImage : Image.
Hypothesis Hgrid : (0 < CellGrid.gridSize cfg)%nat.



End CellIntensity.



